(** * A shallow embedding of the document-database storage stack

    The development follows the C++ sources component by component:
    byte-level helpers, the slotted page, the buffer pool seen through its
    pin counts, the free-space map, the BSON serializer, the heap file, the
    B+ tree, the write-ahead log, the recovery manager and the lock manager.

    Conventions.
    - A byte is a [Z] in [0, 256); a buffer is a [list Z].
    - Fixed-width integers are [Z] with the wrap-around written out
      ([u16], [i16], ...).  Multi-byte fields are host order; the host is
      taken to be little-endian.
    - A page frame always holds exactly [PAGE_SIZE] bytes. *)

From Stdlib Require Import ZArith Lia.
From stdpp Require Import base option list sorting gmap strings pretty.

Local Open Scope Z_scope.

(** ** Machine integers and raw buffers *)

Definition u8 (z : Z) : Z := z mod 256.
Definition u16 (z : Z) : Z := z mod 65536.
Definition u32 (z : Z) : Z := z mod 4294967296.
Definition u64 (z : Z) : Z := z mod 18446744073709551616.

Definition i16 (z : Z) : Z :=
  let w := u16 z in if w <? 32768 then w else w - 65536.
Definition i32 (z : Z) : Z :=
  let w := u32 z in if w <? 2147483648 then w else w - 4294967296.
Definition i64 (z : Z) : Z :=
  let w := u64 z in
  if w <? 9223372036854775808 then w else w - 18446744073709551616.

Definition PAGE_SIZE : nat := 4096.
Definition INVALID_PAGE_ID : Z := -1.

(** [peek buf off]: the byte at [off]; a read outside the buffer yields 0
    in the model (the source would read adjacent memory). *)
Definition peek (buf : list Z) (off : nat) : Z := default 0 (buf !! off).

(** [poke buf off v]: one byte written at [off]; a write outside the buffer
    lands in memory the model does not track and leaves [buf] as it is. *)
Definition poke (buf : list Z) (off : nat) (v : Z) : list Z :=
  <[off := u8 v]> buf.

(** [memcpy buf off src]: [src] copied to [buf + off], clipped to the
    buffer. *)
Definition memcpy (buf : list Z) (off : nat) (src : list Z) : list Z :=
  take off buf ++ take (length buf - off) src ++ drop (off + length src) buf.

(** [memset buf 0 n] from the start of the buffer. *)
Definition memset0 (buf : list Z) (n : nat) : list Z :=
  memcpy buf 0 (replicate n 0).

(** Little-endian images of integers, as [std::memcpy] of the object
    representation produces them. *)
Fixpoint le_bytes (n : nat) (v : Z) : list Z :=
  match n with
  | O => []
  | S k => v mod 256 :: le_bytes k (v / 256)
  end.

Fixpoint le_value (bs : list Z) : Z :=
  match bs with
  | [] => 0
  | b :: r => b + 256 * le_value r
  end.

Definition get_u16 (buf : list Z) (off : nat) : Z :=
  peek buf off + 256 * peek buf (S off).

Definition set_u16 (buf : list Z) (off : nat) (v : Z) : list Z :=
  poke (poke buf off v) (S off) (v / 256).

Definition zero_page : list Z := replicate PAGE_SIZE 0.

(** ** Record identifiers (slotted_page.h) *)

Record RecordID := mkRid { page_id : Z; slot_id : Z }.

Definition INVALID_RECORD_ID : RecordID := mkRid INVALID_PAGE_ID 0.

Global Instance RecordID_eq_dec : EqDecision RecordID.
Proof. solve_decision. Defined.

(** ** Slotted page (slotted_page.cpp)

    Layout: header [num_slots | free_space_begin | free_space_end |
    reserved], four [uint16_t]; then the slot directory, one
    [offset | length] pair of [uint16_t] per slot. *)

Module SlottedPage.

Definition HEADER_SIZE : nat := 8.
Definition SLOT_ENTRY_SIZE : nat := 4.

Definition num_slots (p : list Z) : Z := get_u16 p 0.
Definition free_space_begin (p : list Z) : Z := get_u16 p 2.
Definition free_space_end (p : list Z) : Z := get_u16 p 4.

Definition set_num_slots (p : list Z) (v : Z) := set_u16 p 0 v.
Definition set_free_space_begin (p : list Z) (v : Z) := set_u16 p 2 v.
Definition set_free_space_end (p : list Z) (v : Z) := set_u16 p 4 v.

(** [GetSlotEntry]: the address of the entry of [slot_id] (a
    [uint16_t]). *)
Definition GetSlotEntry (slot_id : Z) : nat :=
  (HEADER_SIZE + Z.to_nat (u16 slot_id) * SLOT_ENTRY_SIZE)%nat.

Definition slot_offset (p : list Z) (slot_id : Z) : Z :=
  get_u16 p (GetSlotEntry slot_id).
Definition slot_length (p : list Z) (slot_id : Z) : Z :=
  get_u16 p (GetSlotEntry slot_id + 2).

Definition Init (page_data : list Z) (page_size : Z) : list Z :=
  let p := memset0 page_data (Z.to_nat page_size) in
  let p := set_num_slots p 0 in
  let p := set_free_space_begin p (Z.of_nat HEADER_SIZE) in
  let p := set_free_space_end p (u16 page_size) in
  set_u16 p 6 0.

(** The tombstone search of [InsertRecord]: [i] runs over
    [0 .. num_slots), [fuel] counts the remaining iterations; the hit is
    stored in an [int16_t]. *)
Fixpoint find_tombstone (p : list Z) (i : Z) (fuel : nat) : Z :=
  match fuel with
  | O => -1
  | S k => if slot_length p i =? 0 then i16 i
           else find_tombstone p (i + 1) k
  end.

(** [InsertRecord page record record_len]: the returned slot (or -1) and
    the page afterwards. [record] supplies at least [record_len] bytes. *)
Definition InsertRecord (p : list Z) (record : list Z) (record_len : Z)
  : Z * list Z :=
  let target_slot := find_tombstone p 0 (Z.to_nat (num_slots p)) in
  let space_needed :=
    if target_slot =? -1 then u16 (record_len + Z.of_nat SLOT_ENTRY_SIZE)
    else record_len in
  if free_space_end p - free_space_begin p <? space_needed then (-1, p)
  else
    let p := set_free_space_end p (u16 (free_space_end p - record_len)) in
    let p := memcpy p (Z.to_nat (free_space_end p))
               (take (Z.to_nat record_len) record) in
    let '(target_slot, p) :=
      if target_slot =? -1 then
        let t := i16 (num_slots p) in
        let p := set_num_slots p (u16 (num_slots p + 1)) in
        let p := set_free_space_begin p
                   (u16 (free_space_begin p + Z.of_nat SLOT_ENTRY_SIZE)) in
        (t, p)
      else (target_slot, p) in
    let e := GetSlotEntry target_slot in
    let p := set_u16 p e (free_space_end p) in
    let p := set_u16 p (e + 2) record_len in
    (target_slot, p).

Definition DeleteRecord (p : list Z) (slot_id : Z) : bool * list Z :=
  if num_slots p <=? slot_id then (false, p)
  else if slot_length p slot_id =? 0 then (false, p)
  else
    let e := GetSlotEntry slot_id in
    let p := set_u16 p (e + 2) 0 in
    let p := set_u16 p e 0 in
    (true, p).

(** [GetRecord]: the bytes the returned pointer and length designate, or
    [None] for the null pointer. *)
Definition GetRecord (p : list Z) (slot_id : Z) : option (list Z) :=
  if num_slots p <=? slot_id then None
  else if slot_length p slot_id =? 0 then None
  else Some (take (Z.to_nat (slot_length p slot_id))
               (drop (Z.to_nat (slot_offset p slot_id)) p)).

Definition UpdateRecord (p : list Z) (slot_id : Z) (record : list Z)
    (record_len : Z) : bool * list Z :=
  if num_slots p <=? slot_id then (false, p)
  else if slot_length p slot_id =? 0 then (false, p)
  else if record_len <=? slot_length p slot_id then
    let p := memcpy p (Z.to_nat (slot_offset p slot_id))
               (take (Z.to_nat record_len) record) in
    let p := set_u16 p (GetSlotEntry slot_id + 2) record_len in
    (true, p)
  else (false, p).

Definition GetFreeSpace (p : list Z) : Z :=
  if free_space_end p <=? free_space_begin p then 0
  else free_space_end p - free_space_begin p.

Definition GetNumSlots (p : list Z) : Z := num_slots p.

Definition IsSlotOccupied (p : list Z) (slot_id : Z) : bool :=
  if num_slots p <=? slot_id then false
  else 0 <? slot_length p slot_id.

Definition fresh_page : list Z := Init zero_page 4096.

End SlottedPage.

(** *** The layout of a slotted page

    What [Init] establishes and the operations keep: the slot directory
    ends where the free space begins, the free space ends no later than
    the page, and the records of the occupied slots lie between the end of
    the free space and the end of the page. *)

Definition region (buf : list Z) (off n : nat) : list Z := take n (drop off buf).

Record page_ok (p : list Z) : Prop := mk_page_ok {
  ok_length : length p = PAGE_SIZE;
  ok_slots : 0 <= SlottedPage.num_slots p;
  ok_begin : SlottedPage.free_space_begin p = 8 + 4 * SlottedPage.num_slots p;
  ok_room : SlottedPage.free_space_begin p <= SlottedPage.free_space_end p
            ∧ SlottedPage.free_space_end p <= 4096;
  ok_records : ∀ i, 0 <= i < SlottedPage.num_slots p ->
      SlottedPage.slot_length p i ≠ 0 ->
      SlottedPage.free_space_end p <= SlottedPage.slot_offset p i
      ∧ SlottedPage.slot_offset p i + SlottedPage.slot_length p i <= 4096
}.

(** The same layout as a test that can be run on a concrete page. *)
Definition page_okb (p : list Z) : bool :=
  (length p =? PAGE_SIZE)%nat
  && (0 <=? SlottedPage.num_slots p)
  && (SlottedPage.free_space_begin p =? 8 + 4 * SlottedPage.num_slots p)
  && (SlottedPage.free_space_begin p <=? SlottedPage.free_space_end p)
  && (SlottedPage.free_space_end p <=? 4096)
  && forallb (fun i : nat =>
                (SlottedPage.slot_length p (Z.of_nat i) =? 0)
                || ((SlottedPage.free_space_end p
                     <=? SlottedPage.slot_offset p (Z.of_nat i))
                    && (SlottedPage.slot_offset p (Z.of_nat i)
                        + SlottedPage.slot_length p (Z.of_nat i) <=? 4096)))
       (seq 0 (Z.to_nat (SlottedPage.num_slots p))).

(** ** Buffer pool (buffer_pool.cpp), seen through its pin counts

    [pages] is the contents a fetch of each page observes (frame contents
    for resident pages, file contents otherwise; never-written pages read
    as zeroes).  [pins] holds the pin count of every pinned page.  A
    fetch of a page that is not pinned finds a frame exactly when fewer than
    [pool_size] pages are pinned: every pinned page occupies a frame of its
    own, and any other frame is on the free list or in the LRU list.  The
    dirty flag is not modelled: the callers below unpin with [dirty = true]
    whenever they wrote to the frame. *)

Module BufferPool.

Record BufferPoolManager := mkBPM {
  pool_size : nat;
  pages : gmap Z (list Z);
  next_page_id : Z;
  pins : gmap Z positive
}.

Definition with_pages (b : BufferPoolManager) (m : gmap Z (list Z)) :=
  mkBPM (pool_size b) m (next_page_id b) (pins b).
Definition with_pins (b : BufferPoolManager) (m : gmap Z positive) :=
  mkBPM (pool_size b) (pages b) (next_page_id b) m.

(** [GetData] of the frame holding page [p]. *)
Definition GetData (b : BufferPoolManager) (p : Z) : list Z :=
  resize PAGE_SIZE 0 (default [] (pages b !! p)).

(** The caller's writes through [page->GetData()]. *)
Definition SetData (b : BufferPoolManager) (p : Z) (d : list Z) :=
  with_pages b (<[p := d]> (pages b)).

(** [FindFreeFrame]: the free list or the LRU list yields a frame. *)
Definition FindFreeFrame (b : BufferPoolManager) : bool :=
  bool_decide (size (pins b) < pool_size b)%nat.

(** Whether [FetchPage] finds page [p] resident or a frame for it. *)
Definition fetchable (b : BufferPoolManager) (p : Z) : bool :=
  bool_decide (is_Some (pins b !! p)) || FindFreeFrame b.

(** [FetchPage]: [None] is the null pointer.  A page that is not resident
    is read from the file.  For a negative page id that read fails
    ([pread] at a negative offset) and [DiskManager::ReadPage] throws out
    of [FetchPage], the frame already mapped and pinned; this is a model of
    the fetches of the page ids from 0 on, and the statements that fetch a
    page their input names say so.  [Frames.FetchPage] below has the
    frames, the file and the exception, and implements this one for the
    page ids from 0 on ([refines]). *)
Definition FetchPage (b : BufferPoolManager) (p : Z)
  : option (list Z) * BufferPoolManager :=
  match pins b !! p with
  | Some n => (Some (GetData b p), with_pins b (<[p := Pos.succ n]> (pins b)))
  | None =>
      if FindFreeFrame b
      then (Some (GetData b p), with_pins b (<[p := 1%positive]> (pins b)))
      else (None, b)
  end.

(** [NewPage]: the fresh page id, or [None] for the null pointer. *)
Definition NewPage (b : BufferPoolManager) : option Z * BufferPoolManager :=
  if FindFreeFrame b then
    let id := next_page_id b in
    (Some id,
     mkBPM (pool_size b) (<[id := zero_page]> (pages b)) (i32 (id + 1))
           (<[id := 1%positive]> (pins b)))
  else (None, b).

Definition UnpinPage (b : BufferPoolManager) (p : Z) (is_dirty : bool)
  : BufferPoolManager :=
  match pins b !! p with
  | Some 1%positive => with_pins b (delete p (pins b))
  | Some n => with_pins b (<[p := Pos.pred n]> (pins b))
  | None => b
  end.

End BufferPool.

Import BufferPool.

(** A pool with no page pinned and at least one frame. *)
Definition idle (b : BufferPoolManager) : Prop :=
  pins b = ∅ ∧ (1 <= pool_size b)%nat.

(** ** Free-space map (free_space_map.cpp) *)

Module FreeSpaceMap.

Record FreeSpaceMap := mkFSM {
  fsm_start_page_ : Z;
  page_size_ : Z;
  entries_per_page_ : Z
}.

(** The constructor: [entries_per_page_ = page_size_]. *)
Definition make (fsm_start_page page_size : Z) : FreeSpaceMap :=
  mkFSM fsm_start_page (u16 page_size) (u16 page_size).

Definition GRANULARITY : Z := 16.

Definition BytesToCategory (free_bytes : Z) : Z :=
  let cat := u16 (free_bytes / GRANULARITY) in
  u8 (Z.min cat 255).

Definition CategoryToBytes (category : Z) : Z := u16 (category * GRANULARITY).

(** [GetFSMLocation]: C++ [/] and [%] truncate toward zero. *)
Definition GetFSMLocation (f : FreeSpaceMap) (heap_page_id : Z) : Z * Z :=
  (i32 (fsm_start_page_ f + Z.quot heap_page_id (entries_per_page_ f)),
   u16 (Z.rem heap_page_id (entries_per_page_ f))).

(** The scan loop of [FindPageWithSpace] from index [i], [fuel] iterations
    left. *)
Fixpoint scan (data : list Z) (needed_cat : Z) (i : Z) (fuel : nat) : Z :=
  match fuel with
  | O => INVALID_PAGE_ID
  | S k =>
      let c := peek data (Z.to_nat i) in
      if (needed_cat <=? c) && (0 <? c) then i
      else scan data needed_cat (i + 1) k
  end.

Definition FindPageWithSpace (f : FreeSpaceMap) (b : BufferPoolManager)
    (needed_bytes : Z) : Z * BufferPoolManager :=
  let needed_cat := BytesToCategory needed_bytes in
  match FetchPage b (fsm_start_page_ f) with
  | (None, b) => (INVALID_PAGE_ID, b)
  | (Some data, b) =>
      let r := scan data needed_cat 0 (Z.to_nat (entries_per_page_ f)) in
      (r, UnpinPage b (fsm_start_page_ f) false)
  end.

Definition UpdateFreeSpace (f : FreeSpaceMap) (b : BufferPoolManager)
    (heap_page_id free_bytes : Z) : BufferPoolManager :=
  let '(fsm_page_id, offset) := GetFSMLocation f heap_page_id in
  match FetchPage b fsm_page_id with
  | (None, b) => b
  | (Some data, b) =>
      let b := SetData b fsm_page_id
                 (poke data (Z.to_nat offset) (BytesToCategory free_bytes)) in
      UnpinPage b fsm_page_id true
  end.

Definition RegisterNewPage := UpdateFreeSpace.

End FreeSpaceMap.

(** The byte the FSM keeps for heap page [p]: the one [UpdateFreeSpace]
    writes, on the page and at the offset [GetFSMLocation] gives. *)
Definition fsm_entry (f : FreeSpaceMap.FreeSpaceMap) (b : BufferPoolManager)
    (p : Z) : Z :=
  peek (GetData b (fst (FreeSpaceMap.GetFSMLocation f p)))
       (Z.to_nat (snd (FreeSpaceMap.GetFSMLocation f p))).

(** ** Outcomes of code that can throw or leave its buffer

    [Throw] is a C++ exception; [OutOfBounds] a read past the end of the
    buffer handed to the function and [NullDeref] a use of a null page
    pointer (both undefined behaviour in the source); [NoFuel] is the model
    running out of recursion budget. *)

Inductive outcome (A : Type) : Type :=
| Ok (a : A)
| Throw (msg : string)
| OutOfBounds
| NullDeref
| NoFuel.

Arguments Ok {A} a.
Arguments Throw {A} msg.
Arguments OutOfBounds {A}.
Arguments NullDeref {A}.
Arguments NoFuel {A}.

Definition obind {A B : Type} (m : outcome A) (f : A -> outcome B)
  : outcome B :=
  match m with
  | Ok a => f a
  | Throw msg => Throw msg
  | OutOfBounds => OutOfBounds
  | NullDeref => NullDeref
  | NoFuel => NoFuel
  end.

Notation "'let*' p := m 'in' k" := (obind m (fun p => k))
  (at level 10, p pattern, m at level 100, k at level 200).

(** [n] bytes at [off], if they lie inside the buffer. *)
Definition read_bytes (data : list Z) (off : Z) (n : nat)
  : outcome (list Z) :=
  if (0 <=? off) && (off + Z.of_nat n <=? Z.of_nat (length data))
  then Ok (take n (drop (Z.to_nat off) data))
  else OutOfBounds.

Fixpoint string_bytes (s : string) : list Z :=
  match s with
  | EmptyString => []
  | String c r => Z.of_N (Ascii.N_of_ascii c) :: string_bytes r
  end.

Fixpoint bytes_string (l : list Z) : string :=
  match l with
  | [] => EmptyString
  | b :: r => String (Ascii.ascii_of_N (Z.to_N b)) (bytes_string r)
  end.

(** [std::to_string] of an integer: its decimal digits, after a minus sign
    when it is negative. *)
Definition to_string (z : Z) : string := pretty z.

(** ** Buffer pool (buffer_pool.cpp) and disk manager (disk_manager.cpp),
    frame by frame

    The frames [pages_], the page table, the free list and the LRU list
    of the replacer, over a file of whole pages.  [lru_map_] indexes
    [lru_list_] and holds exactly its members.  A call returns the frame
    index where the source returns [&pages_[frame_id]]; the caller reads
    and writes the frame through it. *)

Module Frames.

Record Page := mkPage {
  data_ : list Z;
  page_id_ : Z;
  pin_count_ : Z;
  is_dirty_ : bool
}.

(** [Page()]: zeroed memory, no page. *)
Definition blank : Page := mkPage zero_page INVALID_PAGE_ID 0 false.

(** [LRUReplacer::Pin]: the frame leaves the list. *)
Definition Pin (lru_list_ : list nat) (frame_id : nat) : list nat :=
  filter (fun f => f ≠ frame_id) lru_list_.

(** [LRUReplacer::Unpin]: a frame not in the list goes to its front. *)
Definition Unpin (lru_list_ : list nat) (frame_id : nat) : list nat :=
  if decide (frame_id ∈ lru_list_) then lru_list_ else frame_id :: lru_list_.

(** [LRUReplacer::Victim]: the back of the list. *)
Definition Victim (lru_list_ : list nat) : option nat * list nat :=
  match last lru_list_ with
  | None => (None, lru_list_)
  | Some frame_id => (Some frame_id, removelast lru_list_)
  end.

(** The file as the pages written so far; [pread] past the end of the
    file yields zeroes.  [pread] and [pwrite] fail on a negative offset
    ([None]: the source throws [std::runtime_error]); the device is taken
    not to fail otherwise, and to write whole pages. *)
Record DiskManager := mkDisk {
  file_ : gmap Z (list Z);
  next_page_id_ : Z
}.

Definition ReadPage (d : DiskManager) (page_id : Z) : option (list Z) :=
  if page_id <? 0 then None
  else Some (default zero_page (file_ d !! page_id)).

Definition WritePage (d : DiskManager) (page_id : Z) (data : list Z)
  : option DiskManager :=
  if page_id <? 0 then None
  else Some (mkDisk (<[page_id := data]> (file_ d)) (next_page_id_ d)).

(** The message of the exception; [errno] is [EINVAL], the error of
    [pread] and [pwrite] for a negative offset, and [strerror] gives the
    text of the C library (glibc). *)
Definition strerror_EINVAL : string := "Invalid argument".

Definition io_error (what : string) (page_id : Z) : string :=
  "I/O error " +:+ what +:+ " page " +:+ to_string page_id +:+ ": "
  +:+ strerror_EINVAL.

(** [next_page_id_.fetch_add(1)] on a 32-bit counter. *)
Definition AllocatePage (d : DiskManager) : Z * DiskManager :=
  (next_page_id_ d, mkDisk (file_ d) (i32 (next_page_id_ d + 1))).

Record BufferPoolManager := mkPool {
  pages_ : list Page;
  page_table_ : gmap Z nat;
  free_list_ : list nat;
  replacer_ : list nat;
  disk_manager_ : DiskManager
}.

(** The constructor: [pool_size] blank frames, all on the free list. *)
Definition make (pool_size : nat) (d : DiskManager) : BufferPoolManager :=
  mkPool (replicate pool_size blank) ∅ (seq 0 pool_size) [] d.

Definition with_pages (b : BufferPoolManager) (l : list Page) :=
  mkPool l (page_table_ b) (free_list_ b) (replacer_ b) (disk_manager_ b).
Definition with_table (b : BufferPoolManager) (t : gmap Z nat) :=
  mkPool (pages_ b) t (free_list_ b) (replacer_ b) (disk_manager_ b).
Definition with_free (b : BufferPoolManager) (l : list nat) :=
  mkPool (pages_ b) (page_table_ b) l (replacer_ b) (disk_manager_ b).
Definition with_replacer (b : BufferPoolManager) (l : list nat) :=
  mkPool (pages_ b) (page_table_ b) (free_list_ b) l (disk_manager_ b).
Definition with_disk (b : BufferPoolManager) (d : DiskManager) :=
  mkPool (pages_ b) (page_table_ b) (free_list_ b) (replacer_ b) d.

(** [pages_[frame_id]]; the frame ids the pool hands around are below
    [pool_size_]. *)
Definition frame (b : BufferPoolManager) (frame_id : nat) : Page :=
  default blank (pages_ b !! frame_id).

Definition set_frame (b : BufferPoolManager) (frame_id : nat) (page : Page) :=
  with_pages b (<[frame_id := page]> (pages_ b)).

Definition FindFreeFrame (b : BufferPoolManager)
  : option nat * BufferPoolManager :=
  match free_list_ b with
  | frame_id :: rest => (Some frame_id, with_free b rest)
  | [] =>
      let '(victim, lru) := Victim (replacer_ b) in
      (victim, with_replacer b lru)
  end.

(** The part [FetchPage] and [NewPage] share once a frame is found: the
    old contents are written back if dirty, and the frame is handed to
    [page_id], zeroed and pinned once. *)
Definition take_frame (b : BufferPoolManager) (frame_id : nat) (page_id : Z)
  : option BufferPoolManager :=
  let page := frame b frame_id in
  match (if is_dirty_ page
         then WritePage (disk_manager_ b) (page_id_ page) (data_ page)
         else Some (disk_manager_ b)) with
  | None => None
  | Some d =>
      let b := with_disk b d in
      let b := with_table b
                 (<[page_id := frame_id]>
                    (delete (page_id_ page) (page_table_ b))) in
      Some (set_frame b frame_id (mkPage zero_page page_id 1 false))
  end.

(** [FetchPage]: [Ok None] is the null pointer. *)
Definition FetchPage (b : BufferPoolManager) (page_id : Z)
  : outcome (option nat) * BufferPoolManager :=
  match page_table_ b !! page_id with
  | Some frame_id =>
      let b := with_replacer b (Pin (replacer_ b) frame_id) in
      let page := frame b frame_id in
      (Ok (Some frame_id),
       set_frame b frame_id
         (mkPage (data_ page) (page_id_ page) (pin_count_ page + 1)
                 (is_dirty_ page)))
  | None =>
      match FindFreeFrame b with
      | (None, b) => (Ok None, b)
      | (Some frame_id, b) =>
          match take_frame b frame_id page_id with
          | None =>
              (Throw (io_error "writing" (page_id_ (frame b frame_id))), b)
          | Some b =>
              match ReadPage (disk_manager_ b) page_id with
              | None => (Throw (io_error "reading" page_id), b)
              | Some data =>
                  let b := set_frame b frame_id
                             (mkPage data page_id 1 false) in
                  (Ok (Some frame_id),
                   with_replacer b (Pin (replacer_ b) frame_id))
              end
          end
      end
  end.

(** [NewPage]: the frame and the page id, or [Ok None] for the null
    pointer. *)
Definition NewPage (b : BufferPoolManager)
  : outcome (option (nat * Z)) * BufferPoolManager :=
  match FindFreeFrame b with
  | (None, b) => (Ok None, b)
  | (Some frame_id, b) =>
      let '(page_id, d) := AllocatePage (disk_manager_ b) in
      let b := with_disk b d in
      match take_frame b frame_id page_id with
      | None => (Throw (io_error "writing" (page_id_ (frame b frame_id))), b)
      | Some b =>
          (Ok (Some (frame_id, page_id)),
           with_replacer b (Pin (replacer_ b) frame_id))
      end
  end.

Definition UnpinPage (b : BufferPoolManager) (page_id : Z) (is_dirty : bool)
  : bool * BufferPoolManager :=
  match page_table_ b !! page_id with
  | None => (false, b)
  | Some frame_id =>
      let page := frame b frame_id in
      let dirty := if is_dirty then true else is_dirty_ page in
      if pin_count_ page <=? 0 then
        (false,
         set_frame b frame_id
           (mkPage (data_ page) (page_id_ page) (pin_count_ page) dirty))
      else
        let b := set_frame b frame_id
                   (mkPage (data_ page) (page_id_ page) (pin_count_ page - 1)
                           dirty) in
        (true,
         if pin_count_ page - 1 =? 0
         then with_replacer b (Unpin (replacer_ b) frame_id)
         else b)
  end.

(** What the caller does through [page->GetData()]. *)
Definition write (b : BufferPoolManager) (frame_id : nat) (data : list Z)
  : BufferPoolManager :=
  let page := frame b frame_id in
  set_frame b frame_id
    (mkPage data (page_id_ page) (pin_count_ page) (is_dirty_ page)).

(** One iteration of the loop of [FlushAllPages]. *)
Definition flush_entry (b : option BufferPoolManager) (entry : Z * nat)
  : option BufferPoolManager :=
  match b with
  | None => None
  | Some b =>
      let page := frame b entry.2 in
      if is_dirty_ page && negb (page_id_ page =? INVALID_PAGE_ID) then
        match WritePage (disk_manager_ b) (page_id_ page) (data_ page) with
        | None => None
        | Some d =>
            Some (set_frame (with_disk b d) entry.2
                    (mkPage (data_ page) (page_id_ page) (pin_count_ page)
                            false))
        end
      else Some b
  end.

(** [FlushAllPages]: [entries] is [page_table_] in the order in which the
    hash table yields its entries; [None] when a write throws. *)
Definition FlushAllPages (b : BufferPoolManager) (entries : list (Z * nat))
  : option BufferPoolManager :=
  foldl flush_entry (Some b) entries.

(** What a fetch of [page_id] would find: the frame if the page is
    resident, the file otherwise. *)
Definition observe (b : BufferPoolManager) (page_id : Z) : list Z :=
  match page_table_ b !! page_id with
  | Some frame_id => data_ (frame b frame_id)
  | None => default zero_page (file_ (disk_manager_ b) !! page_id)
  end.

(** The pin counts of the pinned pages. *)
Definition pins_of (b : BufferPoolManager) : gmap Z positive :=
  omap (fun frame_id =>
          let n := pin_count_ (frame b frame_id) in
          if 0 <? n then Some (Z.to_pos n) else None)
       (page_table_ b).

(** The state of the pool between calls. *)
Record pool_inv (b : BufferPoolManager) : Prop := mk_pool_inv {
  inv_table : ∀ p f, page_table_ b !! p = Some f ->
      (f < length (pages_ b))%nat ∧ page_id_ (frame b f) = p ∧ 0 <= p;
  inv_free : NoDup (free_list_ b)
    ∧ ∀ f, f ∈ free_list_ b ->
        (f < length (pages_ b))%nat ∧ frame b f = blank;
  inv_lru : NoDup (replacer_ b)
    ∧ ∀ f, f ∈ replacer_ b ->
        (f < length (pages_ b))%nat ∧ pin_count_ (frame b f) = 0
        ∧ page_table_ b !! page_id_ (frame b f) = Some f;
  inv_frames : ∀ f, (f < length (pages_ b))%nat ->
      length (data_ (frame b f)) = PAGE_SIZE
      ∧ 0 <= pin_count_ (frame b f) < 2147483648
      ∧ (pin_count_ (frame b f) = 0 -> f ∈ free_list_ b ∨ f ∈ replacer_ b)
      ∧ (0 < pin_count_ (frame b f) ∨ is_dirty_ (frame b f) = true ->
         page_table_ b !! page_id_ (frame b f) = Some f);
  inv_clean : ∀ p f, page_table_ b !! p = Some f ->
      is_dirty_ (frame b f) = false -> pin_count_ (frame b f) = 0 ->
      data_ (frame b f) = default zero_page (file_ (disk_manager_ b) !! p);
  inv_file : ∀ p d, file_ (disk_manager_ b) !! p = Some d ->
      length d = PAGE_SIZE ∧ 0 <= p;
  inv_count : (size (pins_of b) + length (free_list_ b)
               + length (replacer_ b) = length (pages_ b))%nat
}.

(** The file once the old contents of frame [f] are written back. *)
Definition evict_file (b : BufferPoolManager) (f : nat) : gmap Z (list Z) :=
  if is_dirty_ (frame b f)
  then <[page_id_ (frame b f) := data_ (frame b f)]> (file_ (disk_manager_ b))
  else file_ (disk_manager_ b).

(** The pool once frame [f] holds page [p] with contents [data], pinned
    once. *)
Definition installed (b b1 : BufferPoolManager) (f : nat) (p : Z)
    (next : Z) (data : list Z) : BufferPoolManager :=
  mkPool (<[f := mkPage data p 1 false]> (pages_ b))
         (<[p := f]> (delete (page_id_ (frame b f)) (page_table_ b)))
         (free_list_ b1) (Pin (replacer_ b1) f)
         (mkDisk (evict_file b f) next).

(** The pool once the resident frame [f] is overwritten by [pg], with
    replacer list [lru] and disk [d]. *)
Definition retouched (b : BufferPoolManager) (f : nat) (pg : Page)
    (lru : list nat) (d : DiskManager) : BufferPoolManager :=
  mkPool (<[f := pg]> (pages_ b)) (page_table_ b) (free_list_ b) lru d.

(** What one iteration of the loop of [FlushAllPages] leaves. *)
Definition flushed (l l' : BufferPoolManager) : Prop :=
  pool_inv l'
  ∧ page_table_ l' = page_table_ l
  ∧ length (pages_ l') = length (pages_ l)
  ∧ next_page_id_ (disk_manager_ l') = next_page_id_ (disk_manager_ l)
  ∧ pins_of l' = pins_of l
  ∧ (∀ p, observe l' p = observe l p)
  ∧ (∀ f, data_ (frame l' f) = data_ (frame l f))
  ∧ (∀ f, is_dirty_ (frame l' f) = true -> is_dirty_ (frame l f) = true).

(** A frame taken from the free list or from the replacer. *)
Definition in_hand (b b1 : BufferPoolManager) (f : nat) : Prop :=
  pages_ b1 = pages_ b ∧ page_table_ b1 = page_table_ b
  ∧ disk_manager_ b1 = disk_manager_ b
  ∧ (f < length (pages_ b))%nat
  ∧ pin_count_ (frame b f) = 0
  ∧ (f ∉ free_list_ b1) ∧ (f ∉ replacer_ b1)
  ∧ NoDup (free_list_ b1) ∧ NoDup (replacer_ b1)
  ∧ (∀ x, x ∈ free_list_ b1 ↔ x ∈ free_list_ b ∧ x ≠ f)
  ∧ (∀ x, x ∈ replacer_ b1 ↔ x ∈ replacer_ b ∧ x ≠ f)
  ∧ S (length (free_list_ b1) + length (replacer_ b1))
    = (length (free_list_ b) + length (replacer_ b))%nat.

End Frames.

(** The frames are an implementation of the pool seen through its pin
    counts: same pool size and page counter, same pin counts, and every
    page reads the same. *)
Record refines (l : Frames.BufferPoolManager) (a : BufferPoolManager)
  : Prop := mk_refines {
  ref_size : pool_size a = length (Frames.pages_ l);
  ref_next : next_page_id a = Frames.next_page_id_ (Frames.disk_manager_ l);
  ref_pins : pins a = Frames.pins_of l;
  ref_data : ∀ p, GetData a p = Frames.observe l p
}.

(** ** BSON values and the serializer (bson_types.h, serializer.cpp) *)

#[local] Set Warnings "-register-all".

Module Bson.

(** The alternatives of the [BsonValue] variant.  A [double] is carried as
    its 64-bit pattern; a nested document is the pointee of the
    [shared_ptr]. *)
Inductive BsonValue : Type :=
| BDouble (bits : Z)
| BString (s : string)
| BDocument (elements : list (string * BsonValue))
| BBool (b : bool)
| BInt32 (v : Z)
| BInt64 (v : Z)
| BNull.

(** [std::map<std::string, BsonValue>], as its entries in iteration (key)
    order. *)
Definition BsonDocument : Type := list (string * BsonValue).

(** [doc.Add(key, value)]: [elements[key] = value]. *)
Fixpoint Add (doc : BsonDocument) (key : string) (value : BsonValue)
  : BsonDocument :=
  match doc with
  | [] => [(key, value)]
  | (k, x) :: r =>
      if String.eqb key k then (k, value) :: r
      else if String.ltb key k then (key, value) :: (k, x) :: r
      else (k, x) :: Add r key value
  end.

Definition AppendInt32 (buffer : list Z) (value : Z) : list Z :=
  buffer ++ le_bytes 4 value.
Definition AppendInt64 (buffer : list Z) (value : Z) : list Z :=
  buffer ++ le_bytes 8 value.
Definition AppendDouble (buffer : list Z) (bits : Z) : list Z :=
  buffer ++ le_bytes 8 bits.
Definition AppendCString (buffer : list Z) (value : string) : list Z :=
  buffer ++ string_bytes value ++ [0].
Definition AppendString (buffer : list Z) (value : string) : list Z :=
  AppendCString
    (AppendInt32 buffer (i32 (Z.of_nat (String.length value) + 1))) value.

(** The closing steps of [Serialize]: the terminator, then the total size
    copied over the four placeholder bytes. *)
Definition seal (buffer : list Z) : list Z :=
  let buffer := buffer ++ [0] in
  let total_size := i32 (Z.of_nat (length buffer)) in
  memcpy buffer 0 (le_bytes 4 total_size).

(** One iteration of the loop of [Serialize].  No branch matches the
    [std::nullptr_t] alternative, so such a field leaves the buffer as it
    is. *)
Fixpoint serialize_field (buffer : list Z) (key : string) (value : BsonValue)
  {struct value} : list Z :=
  match value with
  | BDouble bits => AppendDouble (AppendCString (buffer ++ [1]) key) bits
  | BString s => AppendString (AppendCString (buffer ++ [2]) key) s
  | BInt32 v => AppendInt32 (AppendCString (buffer ++ [16]) key) v
  | BInt64 v => AppendInt64 (AppendCString (buffer ++ [18]) key) v
  | BBool b =>
      AppendCString (buffer ++ [8]) key ++ [if b then 1 else 0]
  | BDocument elements =>
      let sub_doc :=
        seal ((fix fields (buf : list Z) (l : list (string * BsonValue)) :=
                 match l with
                 | [] => buf
                 | (k, v) :: r => fields (serialize_field buf k v) r
                 end) (AppendInt32 [] 0) elements) in
      AppendCString (buffer ++ [3]) key ++ sub_doc
  | BNull => buffer
  end.

Definition Serialize (doc : BsonDocument) : list Z :=
  seal (fold_left (fun buf kv => serialize_field buf (fst kv) (snd kv))
          doc (AppendInt32 [] 0)).

Definition ReadInt32 (data : list Z) (offset : Z) : outcome (Z * Z) :=
  let* bs := read_bytes data offset 4 in
  Ok (i32 (le_value bs), u64 (offset + 4)).

Definition ReadInt64 (data : list Z) (offset : Z) : outcome (Z * Z) :=
  let* bs := read_bytes data offset 8 in
  Ok (i64 (le_value bs), u64 (offset + 8)).

Definition ReadDouble (data : list Z) (offset : Z) : outcome (Z * Z) :=
  let* bs := read_bytes data offset 8 in
  Ok (le_value bs, u64 (offset + 8)).

(** [strlen] from [off]: the bytes up to the first NUL inside the buffer. *)
Fixpoint strlen_from (rest : list Z) : outcome (list Z) :=
  match rest with
  | [] => OutOfBounds
  | b :: r => if b =? 0 then Ok []
              else let* s := strlen_from r in Ok (b :: s)
  end.

Definition ReadCString (data : list Z) (offset : Z) : outcome (string * Z) :=
  if Z.of_nat (length data) <=? offset then OutOfBounds
  else
    let* s := strlen_from (drop (Z.to_nat offset) data) in
    Ok (bytes_string s, u64 (offset + Z.of_nat (length s) + 1)).

(** [ReadString]: a length below 1 makes the [std::string] constructor
    throw [std::length_error]. *)
Definition ReadString (data : list Z) (offset : Z) : outcome (string * Z) :=
  let* (len, offset) := ReadInt32 data offset in
  if len <? 1 then Throw "basic_string::_M_create"
  else
    let* bs := read_bytes data offset (Z.to_nat (len - 1)) in
    Ok (bytes_string bs, u64 (offset + len)).

(** The prologue of [Deserialize(data, size)] followed by its loop
    [loop data doc_size doc offset]. *)
Definition Deserialize_with
    (loop : list Z -> Z -> BsonDocument -> Z -> outcome BsonDocument)
    (data : list Z) (size : Z) : outcome BsonDocument :=
  let* (doc_size, offset) := ReadInt32 data 0 in
  if size <? u64 doc_size then Throw "Corrupted BSON: Size mismatch"
  else loop data doc_size [] offset.

(** The [while] loop of [Deserialize]; every iteration and every nested
    document spends one unit of [fuel]. *)
Fixpoint deserialize_loop (fuel : nat) (data : list Z) (doc_size : Z)
    (doc : BsonDocument) (offset : Z) : outcome BsonDocument :=
  if offset <? u64 (u64 doc_size - 1) then
    match fuel with
    | O => NoFuel
    | S k =>
        let* tb := read_bytes data offset 1 in
        let type_byte := hd 0 tb in
        let offset := u64 (offset + 1) in
        if type_byte =? 0 then Ok doc
        else
          let* (key, offset) := ReadCString data offset in
          if type_byte =? 16 then
            let* (v, offset) := ReadInt32 data offset in
            deserialize_loop k data doc_size (Add doc key (BInt32 v)) offset
          else if type_byte =? 18 then
            let* (v, offset) := ReadInt64 data offset in
            deserialize_loop k data doc_size (Add doc key (BInt64 v)) offset
          else if type_byte =? 1 then
            let* (v, offset) := ReadDouble data offset in
            deserialize_loop k data doc_size (Add doc key (BDouble v)) offset
          else if type_byte =? 2 then
            let* (v, offset) := ReadString data offset in
            deserialize_loop k data doc_size (Add doc key (BString v)) offset
          else if type_byte =? 8 then
            let* b := read_bytes data offset 1 in
            deserialize_loop k data doc_size
              (Add doc key (BBool (hd 0 b =? 1))) (u64 (offset + 1))
          else if type_byte =? 3 then
            let* (sub_len, _) := ReadInt32 data offset in
            let* sub := Deserialize_with (deserialize_loop k)
                       (drop (Z.to_nat offset) data) (u64 sub_len) in
            deserialize_loop k data doc_size (Add doc key (BDocument sub))
              (u64 (offset + sub_len))
          else Throw ("Unknown BSON Type: " +:+ to_string type_byte)
    end
  else Ok doc.

Definition Deserialize (fuel : nat) (data : list Z) (size : Z)
  : outcome BsonDocument :=
  Deserialize_with (deserialize_loop fuel) data size.

(** [Deserialize(const std::vector<uint8_t>&)]. *)
Definition DeserializeVec (fuel : nat) (data : list Z) : outcome BsonDocument :=
  Deserialize fuel data (Z.of_nat (length data)).

End Bson.

(** *** Documents the serializer writes in full

    A key is written as a C string, so it must not hold a NUL byte; a
    string value is written with a 32-bit length; [std::map] keeps the keys
    in strictly increasing order; a null value is not written at all. *)

Definition key_ok (k : string) : bool :=
  forallb (fun b => negb (b =? 0)) (string_bytes k).

Fixpoint keys_increasing (l : list string) : bool :=
  match l with
  | [] => true
  | k1 :: r =>
      match r with
      | [] => true
      | k2 :: _ => String.ltb k1 k2
      end && keys_increasing r
  end.

Fixpoint value_ok (v : Bson.BsonValue) : bool :=
  match v with
  | Bson.BDouble bits => (0 <=? bits) && (bits <? 18446744073709551616)
  | Bson.BString s => Z.of_nat (String.length s) + 1 <? 2147483648
  | Bson.BDocument elements =>
      keys_increasing (fst <$> elements)
      && (fix all (l : list (string * Bson.BsonValue)) : bool :=
            match l with
            | [] => true
            | (k, x) :: r => key_ok k && value_ok x && all r
            end) elements
  | Bson.BBool _ => true
  | Bson.BInt32 v => (-2147483648 <=? v) && (v <? 2147483648)
  | Bson.BInt64 v =>
      (-9223372036854775808 <=? v) && (v <? 9223372036854775808)
  | Bson.BNull => false
  end.

Definition doc_ok (doc : Bson.BsonDocument) : bool :=
  value_ok (Bson.BDocument doc).

(** The bytes one field adds to the buffer, and those of all fields. *)
Definition field_bytes (kv : string * Bson.BsonValue) : list Z :=
  Bson.serialize_field [] (fst kv) (snd kv).

Definition doc_fields (doc : Bson.BsonDocument) : list Z :=
  mjoin (field_bytes <$> doc).

(** ** Heap file (heap_file.cpp) *)

Module HeapFile.

Import FreeSpaceMap.

Record HeapFile := mkHeap {
  fsm_ : FreeSpaceMap;
  first_page_id_ : Z;
  max_page_id_ : Z
}.

Definition with_max (h : HeapFile) (m : Z) : HeapFile :=
  mkHeap (fsm_ h) (first_page_id_ h) m.

(** Every operation returns its result together with the buffer pool and
    the heap-file object as it leaves them, also when it throws. *)
Definition AllocateNewPage (b : BufferPoolManager) (h : HeapFile)
  : outcome Z * BufferPoolManager * HeapFile :=
  match NewPage b with
  | (None, b) => (Throw "HeapFile: Failed to allocate new page", b, h)
  | (Some new_page_id, b) =>
      let b := SetData b new_page_id
                 (SlottedPage.Init (GetData b new_page_id) 4096) in
      let free_space := SlottedPage.GetFreeSpace (GetData b new_page_id) in
      let b := RegisterNewPage (fsm_ h) b new_page_id free_space in
      let b := UnpinPage b new_page_id true in
      let h := if max_page_id_ h <? new_page_id
               then with_max h new_page_id else h in
      (Ok new_page_id, b, h)
  end.

(** The tail of [InsertRecord] after a slotted insert succeeded on
    [target_page]. *)
Definition finish_insert (b : BufferPoolManager) (h : HeapFile)
    (target_page slot_id : Z) : outcome RecordID * BufferPoolManager * HeapFile :=
  let remaining := SlottedPage.GetFreeSpace (GetData b target_page) in
  let b := UpdateFreeSpace (fsm_ h) b target_page remaining in
  let b := UnpinPage b target_page true in
  (Ok (mkRid target_page (u16 slot_id)), b, h).

(** The stale-FSM branch of [InsertRecord]: the first page had no room. *)
Definition retry_insert (b : BufferPoolManager) (h : HeapFile)
    (data : list Z) (record_len : Z)
  : outcome RecordID * BufferPoolManager * HeapFile :=
  match AllocateNewPage b h with
  | (Ok target_page, b, h) =>
      match FetchPage b target_page with
      | (None, b) => (Throw "HeapFile: Failed to fetch new page", b, h)
      | (Some page, b) =>
          let '(slot_id, page) :=
            SlottedPage.InsertRecord page data record_len in
          let b := SetData b target_page page in
          if slot_id =? -1 then
            let b := UnpinPage b target_page false in
            (Throw "HeapFile: Record too large for a single page", b, h)
          else finish_insert b h target_page slot_id
      end
  | (Throw msg, b, h) => (Throw msg, b, h)
  | (OutOfBounds, b, h) => (OutOfBounds, b, h)
  | (NullDeref, b, h) => (NullDeref, b, h)
  | (NoFuel, b, h) => (NoFuel, b, h)
  end.

(** [InsertRecord] once the document is serialized. *)
Definition insert_bytes (b : BufferPoolManager) (h : HeapFile)
    (data : list Z) : outcome RecordID * BufferPoolManager * HeapFile :=
  let record_len := u16 (Z.of_nat (length data)) in
  let total_needed := u16 (record_len + Z.of_nat SlottedPage.SLOT_ENTRY_SIZE) in
  let '(target_page, b) := FindPageWithSpace (fsm_ h) b total_needed in
  let '(target, b, h) :=
    if target_page =? INVALID_PAGE_ID then AllocateNewPage b h
    else (Ok target_page, b, h) in
  match target with
  | Ok target_page =>
      match FetchPage b target_page with
      | (None, b) =>
          (Throw ("HeapFile: Failed to fetch page " +:+ to_string target_page),
           b, h)
      | (Some page, b) =>
          let '(slot_id, page) :=
            SlottedPage.InsertRecord page data record_len in
          let b := SetData b target_page page in
          if slot_id =? -1 then
            let b := UnpinPage b target_page false in
            retry_insert b h data record_len
          else finish_insert b h target_page slot_id
      end
  | Throw msg => (Throw msg, b, h)
  | OutOfBounds => (OutOfBounds, b, h)
  | NullDeref => (NullDeref, b, h)
  | NoFuel => (NoFuel, b, h)
  end.

Definition InsertRecord (b : BufferPoolManager) (h : HeapFile)
    (doc : Bson.BsonDocument)
  : outcome RecordID * BufferPoolManager * HeapFile :=
  insert_bytes b h (Bson.Serialize doc).

Definition DeleteRecord (b : BufferPoolManager) (h : HeapFile)
    (rid : RecordID) : bool * BufferPoolManager :=
  match FetchPage b (page_id rid) with
  | (None, b) => (false, b)
  | (Some page, b) =>
      let '(ok, page) := SlottedPage.DeleteRecord page (slot_id rid) in
      let b := SetData b (page_id rid) page in
      let b :=
        if ok then
          let remaining := SlottedPage.GetFreeSpace (GetData b (page_id rid)) in
          UpdateFreeSpace (fsm_ h) b (page_id rid) remaining
        else b in
      (ok, UnpinPage b (page_id rid) ok)
  end.

(** [GetRecord].  The page is unpinned before the "not found" exception
    and after [Deserialize] has returned; an exception of [Deserialize]
    leaves [GetRecord] with the page still pinned.  [Deserialize] is handed
    the [len] bytes of the record. *)
Definition GetRecord (fuel : nat) (b : BufferPoolManager) (rid : RecordID)
  : outcome Bson.BsonDocument * BufferPoolManager :=
  match FetchPage b (page_id rid) with
  | (None, b) =>
      (Throw ("HeapFile: Failed to fetch page " +:+ to_string (page_id rid)),
       b)
  | (Some page, b) =>
      match SlottedPage.GetRecord page (slot_id rid) with
      | None =>
          (Throw ("HeapFile: Record not found at "
                  +:+ to_string (page_id rid) +:+ ":"
                  +:+ to_string (slot_id rid)),
           UnpinPage b (page_id rid) false)
      | Some data =>
          let doc := Bson.Deserialize fuel data (Z.of_nat (length data)) in
          (doc,
           match doc with
           | Ok _ => UnpinPage b (page_id rid) false
           | _ => b
           end)
      end
  end.

Definition UpdateRecord (b : BufferPoolManager) (h : HeapFile)
    (rid : RecordID) (doc : Bson.BsonDocument)
  : outcome RecordID * BufferPoolManager * HeapFile :=
  let data := Bson.Serialize doc in
  let record_len := u16 (Z.of_nat (length data)) in
  match FetchPage b (page_id rid) with
  | (None, b) => (Throw "HeapFile: Failed to fetch page for update", b, h)
  | (Some page, b) =>
      let '(ok, page) :=
        SlottedPage.UpdateRecord page (slot_id rid) data record_len in
      let b := SetData b (page_id rid) page in
      if ok then (Ok rid, UnpinPage b (page_id rid) true, h)
      else
        let b := UnpinPage b (page_id rid) false in
        let '(_, b) := DeleteRecord b h rid in
        InsertRecord b h doc
  end.

End HeapFile.

(** What a successful [InsertRecord] leaves: the record in its slot of a
    well-formed page and, where the pool has a second frame, the category
    of the free space of the page in its FSM entry. *)
Definition stored (f : FreeSpaceMap.FreeSpaceMap) (size : nat) (data : list Z)
    (rid : RecordID) (b' : BufferPoolManager) : Prop :=
  page_ok (GetData b' (page_id rid))
  ∧ SlottedPage.GetRecord (GetData b' (page_id rid)) (slot_id rid) = Some data
  ∧ ((2 <= size)%nat ->
     (Z.to_nat (snd (FreeSpaceMap.GetFSMLocation f (page_id rid))) < PAGE_SIZE)%nat ->
     fsm_entry f b' (page_id rid)
     = FreeSpaceMap.BytesToCategory (SlottedPage.GetFreeSpace (GetData b' (page_id rid)))).

(** ** B+ tree (bptree.cpp)

    One node per page.  Header: [is_leaf (1) | num_keys (2) | next_leaf (4)].
    Leaf entries: [key_len (2) | key | page_id (4) | slot_id (2)].
    Internal payload: [child0 (4)] then [key_len (2) | key | child (4)]. *)

Module BPlusTree.

Definition BTREE_NODE_HEADER_SIZE : nat := 7.

Record BTreeNodeHeader := mkHeader {
  is_leaf : Z;
  num_keys : Z;
  next_leaf : Z
}.

Record BPlusTree := mkTree {
  root_page_id_ : Z;
  max_keys_ : Z
}.

Record InsertResult := mkInsertResult {
  did_split : bool;
  split_key : string;
  new_page_id : Z
}.

(** [n] bytes starting at [off]; bytes past the buffer read as 0. *)
Definition peek_n (data : list Z) (off n : nat) : list Z :=
  resize n 0 (drop off data).

Definition header_bytes (h : BTreeNodeHeader) : list Z :=
  [u8 (is_leaf h)] ++ le_bytes 2 (num_keys h) ++ le_bytes 4 (next_leaf h).

Definition WriteNodeHeader (page_data : list Z) (h : BTreeNodeHeader)
  : list Z :=
  memcpy page_data 0 (header_bytes h).

Definition ReadNodeHeader (page_data : list Z) : BTreeNodeHeader :=
  mkHeader (peek page_data 0)
           (le_value (peek_n page_data 1 2))
           (i32 (le_value (peek_n page_data 3 4))).

(** The loop of [ReadLeafNode] from byte [offset], [n] entries to go. *)
Fixpoint read_leaf_entries (page_data : list Z) (offset n : nat)
  : list string * list RecordID :=
  match n with
  | O => ([], [])
  | S k =>
      let key_len := Z.to_nat (le_value (peek_n page_data offset 2)) in
      let offset := (offset + 2)%nat in
      let key := bytes_string (peek_n page_data offset key_len) in
      let offset := (offset + key_len)%nat in
      let pid := i32 (le_value (peek_n page_data offset 4)) in
      let offset := (offset + 4)%nat in
      let sid := le_value (peek_n page_data offset 2) in
      let offset := (offset + 2)%nat in
      let '(keys, rids) := read_leaf_entries page_data offset k in
      (key :: keys, mkRid pid sid :: rids)
  end.

Definition ReadLeafNode (page_data : list Z) : list string * list RecordID :=
  read_leaf_entries page_data BTREE_NODE_HEADER_SIZE
    (Z.to_nat (num_keys (ReadNodeHeader page_data))).

Definition key_bytes (key : string) : list Z :=
  let key_len := u16 (Z.of_nat (String.length key)) in
  le_bytes 2 key_len ++ take (Z.to_nat key_len) (string_bytes key).

Definition leaf_entry_bytes (key : string) (rid : RecordID) : list Z :=
  key_bytes key ++ le_bytes 4 (page_id rid) ++ le_bytes 2 (slot_id rid).

(** The loop of [WriteLeafNode]: it runs over [keys] and indexes [rids]. *)
Fixpoint leaf_payload (keys : list string) (rids : list RecordID) : list Z :=
  match keys with
  | [] => []
  | key :: keys' =>
      leaf_entry_bytes key (hd INVALID_RECORD_ID rids)
        ++ leaf_payload keys' (tl rids)
  end.

Definition WriteLeafNode (page_data : list Z) (keys : list string)
    (rids : list RecordID) (next : Z) : list Z :=
  let h := mkHeader 1 (u16 (Z.of_nat (length keys))) next in
  memcpy (WriteNodeHeader page_data h) BTREE_NODE_HEADER_SIZE
    (leaf_payload keys rids).

(** The loop of [ReadInternalNode] after the first child. *)
Fixpoint read_internal_entries (page_data : list Z) (offset n : nat)
  : list string * list Z :=
  match n with
  | O => ([], [])
  | S k =>
      let key_len := Z.to_nat (le_value (peek_n page_data offset 2)) in
      let offset := (offset + 2)%nat in
      let key := bytes_string (peek_n page_data offset key_len) in
      let offset := (offset + key_len)%nat in
      let child := i32 (le_value (peek_n page_data offset 4)) in
      let offset := (offset + 4)%nat in
      let '(keys, children) := read_internal_entries page_data offset k in
      (key :: keys, child :: children)
  end.

Definition ReadInternalNode (page_data : list Z) : list string * list Z :=
  let child0 := i32 (le_value (peek_n page_data BTREE_NODE_HEADER_SIZE 4)) in
  let '(keys, children) :=
    read_internal_entries page_data (BTREE_NODE_HEADER_SIZE + 4)
      (Z.to_nat (num_keys (ReadNodeHeader page_data))) in
  (keys, child0 :: children).

(** The loop of [WriteInternalNode]: key [i] is followed by child
    [i + 1]. *)
Fixpoint internal_payload (keys : list string) (children : list Z) : list Z :=
  match keys with
  | [] => []
  | key :: keys' =>
      key_bytes key ++ le_bytes 4 (hd 0 children)
        ++ internal_payload keys' (tl children)
  end.

Definition WriteInternalNode (page_data : list Z) (keys : list string)
    (children : list Z) : list Z :=
  let h := mkHeader 0 (u16 (Z.of_nat (length keys))) INVALID_PAGE_ID in
  memcpy (WriteNodeHeader page_data h) BTREE_NODE_HEADER_SIZE
    (le_bytes 4 (hd 0 children) ++ internal_payload keys (tl children)).

(** The child selection shared by [FindLeaf] and [InsertInternal]:
    [while (idx < keys.size() && key >= keys[idx]) idx++]. *)
Fixpoint child_index (keys : list string) (key : string) : nat :=
  match keys with
  | [] => O
  | k :: keys' => if String.ltb key k then O else S (child_index keys' key)
  end.

(** [std::lower_bound(keys.begin(), keys.end(), key)] on a vector kept in
    key order: the first position whose key is not less than [key]. *)
Fixpoint lower_bound (keys : list string) (key : string) : nat :=
  match keys with
  | [] => O
  | k :: keys' => if String.ltb k key then S (lower_bound keys' key) else O
  end.

(** [while (it != keys.end() && *it == key) { ++it; ++pos; }] from
    position [pos]. *)
Fixpoint skip_equal (rest : list string) (key : string) (pos : nat) : nat :=
  match rest with
  | [] => pos
  | k :: rest' => if String.eqb k key then skip_equal rest' key (S pos) else pos
  end.

Definition insert_pos (keys : list string) (key : string) : nat :=
  let pos := lower_bound keys key in
  skip_equal (drop pos keys) key pos.

(** [v.insert(v.begin() + pos, x)]. *)
Definition vec_insert {A : Type} (v : list A) (pos : nat) (x : A) : list A :=
  take pos v ++ x :: drop pos v.

Definition no_split : InsertResult := mkInsertResult false "" INVALID_PAGE_ID.

(** The leaf branch of [InsertInternal]: [page] is the pinned frame of
    [node_page_id]. *)
Definition insert_into_leaf (t : BPlusTree) (b : BufferPoolManager)
    (node_page_id : Z) (page : list Z) (key : string) (rid : RecordID)
  : outcome InsertResult * BufferPoolManager :=
  let header := ReadNodeHeader page in
  let '(keys, rids) := ReadLeafNode page in
  let pos := insert_pos keys key in
  let keys := vec_insert keys pos key in
  let rids := vec_insert rids pos rid in
  if Z.of_nat (length keys) <=? max_keys_ t then
    let page := WriteLeafNode (memset0 page 4096) keys rids (next_leaf header) in
    let b := SetData b node_page_id page in
    (Ok no_split, UnpinPage b node_page_id true)
  else
    let mid := (length keys / 2)%nat in
    let left_keys := take mid keys in
    let left_rids := take mid rids in
    let right_keys := drop mid keys in
    let right_rids := drop mid rids in
    match NewPage b with
    | (None, b) => (Throw "BPlusTree: Failed to allocate new leaf page", b)
    | (Some new_id, b) =>
        let new_page :=
          WriteLeafNode (memset0 (GetData b new_id) 4096)
            right_keys right_rids (next_leaf header) in
        let b := SetData b new_id new_page in
        let b := UnpinPage b new_id true in
        let page := WriteLeafNode (memset0 page 4096)
                      left_keys left_rids new_id in
        let b := SetData b node_page_id page in
        let b := UnpinPage b node_page_id true in
        (Ok (mkInsertResult true (hd EmptyString right_keys) new_id), b)
    end.

(** The part of the internal branch of [InsertInternal] that follows a
    split of child [idx]. *)
Definition insert_into_internal (t : BPlusTree) (b : BufferPoolManager)
    (node_page_id : Z) (keys : list string) (children : list Z) (idx : nat)
    (child_result : InsertResult)
  : outcome InsertResult * BufferPoolManager :=
  let keys := vec_insert keys idx (split_key child_result) in
  let children := vec_insert children (S idx) (new_page_id child_result) in
  if Z.of_nat (length keys) <=? max_keys_ t then
    match FetchPage b node_page_id with
    | (None, b) => (NullDeref, b)
    | (Some p, b) =>
        let p := WriteInternalNode (memset0 p 4096) keys children in
        let b := SetData b node_page_id p in
        (Ok no_split, UnpinPage b node_page_id true)
    end
  else
    let mid := (length keys / 2)%nat in
    let push_up_key := default EmptyString (keys !! mid) in
    let left_keys := take mid keys in
    let left_children := take (S mid) children in
    let right_keys := drop (S mid) keys in
    let right_children := drop (S mid) children in
    match NewPage b with
    | (None, b) => (Throw "BPlusTree: Failed to allocate new internal page", b)
    | (Some new_id, b) =>
        let new_page :=
          WriteInternalNode (memset0 (GetData b new_id) 4096)
            right_keys right_children in
        let b := SetData b new_id new_page in
        let b := UnpinPage b new_id true in
        match FetchPage b node_page_id with
        | (None, b) => (NullDeref, b)
        | (Some p, b) =>
            let p := WriteInternalNode (memset0 p 4096)
                       left_keys left_children in
            let b := SetData b node_page_id p in
            (Ok (mkInsertResult true push_up_key new_id),
             UnpinPage b node_page_id true)
        end
    end.

(** [InsertInternal]; [fuel] bounds the depth of the descent. *)
Fixpoint InsertInternal (fuel : nat) (t : BPlusTree) (b : BufferPoolManager)
    (node_page_id : Z) (key : string) (rid : RecordID)
  : outcome InsertResult * BufferPoolManager :=
  match fuel with
  | O => (NoFuel, b)
  | S fuel' =>
      match FetchPage b node_page_id with
      | (None, b) => (Throw "BPlusTree: Failed to fetch page", b)
      | (Some page, b) =>
          if is_leaf (ReadNodeHeader page) =? 0 then
            let '(keys, children) := ReadInternalNode page in
            let b := UnpinPage b node_page_id false in
            let idx := child_index keys key in
            match InsertInternal fuel' t b
                    (default 0 (children !! idx)) key rid with
            | (Ok child_result, b) =>
                if did_split child_result
                then insert_into_internal t b node_page_id keys children idx
                       child_result
                else (Ok no_split, b)
            | (o, b) => (o, b)
            end
          else insert_into_leaf t b node_page_id page key rid
      end
  end.

Definition Insert (fuel : nat) (t : BPlusTree) (b : BufferPoolManager)
    (key : string) (rid : RecordID)
  : outcome unit * BufferPoolManager * BPlusTree :=
  match InsertInternal fuel t b (root_page_id_ t) key rid with
  | (Ok result, b) =>
      if did_split result then
        match NewPage b with
        | (None, b) =>
            (Throw "BPlusTree: Failed to allocate new root page", b, t)
        | (Some new_root_id, b) =>
            let p := WriteInternalNode (memset0 (GetData b new_root_id) 4096)
                       [split_key result]
                       [root_page_id_ t; new_page_id result] in
            let b := SetData b new_root_id p in
            let b := UnpinPage b new_root_id true in
            (Ok tt, b, mkTree new_root_id (max_keys_ t))
        end
      else (Ok tt, b, t)
  | (Throw msg, b) => (Throw msg, b, t)
  | (OutOfBounds, b) => (OutOfBounds, b, t)
  | (NullDeref, b) => (NullDeref, b, t)
  | (NoFuel, b) => (NoFuel, b, t)
  end.

(** [FindLeaf]: [None] when the model runs out of fuel. *)
Fixpoint FindLeaf (fuel : nat) (b : BufferPoolManager) (current : Z)
    (key : string) : option Z * BufferPoolManager :=
  match fuel with
  | O => (None, b)
  | S fuel' =>
      match FetchPage b current with
      | (None, b) => (Some INVALID_PAGE_ID, b)
      | (Some page, b) =>
          if is_leaf (ReadNodeHeader page) =? 0 then
            let '(keys, children) := ReadInternalNode page in
            let b := UnpinPage b current false in
            FindLeaf fuel' b (default 0 (children !! child_index keys key)) key
          else (Some current, UnpinPage b current false)
      end
  end.

(** The [for] loop of [RangeScan] over one leaf: the matches, and whether
    a key above [hi_key] ended the scan. *)
Fixpoint scan_leaf (keys : list string) (rids : list RecordID)
    (lo_key hi_key : string) : list (string * RecordID) * bool :=
  match keys with
  | [] => ([], false)
  | k :: keys' =>
      let hit := String.leb lo_key k && String.leb k hi_key in
      let here := if hit then [(k, hd INVALID_RECORD_ID rids)] else [] in
      if String.ltb hi_key k then (here, true)
      else
        let '(more, stop) := scan_leaf keys' (tl rids) lo_key hi_key in
        (here ++ more, stop)
  end.

(** The [while] loop of [RangeScan] along the leaf chain. *)
Fixpoint scan_chain (fuel : nat) (b : BufferPoolManager) (leaf_page : Z)
    (lo_key hi_key : string) (results : list (string * RecordID))
  : option (list (string * RecordID)) * BufferPoolManager :=
  if leaf_page =? INVALID_PAGE_ID then (Some results, b)
  else
    match fuel with
    | O => (None, b)
    | S fuel' =>
        match FetchPage b leaf_page with
        | (None, b) => (Some results, b)
        | (Some page, b) =>
            let header := ReadNodeHeader page in
            let '(keys, rids) := ReadLeafNode page in
            let b := UnpinPage b leaf_page false in
            let '(found, stop) := scan_leaf keys rids lo_key hi_key in
            if stop then (Some (results ++ found), b)
            else scan_chain fuel' b (next_leaf header) lo_key hi_key
                   (results ++ found)
        end
    end.

Definition RangeScan (fuel : nat) (t : BPlusTree) (b : BufferPoolManager)
    (lo_key hi_key : string)
  : option (list (string * RecordID)) * BufferPoolManager :=
  match FindLeaf fuel b (root_page_id_ t) lo_key with
  | (None, b) => (None, b)
  | (Some leaf_page, b) => scan_chain fuel b leaf_page lo_key hi_key []
  end.

(** The root [Catalog::CreateIndex] prepares: an empty leaf with
    [next_leaf = -1]. *)
Definition empty_leaf : list Z :=
  memcpy (poke zero_page 0 1) 3 (le_bytes 4 INVALID_PAGE_ID).

(** What [WriteLeafNode] can lay out in one page and [ReadLeafNode] read
    back: key lengths and the key count fit a [uint16_t], record ids fit
    their fields, and header and entries fit the page. *)
Definition key_in_range (key : string) : Prop :=
  Z.of_nat (String.length key) < 65536.

Definition rid_in_range (rid : RecordID) : Prop :=
  -2147483648 <= page_id rid < 2147483648 ∧ 0 <= slot_id rid < 65536.

Definition leaf_fits (keys : list string) (rids : list RecordID) : Prop :=
  Forall key_in_range keys
  ∧ Forall rid_in_range rids
  ∧ (BTREE_NODE_HEADER_SIZE + length (leaf_payload keys rids) <= PAGE_SIZE)%nat.

(** The loop [for (i = 0; i < keys.size(); ++i) if (keys[i] == key)] of
    [Search] and [Delete]: the first index at which [key] stands, counted
    from [i]. *)
Fixpoint find_key (keys : list string) (key : string) (i : nat) : option nat :=
  match keys with
  | [] => None
  | k :: keys' =>
      if String.eqb k key then Some i else find_key keys' key (S i)
  end.

(** [v.erase(v.begin() + i)]. *)
Definition vec_erase {A : Type} (v : list A) (i : nat) : list A :=
  take i v ++ drop (S i) v.

(** The tail of [Search] once the leaf is read: [ReadLeafNode] fills
    [rids] to the length of [keys], so [rids[i]] is in range. *)
Definition search_leaf (keys : list string) (rids : list RecordID)
    (key : string) : RecordID :=
  match find_key keys key O with
  | Some i => default INVALID_RECORD_ID (rids !! i)
  | None => INVALID_RECORD_ID
  end.

(** [Search]; [None] when the descent of [FindLeaf] runs out of fuel. *)
Definition Search (fuel : nat) (t : BPlusTree) (b : BufferPoolManager)
    (key : string) : option RecordID * BufferPoolManager :=
  match FindLeaf fuel b (root_page_id_ t) key with
  | (None, b) => (None, b)
  | (Some leaf_page, b) =>
      if leaf_page =? INVALID_PAGE_ID then (Some INVALID_RECORD_ID, b)
      else
        match FetchPage b leaf_page with
        | (None, b) => (Some INVALID_RECORD_ID, b)
        | (Some page, b) =>
            let '(keys, rids) := ReadLeafNode page in
            let b := UnpinPage b leaf_page false in
            (Some (search_leaf keys rids key), b)
        end
  end.

(** [Delete]: the first entry with the key is erased from its leaf; no
    node is merged or freed. *)
Definition Delete (fuel : nat) (t : BPlusTree) (b : BufferPoolManager)
    (key : string) : option bool * BufferPoolManager :=
  match FindLeaf fuel b (root_page_id_ t) key with
  | (None, b) => (None, b)
  | (Some leaf_page, b) =>
      if leaf_page =? INVALID_PAGE_ID then (Some false, b)
      else
        match FetchPage b leaf_page with
        | (None, b) => (Some false, b)
        | (Some page, b) =>
            let header := ReadNodeHeader page in
            let '(keys, rids) := ReadLeafNode page in
            match find_key keys key O with
            | Some i =>
                let page :=
                  WriteLeafNode (memset0 page 4096) (vec_erase keys i)
                    (vec_erase rids i) (next_leaf header) in
                let b := SetData b leaf_page page in
                (Some true, UnpinPage b leaf_page true)
            | None => (Some false, UnpinPage b leaf_page false)
            end
        end
  end.

(** Key order as [std::string] compares: [a <= b] when [b < a] fails. *)
Definition key_le (a b : string) : Prop := String.ltb b a = false.

Definition keys_sorted (keys : list string) : Prop := StronglySorted key_le keys.

(** The child [FindLeaf] and [InsertInternal] descend to from an internal
    page. *)
Definition child_for (page : list Z) (key : string) : Z :=
  default 0 ((ReadInternalNode page).2
             !! child_index (ReadInternalNode page).1 key).

(** The page a leaf is rewritten to. *)
Definition leaf_image (keys : list string) (rids : list RecordID) (next : Z)
  : list Z :=
  WriteLeafNode zero_page keys rids next.

End BPlusTree.

(** ** Write-ahead log (wal.cpp) *)

Module WAL.

(** [LogRecordType], an enumeration over [uint8_t]; [OTHER] is a byte
    outside the six enumerators, as a cast from a log byte can produce. *)
Inductive LogRecordType : Type :=
| BEGIN | COMMIT | ABORT | INSERT | DELETE | UPDATE | OTHER (code : Z).

Global Instance LogRecordType_eq_dec : EqDecision LogRecordType.
Proof. solve_decision. Defined.

Definition type_code (t : LogRecordType) : Z :=
  match t with
  | BEGIN => 0 | COMMIT => 1 | ABORT => 2
  | INSERT => 3 | DELETE => 4 | UPDATE => 5
  | OTHER c => c
  end.

Definition type_of_code (c : Z) : LogRecordType :=
  if c =? 0 then BEGIN else if c =? 1 then COMMIT
  else if c =? 2 then ABORT else if c =? 3 then INSERT
  else if c =? 4 then DELETE else if c =? 5 then UPDATE
  else OTHER c.

Record LogRecord := mkLog {
  lsn : Z;
  txn_id : Z;
  prev_lsn : Z;
  type : LogRecordType;
  page_id : Z;
  slot_id : Z;
  before_image : list Z;
  after_image : list Z
}.

Definition Serialize (r : LogRecord) : list Z :=
  let buf := le_bytes 4 0 in
  let buf := buf ++ le_bytes 8 (lsn r) in
  let buf := buf ++ le_bytes 8 (txn_id r) in
  let buf := buf ++ le_bytes 8 (prev_lsn r) in
  let buf := buf ++ [u8 (type_code (type r))] in
  let buf := buf ++ le_bytes 4 (page_id r) in
  let buf := buf ++ le_bytes 2 (slot_id r) in
  let before_len := u32 (Z.of_nat (length (before_image r))) in
  let buf := buf ++ le_bytes 4 before_len ++ before_image r in
  let after_len := u32 (Z.of_nat (length (after_image r))) in
  let buf := buf ++ le_bytes 4 after_len ++ after_image r in
  let total_size := u32 (Z.of_nat (length buf)) in
  memcpy buf 0 (le_bytes 4 total_size).

(** [LogRecord::Deserialize(data, size, offset)]: the record and the
    advanced offset.  [data] is the whole in-memory log buffer; only the
    first read is guarded by a comparison with [size]. *)
Definition Deserialize (data : list Z) (size : Z) (offset : Z)
  : outcome (LogRecord * Z) :=
  if size <? offset + 4 then Throw "WAL: Truncated log record (size)"
  else
    let* total_size := read_bytes data offset 4 in
    let offset := offset + 4 in
    let* b_lsn := read_bytes data offset 8 in
    let offset := offset + 8 in
    let* b_txn := read_bytes data offset 8 in
    let offset := offset + 8 in
    let* b_prev := read_bytes data offset 8 in
    let offset := offset + 8 in
    let* b_type := read_bytes data offset 1 in
    let offset := offset + 1 in
    let* b_page := read_bytes data offset 4 in
    let offset := offset + 4 in
    let* b_slot := read_bytes data offset 2 in
    let offset := offset + 2 in
    let* b_blen := read_bytes data offset 4 in
    let offset := offset + 4 in
    let before_len := le_value b_blen in
    let* before := read_bytes data offset (Z.to_nat before_len) in
    let offset := offset + before_len in
    let* b_alen := read_bytes data offset 4 in
    let offset := offset + 4 in
    let after_len := le_value b_alen in
    let* after := read_bytes data offset (Z.to_nat after_len) in
    let offset := offset + after_len in
    Ok (mkLog (i64 (le_value b_lsn)) (i64 (le_value b_txn))
          (i64 (le_value b_prev)) (type_of_code (le_value b_type))
          (i32 (le_value b_page)) (le_value b_slot) before after,
        offset).

(** The loop of [ReadAllRecords] over the bytes of the log file; an
    exception from [Deserialize] ends it. *)
Fixpoint read_loop (fuel : nat) (data : list Z) (offset : Z)
    (records : list LogRecord) : outcome (list LogRecord) :=
  if offset <? Z.of_nat (length data) then
    match fuel with
    | O => NoFuel
    | S k =>
        match Deserialize data (Z.of_nat (length data)) offset with
        | Ok (r, offset) => read_loop k data offset (records ++ [r])
        | Throw _ => Ok records
        | OutOfBounds => OutOfBounds
        | NullDeref => NullDeref
        | NoFuel => NoFuel
        end
    end
  else Ok records.

(** [ReadAllRecords] on a log file holding [file]: every decoded record
    takes at least 43 bytes, so [length file] iterations suffice. *)
Definition ReadAllRecords (file : list Z) : outcome (list LogRecord) :=
  read_loop (length file) file 0 [].

End WAL.

(** *** Well-formed log records *)

Definition type_ok (t : WAL.LogRecordType) : bool :=
  match t with
  | WAL.OTHER c => (6 <=? c) && (c <? 256)
  | _ => true
  end.

(** A log record whose fields hold values of their C++ types. *)
Definition record_ok (r : WAL.LogRecord) : bool :=
  (-9223372036854775808 <=? WAL.lsn r) && (WAL.lsn r <? 9223372036854775808)
  && (-9223372036854775808 <=? WAL.txn_id r)
  && (WAL.txn_id r <? 9223372036854775808)
  && (-9223372036854775808 <=? WAL.prev_lsn r)
  && (WAL.prev_lsn r <? 9223372036854775808)
  && type_ok (WAL.type r)
  && (-2147483648 <=? WAL.page_id r) && (WAL.page_id r <? 2147483648)
  && (0 <=? WAL.slot_id r) && (WAL.slot_id r <? 65536)
  && (Z.of_nat (length (WAL.before_image r)) <? 4294967296)
  && (Z.of_nat (length (WAL.after_image r)) <? 4294967296).

(** ** The log object (wal.cpp): LSN counter, per-transaction chain,
    buffer and file *)

Module Log.

Definition INVALID_LSN : Z := -1.

(** [log_file_] holds the bytes written to the log file so far; the file
    is opened for appending. *)
Record WAL := mkWAL {
  next_lsn_ : Z;
  txn_prev_lsn_ : gmap Z Z;
  buffer_ : list Z;
  log_file_ : list Z
}.

(** The constructor, on a log file holding [file]. *)
Definition open (file : list Z) : WAL := mkWAL 0 ∅ [] file.

Definition GetCurrentLSN (w : WAL) : Z := next_lsn_ w.

Definition GetPrevLSN (w : WAL) (txn : Z) : Z :=
  default INVALID_LSN (txn_prev_lsn_ w !! txn).

(** [AppendLogRecord(record)]: the assigned LSN, the record as the call
    leaves it (it is passed by reference) and the log afterwards. *)
Definition AppendLogRecord (w : WAL) (record : WAL.LogRecord)
  : Z * WAL.LogRecord * WAL :=
  let lsn := next_lsn_ w in
  let next := i64 (lsn + 1) in
  let record :=
    WAL.mkLog lsn (WAL.txn_id record) (GetPrevLSN w (WAL.txn_id record))
      (WAL.type record) (WAL.page_id record) (WAL.slot_id record)
      (WAL.before_image record) (WAL.after_image record) in
  let prev := <[WAL.txn_id record := lsn]> (txn_prev_lsn_ w) in
  let buffer := buffer_ w ++ WAL.Serialize record in
  if decide (WAL.type record = WAL.COMMIT)
  then (lsn, record, mkWAL next prev [] (log_file_ w ++ buffer))
  else (lsn, record, mkWAL next prev buffer (log_file_ w)).

Definition Flush (w : WAL) : WAL :=
  match buffer_ w with
  | [] => w
  | _ => mkWAL (next_lsn_ w) (txn_prev_lsn_ w) [] (log_file_ w ++ buffer_ w)
  end.

(** [ReadAllRecords] reads the log file, not the buffer. *)
Definition ReadAllRecords (w : WAL) : outcome (list WAL.LogRecord) :=
  WAL.ReadAllRecords (log_file_ w).

(** A sequence of [AppendLogRecord] calls: the records as stamped, and
    the log afterwards. *)
Fixpoint append_all (w : WAL) (records : list WAL.LogRecord)
  : list WAL.LogRecord * WAL :=
  match records with
  | [] => ([], w)
  | r :: rest =>
      let '(_, r', w) := AppendLogRecord w r in
      let '(rs, w) := append_all w rest in
      (r' :: rs, w)
  end.

End Log.

(** What a caller of [AppendLogRecord] fills in: everything but the two
    LSN fields. *)
Definition payload_ok (r : WAL.LogRecord) : bool :=
  record_ok (WAL.mkLog 0 (WAL.txn_id r) (-1) (WAL.type r) (WAL.page_id r)
               (WAL.slot_id r) (WAL.before_image r) (WAL.after_image r)).

(** The LSN of the last record of [txn] in [rs], if any. *)
Definition last_lsn_of (txn : Z) (rs : list WAL.LogRecord) : Z :=
  default Log.INVALID_LSN
    (WAL.lsn <$> last (List.filter (fun r => WAL.txn_id r =? txn) rs)).

(** The chain map of the log agrees with the records appended so far. *)
Definition chain_ok (w : Log.WAL) (done : list WAL.LogRecord) : Prop :=
  ∀ txn, Log.GetPrevLSN w txn = last_lsn_of txn done.

Definition is_commit (r : WAL.LogRecord) : bool :=
  bool_decide (WAL.type r = WAL.COMMIT).

(** ** Recovery manager (recovery_manager.cpp) *)

Module Recovery.

Import WAL.

Definition is_data_op (t : LogRecordType) : bool :=
  match t with
  | INSERT | DELETE | UPDATE => true
  | _ => false
  end.

(** One iteration of the loop of [AnalysisPhase]. *)
Definition analysis_step (st : gset Z * gmap Z Z) (record : LogRecord)
  : gset Z * gmap Z Z :=
  let '(active_txns, dirty_pages) := st in
  match type record with
  | BEGIN => ({[txn_id record]} ∪ active_txns, dirty_pages)
  | COMMIT | ABORT => (active_txns ∖ {[txn_id record]}, dirty_pages)
  | INSERT | DELETE | UPDATE =>
      let active_txns := {[txn_id record]} ∪ active_txns in
      if page_id record =? INVALID_PAGE_ID then (active_txns, dirty_pages)
      else
        match dirty_pages !! page_id record with
        | Some _ => (active_txns, dirty_pages)
        | None => (active_txns, <[page_id record := lsn record]> dirty_pages)
        end
  | OTHER _ => (active_txns, dirty_pages)
  end.

Definition AnalysisPhase (records : list LogRecord) : gset Z * gmap Z Z :=
  fold_left analysis_step records (∅, ∅).

(** The slotted-page call by which [RedoPhase] re-applies [record] to the
    fetched page; the flag tells whether [redo_count] was incremented. *)
Definition redo_apply (page : list Z) (record : LogRecord) : list Z * bool :=
  match type record with
  | INSERT =>
      if bool_decide (after_image record = []) then (page, false)
      else
        (snd (SlottedPage.InsertRecord page (after_image record)
                (u16 (Z.of_nat (length (after_image record))))), true)
  | DELETE => (snd (SlottedPage.DeleteRecord page (slot_id record)), true)
  | UPDATE =>
      if bool_decide (after_image record = []) then (page, false)
      else
        (snd (SlottedPage.UpdateRecord page (slot_id record)
                (after_image record)
                (u16 (Z.of_nat (length (after_image record))))), true)
  | _ => (page, false)
  end.

(** One iteration of the loop of [RedoPhase].  [redone] lists the records
    for which [redo_count] was incremented, in order: the counter of the
    source is its length. *)
Definition redo_step (dirty_pages : gmap Z Z)
    (st : BufferPoolManager * list LogRecord) (record : LogRecord)
  : BufferPoolManager * list LogRecord :=
  let '(b, redone) := st in
  if negb (is_data_op (type record)) then st
  else if page_id record =? INVALID_PAGE_ID then st
  else
    match dirty_pages !! page_id record with
    | None => st
    | Some rec_lsn =>
        if lsn record <? rec_lsn then st
        else
          match FetchPage b (page_id record) with
          | (None, b) => (b, redone)
          | (Some page, b) =>
              let '(page, counted) := redo_apply page record in
              let b := SetData b (page_id record) page in
              (UnpinPage b (page_id record) true,
               if counted then redone ++ [record] else redone)
          end
    end.

Definition RedoPhase (records : list LogRecord) (dirty_pages : gmap Z Z)
    (b : BufferPoolManager) : BufferPoolManager * list LogRecord :=
  fold_left (redo_step dirty_pages) records (b, []).

Definition undo_apply (page : list Z) (record : LogRecord) : list Z :=
  match type record with
  | INSERT => snd (SlottedPage.DeleteRecord page (slot_id record))
  | DELETE =>
      if bool_decide (before_image record = []) then page
      else snd (SlottedPage.InsertRecord page (before_image record)
                  (u16 (Z.of_nat (length (before_image record)))))
  | UPDATE =>
      if bool_decide (before_image record = []) then page
      else snd (SlottedPage.UpdateRecord page (slot_id record)
                  (before_image record)
                  (u16 (Z.of_nat (length (before_image record)))))
  | _ => page
  end.

Definition undo_step (active_txns : gset Z) (b : BufferPoolManager)
    (record : LogRecord) : BufferPoolManager :=
  if negb (bool_decide (txn_id record ∈ active_txns)) then b
  else if page_id record =? INVALID_PAGE_ID then b
  else
    match FetchPage b (page_id record) with
    | (None, b) => b
    | (Some page, b) =>
        let b := SetData b (page_id record) (undo_apply page record) in
        UnpinPage b (page_id record) true
    end.

Definition UndoPhase (records : list LogRecord) (active_txns : gset Z)
    (b : BufferPoolManager) : BufferPoolManager :=
  if bool_decide (active_txns = ∅) then b
  else fold_left (undo_step active_txns) (rev records) b.

(** [Recover] after [ReadAllRecords] returned [records]; the second
    component is the redo trace. *)
Definition Recover (records : list LogRecord) (b : BufferPoolManager)
  : BufferPoolManager * list LogRecord :=
  match records with
  | [] => (b, [])
  | _ =>
      let '(active_txns, dirty_pages) := AnalysisPhase records in
      let '(b, redone) := RedoPhase records dirty_pages b in
      (UndoPhase records active_txns b, redone)
  end.


(** The guard on the images in [RedoPhase]: an INSERT or UPDATE is
    re-applied only with a non-empty after-image. *)
Definition has_redo_payload (r : LogRecord) : bool :=
  match type r with
  | DELETE => true
  | _ => negb (bool_decide (after_image r = []))
  end.

End Recovery.

(** *** Transactions the analysis leaves active *)

Definition opens_txn (r : WAL.LogRecord) : bool :=
  match WAL.type r with
  | WAL.BEGIN | WAL.INSERT | WAL.DELETE | WAL.UPDATE => true
  | _ => false
  end.

Definition closes_txn (r : WAL.LogRecord) : bool :=
  match WAL.type r with
  | WAL.COMMIT | WAL.ABORT => true
  | _ => false
  end.

(** Whether the last BEGIN, COMMIT, ABORT, INSERT, DELETE or UPDATE record
    of [txn] in the log is other than a COMMIT or ABORT. *)
Definition is_active (records : list WAL.LogRecord) (txn : Z) : bool :=
  match List.find (fun r => (WAL.txn_id r =? txn)
                            && (opens_txn r || closes_txn r)) (rev records) with
  | Some r => opens_txn r
  | None => false
  end.



(** What a step of recovery may change: the contents of the page it
    names.  Pin counts, pool size and page counter stay. *)
Definition same_but (p : Z) (b b' : BufferPoolManager) : Prop :=
  pins b' = pins b ∧ pool_size b' = pool_size b
  ∧ next_page_id b' = next_page_id b
  ∧ ∀ q, q ≠ p -> GetData b' q = GetData b q.

(** ** Lock manager (lock_manager.cpp)

    Every public function runs under the manager latch and gives it up only
    inside [cv.wait].  A call is therefore one atomic step up to its first
    wait (or its return), and one atomic step per wake-up afterwards.  The
    nodes of each [std::list<LockRequest>] live in [nodes_], addressed by
    node identity; a queue is the sequence of its node identities, and the
    iterator a waiting call keeps is the identity of its node. *)

Module LockManager.

Inductive LockMode : Type := SHARED | EXCLUSIVE.

Global Instance LockMode_eq_dec : EqDecision LockMode.
Proof. solve_decision. Defined.

Record LockRequest := mkReq {
  txn_id : Z;
  mode : LockMode;
  granted : bool
}.

Definition LockKey : Type := Z * Z.

Definition MakeKey (rid : RecordID) : LockKey := (page_id rid, slot_id rid).

(** A node of a [std::list<LockRequest>]: its identity and its request. *)
Definition Node : Type := nat * LockRequest.

(** What a call blocked in [cv.wait] is waiting to do. *)
Inductive WaitKind : Type := WShared | WExclusive | WUpgrade.

(** A blocked call: its arguments, and the list iterator [it] it holds. *)
Record Waiter := mkWaiter {
  w_txn : Z;
  w_key : LockKey;
  w_kind : WaitKind;
  w_node : nat
}.

Global Instance WaitKind_eq_dec : EqDecision WaitKind.
Proof. solve_decision. Defined.
Global Instance Waiter_eq_dec : EqDecision Waiter.
Proof. solve_decision. Defined.

Record LockManager := mkLM {
  lock_table_ : gmap LockKey (list Node);
  txn_locks_ : gmap Z (gset LockKey);
  next_node_ : nat;
  blocked_ : list Waiter
}.

Definition empty : LockManager := mkLM ∅ ∅ O [].

Definition queue_of (lm : LockManager) (key : LockKey) : list Node :=
  default [] (lock_table_ lm !! key).

(** The requests of a queue, in queue order. *)
Definition requests (q : list Node) : list LockRequest := snd <$> q.

(** [CanGrantLock(queue, mode)]. *)
Fixpoint CanGrantLock (queue : list LockRequest) (m : LockMode) : bool :=
  match queue with
  | [] => true
  | req :: rest =>
      if negb (granted req) then CanGrantLock rest m
      else
        match m with
        | EXCLUSIVE => false
        | SHARED =>
            match mode req with
            | EXCLUSIVE => false
            | SHARED => CanGrantLock rest m
            end
        end
  end.

(** The loop [for req : queue: if (req.txn_id != txn_id && req.granted)]
    of [LockExclusive] and [LockUpgrade]. *)
Fixpoint others_hold (queue : list LockRequest) (txn : Z) : bool :=
  match queue with
  | [] => false
  | req :: rest =>
      if negb (txn_id req =? txn) && granted req then true
      else others_hold rest txn
  end.

Definition holds (queue : list LockRequest) (txn : Z) : bool :=
  existsb (fun req => (txn_id req =? txn) && granted req) queue.

Definition holds_exclusive (queue : list LockRequest) (txn : Z) : bool :=
  existsb (fun req => (txn_id req =? txn) && granted req
                      && bool_decide (mode req = EXCLUSIVE)) queue.

(** A write through the iterator [it] into its node. *)
Definition update_node (it : nat) (f : LockRequest -> LockRequest)
    (q : list Node) : list Node :=
  (fun e : Node => if decide (e.1 = it) then (e.1, f e.2) else e) <$> q.

Definition set_granted (r : LockRequest) : LockRequest :=
  mkReq (txn_id r) (mode r) true.

Definition set_mode_exclusive (r : LockRequest) : LockRequest :=
  mkReq (txn_id r) EXCLUSIVE (granted r).

(** [it->granted = true; txn_locks_[txn_id].insert(key)]. *)
Definition grant (lm : LockManager) (txn : Z) (key : LockKey) (it : nat)
  : LockManager :=
  mkLM (alter (update_node it set_granted) key (lock_table_ lm))
       (<[txn := {[key]} ∪ default ∅ (txn_locks_ lm !! txn)]> (txn_locks_ lm))
       (next_node_ lm) (blocked_ lm).

(** [it->mode = LockMode::EXCLUSIVE]. *)
Definition set_exclusive (lm : LockManager) (key : LockKey) (it : nat)
  : LockManager :=
  mkLM (alter (update_node it set_mode_exclusive) key (lock_table_ lm))
       (txn_locks_ lm) (next_node_ lm) (blocked_ lm).

(** [queue.queue.push_back(request)] on [lock_table_[key]]; the new node
    is [next_node_]. *)
Definition push_back (lm : LockManager) (key : LockKey) (req : LockRequest)
  : LockManager :=
  mkLM (<[key := queue_of lm key ++ [(next_node_ lm, req)]]> (lock_table_ lm))
       (txn_locks_ lm) (S (next_node_ lm)) (blocked_ lm).

(** [lock_table_[key]] alone: [operator[]] creates the empty queue. *)
Definition touch (lm : LockManager) (key : LockKey) : LockManager :=
  mkLM (<[key := queue_of lm key]> (lock_table_ lm)) (txn_locks_ lm)
       (next_node_ lm) (blocked_ lm).

Definition block (lm : LockManager) (w : Waiter) : LockManager :=
  mkLM (lock_table_ lm) (txn_locks_ lm) (next_node_ lm) (blocked_ lm ++ [w]).

Definition unblock (lm : LockManager) (w : Waiter) : LockManager :=
  mkLM (lock_table_ lm) (txn_locks_ lm) (next_node_ lm)
       (filter (fun w' => w' ≠ w) (blocked_ lm)).

(** The test a waiting call makes each time it holds the latch. *)
Definition ready (lm : LockManager) (w : Waiter) : bool :=
  let queue := requests (queue_of lm (w_key w)) in
  match w_kind w with
  | WShared => CanGrantLock queue SHARED
  | WExclusive | WUpgrade => negb (others_hold queue (w_txn w))
  end.

(** What a call does once its wait is over. *)
Definition complete (lm : LockManager) (w : Waiter) : LockManager :=
  match w_kind w with
  | WShared | WExclusive => grant lm (w_txn w) (w_key w) (w_node w)
  | WUpgrade => set_exclusive lm (w_key w) (w_node w)
  end.

(** A call that has reached its wait loop with iterator [w_node w]: it
    proceeds if the test passes and blocks otherwise. *)
Definition wait_or_complete (lm : LockManager) (w : Waiter) : LockManager :=
  if ready lm w then complete lm w else block lm w.

(** A blocked call is woken (by [notify_all] or spuriously) and re-runs
    its test. *)
Definition wake (lm : LockManager) (w : Waiter) : LockManager :=
  if ready lm w then complete (unblock lm w) w else lm.

(** [LockShared(txn_id, rid)] up to its first wait. *)
Definition LockShared (lm : LockManager) (txn : Z) (rid : RecordID)
  : LockManager :=
  let key := MakeKey rid in
  let lm := touch lm key in
  if holds (requests (queue_of lm key)) txn then lm
  else
    let it := next_node_ lm in
    let lm := push_back lm key (mkReq txn SHARED false) in
    wait_or_complete lm (mkWaiter txn key WShared it).

(** [LockExclusive(txn_id, rid)] up to its first wait. *)
Definition LockExclusive (lm : LockManager) (txn : Z) (rid : RecordID)
  : LockManager :=
  let key := MakeKey rid in
  let lm := touch lm key in
  if holds_exclusive (requests (queue_of lm key)) txn then lm
  else
    let it := next_node_ lm in
    let lm := push_back lm key (mkReq txn EXCLUSIVE false) in
    wait_or_complete lm (mkWaiter txn key WExclusive it).

(** [std::find_if] for the first granted request of [txn]. *)
Fixpoint find_granted (q : list Node) (txn : Z) : option Node :=
  match q with
  | [] => None
  | e :: rest =>
      if (txn_id e.2 =? txn) && granted e.2 then Some e
      else find_granted rest txn
  end.

(** [LockUpgrade(txn_id, rid)] up to its first wait. *)
Definition LockUpgrade (lm : LockManager) (txn : Z) (rid : RecordID)
  : LockManager :=
  let key := MakeKey rid in
  match lock_table_ lm !! key with
  | None => lm
  | Some q =>
      match find_granted q txn with
      | None => lm
      | Some (it, r) =>
          match mode r with
          | EXCLUSIVE => lm
          | SHARED => wait_or_complete lm (mkWaiter txn key WUpgrade it)
          end
      end
  end.

(** The body of the loop of [UnlockAll] for one [key]. *)
Definition release (txn : Z) (key : LockKey)
    (table : gmap LockKey (list Node)) : gmap LockKey (list Node) :=
  match table !! key with
  | None => table
  | Some q =>
      let q' := filter (fun e : Node => txn_id e.2 ≠ txn) q in
      match q' with
      | [] => delete key table
      | _ => <[key := q']> table
      end
  end.

(** [UnlockAll(txn_id)]. *)
Definition UnlockAll (lm : LockManager) (txn : Z) : LockManager :=
  match txn_locks_ lm !! txn with
  | None => lm
  | Some keys =>
      mkLM (foldr (release txn) (lock_table_ lm) (elements keys))
           (delete txn (txn_locks_ lm))
           (next_node_ lm) (blocked_ lm)
  end.

Definition is_blocked (lm : LockManager) (txn : Z) : Prop :=
  ∃ w, w ∈ blocked_ lm ∧ w_txn w = txn.

(** The moves of the lock manager.  A transaction is driven by one thread:
    while one of its calls is blocked it issues no other call. *)
Inductive step : LockManager -> LockManager -> Prop :=
| step_lock_shared lm txn rid :
    ¬ is_blocked lm txn -> step lm (LockShared lm txn rid)
| step_lock_exclusive lm txn rid :
    ¬ is_blocked lm txn -> step lm (LockExclusive lm txn rid)
| step_lock_upgrade lm txn rid :
    ¬ is_blocked lm txn -> step lm (LockUpgrade lm txn rid)
| step_unlock_all lm txn :
    ¬ is_blocked lm txn -> step lm (UnlockAll lm txn)
| step_wake lm w :
    w ∈ blocked_ lm -> step lm (wake lm w).

Definition reachable (lm : LockManager) : Prop := rtc step empty lm.

(** The granted requests on [key]. *)
Definition granted_on (lm : LockManager) (key : LockKey) : list LockRequest :=
  filter (fun r => granted r = true) (requests (queue_of lm key)).

Definition count_mode (m : LockMode) (l : list LockRequest) : nat :=
  length (filter (fun r => mode r = m) l).

(** The invariant in the words of the specification: per resource, at most
    one granted EXCLUSIVE and no granted SHARED, or no granted EXCLUSIVE. *)
Definition spec_invariant (lm : LockManager) : Prop :=
  ∀ key,
    ((count_mode EXCLUSIVE (granted_on lm key) <= 1)%nat
     ∧ count_mode SHARED (granted_on lm key) = O)
    ∨ count_mode EXCLUSIVE (granted_on lm key) = O.

(** What the code maintains: a granted EXCLUSIVE request excludes granted
    requests of every other transaction. *)
Definition exclusive_owner_invariant (lm : LockManager) : Prop :=
  ∀ key r1 r2,
    r1 ∈ granted_on lm key -> r2 ∈ granted_on lm key ->
    mode r1 = EXCLUSIVE -> txn_id r1 = txn_id r2.

(** The facts about the queues and the blocked calls that carry the
    invariant from state to state. *)
Definition queues_exclusive (lm : LockManager) : Prop :=
  ∀ key q (e1 e2 : Node),
    lock_table_ lm !! key = Some q -> e1 ∈ q -> e2 ∈ q ->
    granted e1.2 = true -> granted e2.2 = true ->
    mode e1.2 = EXCLUSIVE -> txn_id e1.2 = txn_id e2.2.

Definition nodes_allocated (lm : LockManager) : Prop :=
  ∀ key q (e : Node),
    lock_table_ lm !! key = Some q -> e ∈ q -> (e.1 < next_node_ lm)%nat.

Definition nodes_distinct (lm : LockManager) : Prop :=
  ∀ key q, lock_table_ lm !! key = Some q -> NoDup (fst <$> q).

(** The iterator of a blocked call designates a request of its
    transaction, a SHARED one if the call is [LockShared]. *)
Definition waiter_ok (lm : LockManager) (w : Waiter) : Prop :=
  (w_node w < next_node_ lm)%nat
  ∧ ∀ q (e : Node),
      lock_table_ lm !! w_key w = Some q -> e ∈ q -> e.1 = w_node w ->
      txn_id e.2 = w_txn w ∧ (w_kind w = WShared -> mode e.2 = SHARED).

Definition inv (lm : LockManager) : Prop :=
  queues_exclusive lm
  ∧ nodes_allocated lm
  ∧ nodes_distinct lm
  ∧ (∀ w, w ∈ blocked_ lm -> waiter_ok lm w)
  ∧ NoDup (w_txn <$> blocked_ lm).

End LockManager.

(** *** Bookkeeping of the lock table

    A granted request is recorded in [txn_locks_] of its transaction; a
    request not yet granted belongs to a call blocked in [LockShared] or
    [LockExclusive]. *)

Definition granted_recorded (lm : LockManager.LockManager) : Prop :=
  ∀ key q (e : LockManager.Node),
    LockManager.lock_table_ lm !! key = Some q -> e ∈ q ->
    LockManager.granted e.2 = true ->
    ∃ keys, LockManager.txn_locks_ lm !! LockManager.txn_id e.2 = Some keys
            ∧ key ∈ keys.

(** [pending_blocked lm skip]: every request not yet granted, but for the
    node [skip] of a call under way, is the node of a blocked call. *)
Definition pending_blocked (lm : LockManager.LockManager)
    (skip : option (LockManager.LockKey * nat)) : Prop :=
  ∀ key q (e : LockManager.Node),
    LockManager.lock_table_ lm !! key = Some q -> e ∈ q ->
    LockManager.granted e.2 = false ->
    skip = Some (key, e.1)
    ∨ ∃ w, w ∈ LockManager.blocked_ lm
           ∧ LockManager.w_node w = e.1 ∧ LockManager.w_key w = key
           ∧ LockManager.w_txn w = LockManager.txn_id e.2
           ∧ LockManager.w_kind w ≠ LockManager.WUpgrade.

(** The queue node a call is still working on once it has left the
    blocked calls (or before it joins them): none for an upgrade, whose
    node is granted already. *)
Definition skip_of (w : LockManager.Waiter)
  : option (LockManager.LockKey * nat) :=
  if decide (LockManager.w_kind w = LockManager.WUpgrade) then None
  else Some (LockManager.w_key w, LockManager.w_node w).

Definition books (lm : LockManager.LockManager) : Prop :=
  granted_recorded lm ∧ pending_blocked lm None.

(** ** Statements of the specification, in its words *)

Module Claimed.

(** The first index below [n] whose byte satisfies [q], or the invalid
    page id. *)
Fixpoint first_byte (q : Z -> bool) (data : list Z) (i : Z) (n : nat) : Z :=
  match n with
  | O => INVALID_PAGE_ID
  | S k => if q (peek data (Z.to_nat i)) then i
           else first_byte q data (i + 1) k
  end.

(** "the first byte whose category >= ceil(n/16) and is greater than zero
    identifies the page". *)
Definition FindPageWithSpace (fsm_page : list Z) (n : Z) : Z :=
  first_byte (fun c => ((n + 15) / 16 <=? c) && (0 <? c)) fsm_page 0 PAGE_SIZE.

(** "For each INSERT/DELETE/UPDATE whose page is in the dirty table AND
    whose lsn >= that page's rec-lsn, ... re-apply". *)
Definition redo_test (dirty_pages : gmap Z Z) (r : WAL.LogRecord) : bool :=
  Recovery.is_data_op (WAL.type r)
  && match dirty_pages !! WAL.page_id r with
     | Some rec_lsn => rec_lsn <=? WAL.lsn r
     | None => false
     end.

Definition redone (dirty_pages : gmap Z Z) (records : list WAL.LogRecord)
  : list WAL.LogRecord :=
  List.filter (redo_test dirty_pages) records.



End Claimed.

(** What one iteration of [RedoPhase] decides on: the test of the
    specification, a valid page id, a frame for the page, and the guard on
    the after-image. *)
Definition redo_test (dirty : gmap Z Z) (b : BufferPoolManager)
    (r : WAL.LogRecord) : bool :=
  Claimed.redo_test dirty r
  && negb (WAL.page_id r =? INVALID_PAGE_ID)
  && fetchable b (WAL.page_id r)
  && Recovery.has_redo_payload r.

(** ** The states the scenarios start from *)

Module Scenario.

(** [Catalog::CreateCollection]: a zeroed FSM page, a first heap page
    initialised as a slotted page and registered with
    [4096 - sizeof(PageHeader)] free bytes.  [None] when a page cannot be
    allocated (the source throws). *)
Definition CreateCollection (b : BufferPoolManager)
  : option (BufferPoolManager * HeapFile.HeapFile) :=
  match NewPage b with
  | (None, _) => None
  | (Some fsm_page_id, b) =>
      let b := SetData b fsm_page_id (memset0 (GetData b fsm_page_id) 4096) in
      let b := UnpinPage b fsm_page_id true in
      let fsm := FreeSpaceMap.make fsm_page_id 4096 in
      match NewPage b with
      | (None, _) => None
      | (Some heap_page_id, b) =>
          let b := SetData b heap_page_id
                     (SlottedPage.Init (GetData b heap_page_id) 4096) in
          let b := UnpinPage b heap_page_id true in
          let b := FreeSpaceMap.RegisterNewPage fsm b heap_page_id
                     (u16 (4096 - 8)) in
          Some (b, HeapFile.mkHeap fsm heap_page_id heap_page_id)
      end
  end.

(** A pool of eight frames over a file that holds the catalog page only. *)
Definition pool0 : BufferPoolManager := mkBPM 8 ∅ 1 ∅.

Definition users : BufferPoolManager * HeapFile.HeapFile :=
  default (pool0, HeapFile.mkHeap (FreeSpaceMap.make 0 4096) 0 0)
          (CreateCollection pool0).

Definition users_fsm : FreeSpaceMap.FreeSpaceMap := HeapFile.fsm_ (snd users).


(** A document of 4068 bytes: a string of 4052 letters x. *)
Definition doc_fill : Bson.BsonDocument :=
  [("blob"%string,
    Bson.BString (bytes_string (replicate 4052 120)))].

(** The collection once [doc_fill] is stored: heap page 2 is down to 16
    free bytes, and [InsertRecord] has left the category of 16 bytes in
    the FSM entry of the page. *)
Definition users_tight : BufferPoolManager :=
  snd (fst (HeapFile.InsertRecord (fst users) (snd users) doc_fill)).


Definition doc_alice : Bson.BsonDocument :=
  [("age", Bson.BInt32 30); ("name", Bson.BString "Alice")]%string.

Definition doc_bob : Bson.BsonDocument :=
  [("age", Bson.BInt32 41); ("name", Bson.BString "Bob")]%string.

(** A document of 13 bytes. *)
Definition doc_small : Bson.BsonDocument := [("ab"%string, Bson.BInt32 7)].

(** [Catalog::CreateIndex] on an empty collection: the root is a fresh
    page holding an empty leaf; the tree has the default fan-out of 50. *)
Definition index_pool : BufferPoolManager :=
  mkBPM 8 (<[1 := BPlusTree.empty_leaf]> ∅) 2 ∅.

Definition index0 : BPlusTree.BPlusTree := BPlusTree.mkTree 1 50.

(** [n] calls of [Insert] with the same [key] and the record ids
    [(7, i)], [(7, i + 1)], ... *)
Fixpoint insert_same (n : nat) (i : Z) (key : string)
    (t : BPlusTree.BPlusTree) (b : BufferPoolManager)
  : BufferPoolManager * BPlusTree.BPlusTree :=
  match n with
  | O => (b, t)
  | S k =>
      let '(_, b, t) := BPlusTree.Insert 8 t b key (mkRid 7 i) in
      insert_same k (i + 1) key t b
  end.

(** A record of page 3, and the lock table after transaction 1 has taken
    it SHARED and then EXCLUSIVE. *)
Definition locked_rid : RecordID := mkRid 3 0.

Definition shared_then_exclusive : LockManager.LockManager :=
  LockManager.LockExclusive
    (LockManager.LockShared LockManager.empty 1 locked_rid) 1 locked_rid.

(** Transaction 1 holds the record EXCLUSIVE when transaction 2 asks for
    it SHARED. *)
Definition reader_waits : LockManager.LockManager :=
  LockManager.LockShared
    (LockManager.LockExclusive LockManager.empty 1 locked_rid) 2 locked_rid.

Definition reader : LockManager.Waiter :=
  LockManager.mkWaiter 2 (LockManager.MakeKey locked_rid)
    LockManager.WShared 1.

(** The collection after a crash between the write of heap page 2 and the
    update of the FSM: the page holds a record of 4080 bytes, the FSM still
    says the page is empty. *)
Definition users_stale : BufferPoolManager :=
  SetData (fst users) 2
    (snd (SlottedPage.InsertRecord (GetData (fst users) 2)
            (replicate 4080 0) 4080)).

(** A document with a string of 5000 letters x. *)
Definition doc_blob : Bson.BsonDocument :=
  [("blob"%string,
    Bson.BString (bytes_string (replicate 5000 120)))].

(** An index with fan-out 2 after three insertions under the key "a": the
    root (page 3) is internal with the separator "a", page 1 holds one
    entry and page 2 two. *)
Definition two_level : BufferPoolManager * BPlusTree.BPlusTree :=
  insert_same 3 0 "a" (BPlusTree.mkTree 1 2) index_pool.

Definition two_level_pool : BufferPoolManager := fst two_level.

Definition two_level_tree : BPlusTree.BPlusTree := snd two_level.

End Scenario.

(** * Properties *)

(** ** Sanity checks of the embedding on the scenarios of the specification *)

Example slotted_init_header :
  (SlottedPage.num_slots SlottedPage.fresh_page,
   SlottedPage.free_space_begin SlottedPage.fresh_page,
   SlottedPage.free_space_end SlottedPage.fresh_page) = (0, 8, 4096).
Proof. vm_compute. reflexivity. Qed.

Example slotted_insert_get :
  let '(s, p) := SlottedPage.InsertRecord SlottedPage.fresh_page [7; 8; 9] 3 in
  (s, SlottedPage.GetRecord p 0, SlottedPage.GetFreeSpace p)
  = (0, Some [7; 8; 9], 4081).
Proof. vm_compute. reflexivity. Qed.

(** Scenario 1 of the specification: the four-field document survives the
    round trip (95.5 is the pattern 0x4057E00000000000). *)
Example bson_round_trip_alice :
  let doc := [("active", Bson.BBool true); ("age", Bson.BInt32 30);
              ("name", Bson.BString "Alice");
              ("score", Bson.BDouble 4636420632005836800)]%string in
  Bson.DeserializeVec 8 (Bson.Serialize doc) = Ok doc.
Proof. vm_compute. reflexivity. Qed.

(** Scenario 6 of the specification: three appended records read back. *)
Example wal_read_back :
  let r1 := WAL.mkLog 0 100 (-1) WAL.BEGIN (-1) 0 [] [] in
  let r2 := WAL.mkLog 1 100 0 WAL.INSERT 5 0 [] [1; 2; 3] in
  let r3 := WAL.mkLog 2 100 1 WAL.COMMIT (-1) 0 [] [] in
  WAL.ReadAllRecords (WAL.Serialize r1 ++ WAL.Serialize r2 ++ WAL.Serialize r3)
  = Ok [r1; r2; r3].
Proof. vm_compute. reflexivity. Qed.

(** ** Raw buffers *)

Lemma length_poke buf off v : length (poke buf off v) = length buf.
Proof. apply length_insert. Qed.

Lemma peek_poke_eq buf off v :
  (off < length buf)%nat -> peek (poke buf off v) off = u8 v.
Proof.
  intros H. unfold peek, poke. by rewrite list_lookup_insert_eq.
Qed.

Lemma peek_poke_ne buf off v i :
  i ≠ off -> peek (poke buf off v) i = peek buf i.
Proof.
  intros H. unfold peek, poke. by rewrite list_lookup_insert_ne.
Qed.

Lemma length_set_u16 buf off v : length (set_u16 buf off v) = length buf.
Proof. unfold set_u16. by rewrite !length_poke. Qed.

Lemma peek_set_u16_ne buf off v i :
  i ≠ off -> i ≠ S off -> peek (set_u16 buf off v) i = peek buf i.
Proof.
  intros H1 H2. unfold set_u16. by rewrite !peek_poke_ne.
Qed.

Lemma get_u16_set_u16_ne buf off v i :
  (S i < off ∨ S off < i)%nat ->
  get_u16 (set_u16 buf off v) i = get_u16 buf i.
Proof.
  intros H. unfold get_u16. rewrite !peek_set_u16_ne by lia. done.
Qed.

Lemma get_u16_set_u16_eq buf off v :
  (S off < length buf)%nat -> get_u16 (set_u16 buf off v) off = u16 v.
Proof.
  intros H. unfold get_u16, set_u16.
  rewrite peek_poke_ne by lia.
  rewrite !peek_poke_eq by (rewrite ?length_poke; lia).
  unfold u8, u16.
  pose proof (Z.div_mod v 256 ltac:(lia)) as E1.
  pose proof (Z.div_mod (v / 256) 256 ltac:(lia)) as E2.
  pose proof (Z.mod_pos_bound v 256 ltac:(lia)) as B1.
  pose proof (Z.mod_pos_bound (v / 256) 256 ltac:(lia)) as B2.
  apply (Z.mod_unique_pos v 65536 (v / 256 / 256)); lia.
Qed.

Lemma length_memcpy buf off src : length (memcpy buf off src) = length buf.
Proof.
  unfold memcpy. rewrite !length_app, !length_take, length_drop. lia.
Qed.

Lemma peek_memcpy_out buf off src i :
  (i < off ∨ off + length src <= i)%nat ->
  peek (memcpy buf off src) i = peek buf i.
Proof.
  intros H. unfold peek, memcpy. f_equal.
  destruct (decide (i < length buf)%nat) as [Hi|Hi].
  - destruct H as [H|H].
    + rewrite lookup_app_l by (rewrite length_take; lia).
      by rewrite lookup_take_lt.
    + rewrite lookup_app_r by (rewrite length_take; lia).
      rewrite length_take.
      rewrite lookup_app_r by (rewrite length_take; lia).
      rewrite length_take, lookup_drop. f_equal. lia.
  - rewrite (lookup_ge_None_2 buf) by lia.
    apply lookup_ge_None_2.
    rewrite !length_app, !length_take, length_drop. lia.
Qed.

Lemma get_u16_memcpy_out buf off src i :
  (S i < off ∨ off + length src <= i)%nat ->
  get_u16 (memcpy buf off src) i = get_u16 buf i.
Proof.
  intros H. unfold get_u16. rewrite !peek_memcpy_out by lia. done.
Qed.

(** ** Slotted page *)

Lemma GetSlotEntry_ge slot_id : (8 <= SlottedPage.GetSlotEntry slot_id)%nat.
Proof. unfold SlottedPage.GetSlotEntry, SlottedPage.HEADER_SIZE. lia. Qed.

(** [DeleteRecord] writes inside the slot directory only: the three header
    fields, and with them [GetFreeSpace], are as before. *)
Lemma slotted_delete_keeps_header p slot_id :
  let p' := snd (SlottedPage.DeleteRecord p slot_id) in
  SlottedPage.num_slots p' = SlottedPage.num_slots p
  ∧ SlottedPage.free_space_begin p' = SlottedPage.free_space_begin p
  ∧ SlottedPage.free_space_end p' = SlottedPage.free_space_end p
  ∧ SlottedPage.GetFreeSpace p' = SlottedPage.GetFreeSpace p.
Proof.
  pose proof (GetSlotEntry_ge slot_id) as He.
  unfold SlottedPage.DeleteRecord.
  destruct (SlottedPage.num_slots p <=? slot_id); [done|].
  destruct (SlottedPage.slot_length p slot_id =? 0); [done|].
  cbn [snd].
  unfold SlottedPage.GetFreeSpace, SlottedPage.num_slots,
    SlottedPage.free_space_begin, SlottedPage.free_space_end.
  rewrite !get_u16_set_u16_ne by lia. done.
Qed.

(** A successful [DeleteRecord] leaves a tombstone: length and offset 0. *)
Lemma slotted_delete_tombstone p slot_id p' :
  (SlottedPage.GetSlotEntry slot_id + 3 < length p)%nat ->
  SlottedPage.DeleteRecord p slot_id = (true, p') ->
  SlottedPage.slot_length p' slot_id = 0
  ∧ SlottedPage.slot_offset p' slot_id = 0.
Proof.
  intros Hlen. unfold SlottedPage.DeleteRecord.
  destruct (SlottedPage.num_slots p <=? slot_id); [done|].
  destruct (SlottedPage.slot_length p slot_id =? 0); [done|].
  intros [= <-].
  unfold SlottedPage.slot_length, SlottedPage.slot_offset. split.
  - rewrite get_u16_set_u16_ne by lia.
    rewrite get_u16_set_u16_eq by lia. done.
  - rewrite get_u16_set_u16_eq by (rewrite length_set_u16; lia). done.
Qed.

(** Where the 16-bit arithmetic does not wrap ([record_len + 4] fits a
    [uint16_t]) and the header is that of a page in use, a successful
    [InsertRecord] lowers [free_space_end] by exactly [record_len], whether
    it reuses a tombstone or appends a slot. *)
Lemma slotted_insert_lowers_free_space_end p record record_len :
  length p = PAGE_SIZE ->
  8 <= SlottedPage.free_space_begin p ->
  SlottedPage.free_space_end p <= 4096 ->
  0 <= record_len <= 65531 ->
  fst (SlottedPage.InsertRecord p record record_len) ≠ -1 ->
  SlottedPage.free_space_end (snd (SlottedPage.InsertRecord p record record_len))
  = SlottedPage.free_space_end p - record_len.
Proof.
  intros Hlen Hfb Hfe Hrl. unfold SlottedPage.InsertRecord.
  set (target := SlottedPage.find_tombstone p 0 _).
  set (needed := if target =? -1 then _ else _).
  assert (record_len <= needed) as Hneeded.
  { unfold needed, u16. destruct (target =? -1); [|lia].
    unfold SlottedPage.SLOT_ENTRY_SIZE. rewrite Z.mod_small; lia. }
  destruct (_ <? needed) eqn:Hroom; [cbn; done|]. intros _.
  apply Z.ltb_ge in Hroom.
  set (fe' := u16 (SlottedPage.free_space_end p - record_len)).
  assert (fe' = SlottedPage.free_space_end p - record_len) as Efe.
  { unfold fe', u16. rewrite Z.mod_small; lia. }
  set (p1 := SlottedPage.set_free_space_end p fe').
  assert (SlottedPage.free_space_end p1 = fe') as E1.
  { unfold p1, SlottedPage.free_space_end, SlottedPage.set_free_space_end.
    rewrite get_u16_set_u16_eq by (rewrite Hlen; unfold PAGE_SIZE; lia).
    unfold u16. rewrite Z.mod_small; lia. }
  rewrite E1.
  set (p2 := memcpy p1 (Z.to_nat fe') _).
  assert (SlottedPage.free_space_end p2 = fe') as E2.
  { unfold p2, SlottedPage.free_space_end.
    rewrite get_u16_memcpy_out by lia. exact E1. }
  pose proof (GetSlotEntry_ge) as He.
  assert (∀ q e v, (8 <= e)%nat ->
            SlottedPage.free_space_end (set_u16 q e v)
            = SlottedPage.free_space_end q) as Hframe.
  { intros q e v Hq. unfold SlottedPage.free_space_end.
    apply get_u16_set_u16_ne. lia. }
  destruct (target =? -1); cbn [snd].
  - rewrite !Hframe by (specialize (He (i16 (SlottedPage.num_slots p2))); lia).
    unfold SlottedPage.set_free_space_begin, SlottedPage.set_num_slots,
      SlottedPage.free_space_end.
    rewrite !get_u16_set_u16_ne by lia.
    fold (SlottedPage.free_space_end p2) (SlottedPage.free_space_end p). lia.
  - rewrite !Hframe by (specialize (He target); lia). lia.
Qed.

(** C10.  The free-space invariant of the claim fails on a fresh page:
    with [record_len = 65535] and no tombstone, [space_needed] wraps to 3,
    the check passes, and [free_space_end -= record_len] wraps from 4096 up
    to 4097; the page reports 4085 free bytes after a 65535-byte record. *)
Theorem slotted_insert_raises_free_space_end :
  SlottedPage.free_space_end SlottedPage.fresh_page = 4096
  ∧ SlottedPage.GetFreeSpace SlottedPage.fresh_page = 4088
  ∧ (let '(slot, p') :=
       SlottedPage.InsertRecord SlottedPage.fresh_page
         (replicate (Z.to_nat 65535) 0) 65535 in
     slot = 0
     ∧ SlottedPage.free_space_end p' = 4097
     ∧ SlottedPage.GetFreeSpace p' = 4085).
Proof. vm_compute. repeat split; reflexivity. Qed.

(** ** Heap file: update of a missing record *)

(** On the slotted page itself an update of a missing record (slot out of
    range or tombstoned) fails and leaves the page as it is. *)
Lemma slotted_update_missing p slot_id record record_len :
  SlottedPage.GetRecord p slot_id = None ->
  SlottedPage.UpdateRecord p slot_id record record_len = (false, p).
Proof.
  unfold SlottedPage.GetRecord, SlottedPage.UpdateRecord.
  destruct (SlottedPage.num_slots p <=? slot_id); [done|].
  destruct (SlottedPage.slot_length p slot_id =? 0); done.
Qed.

Lemma slotted_delete_missing p slot_id :
  SlottedPage.GetRecord p slot_id = None ->
  SlottedPage.DeleteRecord p slot_id = (false, p).
Proof.
  unfold SlottedPage.GetRecord, SlottedPage.DeleteRecord.
  destruct (SlottedPage.num_slots p <=? slot_id); [done|].
  destruct (SlottedPage.slot_length p slot_id =? 0); done.
Qed.

(** C2.  In a freshly created collection (FSM page 1, heap page 2) the
    record id (2, 0) names no record.  [DeleteRecord] on it returns false
    and leaves page 2 as it is; [UpdateRecord] on it returns a record id
    and stores the document.  The same holds for the tombstone left by
    deleting an inserted record: the update brings a record back at that
    very id. *)
Theorem heap_update_of_missing_record_inserts :
  let '(b, h) := Scenario.users in
  let rid := mkRid 2 0 in
  SlottedPage.GetRecord (GetData b 2) 0 = None
  ∧ (let '(ok, b') := HeapFile.DeleteRecord b h rid in
     ok = false ∧ GetData b' 2 = GetData b 2)
  ∧ (let '(res, b', _) := HeapFile.UpdateRecord b h rid Scenario.doc_bob in
     res = Ok rid
     ∧ SlottedPage.GetRecord (GetData b' 2) 0
       = Some (Bson.Serialize Scenario.doc_bob)
     ∧ GetData b' 2 ≠ GetData b 2)
  ∧ (let '(res1, b1, h1) := HeapFile.InsertRecord b h Scenario.doc_alice in
     let '(ok, b2) := HeapFile.DeleteRecord b1 h1 rid in
     let '(res3, b3, _) := HeapFile.UpdateRecord b2 h1 rid Scenario.doc_bob in
     res1 = Ok rid ∧ ok = true
     ∧ SlottedPage.GetRecord (GetData b2 2) 0 = None
     ∧ res3 = Ok rid
     ∧ SlottedPage.GetRecord (GetData b3 2) 0
       = Some (Bson.Serialize Scenario.doc_bob)).
Proof. vm_compute. repeat split; try reflexivity. discriminate. Qed.

(** ** BSON serializer *)

Lemma deserialize_loop_done fuel data doc_size doc offset :
  u64 (u64 doc_size - 1) <= offset ->
  Bson.deserialize_loop fuel data doc_size doc offset = Ok doc.
Proof.
  intros H. apply Z.ltb_ge in H.
  destruct fuel; cbn [Bson.deserialize_loop]; by rewrite H.
Qed.

(** C1.  A field holding null does not survive the round trip: [Serialize]
    has no branch for the null alternative and writes nothing for it, so
    the bytes are those of the document without the field, and
    [Deserialize] returns that smaller document whatever the budget. *)
Theorem bson_null_field_is_dropped :
  let doc := [("age", Bson.BInt32 30); ("nick", Bson.BNull)]%string in
  Bson.Serialize doc = Bson.Serialize [("age"%string, Bson.BInt32 30)]
  ∧ Bson.Serialize doc = [14; 0; 0; 0; 16; 97; 103; 101; 0; 30; 0; 0; 0; 0]
  ∧ (∀ fuel, Bson.DeserializeVec (S fuel) (Bson.Serialize doc)
             = Ok [("age"%string, Bson.BInt32 30)])
  ∧ (∀ fuel, Bson.DeserializeVec fuel (Bson.Serialize doc) ≠ Ok doc).
Proof.
  cbv zeta.
  assert (∀ fuel,
    Bson.DeserializeVec (S fuel)
      (Bson.Serialize [("age", Bson.BInt32 30); ("nick", Bson.BNull)]%string)
    = Ok [("age"%string, Bson.BInt32 30)]) as Hrun.
  { intros fuel.
    change (Bson.Serialize _)
      with [14; 0; 0; 0; 16; 97; 103; 101; 0; 30; 0; 0; 0; 0].
    unfold Bson.DeserializeVec, Bson.Deserialize, Bson.Deserialize_with.
    cbn [Bson.deserialize_loop].
    remember (Bson.deserialize_loop fuel) as rest eqn:Erest.
    vm_compute. subst rest.
    apply deserialize_loop_done. vm_compute. discriminate. }
  repeat split.
  - exact Hrun.
  - intros [|fuel].
    + vm_compute. discriminate.
    + rewrite Hrun. discriminate.
Qed.

(** ** B+ tree: duplicate keys across a leaf split *)

(** C3.  An index with the default fan-out of 50 receives 51 entries with
    the key "a".  The 51st insertion splits the root leaf: 25 entries stay
    in page 1, 26 move to page 2, and the new root (page 3) holds the
    separator "a".  [FindLeaf "a"] steps past a separator equal to the key,
    so the scan over the full key range ["a", "a"] starts in page 2 and
    returns 26 of the 51 pairs. *)
Theorem bptree_range_scan_misses_duplicates :
  let '(b, t) :=
    Scenario.insert_same 51 0 "a" Scenario.index0 Scenario.index_pool in
  BPlusTree.root_page_id_ t = 3
  ∧ length (fst (BPlusTree.ReadLeafNode (GetData b 1))) = 25%nat
  ∧ length (fst (BPlusTree.ReadLeafNode (GetData b 2))) = 26%nat
  ∧ BPlusTree.ReadInternalNode (GetData b 3) = (["a"%string], [1; 2])
  ∧ fst (BPlusTree.FindLeaf 8 b (BPlusTree.root_page_id_ t) "a") = Some 2
  ∧ fst (BPlusTree.RangeScan 8 t b "a" "a")
    = Some (map (fun i => ("a"%string, mkRid 7 (Z.of_nat i))) (seq 25 26)).
Proof. vm_compute. repeat split; reflexivity. Qed.

(** ** Write-ahead log: a truncated tail *)

(** C9.  A log that ends in the middle of a record: one whole BEGIN record
    followed by the first ten bytes of an INSERT record.  The second call
    of [Deserialize] passes its only guard (four bytes are left for the
    size field) and then copies the eight bytes of the LSN from offset 47,
    of which the buffer holds six: the read runs past the end of the
    buffer instead of stopping the scan. *)
Theorem wal_truncated_tail_is_read_out_of_bounds :
  let r1 := WAL.mkLog 0 100 (-1) WAL.BEGIN (-1) 0 [] [] in
  let r2 := WAL.mkLog 1 100 0 WAL.INSERT 5 0 [] [1; 2; 3] in
  let file := WAL.Serialize r1 ++ take 10 (WAL.Serialize r2) in
  length file = 53%nat
  ∧ WAL.Deserialize file 53 0 = Ok (r1, 43)
  ∧ WAL.Deserialize file 53 43 = OutOfBounds
  ∧ WAL.ReadAllRecords file = OutOfBounds.
Proof. vm_compute. repeat split; reflexivity. Qed.

(** ** Buffer pool: a fetch followed by its unpin *)

Lemma GetData_length b p : length (GetData b p) = PAGE_SIZE.
Proof. unfold GetData. apply length_resize. Qed.

Lemma FetchPage_None b p :
  fetchable b p = false -> FetchPage b p = (None, b).
Proof.
  unfold fetchable, FetchPage. intros H.
  apply orb_false_iff in H as [H1 H2].
  apply bool_decide_eq_false in H1.
  destruct (pins b !! p) eqn:E; [destruct H1; eauto|]. by rewrite H2.
Qed.

Lemma FetchPage_Some b p :
  fetchable b p = true ->
  ∃ n, FetchPage b p
       = (Some (GetData b p), with_pins b (<[p := n]> (pins b)))
       ∧ match pins b !! p with
         | Some m => n = Pos.succ m
         | None => n = 1%positive
         end.
Proof.
  unfold fetchable, FetchPage. intros H.
  destruct (pins b !! p) eqn:E; [eauto|].
  apply orb_true_iff in H as [H|H].
  - apply bool_decide_eq_true in H. by destruct H.
  - rewrite H. eauto.
Qed.

Lemma succ_match {X : Type} (m : positive) (a c : X) :
  match Pos.succ m with 1%positive => a | _ => c end = c.
Proof.
  destruct (Pos.succ m) eqn:Es; [done|done|].
  by apply Pos.succ_not_1 in Es.
Qed.

(** Pinning a page, writing to its frame and unpinning it leaves every
    pin count as it was. *)
Lemma fetch_write_unpin b p d dirty :
  fetchable b p = true ->
  UnpinPage (SetData (snd (FetchPage b p)) p d) p dirty = SetData b p d.
Proof.
  intros H. destruct (FetchPage_Some b p H) as (n & -> & Hn).
  cbn [snd]. unfold UnpinPage, SetData, with_pages, with_pins. cbn.
  rewrite lookup_insert_eq.
  destruct b as [sz pg nx pn]. cbn in *.
  destruct (pn !! p) as [m|] eqn:E; subst n.
  - by rewrite succ_match, Pos.pred_succ, insert_insert_eq, (insert_id pn p m E).
  - by rewrite delete_insert_eq, delete_id.
Qed.

Lemma fetch_unpin b p dirty :
  fetchable b p = true ->
  UnpinPage (snd (FetchPage b p)) p dirty = b.
Proof.
  intros H. destruct (FetchPage_Some b p H) as (n & -> & Hn).
  cbn [snd]. unfold UnpinPage, with_pins. cbn.
  rewrite lookup_insert_eq.
  destruct b as [sz pg nx pn]. cbn in *.
  destruct (pn !! p) as [m|] eqn:E; subst n.
  - by rewrite succ_match, Pos.pred_succ, insert_insert_eq, (insert_id pn p m E).
  - by rewrite delete_insert_eq, delete_id.
Qed.

(** ** Free-space map *)

Lemma BytesToCategory_floor n :
  0 <= n < 65536 -> FreeSpaceMap.BytesToCategory n = Z.min (n / 16) 255.
Proof.
  intros H. unfold FreeSpaceMap.BytesToCategory, FreeSpaceMap.GRANULARITY,
    u16, u8.
  assert (0 <= n / 16 < 4096) as Hq.
  { split; [apply Z.div_pos; lia|apply Z.div_lt_upper_bound; lia]. }
  rewrite (Z.mod_small (n / 16)) by lia.
  rewrite Z.mod_small by lia. done.
Qed.

(** The scan returns the first index of [i, i + fuel) whose byte is at
    least [cat] and positive, or the invalid id when there is none. *)
Lemma fsm_scan_first data cat fuel : ∀ i, 0 <= i ->
  let r := FreeSpaceMap.scan data cat i fuel in
  (r = INVALID_PAGE_ID
   ∧ ∀ j, i <= j < i + Z.of_nat fuel ->
          ¬ (cat <= peek data (Z.to_nat j) ∧ 0 < peek data (Z.to_nat j)))
  ∨ (i <= r < i + Z.of_nat fuel
     ∧ cat <= peek data (Z.to_nat r) ∧ 0 < peek data (Z.to_nat r)
     ∧ ∀ j, i <= j < r ->
            ¬ (cat <= peek data (Z.to_nat j) ∧ 0 < peek data (Z.to_nat j))).
Proof.
  induction fuel as [|fuel IH]; intros i Hi; cbn [FreeSpaceMap.scan].
  - left. split; [done|]. intros j Hj. lia.
  - destruct (_ && _) eqn:Hq.
    + right. apply andb_true_iff in Hq as [H1 H2].
      apply Z.leb_le in H1. apply Z.ltb_lt in H2.
      repeat split; try lia.
    + assert (¬ (cat <= peek data (Z.to_nat i) ∧ 0 < peek data (Z.to_nat i)))
        as Hn.
      { intros [H1 H2]. apply Z.leb_le in H1. apply Z.ltb_lt in H2.
        by rewrite H1, H2 in Hq. }
      destruct (IH (i + 1) ltac:(lia)) as [[E Hall]|(Hr & H1 & H2 & Hall)].
      * left. split; [done|]. intros j Hj.
        destruct (decide (j = i)) as [->|]; [done|]. apply Hall. lia.
      * right. repeat split; try lia. intros j Hj.
        destruct (decide (j = i)) as [->|]; [done|]. apply Hall. lia.
Qed.

(** What the scan of [FindPageWithSpace n] returns: the index of the first
    byte of the first FSM page that is at least [min (floor (n / 16)) 255]
    and greater than zero, and the invalid page id if no byte qualifies
    (or the FSM page cannot be fetched). *)
Lemma fsm_find_first_floor_category f b n :
  0 <= n < 65536 ->
  let data := GetData b (FreeSpaceMap.fsm_start_page_ f) in
  let cat := Z.min (n / 16) 255 in
  let r := fst (FreeSpaceMap.FindPageWithSpace f b n) in
  let qualifies j := cat <= peek data (Z.to_nat j) ∧ 0 < peek data (Z.to_nat j) in
  if fetchable b (FreeSpaceMap.fsm_start_page_ f) then
    (r = INVALID_PAGE_ID
     ∧ ∀ j, 0 <= j < Z.of_nat (Z.to_nat (FreeSpaceMap.entries_per_page_ f)) ->
            ¬ qualifies j)
    ∨ (0 <= r < Z.of_nat (Z.to_nat (FreeSpaceMap.entries_per_page_ f))
       ∧ qualifies r ∧ ∀ j, 0 <= j < r -> ¬ qualifies j)
  else r = INVALID_PAGE_ID.
Proof.
  intros Hn. cbv zeta. unfold FreeSpaceMap.FindPageWithSpace.
  rewrite (BytesToCategory_floor n Hn).
  destruct (fetchable b _) eqn:Hf.
  - destruct (FetchPage_Some _ _ Hf) as (k & -> & _). cbn [fst].
    pose proof (fsm_scan_first (GetData b (FreeSpaceMap.fsm_start_page_ f))
                  (Z.min (n / 16) 255)
                  (Z.to_nat (FreeSpaceMap.entries_per_page_ f)) 0
                  ltac:(lia)) as H.
    cbv zeta in H. rewrite !Z.add_0_l in H.
    cbv beta iota zeta. cbn [fst].
    destruct H as [[E Ha]|(Hr & H1 & H2 & Ha)]; [left; by split|right].
    split; [exact Hr|]. split; [by split|exact Ha].
  - by rewrite (FetchPage_None _ _ Hf).
Qed.

(** C6.  The claim holds of the interface ([free_space_map.h]: "Find a
    page with at least [needed_bytes] free") and fails on the code.  With
    [doc_fill] stored, heap page 2 has 16 free bytes and its FSM entry is
    the category 1.  A request for 17 bytes is rounded down to the
    category 1 by [BytesToCategory], so [FindPageWithSpace] answers page 2,
    which has no room for 17 bytes; no byte of the FSM page reaches
    [ceil (17 / 16) = 2], so the claimed answer is the invalid page id.
    [HeapFile::InsertRecord] of the 13-byte document [doc_small] asks for
    17 bytes, is sent to page 2, and finds no room there. *)
Theorem fsm_find_is_not_ceiling :
  SlottedPage.GetFreeSpace (GetData Scenario.users_tight 2) = 16
  ∧ peek (GetData Scenario.users_tight 1) 2 = 1
  ∧ fst (FreeSpaceMap.FindPageWithSpace
           Scenario.users_fsm Scenario.users_tight 17) = 2
  ∧ Claimed.FindPageWithSpace (GetData Scenario.users_tight 1) 17
    = INVALID_PAGE_ID
  ∧ Z.of_nat (length (Bson.Serialize Scenario.doc_small)) + 4 = 17
  ∧ fst (SlottedPage.InsertRecord (GetData Scenario.users_tight 2)
           (Bson.Serialize Scenario.doc_small) 13) = -1.
Proof. vm_compute. repeat split; reflexivity. Qed.

(** ** Recovery: analysis and redo *)

Section Redo.

Import WAL Recovery.







End Redo.


(** ** B+ tree: the leaf codec *)

Lemma length_le_bytes n v : length (le_bytes n v) = n.
Proof. revert v. induction n as [|n IH]; intros v; cbn; [done|]. by rewrite IH. Qed.

Lemma le_value_le_bytes n v : le_value (le_bytes n v) = v mod 256 ^ Z.of_nat n.
Proof.
  revert v. induction n as [|n IH]; intros v; cbn [le_bytes le_value].
  - by rewrite Z.mod_1_r.
  - rewrite IH, Nat2Z.inj_succ, Z.pow_succ_r by lia.
    rewrite Z.rem_mul_r by lia. done.
Qed.

Lemma le_value_le_bytes_u16 v :
  0 <= v < 65536 -> le_value (le_bytes 2 v) = v.
Proof.
  intros H. rewrite le_value_le_bytes.
  change (256 ^ Z.of_nat 2) with 65536. by rewrite Z.mod_small.
Qed.

Lemma le_value_le_bytes_i32 v :
  -2147483648 <= v < 2147483648 -> i32 (le_value (le_bytes 4 v)) = v.
Proof.
  intros H. rewrite le_value_le_bytes.
  change (256 ^ Z.of_nat 4) with 4294967296. unfold i32, u32.
  rewrite Z.mod_mod by lia.
  destruct (decide (0 <= v)) as [Hv|Hv].
  - rewrite Z.mod_small by lia.
    destruct (v <? 2147483648) eqn:E; [done|]. apply Z.ltb_ge in E. lia.
  - replace (v mod 4294967296) with (v + 4294967296).
    + destruct (_ <? _) eqn:E; [apply Z.ltb_lt in E|]; lia.
    + apply (Z.mod_unique_pos v 4294967296 (-1)); lia.
Qed.

Lemma bytes_string_bytes s : bytes_string (string_bytes s) = s.
Proof.
  induction s as [|c s IH]; cbn; [done|].
  by rewrite N2Z.id, Ascii.ascii_N_embedding, IH.
Qed.

Lemma length_string_bytes s : length (string_bytes s) = String.length s.
Proof. induction s as [|c s IH]; cbn; [done|]. by rewrite IH. Qed.

Lemma peek_n_mid pre x post off n :
  off = length pre -> n = length x -> BPlusTree.peek_n (pre ++ x ++ post) off n = x.
Proof.
  intros -> ->. unfold BPlusTree.peek_n.
  rewrite drop_app_length, resize_le by (rewrite length_app; lia).
  apply take_app_length.
Qed.

Lemma key_bytes_in_range key :
  BPlusTree.key_in_range key ->
  BPlusTree.key_bytes key
  = le_bytes 2 (Z.of_nat (String.length key)) ++ string_bytes key.
Proof.
  unfold BPlusTree.key_in_range, BPlusTree.key_bytes, u16. intros H.
  rewrite Z.mod_small by lia.
  rewrite Nat2Z.id, take_ge by (rewrite length_string_bytes; lia). done.
Qed.

Lemma read_leaf_entries_length data n : ∀ off,
  length (fst (BPlusTree.read_leaf_entries data off n)) = n
  ∧ length (snd (BPlusTree.read_leaf_entries data off n)) = n.
Proof.
  induction n as [|n IH]; intros off; cbn [BPlusTree.read_leaf_entries];
    [done|].
  match goal with
  | |- context [BPlusTree.read_leaf_entries data ?o n] =>
      destruct (IH o) as [H1 H2];
      destruct (BPlusTree.read_leaf_entries data o n) as [ks rs]
  end.
  cbn in *. lia.
Qed.

(** Entries laid out by [WriteLeafNode] anywhere in a buffer are read back
    by the loop of [ReadLeafNode] started at their first byte. *)
Lemma read_leaf_entries_payload keys : ∀ rids pre post,
  length rids = length keys ->
  Forall BPlusTree.key_in_range keys ->
  Forall BPlusTree.rid_in_range rids ->
  BPlusTree.read_leaf_entries
    (pre ++ BPlusTree.leaf_payload keys rids ++ post)
    (length pre) (length keys)
  = (keys, rids).
Proof.
  induction keys as [|key keys IH]; intros rids pre post Hlen Hk Hr.
  { destruct rids; [done|discriminate]. }
  destruct rids as [|rid rids]; [discriminate|].
  apply Forall_cons in Hk as [Hkey Hk]. apply Forall_cons in Hr as [Hrid Hr].
  destruct Hrid as [Hpid Hsid].
  cbn [BPlusTree.leaf_payload hd tl length BPlusTree.read_leaf_entries].
  unfold BPlusTree.leaf_entry_bytes. rewrite (key_bytes_in_range key Hkey).
  set (A := le_bytes 2 (Z.of_nat (String.length key))).
  set (B := string_bytes key).
  set (C := le_bytes 4 (page_id rid)).
  set (D := le_bytes 2 (slot_id rid)).
  set (rest := BPlusTree.leaf_payload keys rids).
  rewrite <- !app_assoc.
  set (data := pre ++ A ++ B ++ C ++ D ++ rest ++ post).
  assert (length A = 2%nat) as LA by apply length_le_bytes.
  assert (length B = String.length key) as LB by apply length_string_bytes.
  assert (length C = 4%nat) as LC by apply length_le_bytes.
  assert (length D = 2%nat) as LD by apply length_le_bytes.
  assert (BPlusTree.peek_n data (length pre) 2 = A) as E1.
  { unfold data. by apply peek_n_mid. }
  assert (Z.to_nat (le_value A) = String.length key) as VA.
  { unfold A. rewrite le_value_le_bytes_u16, Nat2Z.id; [done|].
    unfold BPlusTree.key_in_range in Hkey. lia. }
  rewrite !E1, !VA.
  assert (BPlusTree.peek_n data (length pre + 2) (String.length key) = B) as E2.
  { unfold data. rewrite (app_assoc pre A).
    apply peek_n_mid; [rewrite length_app; lia|done]. }
  rewrite !E2. unfold B at 1. rewrite bytes_string_bytes.
  assert (BPlusTree.peek_n data (length pre + 2 + String.length key) 4 = C)
    as E3.
  { unfold data. rewrite (app_assoc A B), (app_assoc pre).
    apply peek_n_mid; [rewrite !length_app; lia|done]. }
  rewrite !E3. unfold C at 1. rewrite le_value_le_bytes_i32 by done.
  assert (BPlusTree.peek_n data (length pre + 2 + String.length key + 4) 2 = D)
    as E4.
  { unfold data. rewrite (app_assoc B C), (app_assoc A), (app_assoc pre).
    apply peek_n_mid; [rewrite !length_app; lia|done]. }
  rewrite !E4. unfold D at 1. rewrite le_value_le_bytes_u16 by done.
  assert (data = (pre ++ A ++ B ++ C ++ D) ++ rest ++ post) as E5.
  { unfold data. by rewrite <- !app_assoc. }
  assert ((length pre + 2 + String.length key + 4 + 2)%nat
          = length (pre ++ A ++ B ++ C ++ D)) as E6.
  { rewrite !length_app. lia. }
  rewrite E6, E5. unfold rest.
  rewrite IH by (done || (cbn in Hlen; lia)).
  by destruct rid.
Qed.

Lemma i32_range z : -2147483648 <= i32 z < 2147483648.
Proof.
  unfold i32, u32.
  pose proof (Z.mod_pos_bound z 4294967296 ltac:(lia)).
  destruct (_ <? _) eqn:E; [apply Z.ltb_lt in E|apply Z.ltb_ge in E]; lia.
Qed.

Lemma memset0_page page : length page = PAGE_SIZE -> memset0 page 4096 = zero_page.
Proof.
  intros H. unfold memset0, memcpy, zero_page.
  rewrite length_replicate, H, Nat.sub_0_r. cbn [take app Nat.add].
  rewrite take_replicate, Nat.min_id.
  rewrite drop_ge by (unfold PAGE_SIZE in H; lia). by rewrite app_nil_r.
Qed.

Lemma length_header_bytes h : length (BPlusTree.header_bytes h) = 7%nat.
Proof. done. Qed.

(** The page [WriteLeafNode] produces from a zeroed page: header, entries,
    zeroes. *)
Lemma WriteLeafNode_image keys rids next :
  (BPlusTree.BTREE_NODE_HEADER_SIZE
   + length (BPlusTree.leaf_payload keys rids) <= PAGE_SIZE)%nat ->
  BPlusTree.WriteLeafNode zero_page keys rids next
  = BPlusTree.header_bytes
      (BPlusTree.mkHeader 1 (u16 (Z.of_nat (length keys))) next)
    ++ BPlusTree.leaf_payload keys rids
    ++ replicate (PAGE_SIZE - 7 - length (BPlusTree.leaf_payload keys rids)) 0.
Proof.
  unfold BPlusTree.BTREE_NODE_HEADER_SIZE. intros Hfit.
  unfold BPlusTree.WriteLeafNode, BPlusTree.WriteNodeHeader.
  set (hb := BPlusTree.header_bytes _).
  set (payload := BPlusTree.leaf_payload keys rids) in *.
  assert (length hb = 7%nat) as Lh by done.
  assert (memcpy zero_page 0 hb = hb ++ replicate (PAGE_SIZE - 7) 0) as ->.
  { unfold memcpy, zero_page.
    rewrite length_replicate, Lh, take_0, Nat.sub_0_r, Nat.add_0_l.
    rewrite take_ge by (rewrite Lh; unfold PAGE_SIZE; lia).
    by rewrite drop_replicate. }
  unfold memcpy, BPlusTree.BTREE_NODE_HEADER_SIZE.
  rewrite <- Lh at 1. rewrite take_app_length.
  rewrite length_app, length_replicate, Lh.
  rewrite take_ge by lia.
  rewrite <- Lh at 1. rewrite drop_app_add, drop_replicate.
  done.
Qed.

Lemma ReadNodeHeader_image il nk next rest :
  0 <= il < 256 -> 0 <= nk < 65536 -> -2147483648 <= next < 2147483648 ->
  BPlusTree.ReadNodeHeader
    (BPlusTree.header_bytes (BPlusTree.mkHeader il nk next) ++ rest)
  = BPlusTree.mkHeader il nk next.
Proof.
  intros Hil Hnk Hnext. unfold BPlusTree.ReadNodeHeader, BPlusTree.header_bytes.
  cbn [BPlusTree.is_leaf BPlusTree.num_keys BPlusTree.next_leaf].
  rewrite <- !app_assoc. f_equal.
  - cbn. unfold u8. by rewrite Z.mod_small.
  - rewrite peek_n_mid by (by rewrite ?length_le_bytes).
    by apply le_value_le_bytes_u16.
  - rewrite (app_assoc [_]).
    rewrite peek_n_mid by (by rewrite ?length_app, ?length_le_bytes).
    by apply le_value_le_bytes_i32.
Qed.

Lemma leaf_payload_length keys : ∀ rids,
  (8 * length keys <= length (BPlusTree.leaf_payload keys rids))%nat.
Proof.
  induction keys as [|key keys IH]; intros rids; cbn [BPlusTree.leaf_payload length];
    [lia|].
  specialize (IH (tl rids)).
  unfold BPlusTree.leaf_entry_bytes, BPlusTree.key_bytes.
  rewrite !length_app, !length_le_bytes. lia.
Qed.

Lemma leaf_payload_app k1 : ∀ r1 k2 r2,
  length r1 = length k1 ->
  BPlusTree.leaf_payload (k1 ++ k2) (r1 ++ r2)
  = BPlusTree.leaf_payload k1 r1 ++ BPlusTree.leaf_payload k2 r2.
Proof.
  induction k1 as [|k k1 IH]; intros r1 k2 r2 Hlen.
  - by destruct r1.
  - destruct r1 as [|r r1]; [discriminate|].
    cbn [app BPlusTree.leaf_payload hd tl].
    rewrite IH by (cbn in Hlen; lia). by rewrite <- app_assoc.
Qed.

(** A leaf written to a zeroed page is read back as it was written. *)
Lemma leaf_round_trip keys rids next :
  length rids = length keys ->
  BPlusTree.leaf_fits keys rids ->
  -2147483648 <= next < 2147483648 ->
  let page := BPlusTree.WriteLeafNode zero_page keys rids next in
  length page = PAGE_SIZE
  ∧ BPlusTree.ReadLeafNode page = (keys, rids)
  ∧ BPlusTree.ReadNodeHeader page
    = BPlusTree.mkHeader 1 (Z.of_nat (length keys)) next.
Proof.
  intros Hlen (Hk & Hr & Hfit) Hnext. cbv zeta.
  pose proof (leaf_payload_length keys rids) as Hcount.
  assert (0 <= Z.of_nat (length keys) < 65536) as Hnk.
  { unfold BPlusTree.BTREE_NODE_HEADER_SIZE, PAGE_SIZE in Hfit. lia. }
  assert (u16 (Z.of_nat (length keys)) = Z.of_nat (length keys)) as Eu
    by (unfold u16; by rewrite Z.mod_small).
  split.
  { unfold BPlusTree.WriteLeafNode, BPlusTree.WriteNodeHeader.
    rewrite !length_memcpy. apply length_replicate. }
  rewrite (WriteLeafNode_image _ _ _ Hfit), Eu.
  assert (BPlusTree.ReadNodeHeader
            (BPlusTree.header_bytes
               (BPlusTree.mkHeader 1 (Z.of_nat (length keys)) next)
             ++ BPlusTree.leaf_payload keys rids
             ++ replicate
                  (PAGE_SIZE - 7 - length (BPlusTree.leaf_payload keys rids)) 0)
          = BPlusTree.mkHeader 1 (Z.of_nat (length keys)) next) as Eh.
  { apply ReadNodeHeader_image; lia. }
  split; [|exact Eh].
  unfold BPlusTree.ReadLeafNode. rewrite Eh.
  cbn [BPlusTree.num_keys]. rewrite Nat2Z.id.
  apply read_leaf_entries_payload; done.
Qed.

(** ** B+ tree: the leaf split *)

Lemma length_vec_insert {A : Type} (v : list A) pos x :
  length (BPlusTree.vec_insert v pos x) = S (length v).
Proof.
  unfold BPlusTree.vec_insert.
  rewrite length_app, length_take. cbn [length]. rewrite length_drop. lia.
Qed.

Lemma GetData_SetData_eq b p d :
  length d = PAGE_SIZE -> GetData (SetData b p d) p = d.
Proof.
  intros H. unfold GetData, SetData, with_pages. cbn [pages].
  rewrite lookup_insert_eq. change (default [] (Some d)) with d.
  rewrite <- H. apply resize_all.
Qed.

Lemma GetData_SetData_ne b p q d :
  p ≠ q -> GetData (SetData b p d) q = GetData b q.
Proof.
  intros H. unfold GetData, SetData, with_pages. cbn [pages].
  by rewrite lookup_insert_ne.
Qed.

Lemma GetData_UnpinPage b p dirty q :
  GetData (UnpinPage b p dirty) q = GetData b q.
Proof.
  unfold UnpinPage, GetData, with_pins.
  destruct (pins b !! p) as [[]|]; reflexivity.
Qed.

Lemma pins_UnpinPage_last b p dirty :
  pins b !! p = Some 1%positive ->
  pins (UnpinPage b p dirty) = delete p (pins b).
Proof. unfold UnpinPage. by intros ->. Qed.





(** ** Lock manager *)

Section LockInvariant.

Import LockManager.

Lemma CanGrantLock_shared l :
  CanGrantLock l SHARED = true ->
  ∀ r, r ∈ l -> granted r = true -> mode r = SHARED.
Proof.
  induction l as [|req l IH]; cbn [CanGrantLock]; intros H r Hr Hg.
  - by apply elem_of_nil in Hr.
  - apply elem_of_cons in Hr as [->|Hr].
    + rewrite Hg in H. cbn in H. by destruct (mode req).
    + destruct (granted req); cbn in H; [destruct (mode req); [|done]|];
        by apply IH.
Qed.

Lemma others_hold_false l txn :
  others_hold l txn = false ->
  ∀ r, r ∈ l -> granted r = true -> txn_id r = txn.
Proof.
  induction l as [|req l IH]; cbn [others_hold]; intros H r Hr Hg.
  - by apply elem_of_nil in Hr.
  - destruct (negb (txn_id req =? txn) && granted req) eqn:E; [done|].
    apply elem_of_cons in Hr as [->|Hr]; [|by apply IH].
    rewrite Hg, andb_true_r in E. apply negb_false_iff, Z.eqb_eq in E. done.
Qed.

Lemma elem_of_requests (q : list Node) r :
  r ∈ requests q ↔ ∃ e : Node, e ∈ q ∧ e.2 = r.
Proof.
  unfold requests. rewrite list_elem_of_fmap. split.
  - intros (e & -> & He). eauto.
  - intros (e & He & <-). eauto.
Qed.

Lemma elem_of_update_node it f (q : list Node) (e' : Node) :
  e' ∈ update_node it f q ->
  ∃ e : Node, e ∈ q ∧ e'.1 = e.1
              ∧ ((e.1 = it ∧ e'.2 = f e.2) ∨ (e.1 ≠ it ∧ e' = e)).
Proof.
  unfold update_node. rewrite list_elem_of_fmap. intros (e & -> & He).
  exists e. split; [done|]. destruct (decide (e.1 = it)); cbn; eauto.
Qed.

Lemma fst_update_node it f (q : list Node) :
  (update_node it f q).*1 = q.*1.
Proof.
  unfold update_node. rewrite <- list_fmap_compose.
  apply list_fmap_ext. intros i e _. cbn. by destruct (decide (e.1 = it)).
Qed.

Lemma NoDup_fst_inj (q : list Node) (e1 e2 : Node) :
  NoDup q.*1 -> e1 ∈ q -> e2 ∈ q -> e1.1 = e2.1 -> e1 = e2.
Proof.
  induction q as [|e q IH]; intros Hnd H1 H2 Heq.
  - by apply elem_of_nil in H1.
  - rewrite fmap_cons in Hnd. apply NoDup_cons in Hnd as [Hnotin Hnd].
    apply elem_of_cons in H1 as [->|H1]; apply elem_of_cons in H2 as [->|H2].
    + done.
    + destruct Hnotin. rewrite Heq. by apply list_elem_of_fmap_2.
    + destruct Hnotin. rewrite <- Heq. by apply list_elem_of_fmap_2.
    + by apply IH.
Qed.

Lemma NoDup_txn_inj (l : list Waiter) (w1 w2 : Waiter) :
  NoDup (w_txn <$> l) -> w1 ∈ l -> w2 ∈ l -> w_txn w1 = w_txn w2 -> w1 = w2.
Proof.
  induction l as [|w l IH]; intros Hnd H1 H2 Heq.
  - by apply elem_of_nil in H1.
  - rewrite fmap_cons in Hnd. apply NoDup_cons in Hnd as [Hnotin Hnd].
    apply elem_of_cons in H1 as [->|H1]; apply elem_of_cons in H2 as [->|H2].
    + done.
    + destruct Hnotin. rewrite Heq. by apply list_elem_of_fmap_2.
    + destruct Hnotin. rewrite <- Heq. by apply list_elem_of_fmap_2.
    + by apply IH.
Qed.

(** The invariant on the queues gives the invariant on the granted
    requests. *)
Lemma queues_exclusive_owner lm :
  queues_exclusive lm -> exclusive_owner_invariant lm.
Proof.
  intros Hq key r1 r2 H1 H2 Hx. unfold granted_on, queue_of in *.
  apply list_elem_of_filter in H1 as [G1 H1].
  apply list_elem_of_filter in H2 as [G2 H2].
  apply elem_of_requests in H1 as (e1 & He1 & <-).
  apply elem_of_requests in H2 as (e2 & He2 & <-).
  destruct (lock_table_ lm !! key) as [q|] eqn:E; cbn in *.
  - by apply (Hq key q e1 e2).
  - by apply elem_of_nil in He1.
Qed.

Lemma inv_empty : inv empty.
Proof.
  split; [|split; [|split; [|split]]].
  - intros key q e1 e2 Hq. cbn in Hq. by rewrite lookup_empty in Hq.
  - intros key q e Hq. cbn in Hq. by rewrite lookup_empty in Hq.
  - intros key q Hq. cbn in Hq. by rewrite lookup_empty in Hq.
  - intros w Hw. by apply elem_of_nil in Hw.
  - constructor.
Qed.


(** Removing requests, or creating an empty queue, keeps [inv]. *)
Lemma inv_shrink lm lm' :
  inv lm ->
  next_node_ lm' = next_node_ lm ->
  blocked_ lm' = blocked_ lm ->
  (∀ key q', lock_table_ lm' !! key = Some q' ->
     q' = [] ∨ ∃ q, lock_table_ lm !! key = Some q ∧ q' `sublist_of` q) ->
  inv lm'.
Proof.
  intros (Hx & Ha & Hd & Hw & Hn) Enext Eblocked Hsub.
  unfold inv. rewrite Eblocked.
  split; [|split; [|split; [|split; [|exact Hn]]]].
  - intros key q' e1 e2 Hq' H1 H2.
    destruct (Hsub key q' Hq') as [->|(q & Hq & Hs)];
      [by apply elem_of_nil in H1|].
    apply (Hx key q e1 e2 Hq); by eapply elem_of_sublist.
  - intros key q' e Hq' He. rewrite Enext.
    destruct (Hsub key q' Hq') as [->|(q & Hq & Hs)];
      [by apply elem_of_nil in He|].
    apply (Ha key q e Hq). by eapply elem_of_sublist.
  - intros key q' Hq'.
    destruct (Hsub key q' Hq') as [->|(q & Hq & Hs)]; [constructor|].
    eapply sublist_NoDup; [by apply (Hd key q)|]. by apply fmap_sublist.
  - intros w Hin. destruct (Hw w Hin) as [Hlt Hok].
    split; [by rewrite Enext|].
    intros q' e Hq' He.
    destruct (Hsub _ q' Hq') as [->|(q & Hq & Hs)];
      [by apply elem_of_nil in He|].
    apply (Hok q e Hq). by eapply elem_of_sublist.
Qed.

Lemma inv_touch lm key : inv lm -> inv (touch lm key).
Proof.
  intros Hinv. apply (inv_shrink lm); [done..|].
  intros key' q'. cbn. rewrite lookup_insert. case_decide as E.
  - subst key'. intros [= <-]. unfold queue_of.
    destruct (lock_table_ lm !! key) as [q|]; cbn; eauto.
  - eauto.
Qed.

Lemma release_shrink txn k table key q' :
  release txn k table !! key = Some q' ->
  ∃ q, table !! key = Some q ∧ q' `sublist_of` q.
Proof.
  unfold release. destruct (table !! k) as [q0|] eqn:E; [|eauto].
  destruct (filter _ q0) as [|e qf] eqn:Ef.
  - rewrite lookup_delete. case_decide; [done|eauto].
  - rewrite lookup_insert. case_decide as Ek; [|eauto].
    subst key. intros [= <-]. exists q0. split; [done|].
    rewrite <- Ef. apply sublist_filter.
Qed.

Lemma inv_UnlockAll lm txn : inv lm -> inv (UnlockAll lm txn).
Proof.
  intros Hinv. unfold UnlockAll.
  destruct (txn_locks_ lm !! txn) as [keys|]; [|done].
  apply (inv_shrink lm); [done..|]. cbn.
  induction (elements keys) as [|k ks IH]; cbn [foldr]; intros key q' Hq'.
  - eauto.
  - apply release_shrink in Hq' as (q1 & Hq1 & Hs1).
    destruct (IH key q1 Hq1) as [->|(q & Hq & Hs)].
    + left. by apply sublist_nil_r in Hs1.
    + right. exists q. split; [done|]. by etrans.
Qed.

Lemma elem_of_queue_of lm key (e : Node) :
  e ∈ queue_of lm key -> ∃ q, lock_table_ lm !! key = Some q ∧ e ∈ q.
Proof.
  unfold queue_of. destruct (lock_table_ lm !! key) as [q|]; cbn; [eauto|].
  intros H. by apply elem_of_nil in H.
Qed.

Lemma inv_push_back lm key req :
  inv lm -> granted req = false -> inv (push_back lm key req).
Proof.
  intros (Hx & Ha & Hd & Hw & Hn) Hg.
  assert (∀ key' q' (e : Node),
            lock_table_ (push_back lm key req) !! key' = Some q' -> e ∈ q' ->
            (e = (next_node_ lm, req) ∧ key' = key)
            ∨ ∃ q, lock_table_ lm !! key' = Some q ∧ e ∈ q) as Hcases.
  { intros key' q' e. cbn. rewrite lookup_insert. case_decide as E.
    - subst key'. intros [= <-] He. apply elem_of_app in He as [He|He].
      + right. by apply elem_of_queue_of.
      + left. by apply list_elem_of_singleton in He.
    - eauto. }
  split; [|split; [|split; [|split; [|exact Hn]]]].
  - intros key' q' e1 e2 Hq' H1 H2 G1 G2.
    destruct (Hcases _ _ _ Hq' H1) as [[-> _]|(q1 & Hq1 & H1')];
      [cbn in G1; congruence|].
    destruct (Hcases _ _ _ Hq' H2) as [[-> _]|(q2 & Hq2 & H2')];
      [cbn in G2; congruence|].
    rewrite Hq1 in Hq2. injection Hq2 as <-. by apply (Hx key' q1).
  - intros key' q' e Hq' He. cbn [next_node_ push_back].
    destruct (Hcases _ _ _ Hq' He) as [[-> _]|(q & Hq & He')]; cbn; [lia|].
    specialize (Ha key' q e Hq He'). lia.
  - intros key' q'. cbn. rewrite lookup_insert. case_decide as E.
    + subst key'. intros [= <-]. rewrite fmap_app. apply NoDup_app.
      split; [|split].
      * unfold queue_of. destruct (lock_table_ lm !! key) as [q|] eqn:Eq;
          cbn; [by apply (Hd key)|constructor].
      * intros n Hn' Hin. cbn in Hin. apply list_elem_of_singleton in Hin.
        apply list_elem_of_fmap in Hn' as (e & -> & He).
        apply elem_of_queue_of in He as (q & Hq & He).
        specialize (Ha key q e Hq He). lia.
      * cbn. apply NoDup_singleton.
    + apply Hd.
  - intros w Hin. cbn [blocked_ push_back] in Hin.
    destruct (Hw w Hin) as [Hlt Hok]. split; [cbn; lia|].
    intros q' e Hq' He Hid.
    destruct (Hcases _ _ _ Hq' He) as [[-> _]|(q & Hq & He')];
      [cbn in Hid; lia|].
    by apply (Hok q e).
Qed.

Lemma waiter_ok_push_back lm key req kind :
  nodes_allocated lm ->
  (kind = WShared -> mode req = SHARED) ->
  waiter_ok (push_back lm key req)
    (mkWaiter (txn_id req) key kind (next_node_ lm)).
Proof.
  intros Ha Hmode. split; cbn; [lia|].
  intros q' e. rewrite lookup_insert_eq. intros [= <-] He Hid.
  apply elem_of_app in He as [He|He].
  - apply elem_of_queue_of in He as (q & Hq & He).
    specialize (Ha key q e Hq He). lia.
  - apply list_elem_of_singleton in He. by subst e.
Qed.

Lemma inv_block lm w :
  inv lm -> waiter_ok lm w -> ¬ is_blocked lm (w_txn w) -> inv (block lm w).
Proof.
  intros (Hx & Ha & Hd & Hw & Hn) Hok Hnb.
  split; [exact Hx|split; [exact Ha|split; [exact Hd|split]]].
  - intros w0 Hin. cbn in Hin. apply elem_of_app in Hin as [Hin|Hin].
    + by apply Hw.
    + apply list_elem_of_singleton in Hin. subst w0. apply Hok.
  - cbn. rewrite fmap_app. apply NoDup_app. split; [done|split].
    + intros txn Hin Hin'. cbn in Hin'. apply list_elem_of_singleton in Hin'.
      apply list_elem_of_fmap in Hin as (w2 & -> & Hw2).
      apply Hnb. by exists w2.
    + cbn. apply NoDup_singleton.
Qed.

Lemma inv_unblock lm w : inv lm -> inv (unblock lm w).
Proof.
  intros (Hx & Ha & Hd & Hw & Hn).
  split; [exact Hx|split; [exact Ha|split; [exact Hd|split]]].
  - intros w0 Hin. cbn in Hin. apply list_elem_of_filter in Hin as [_ Hin].
    by apply Hw.
  - cbn. eapply sublist_NoDup; [exact Hn|].
    apply fmap_sublist, sublist_filter.
Qed.

Lemma lookup_alter_update (it : nat) (f : LockRequest -> LockRequest)
    (key key' : LockKey)
    (t : gmap LockKey (list Node)) (q' : list Node) :
  alter (update_node it f) key t !! key' = Some q' ->
  (key' = key ∧ ∃ q, t !! key = Some q ∧ q' = update_node it f q)
  ∨ (key' ≠ key ∧ t !! key' = Some q').
Proof.
  destruct (decide (key' = key)) as [->|Hne].
  - rewrite lookup_alter_eq. destruct (t !! key) as [q|]; cbn; [|done].
    intros [= <-]. left. eauto.
  - rewrite lookup_alter_ne by done. eauto.
Qed.

(** A write through an iterator keeps [inv] when it keeps the two facts
    that speak of the contents of the requests. *)
Lemma inv_update lm lm' key it f :
  inv lm ->
  lock_table_ lm' = alter (update_node it f) key (lock_table_ lm) ->
  next_node_ lm' = next_node_ lm ->
  blocked_ lm' = blocked_ lm ->
  (∀ q (e1 e2 : Node),
     lock_table_ lm !! key = Some q ->
     e1 ∈ update_node it f q -> e2 ∈ update_node it f q ->
     granted e1.2 = true -> granted e2.2 = true ->
     mode e1.2 = EXCLUSIVE -> txn_id e1.2 = txn_id e2.2) ->
  (∀ w2 q (e : Node),
     w2 ∈ blocked_ lm -> w_key w2 = key ->
     lock_table_ lm !! key = Some q -> e ∈ q ->
     e.1 = w_node w2 -> e.1 = it ->
     txn_id (f e.2) = w_txn w2
     ∧ (w_kind w2 = WShared -> mode (f e.2) = SHARED)) ->
  inv lm'.
Proof.
  intros (Hx & Ha & Hd & Hw & Hn) Et En Eb Hx' Hw'.
  unfold inv. rewrite Eb.
  split; [|split; [|split; [|split; [|exact Hn]]]].
  - intros key' q' e1 e2 Hq'. rewrite Et in Hq'.
    apply lookup_alter_update in Hq' as [(-> & q & Hq & ->)|(_ & Hq)].
    + exact (Hx' q e1 e2 Hq).
    + exact (Hx key' q' e1 e2 Hq).
  - intros key' q' e' Hq' He'. rewrite Et in Hq'. rewrite En.
    apply lookup_alter_update in Hq' as [(-> & q & Hq & ->)|(_ & Hq)].
    + apply elem_of_update_node in He' as (e & He & -> & _).
      by apply (Ha key q).
    + by apply (Ha key' q').
  - intros key' q' Hq'. rewrite Et in Hq'.
    apply lookup_alter_update in Hq' as [(-> & q & Hq & ->)|(_ & Hq)].
    + rewrite fst_update_node. by apply (Hd key).
    + by apply (Hd key').
  - intros w2 Hin. destruct (Hw w2 Hin) as [Hlt Hok].
    split; [by rewrite En|].
    intros q' e' Hq' He' Hid. rewrite Et in Hq'.
    apply lookup_alter_update in Hq' as [(Ek & q & Hq & ->)|(_ & Hq)].
    + apply elem_of_update_node in He' as (e & He & E1 & [[Eit ->]|[_ ->]]).
      * apply (Hw' w2 q e); try done. congruence.
      * rewrite <- Ek in Hq. by apply (Hok q e).
    + by apply (Hok q' e').
Qed.

(** When no other transaction holds the resource, the granted requests
    after a write through an iterator of [txn] are all of [txn]. *)
Lemma update_node_owner it f (q : list Node) txn (e' : Node) :
  others_hold (requests q) txn = false ->
  (∀ r, txn_id (f r) = txn_id r) ->
  (∀ e : Node, e ∈ q -> e.1 = it -> txn_id e.2 = txn) ->
  e' ∈ update_node it f q ->
  granted e'.2 = true -> txn_id e'.2 = txn.
Proof.
  intros Hothers Hf Hit He' Hg.
  apply elem_of_update_node in He' as (e & He & _ & [[Eit E2]|[Hne ->]]).
  - rewrite E2, Hf. by apply Hit.
  - apply (others_hold_false _ _ Hothers); [|done].
    apply elem_of_requests. eauto.
Qed.

Lemma inv_complete lm w :
  inv lm -> waiter_ok lm w ->
  (∀ w2, w2 ∈ blocked_ lm -> w_txn w2 ≠ w_txn w) ->
  ready lm w = true ->
  inv (complete lm w).
Proof.
  intros Hinv [Hlt Hok] Hothers Hready.
  assert (∀ (f : LockRequest -> LockRequest) w2 q (e : Node),
      w2 ∈ blocked_ lm -> w_key w2 = w_key w ->
      lock_table_ lm !! w_key w = Some q -> e ∈ q ->
      e.1 = w_node w2 -> e.1 = w_node w ->
      txn_id (f e.2) = w_txn w2
      ∧ (w_kind w2 = WShared -> mode (f e.2) = SHARED)) as Hwaiters.
  { intros f w2 q e Hin Ek Hq He E2 Ew.
    destruct (Hok q e Hq He Ew) as [Htxn _].
    destruct Hinv as (_ & _ & _ & Hw & _).
    destruct (Hw w2 Hin) as [_ Hok2]. rewrite <- Ek in Hq.
    destruct (Hok2 q e Hq He E2) as [Htxn2 _].
    destruct (Hothers w2 Hin). congruence. }
  unfold complete. unfold ready in Hready.
  destruct (w_kind w) eqn:Ekind.
  - eapply (inv_update lm _ (w_key w) (w_node w) set_granted);
      [done|reflexivity..| |by apply Hwaiters].
    intros q e1 e2 Hq H1 H2 G1 G2 M1. exfalso.
    unfold queue_of in Hready. rewrite Hq in Hready. cbn in Hready.
    apply elem_of_update_node in H1 as (e & He & _ & [[Eit E2]|[Hne ->]]).
    + destruct (Hok q e Hq He Eit) as [_ Hm]. rewrite E2 in M1. cbn in M1.
      rewrite Hm in M1; done.
    + assert (mode e.2 = SHARED); [|congruence].
      apply (CanGrantLock_shared _ Hready); [|done].
      apply elem_of_requests. eauto.
  - eapply (inv_update lm _ (w_key w) (w_node w) set_granted);
      [done|reflexivity..| |by apply Hwaiters].
    intros q e1 e2 Hq H1 H2 G1 G2 _.
    unfold queue_of in Hready. rewrite Hq in Hready. cbn in Hready.
    apply negb_true_iff in Hready.
    assert (∀ e' : Node, e' ∈ update_node (w_node w) set_granted q ->
              granted e'.2 = true -> txn_id e'.2 = w_txn w) as Hown.
    { intros e'. apply update_node_owner; [done|done|].
      intros e He Eit. by destruct (Hok q e Hq He Eit). }
    rewrite (Hown e1), (Hown e2); done.
  - eapply (inv_update lm _ (w_key w) (w_node w) set_mode_exclusive);
      [done|reflexivity..| |by apply Hwaiters].
    intros q e1 e2 Hq H1 H2 G1 G2 _.
    unfold queue_of in Hready. rewrite Hq in Hready. cbn in Hready.
    apply negb_true_iff in Hready.
    assert (∀ e' : Node, e' ∈ update_node (w_node w) set_mode_exclusive q ->
              granted e'.2 = true -> txn_id e'.2 = w_txn w) as Hown.
    { intros e'. apply update_node_owner; [done|done|].
      intros e He Eit. by destruct (Hok q e Hq He Eit). }
    rewrite (Hown e1), (Hown e2); done.
Qed.

Lemma inv_wait_or_complete lm w :
  inv lm -> waiter_ok lm w -> ¬ is_blocked lm (w_txn w) ->
  inv (wait_or_complete lm w).
Proof.
  intros Hinv Hok Hnb. unfold wait_or_complete.
  destruct (ready lm w) eqn:E.
  - apply inv_complete; [done..| |done].
    intros w2 Hin Etxn. apply Hnb. by exists w2.
  - by apply inv_block.
Qed.

Lemma inv_LockShared lm txn rid :
  inv lm -> ¬ is_blocked lm txn -> inv (LockShared lm txn rid).
Proof.
  intros Hinv Hnb. unfold LockShared.
  pose proof (inv_touch lm (MakeKey rid) Hinv) as Ht.
  destruct (holds _ txn); [done|].
  apply inv_wait_or_complete.
  - by apply inv_push_back.
  - apply (waiter_ok_push_back _ _ (mkReq txn SHARED false)); [apply Ht|done].
  - exact Hnb.
Qed.

Lemma inv_LockExclusive lm txn rid :
  inv lm -> ¬ is_blocked lm txn -> inv (LockExclusive lm txn rid).
Proof.
  intros Hinv Hnb. unfold LockExclusive.
  pose proof (inv_touch lm (MakeKey rid) Hinv) as Ht.
  destruct (holds_exclusive _ txn); [done|].
  apply inv_wait_or_complete.
  - by apply inv_push_back.
  - apply (waiter_ok_push_back _ _ (mkReq txn EXCLUSIVE false));
      [apply Ht|done].
  - exact Hnb.
Qed.

Lemma find_granted_Some (q : list Node) txn (e : Node) :
  find_granted q txn = Some e ->
  e ∈ q ∧ txn_id e.2 = txn ∧ granted e.2 = true.
Proof.
  induction q as [|e0 q IH]; cbn [find_granted]; [done|].
  destruct ((txn_id e0.2 =? txn) && granted e0.2) eqn:E.
  - intros [= <-]. apply andb_true_iff in E as [E1 E2].
    apply Z.eqb_eq in E1. split; [apply elem_of_cons; by left|done].
  - intros H. destruct (IH H) as (Hin & Ht & Hg).
    split; [apply elem_of_cons; by right|done].
Qed.

Lemma inv_LockUpgrade lm txn rid :
  inv lm -> ¬ is_blocked lm txn -> inv (LockUpgrade lm txn rid).
Proof.
  intros Hinv Hnb. unfold LockUpgrade.
  destruct (lock_table_ lm !! MakeKey rid) as [q|] eqn:Eq; [|done].
  destruct (find_granted q txn) as [[it r]|] eqn:Ef; [|done].
  destruct (mode r); [|done].
  apply find_granted_Some in Ef as (Hin & Htxn & _).
  apply inv_wait_or_complete; [done| |done].
  destruct Hinv as (_ & Ha & Hd & _ & _).
  split; cbn; [apply (Ha _ q (it, r) Eq Hin)|].
  intros q' e. rewrite Eq. intros [= <-] He Hid.
  rewrite (NoDup_fst_inj q e (it, r)); [done|by apply (Hd (MakeKey rid))|done..].
Qed.

Lemma inv_wake lm w : inv lm -> w ∈ blocked_ lm -> inv (wake lm w).
Proof.
  intros Hinv Hin. unfold wake.
  destruct (ready lm w) eqn:E; [|done].
  apply inv_complete; [by apply inv_unblock| | |exact E].
  - destruct Hinv as (_ & _ & _ & Hw & _). exact (Hw w Hin).
  - intros w2 Hin2 Etxn. cbn in Hin2.
    apply list_elem_of_filter in Hin2 as [Hne Hin2]. apply Hne.
    destruct Hinv as (_ & _ & _ & _ & Hn).
    by apply (NoDup_txn_inj (blocked_ lm)).
Qed.

Lemma inv_step lm lm' : inv lm -> step lm lm' -> inv lm'.
Proof.
  intros Hinv Hstep. destruct Hstep.
  - by apply inv_LockShared.
  - by apply inv_LockExclusive.
  - by apply inv_LockUpgrade.
  - by apply inv_UnlockAll.
  - by apply inv_wake.
Qed.

Lemma inv_reachable lm : reachable lm -> inv lm.
Proof.
  unfold reachable. intros H. revert lm H.
  apply (rtc_ind_r (λ lm, inv lm)); [apply inv_empty|].
  intros lm1 lm2 _ Hstep Hinv. by apply (inv_step lm1).
Qed.

Lemma not_blocked_nil lm txn : blocked_ lm = [] -> ¬ is_blocked lm txn.
Proof.
  intros E (w & Hin & _). rewrite E in Hin. by apply elem_of_nil in Hin.
Qed.

Lemma reachable_shared_then_exclusive :
  reachable Scenario.shared_then_exclusive.
Proof.
  unfold reachable, Scenario.shared_then_exclusive.
  eapply rtc_l; [apply (step_lock_shared empty 1 Scenario.locked_rid)|].
  { by apply not_blocked_nil. }
  apply rtc_once, step_lock_exclusive, not_blocked_nil.
  vm_compute. reflexivity.
Qed.

(** A reader blocked behind a writer is granted the lock once the writer
    has released it and the reader is woken. *)
Example reader_granted_after_unlock :
  blocked_ Scenario.reader_waits = [Scenario.reader]
  ∧ granted_on Scenario.reader_waits (MakeKey Scenario.locked_rid)
    = [mkReq 1 EXCLUSIVE true]
  ∧ wake Scenario.reader_waits Scenario.reader = Scenario.reader_waits
  ∧ granted_on (wake (UnlockAll Scenario.reader_waits 1) Scenario.reader)
      (MakeKey Scenario.locked_rid)
    = [mkReq 2 SHARED true].
Proof. vm_compute. done. Qed.

End LockInvariant.

(** C5, as the code has it.  In every state the lock manager reaches by
    LockShared, LockExclusive, LockUpgrade and UnlockAll calls (and the
    wake-ups of blocked calls), a granted EXCLUSIVE request on a resource
    excludes granted requests of every other transaction: all granted
    requests on that resource are then of the transaction that holds it
    EXCLUSIVE. *)
Theorem lock_exclusive_owner_invariant (lm : LockManager.LockManager) :
  LockManager.reachable lm -> LockManager.exclusive_owner_invariant lm.
Proof.
  intros H. by apply queues_exclusive_owner, inv_reachable.
Qed.

Lemma lock_exclusive_owner_invariant_witness :
  LockManager.reachable Scenario.shared_then_exclusive
  ∧ LockManager.exclusive_owner_invariant Scenario.shared_then_exclusive.
Proof.
  split; [apply reachable_shared_then_exclusive|].
  apply (lock_exclusive_owner_invariant Scenario.shared_then_exclusive).
  apply reachable_shared_then_exclusive.
Defined.

(** C5, as stated, fails: after LockShared and LockExclusive by the same
    transaction on the same record, a SHARED and an EXCLUSIVE request are
    granted on it together. *)
Lemma lock_shared_and_exclusive_granted_together :
  LockManager.reachable Scenario.shared_then_exclusive
  ∧ LockManager.granted_on Scenario.shared_then_exclusive
      (LockManager.MakeKey Scenario.locked_rid)
    = [LockManager.mkReq 1 LockManager.SHARED true;
       LockManager.mkReq 1 LockManager.EXCLUSIVE true]
  ∧ ¬ LockManager.spec_invariant Scenario.shared_then_exclusive.
Proof.
  assert (LockManager.granted_on Scenario.shared_then_exclusive
            (LockManager.MakeKey Scenario.locked_rid)
          = [LockManager.mkReq 1 LockManager.SHARED true;
             LockManager.mkReq 1 LockManager.EXCLUSIVE true]) as E.
  { vm_compute. reflexivity. }
  split; [apply reachable_shared_then_exclusive|]. split; [exact E|].
  intros H. specialize (H (LockManager.MakeKey Scenario.locked_rid)).
  rewrite E in H. vm_compute in H. destruct H as [[_ H]|H]; discriminate.
Qed.

(** ** Heap-file insert *)

(** When the pool can supply the FSM page, [UpdateFreeSpace] leaves the
    category of [free_bytes] in the entry of the heap page. *)
Lemma UpdateFreeSpace_entry f b p free_bytes :
  let fsm_page := fst (FreeSpaceMap.GetFSMLocation f p) in
  let offset := Z.to_nat (snd (FreeSpaceMap.GetFSMLocation f p)) in
  fetchable b fsm_page = true -> (offset < PAGE_SIZE)%nat ->
  peek (GetData (FreeSpaceMap.UpdateFreeSpace f b p free_bytes) fsm_page) offset
  = FreeSpaceMap.BytesToCategory free_bytes.
Proof.
  intros fsm_page offset Hf Hoff. unfold FreeSpaceMap.UpdateFreeSpace.
  rewrite (surjective_pairing (FreeSpaceMap.GetFSMLocation f p)).
  fold fsm_page offset.
  destruct (FetchPage_Some b fsm_page Hf) as (n & E & _). rewrite E.
  rewrite GetData_UnpinPage, GetData_SetData_eq
    by (rewrite length_poke; apply GetData_length).
  rewrite peek_poke_eq by (rewrite GetData_length; exact Hoff).
  unfold FreeSpaceMap.BytesToCategory, u8. apply Z.mod_mod. lia.
Qed.

(** The three ways on the collection [users]: a first insert goes to heap
    page 2 and leaves its FSM entry at the category of the 4054 bytes the
    page has left; with the page full behind a stale FSM entry the insert
    lands on a new page 3; a record of 5016 bytes fits no page. *)
Example heap_insert_three_ways :
  (let r := HeapFile.InsertRecord (fst Scenario.users) (snd Scenario.users)
              Scenario.doc_alice in
   fst (fst r) = Ok (mkRid 2 0)
   ∧ SlottedPage.GetFreeSpace (GetData (snd (fst r)) 2) = 4054
   ∧ peek (GetData (snd (fst r)) 1) 2 = FreeSpaceMap.BytesToCategory 4054)
  ∧ fst (fst (HeapFile.InsertRecord Scenario.users_stale (snd Scenario.users)
                Scenario.doc_alice))
    = Ok (mkRid 3 0)
  ∧ fst (fst (HeapFile.InsertRecord (fst Scenario.users) (snd Scenario.users)
                Scenario.doc_blob))
    = Throw "HeapFile: Record too large for a single page".
Proof. vm_compute. done. Qed.

(** ** Slotted page: layout and round trips *)

Lemma page_okb_ok p : page_okb p = true -> page_ok p.
Proof.
  unfold page_okb. rewrite !andb_true_iff.
  intros [[[[[H1 H2] H3] H4] H5] H6].
  apply Nat.eqb_eq in H1. apply Z.leb_le in H2, H4, H5. apply Z.eqb_eq in H3.
  split; [done..|].
  intros i Hi Hlive. rewrite forallb_forall in H6.
  specialize (H6 (Z.to_nat i)). rewrite Z2Nat.id in H6 by lia.
  assert (In (Z.to_nat i) (seq 0 (Z.to_nat (SlottedPage.num_slots p)))) as Hin
    by (apply in_seq; lia).
  apply H6 in Hin. apply orb_true_iff in Hin as [E|E].
  - apply Z.eqb_eq in E. done.
  - apply andb_true_iff in E as [E1 E2]. apply Z.leb_le in E1, E2. done.
Qed.

Lemma lookup_poke_ne buf off v i : i ≠ off -> poke buf off v !! i = buf !! i.
Proof. intros H. unfold poke. by rewrite list_lookup_insert_ne. Qed.

Lemma lookup_set_u16_ne buf off v i :
  i ≠ off -> i ≠ S off -> set_u16 buf off v !! i = buf !! i.
Proof. intros H1 H2. unfold set_u16. by rewrite !lookup_poke_ne. Qed.

Lemma lookup_memcpy_out buf off src i :
  (i < off ∨ off + length src <= i)%nat -> memcpy buf off src !! i = buf !! i.
Proof.
  intros H. unfold memcpy.
  destruct (decide (i < length buf)%nat) as [Hi|Hi].
  - destruct H as [H|H].
    + rewrite lookup_app_l by (rewrite length_take; lia).
      by rewrite lookup_take_lt.
    + rewrite lookup_app_r by (rewrite length_take; lia).
      rewrite length_take.
      rewrite lookup_app_r by (rewrite length_take; lia).
      rewrite length_take, lookup_drop. f_equal. lia.
  - rewrite (lookup_ge_None_2 buf) by lia.
    apply lookup_ge_None_2.
    rewrite !length_app, !length_take, length_drop. lia.
Qed.

Lemma region_ext buf buf' off n :
  (∀ i, (off <= i < off + n)%nat -> buf !! i = buf' !! i) ->
  region buf off n = region buf' off n.
Proof.
  intros H. unfold region. apply list_eq. intros i.
  destruct (decide (i < n)%nat) as [Hi|Hi].
  - rewrite !lookup_take_lt, !lookup_drop by done. apply H. lia.
  - by rewrite !lookup_take_ge by lia.
Qed.

Lemma region_memcpy buf off src :
  (off + length src <= length buf)%nat ->
  region (memcpy buf off src) off (length src) = src.
Proof.
  intros H. unfold region, memcpy.
  rewrite drop_app_length' by (rewrite length_take; lia).
  rewrite (take_ge src) by lia.
  by rewrite take_app_length.
Qed.

Lemma u16_small z : 0 <= z < 65536 -> u16 z = z.
Proof. intros H. unfold u16. by rewrite Z.mod_small. Qed.

Lemma i16_small z : 0 <= z < 32768 -> i16 z = z.
Proof.
  intros H. unfold i16. rewrite u16_small by lia.
  destruct (z <? 32768) eqn:E; [done|]. apply Z.ltb_ge in E. lia.
Qed.

Lemma GetSlotEntry_small j :
  0 <= j < 65536 -> SlottedPage.GetSlotEntry j = Z.to_nat (8 + 4 * j).
Proof.
  intros H. unfold SlottedPage.GetSlotEntry, SlottedPage.HEADER_SIZE,
    SlottedPage.SLOT_ENTRY_SIZE.
  rewrite u16_small by done. lia.
Qed.

Lemma find_tombstone_spec p fuel : ∀ i,
  0 <= i -> i + Z.of_nat fuel <= 32768 ->
  let t := SlottedPage.find_tombstone p i fuel in
  (t = -1 ∧ ∀ j, i <= j < i + Z.of_nat fuel -> SlottedPage.slot_length p j ≠ 0)
  ∨ (i <= t < i + Z.of_nat fuel ∧ SlottedPage.slot_length p t = 0
     ∧ ∀ j, i <= j < t -> SlottedPage.slot_length p j ≠ 0).
Proof.
  induction fuel as [|fuel IH]; intros i Hi Hb; cbn [SlottedPage.find_tombstone].
  - left. split; [done|]. intros j Hj. lia.
  - destruct (SlottedPage.slot_length p i =? 0) eqn:E.
    + apply Z.eqb_eq in E. right. rewrite i16_small by lia.
      split; [lia|]. split; [done|]. intros j Hj. lia.
    + apply Z.eqb_neq in E.
      destruct (IH (i + 1) ltac:(lia) ltac:(lia)) as [[-> Hall]|(Ht & Hz & Hall)].
      * left. split; [done|]. intros j Hj.
        destruct (decide (j = i)) as [->|]; [done|]. apply Hall. lia.
      * right. split; [lia|]. split; [done|]. intros j Hj.
        destruct (decide (j = i)) as [->|]; [done|]. apply Hall. lia.
Qed.

Lemma page_ok_slots p : page_ok p -> 0 <= SlottedPage.num_slots p <= 1022.
Proof. intros [Hl Hs Hb [Hr1 Hr2] _]. lia. Qed.

(** The header fields and slot entries after a write of a [uint16_t]. *)
Lemma header_set_u16 q e v :
  (8 <= e)%nat ->
  SlottedPage.num_slots (set_u16 q e v) = SlottedPage.num_slots q
  ∧ SlottedPage.free_space_begin (set_u16 q e v) = SlottedPage.free_space_begin q
  ∧ SlottedPage.free_space_end (set_u16 q e v) = SlottedPage.free_space_end q.
Proof.
  intros H. unfold SlottedPage.num_slots, SlottedPage.free_space_begin,
    SlottedPage.free_space_end.
  by rewrite !get_u16_set_u16_ne by lia.
Qed.

Lemma header_memcpy q off src :
  (8 <= off)%nat ->
  SlottedPage.num_slots (memcpy q off src) = SlottedPage.num_slots q
  ∧ SlottedPage.free_space_begin (memcpy q off src) = SlottedPage.free_space_begin q
  ∧ SlottedPage.free_space_end (memcpy q off src) = SlottedPage.free_space_end q.
Proof.
  intros H. unfold SlottedPage.num_slots, SlottedPage.free_space_begin,
    SlottedPage.free_space_end.
  by rewrite !get_u16_memcpy_out by lia.
Qed.

Lemma slot_set_u16_ne q e v j :
  0 <= j < 65536 ->
  (e + 1 < Z.to_nat (8 + 4 * j) ∨ Z.to_nat (8 + 4 * j) + 3 < e)%nat ->
  SlottedPage.slot_offset (set_u16 q e v) j = SlottedPage.slot_offset q j
  ∧ SlottedPage.slot_length (set_u16 q e v) j = SlottedPage.slot_length q j.
Proof.
  intros Hj H. unfold SlottedPage.slot_offset, SlottedPage.slot_length.
  rewrite GetSlotEntry_small by done.
  by rewrite !get_u16_set_u16_ne by lia.
Qed.

Lemma slot_memcpy q off src j :
  0 <= j < 65536 -> (Z.to_nat (8 + 4 * j) + 3 < off)%nat ->
  SlottedPage.slot_offset (memcpy q off src) j = SlottedPage.slot_offset q j
  ∧ SlottedPage.slot_length (memcpy q off src) j = SlottedPage.slot_length q j.
Proof.
  intros Hj H. unfold SlottedPage.slot_offset, SlottedPage.slot_length.
  rewrite GetSlotEntry_small by done.
  by rewrite !get_u16_memcpy_out by lia.
Qed.

(** The two writes [slot->offset = off; slot->length = len] into the entry
    of slot [s]. *)
Lemma slot_write_post q s off len :
  length q = PAGE_SIZE -> 0 <= s <= 1021 ->
  0 <= off < 65536 -> 0 <= len < 65536 ->
  let e := Z.to_nat (8 + 4 * s) in
  let q' := set_u16 (set_u16 q e off) (e + 2) len in
  length q' = PAGE_SIZE
  ∧ SlottedPage.num_slots q' = SlottedPage.num_slots q
  ∧ SlottedPage.free_space_begin q' = SlottedPage.free_space_begin q
  ∧ SlottedPage.free_space_end q' = SlottedPage.free_space_end q
  ∧ SlottedPage.slot_offset q' s = off
  ∧ SlottedPage.slot_length q' s = len
  ∧ (∀ j, 0 <= j < 65536 -> j ≠ s ->
       SlottedPage.slot_offset q' j = SlottedPage.slot_offset q j
       ∧ SlottedPage.slot_length q' j = SlottedPage.slot_length q j)
  ∧ (∀ k, (k < e ∨ e + 3 < k)%nat -> q' !! k = q !! k).
Proof.
  intros Hl Hs Hoff Hlen e q'.
  assert (length q' = PAGE_SIZE) as Hl' by (unfold q'; by rewrite !length_set_u16).
  split; [done|].
  destruct (header_set_u16 (set_u16 q e off) (e + 2) len ltac:(lia))
    as (N1 & B1 & E1).
  destruct (header_set_u16 q e off ltac:(lia)) as (N0 & B0 & E0).
  fold q' in N1, B1, E1.
  split; [congruence|]. split; [congruence|]. split; [congruence|].
  unfold PAGE_SIZE in *.
  split; [|split; [|split]].
  - unfold SlottedPage.slot_offset. rewrite GetSlotEntry_small by lia.
    fold e. unfold q'. rewrite get_u16_set_u16_ne by lia.
    rewrite get_u16_set_u16_eq by lia. by apply u16_small.
  - unfold SlottedPage.slot_length. rewrite GetSlotEntry_small by lia.
    fold e. unfold q'.
    rewrite get_u16_set_u16_eq by (rewrite length_set_u16; lia).
    by apply u16_small.
  - intros j Hj Hne. unfold q'.
    destruct (slot_set_u16_ne (set_u16 q e off) (e + 2) len j Hj ltac:(lia))
      as [-> ->].
    by apply slot_set_u16_ne; [|lia].
  - intros k Hk. unfold q'. rewrite !lookup_set_u16_ne by lia. done.
Qed.

Section SlottedInsert.

Variables (p record : list Z) (record_len : Z).
Hypothesis Hok : page_ok p.
Hypothesis Hlen : 0 <= record_len <= 65531.

Let ns := SlottedPage.num_slots p.
Let fb := SlottedPage.free_space_begin p.
Let fe := SlottedPage.free_space_end p.
Let data := take (Z.to_nat record_len) record.

(** The page after the record bytes and the new [free_space_end] are
    written. *)
Let p2 := memcpy (SlottedPage.set_free_space_end p (fe - record_len))
            (Z.to_nat (fe - record_len)) data.

Lemma insert_p2_header :
  record_len <= fe - fb ->
  length p2 = PAGE_SIZE
  ∧ SlottedPage.num_slots p2 = ns
  ∧ SlottedPage.free_space_begin p2 = fb
  ∧ SlottedPage.free_space_end p2 = fe - record_len.
Proof.
  intros Hroom. destruct Hok as [Hl Hs Hb [Hr1 Hr2] Hrec].
  fold ns fb fe in Hs, Hb, Hr1, Hr2.
  unfold p2. rewrite length_memcpy.
  unfold SlottedPage.set_free_space_end. rewrite length_set_u16.
  split; [done|].
  destruct (header_memcpy (set_u16 p 4 (fe - record_len))
              (Z.to_nat (fe - record_len)) data ltac:(lia)) as (-> & -> & ->).
  unfold SlottedPage.num_slots, SlottedPage.free_space_begin,
    SlottedPage.free_space_end.
  rewrite !get_u16_set_u16_ne by lia.
  rewrite get_u16_set_u16_eq by (rewrite Hl; unfold PAGE_SIZE; lia).
  rewrite u16_small by lia. done.
Qed.

Let t := SlottedPage.find_tombstone p 0 (Z.to_nat ns).

Lemma insert_tombstone_cases :
  (t = -1 ∧ ∀ j, 0 <= j < ns -> SlottedPage.slot_length p j ≠ 0)
  ∨ (0 <= t < ns ∧ SlottedPage.slot_length p t = 0
     ∧ ∀ j, 0 <= j < t -> SlottedPage.slot_length p j ≠ 0).
Proof.
  pose proof (page_ok_slots p Hok) as Hns. fold ns in Hns.
  pose proof (find_tombstone_spec p (Z.to_nat ns) 0 ltac:(lia) ltac:(lia)) as H.
  cbv zeta in H. fold t in H. rewrite Z2Nat.id in H by lia.
  destruct H as [[H1 H2]|(H1 & H2 & H3)]; [left|right]; auto.
Qed.

(** The page [InsertRecord] returns when the record goes to a new slot. *)
Let p_append :=
  let q := SlottedPage.set_free_space_begin
             (SlottedPage.set_num_slots p2 (ns + 1)) (fb + 4) in
  set_u16 (set_u16 q (Z.to_nat (8 + 4 * ns)) (fe - record_len))
          (Z.to_nat (8 + 4 * ns) + 2) record_len.

(** The page it returns when the record takes over the tombstone [t]. *)
Let p_reuse :=
  set_u16 (set_u16 p2 (Z.to_nat (8 + 4 * t)) (fe - record_len))
          (Z.to_nat (8 + 4 * t) + 2) record_len.

Lemma insert_append_eq :
  t = -1 -> record_len + 4 <= fe - fb ->
  SlottedPage.InsertRecord p record record_len = (ns, p_append).
Proof.
  intros Ht Hroom.
  pose proof (page_ok_slots p Hok) as Hns. fold ns in Hns.
  destruct (insert_p2_header ltac:(lia)) as (L2 & N2 & B2 & E2).
  destruct Hok as [Hl Hs Hb [Hr1 Hr2] Hrec].
  fold ns fb fe in Hs, Hb, Hr1, Hr2.
  unfold SlottedPage.InsertRecord. fold ns fb fe t. rewrite Ht.
  change (-1 =? -1) with true. cbv iota.
  unfold SlottedPage.SLOT_ENTRY_SIZE.
  change (Z.of_nat 4) with 4.
  rewrite (u16_small (record_len + 4)) by lia.
  destruct (fe - fb <? record_len + 4) eqn:E; [apply Z.ltb_lt in E; lia|].
  rewrite (u16_small (fe - record_len)) by lia.
  assert (SlottedPage.free_space_end
            (SlottedPage.set_free_space_end p (fe - record_len))
          = fe - record_len) as E1.
  { unfold SlottedPage.free_space_end, SlottedPage.set_free_space_end.
    rewrite get_u16_set_u16_eq by (rewrite Hl; unfold PAGE_SIZE; lia).
    apply u16_small. lia. }
  rewrite E1. fold data. fold p2.
  rewrite !N2. rewrite i16_small by lia.
  rewrite (u16_small (ns + 1)) by lia.
  assert (SlottedPage.free_space_begin (SlottedPage.set_num_slots p2 (ns + 1))
          = fb) as B3.
  { unfold SlottedPage.free_space_begin, SlottedPage.set_num_slots.
    rewrite get_u16_set_u16_ne by lia. exact B2. }
  rewrite B3. rewrite (u16_small (fb + 4)) by lia.
  rewrite GetSlotEntry_small by lia.
  set (q := SlottedPage.set_free_space_begin _ _).
  assert (SlottedPage.free_space_end q = fe - record_len) as E3.
  { unfold q, SlottedPage.free_space_end, SlottedPage.set_free_space_begin,
      SlottedPage.set_num_slots.
    rewrite !get_u16_set_u16_ne by lia. exact E2. }
  rewrite E3. reflexivity.
Qed.

Lemma insert_reuse_eq :
  0 <= t < ns -> record_len <= fe - fb ->
  SlottedPage.InsertRecord p record record_len = (t, p_reuse).
Proof.
  intros Ht Hroom.
  pose proof (page_ok_slots p Hok) as Hns. fold ns in Hns.
  destruct (insert_p2_header ltac:(lia)) as (L2 & N2 & B2 & E2).
  destruct Hok as [Hl Hs Hb [Hr1 Hr2] Hrec].
  fold ns fb fe in Hs, Hb, Hr1, Hr2.
  unfold SlottedPage.InsertRecord. fold ns fb fe t.
  destruct (t =? -1) eqn:Et; [apply Z.eqb_eq in Et; lia|].
  destruct (fe - fb <? record_len) eqn:E; [apply Z.ltb_lt in E; lia|].
  rewrite (u16_small (fe - record_len)) by lia.
  assert (SlottedPage.free_space_end
            (SlottedPage.set_free_space_end p (fe - record_len))
          = fe - record_len) as E1.
  { unfold SlottedPage.free_space_end, SlottedPage.set_free_space_end.
    rewrite get_u16_set_u16_eq by (rewrite Hl; unfold PAGE_SIZE; lia).
    apply u16_small. lia. }
  rewrite E1. fold data. fold p2.
  rewrite GetSlotEntry_small by lia. rewrite E2. reflexivity.
Qed.

Lemma insert_fail_eq :
  fe - fb < (if t =? -1 then record_len + 4 else record_len) ->
  SlottedPage.InsertRecord p record record_len = (-1, p).
Proof.
  intros Hroom. unfold SlottedPage.InsertRecord. fold ns fb fe t.
  unfold SlottedPage.SLOT_ENTRY_SIZE. change (Z.of_nat 4) with 4.
  rewrite (u16_small (record_len + 4)) by lia.
  destruct (fe - fb <? _) eqn:E; [done|]. apply Z.ltb_ge in E. lia.
Qed.

Lemma insert_p2_frame :
  record_len <= fe - fb ->
  (∀ j, 0 <= j < ns ->
     SlottedPage.slot_offset p2 j = SlottedPage.slot_offset p j
     ∧ SlottedPage.slot_length p2 j = SlottedPage.slot_length p j)
  ∧ (∀ k, (8 <= k < Z.to_nat (fe - record_len) ∨ Z.to_nat fe <= k)%nat ->
       p2 !! k = p !! k)
  ∧ ((Z.to_nat record_len <= length record)%nat ->
     region p2 (Z.to_nat (fe - record_len)) (Z.to_nat record_len) = data).
Proof.
  intros Hroom.
  pose proof (page_ok_slots p Hok) as Hns. fold ns in Hns.
  destruct Hok as [Hl Hs Hb [Hr1 Hr2] Hrec].
  fold ns fb fe in Hs, Hb, Hr1, Hr2. unfold PAGE_SIZE in Hl.
  assert (length data = Z.to_nat record_len ∨ length data <= length record)%nat
    as Hd by (unfold data; rewrite length_take; lia).
  assert (length data <= Z.to_nat record_len)%nat as Hd'
    by (unfold data; rewrite length_take; lia).
  split; [|split].
  - intros j Hj. unfold p2.
    destruct (slot_memcpy (SlottedPage.set_free_space_end p (fe - record_len))
                (Z.to_nat (fe - record_len)) data j ltac:(lia) ltac:(lia))
      as [-> ->].
    unfold SlottedPage.set_free_space_end.
    apply slot_set_u16_ne; lia.
  - intros k Hk. unfold p2, SlottedPage.set_free_space_end.
    rewrite lookup_memcpy_out by lia.
    apply lookup_set_u16_ne; lia.
  - intros Hrec'. unfold p2.
    assert (length data = Z.to_nat record_len) as <-
      by (unfold data; rewrite length_take; lia).
    replace (Z.to_nat (fe - record_len)) with (Z.to_nat fe - length data)%nat
      by (unfold data; rewrite length_take; lia).
    apply region_memcpy.
    unfold SlottedPage.set_free_space_end. rewrite length_set_u16, Hl.
    unfold data. rewrite length_take. lia.
Qed.

Lemma insert_post s p' :
  SlottedPage.InsertRecord p record record_len = (s, p') -> s ≠ -1 ->
  length p' = PAGE_SIZE
  ∧ 0 <= s < SlottedPage.num_slots p'
  ∧ (s = ns ∧ SlottedPage.num_slots p' = ns + 1
     ∨ s < ns ∧ SlottedPage.num_slots p' = ns
       ∧ SlottedPage.slot_length p s = 0)
  ∧ (∀ j, 0 <= j < s -> SlottedPage.slot_length p j ≠ 0)
  ∧ SlottedPage.free_space_begin p' = 8 + 4 * SlottedPage.num_slots p'
  ∧ SlottedPage.free_space_end p' = fe - record_len
  ∧ SlottedPage.free_space_begin p' <= SlottedPage.free_space_end p'
  ∧ SlottedPage.slot_offset p' s = fe - record_len
  ∧ SlottedPage.slot_length p' s = record_len
  ∧ (∀ j, 0 <= j < ns -> j ≠ s ->
       SlottedPage.slot_offset p' j = SlottedPage.slot_offset p j
       ∧ SlottedPage.slot_length p' j = SlottedPage.slot_length p j)
  ∧ (∀ k, (Z.to_nat fe <= k)%nat -> p' !! k = p !! k)
  ∧ ((Z.to_nat record_len <= length record)%nat ->
     region p' (Z.to_nat (fe - record_len)) (Z.to_nat record_len) = data).
Proof.
  intros Hins Hs.
  pose proof (page_ok_slots p Hok) as Hns. fold ns in Hns.
  assert (record_len <= fe - fb
          ∧ (t = -1 -> record_len + 4 <= fe - fb)) as [Hroom Hroom4].
  { destruct (Z.lt_ge_cases (fe - fb)
                (if t =? -1 then record_len + 4 else record_len)) as [H|H].
    - rewrite (insert_fail_eq H) in Hins. congruence.
    - destruct (t =? -1) eqn:E.
      + split; [lia|]. intros _. lia.
      + apply Z.eqb_neq in E. split; [lia|]. done. }
  destruct (insert_p2_header Hroom) as (L2 & N2 & B2 & E2).
  destruct (insert_p2_frame Hroom) as (S2 & K2 & R2).
  pose proof Hok as [Hl Hs0 Hb [Hr1 Hr2] Hrec].
  fold ns fb fe in Hs0, Hb, Hr1, Hr2.
  destruct insert_tombstone_cases as [[Ht Hall]|(Ht & Hz & Hall)].
  - rewrite (insert_append_eq Ht (Hroom4 Ht)) in Hins.
    injection Hins as <- <-.
    set (q := SlottedPage.set_free_space_begin
                (SlottedPage.set_num_slots p2 (ns + 1)) (fb + 4)).
    assert (length q = PAGE_SIZE) as Lq.
    { unfold q, SlottedPage.set_free_space_begin, SlottedPage.set_num_slots.
      by rewrite !length_set_u16. }
    assert (SlottedPage.num_slots q = ns + 1) as Nq.
    { unfold q, SlottedPage.num_slots, SlottedPage.set_free_space_begin,
        SlottedPage.set_num_slots.
      rewrite get_u16_set_u16_ne by lia.
      rewrite get_u16_set_u16_eq by (rewrite L2; unfold PAGE_SIZE; lia).
      apply u16_small. lia. }
    assert (SlottedPage.free_space_begin q = fb + 4) as Bq.
    { unfold q, SlottedPage.free_space_begin, SlottedPage.set_free_space_begin.
      rewrite get_u16_set_u16_eq
        by (unfold SlottedPage.set_num_slots; rewrite length_set_u16, L2;
            unfold PAGE_SIZE; lia).
      apply u16_small. lia. }
    assert (SlottedPage.free_space_end q = fe - record_len) as Eq.
    { unfold q, SlottedPage.free_space_end, SlottedPage.set_free_space_begin,
        SlottedPage.set_num_slots.
      rewrite !get_u16_set_u16_ne by lia. exact E2. }
    assert (∀ k, (4 <= k)%nat -> q !! k = p2 !! k) as Kq.
    { intros k Hk. unfold q, SlottedPage.set_free_space_begin,
        SlottedPage.set_num_slots.
      rewrite !lookup_set_u16_ne by lia. done. }
    assert (∀ j, 0 <= j < 65536 ->
              SlottedPage.slot_offset q j = SlottedPage.slot_offset p2 j
              ∧ SlottedPage.slot_length q j = SlottedPage.slot_length p2 j)
      as Sq.
    { intros j Hj. unfold q, SlottedPage.set_free_space_begin,
        SlottedPage.set_num_slots.
      destruct (slot_set_u16_ne (set_u16 p2 0 (ns + 1)) 2 (fb + 4) j Hj
                  ltac:(lia)) as [-> ->].
      apply slot_set_u16_ne; lia. }
    destruct (slot_write_post q ns (fe - record_len) record_len Lq
                ltac:(lia) ltac:(lia) ltac:(lia))
      as (L' & N' & B' & E' & O' & Ln' & S' & K').
    unfold p_append. cbv zeta in *. fold q. rewrite N', B', E', Nq, Bq, Eq.
    split; [done|]. split; [lia|]. split; [left; done|].
    split; [intros j Hj; apply Hall; lia|].
    split; [lia|]. split; [done|]. split; [lia|].
    split; [done|]. split; [done|].
    split; [|split].
    + intros j Hj Hne. destruct (S' j ltac:(lia) Hne) as [-> ->].
      destruct (Sq j ltac:(lia)) as [-> ->]. by apply S2.
    + intros k Hk. rewrite K', Kq, K2 by lia. done.
    + intros Hr. rewrite <- (R2 Hr). apply region_ext.
      intros k Hk. rewrite K', Kq by lia. done.
  - rewrite (insert_reuse_eq Ht Hroom) in Hins.
    injection Hins as <- <-.
    destruct (slot_write_post p2 t (fe - record_len) record_len L2
                ltac:(lia) ltac:(lia) ltac:(lia))
      as (L' & N' & B' & E' & O' & Ln' & S' & K').
    unfold p_reuse. cbv zeta in *. rewrite N', B', E', N2, B2, E2.
    split; [done|]. split; [lia|]. split; [right; split; [lia|done]|].
    split; [done|].
    split; [lia|]. split; [done|]. split; [lia|].
    split; [done|]. split; [done|].
    split; [|split].
    + intros j Hj Hne. destruct (S' j ltac:(lia) Hne) as [-> ->]. by apply S2.
    + intros k Hk. rewrite K', K2 by lia. done.
    + intros Hr. rewrite <- (R2 Hr). apply region_ext.
      intros k Hk. rewrite K' by lia. done.
Qed.

End SlottedInsert.

Lemma page_ok_fresh : page_ok SlottedPage.fresh_page.
Proof.
  split.
  - vm_compute. reflexivity.
  - vm_compute. discriminate.
  - vm_compute. reflexivity.
  - vm_compute. split; discriminate.
  - intros i Hi.
    assert (SlottedPage.num_slots SlottedPage.fresh_page = 0) as E
      by (vm_compute; reflexivity).
    rewrite E in Hi. lia.
Qed.

Lemma Init_fresh buf :
  length buf = PAGE_SIZE -> SlottedPage.Init buf 4096 = SlottedPage.fresh_page.
Proof.
  intros H. unfold SlottedPage.fresh_page, SlottedPage.Init.
  change (Z.to_nat 4096) with 4096%nat.
  rewrite (memset0_page buf H), (memset0_page zero_page); [done|].
  apply length_replicate.
Qed.

Lemma GetRecord_region p s :
  SlottedPage.GetRecord p s
  = if (SlottedPage.num_slots p <=? s) || (SlottedPage.slot_length p s =? 0)
    then None
    else Some (region p (Z.to_nat (SlottedPage.slot_offset p s))
                 (Z.to_nat (SlottedPage.slot_length p s))).
Proof.
  unfold SlottedPage.GetRecord, region.
  destruct (SlottedPage.num_slots p <=? s); [done|].
  by destruct (SlottedPage.slot_length p s =? 0).
Qed.

(** X1.  [Init] on a page buffer yields an empty slotted page: it has the
    page layout, no slot, 4088 free bytes, and no record under any slot
    id. *)
Theorem slotted_init_empty buf :
  length buf = PAGE_SIZE ->
  let p := SlottedPage.Init buf 4096 in
  page_ok p
  ∧ SlottedPage.GetNumSlots p = 0
  ∧ SlottedPage.GetFreeSpace p = 4088
  ∧ ∀ s, 0 <= s ->
      SlottedPage.GetRecord p s = None
      ∧ SlottedPage.IsSlotOccupied p s = false.
Proof.
  intros H p. unfold p. rewrite (Init_fresh buf H).
  split; [apply page_ok_fresh|].
  split; [vm_compute; reflexivity|]. split; [vm_compute; reflexivity|].
  intros s Hs. unfold SlottedPage.GetRecord, SlottedPage.IsSlotOccupied.
  assert (SlottedPage.num_slots SlottedPage.fresh_page = 0) as ->
    by (vm_compute; reflexivity).
  destruct (0 <=? s) eqn:E; [done|]. apply Z.leb_gt in E. lia.
Qed.

Lemma slotted_init_empty_witness :
  length zero_page = PAGE_SIZE
  ∧ SlottedPage.GetFreeSpace (SlottedPage.Init zero_page 4096) = 4088.
Proof.
  split; [reflexivity|].
  apply (slotted_init_empty zero_page). reflexivity.
Defined.

Lemma insert_keeps_page_ok p record record_len :
  page_ok p -> 0 <= record_len <= 65531 ->
  page_ok (snd (SlottedPage.InsertRecord p record record_len)).
Proof.
  intros Hok Hlen.
  destruct (SlottedPage.InsertRecord p record record_len) as [s p'] eqn:Hins.
  cbn [snd]. destruct (decide (s = -1)) as [->|Hs].
  { destruct (Z.lt_ge_cases
                (SlottedPage.free_space_end p - SlottedPage.free_space_begin p)
                (if SlottedPage.find_tombstone p 0
                      (Z.to_nat (SlottedPage.num_slots p)) =? -1
                 then record_len + 4 else record_len)) as [H|H].
    - rewrite (insert_fail_eq p record record_len Hlen H) in Hins.
      by injection Hins as <-.
    - exfalso.
      pose proof (page_ok_slots p Hok) as Hns.
      destruct (insert_tombstone_cases p Hok) as [[Ht _]|(Ht & _)];
        cbv zeta in Ht.
      + rewrite Ht in H. change (-1 =? -1) with true in H. cbv iota in H.
        rewrite (insert_append_eq p record record_len Hok Hlen Ht H) in Hins.
        injection Hins as E _. lia.
      + destruct (_ =? -1) eqn:E; [apply Z.eqb_eq in E; lia|].
        rewrite (insert_reuse_eq p record record_len Hok Hlen Ht H) in Hins.
        injection Hins as E' _. lia. }
  pose proof (insert_post p record record_len Hok Hlen s p' Hins Hs) as H.
  cbv zeta in H.
  destruct H as (L' & Hs' & Hcase & Hbefore & B' & E' & R' & O' & Ln' & S' & K' & D').
  pose proof (page_ok_slots p Hok) as Hns.
  pose proof Hok as [Hl Hs0 Hb [Hr1 Hr2] Hrec].
  assert (∀ j, 0 <= j < SlottedPage.num_slots p' -> j ≠ s ->
            0 <= j < SlottedPage.num_slots p) as Hold.
  { intros j Hj Hne. destruct Hcase as [[? ?]|(? & ? & _)]; lia. }
  split; [done|lia|done|lia|].
  intros i Hi Hlive. destruct (decide (i = s)) as [->|Hne].
  - rewrite O', Ln', E'. lia.
  - destruct (S' i (Hold i Hi Hne) Hne) as [Eo El].
    rewrite Eo, El, E'. rewrite El in Hlive.
    destruct (Hrec i (Hold i Hi Hne) Hlive). lia.
Qed.

Lemma slotted_insert_get_facts p record s p' :
  page_ok p ->
  0 < Z.of_nat (length record) <= 65531 ->
  SlottedPage.InsertRecord p record (Z.of_nat (length record)) = (s, p') ->
  s ≠ -1 ->
  page_ok p'
  ∧ SlottedPage.GetRecord p' s = Some record
  ∧ ∀ s', 0 <= s' -> s' ≠ s ->
      SlottedPage.GetRecord p' s' = SlottedPage.GetRecord p s'.
Proof.
  intros Hok Hlen Hins Hs.
  pose proof (insert_post p record (Z.of_nat (length record)) Hok
                ltac:(lia) s p' Hins Hs) as H.
  cbv zeta in H.
  destruct H as (L' & Hs' & Hcase & Hbefore & B' & E' & R' & O' & Ln' & S' & K' & D').
  pose proof (page_ok_slots p Hok) as Hns.
  pose proof Hok as [Hl Hs0 Hb [Hr1 Hr2] Hrec].
  assert (∀ j, 0 <= j < SlottedPage.num_slots p' -> j ≠ s ->
            0 <= j < SlottedPage.num_slots p) as Hold.
  { intros j Hj Hne. destruct Hcase as [[? ?]|(? & ? & _)]; lia. }
  split; [|split].
  - pose proof (insert_keeps_page_ok p record (Z.of_nat (length record))
                  Hok ltac:(lia)) as Hok'.
    by rewrite Hins in Hok'.
  - rewrite GetRecord_region, O', Ln'.
    destruct (SlottedPage.num_slots p' <=? s) eqn:E1;
      [apply Z.leb_le in E1; lia|].
    destruct (Z.of_nat (length record) =? 0) eqn:E2;
      [apply Z.eqb_eq in E2; lia|].
    cbn [orb]. rewrite D' by lia. rewrite Nat2Z.id. by rewrite take_ge.
  - intros s' Hs'0 Hne. rewrite !GetRecord_region.
    destruct (Z.le_gt_cases (SlottedPage.num_slots p') s') as [Hge|Hlt].
    + assert (SlottedPage.num_slots p <= s') as Hge'
        by (destruct Hcase as [[? ?]|(? & ? & _)]; lia).
      apply Z.leb_le in Hge, Hge'. by rewrite Hge, Hge'.
    + destruct (S' s' (Hold s' ltac:(lia) Hne) Hne) as [Eo El].
      pose proof (Hold s' ltac:(lia) Hne) as Hs'1.
      rewrite Eo, El.
      destruct (SlottedPage.num_slots p' <=? s') eqn:E1;
        [apply Z.leb_le in E1; lia|].
      destruct (SlottedPage.num_slots p <=? s') eqn:E2;
        [apply Z.leb_le in E2; lia|].
      cbn [orb].
      destruct (SlottedPage.slot_length p s' =? 0) eqn:E3; [done|].
      apply Z.eqb_neq in E3. destruct (Hrec s' Hs'1 E3) as [Hoff _].
      f_equal. apply region_ext. intros k Hk. apply K'. lia.
Qed.

(** X2.  A successful [InsertRecord] of a non-empty record on a page with
    the slotted layout keeps the layout, and [GetRecord] on the returned
    slot gives the record back; every other slot reads as before. *)
Theorem slotted_insert_get_round_trip p record s p' :
  page_ok p ->
  0 < Z.of_nat (length record) <= 65531 ->
  SlottedPage.InsertRecord p record (Z.of_nat (length record)) = (s, p') ->
  s ≠ -1 ->
  page_ok p'
  ∧ SlottedPage.GetRecord p' s = Some record
  ∧ ∀ s', 0 <= s' -> s' ≠ s ->
      SlottedPage.GetRecord p' s' = SlottedPage.GetRecord p s'.
Proof. exact (slotted_insert_get_facts p record s p'). Qed.

Lemma slotted_insert_get_round_trip_witness :
  let r := SlottedPage.InsertRecord SlottedPage.fresh_page [7; 8; 9] 3 in
  page_ok (snd r) ∧ SlottedPage.GetRecord (snd r) (fst r) = Some [7; 8; 9].
Proof.
  cbv zeta.
  destruct (slotted_insert_get_round_trip SlottedPage.fresh_page [7; 8; 9]
              (fst (SlottedPage.InsertRecord SlottedPage.fresh_page [7; 8; 9] 3))
              (snd (SlottedPage.InsertRecord SlottedPage.fresh_page [7; 8; 9] 3)))
    as (H1 & H2 & _).
  - apply page_ok_fresh.
  - cbn. lia.
  - apply surjective_pairing.
  - vm_compute. discriminate.
  - by split.
Defined.

(** The two writes [slot->length = 0; slot->offset = 0] of [DeleteRecord]. *)
Lemma slot_clear_post q s :
  length q = PAGE_SIZE -> 0 <= s <= 1021 ->
  let e := Z.to_nat (8 + 4 * s) in
  let q' := set_u16 (set_u16 q (e + 2) 0) e 0 in
  length q' = PAGE_SIZE
  ∧ SlottedPage.num_slots q' = SlottedPage.num_slots q
  ∧ SlottedPage.free_space_begin q' = SlottedPage.free_space_begin q
  ∧ SlottedPage.free_space_end q' = SlottedPage.free_space_end q
  ∧ SlottedPage.slot_length q' s = 0
  ∧ (∀ j, 0 <= j < 65536 -> j ≠ s ->
       SlottedPage.slot_offset q' j = SlottedPage.slot_offset q j
       ∧ SlottedPage.slot_length q' j = SlottedPage.slot_length q j)
  ∧ (∀ k, (k < e ∨ e + 3 < k)%nat -> q' !! k = q !! k).
Proof.
  intros Hl Hs e q'.
  assert (length q' = PAGE_SIZE) as Hl' by (unfold q'; by rewrite !length_set_u16).
  split; [done|].
  destruct (header_set_u16 (set_u16 q (e + 2) 0) e 0 ltac:(lia))
    as (N1 & B1 & E1).
  destruct (header_set_u16 q (e + 2) 0 ltac:(lia)) as (N0 & B0 & E0).
  fold q' in N1, B1, E1.
  split; [congruence|]. split; [congruence|]. split; [congruence|].
  unfold PAGE_SIZE in *.
  split; [|split].
  - unfold SlottedPage.slot_length. rewrite GetSlotEntry_small by lia.
    fold e. unfold q'. rewrite get_u16_set_u16_ne by lia.
    rewrite get_u16_set_u16_eq by lia. done.
  - intros j Hj Hne. unfold q'.
    destruct (slot_set_u16_ne (set_u16 q (e + 2) 0) e 0 j Hj ltac:(lia))
      as [-> ->].
    by apply slot_set_u16_ne; [|lia].
  - intros k Hk. unfold q'. rewrite !lookup_set_u16_ne by lia. done.
Qed.

Lemma GetFreeSpace_header p q :
  SlottedPage.free_space_begin q = SlottedPage.free_space_begin p ->
  SlottedPage.free_space_end q = SlottedPage.free_space_end p ->
  SlottedPage.GetFreeSpace q = SlottedPage.GetFreeSpace p.
Proof. unfold SlottedPage.GetFreeSpace. by intros -> ->. Qed.

Lemma slotted_delete_facts p s :
  page_ok p -> 0 <= s ->
  let ok := fst (SlottedPage.DeleteRecord p s) in
  let p' := snd (SlottedPage.DeleteRecord p s) in
  page_ok p'
  ∧ (ok = true ↔ is_Some (SlottedPage.GetRecord p s))
  ∧ SlottedPage.GetRecord p' s = None
  ∧ SlottedPage.IsSlotOccupied p' s = false
  ∧ SlottedPage.GetFreeSpace p' = SlottedPage.GetFreeSpace p
  ∧ ∀ s', 0 <= s' -> s' ≠ s ->
      SlottedPage.GetRecord p' s' = SlottedPage.GetRecord p s'.
Proof.
  intros Hok Hs ok p'.
  pose proof (page_ok_slots p Hok) as Hns.
  pose proof Hok as [Hl Hs0 Hb [Hr1 Hr2] Hrec].
  assert (SlottedPage.GetRecord p s = None
          ∨ (s < SlottedPage.num_slots p ∧ SlottedPage.slot_length p s ≠ 0
             ∧ is_Some (SlottedPage.GetRecord p s))) as [Hnone|(Hlt & Hlive & Hsome)].
  { rewrite GetRecord_region.
    destruct (SlottedPage.num_slots p <=? s) eqn:E1; [by left|].
    destruct (SlottedPage.slot_length p s =? 0) eqn:E2; [by left|].
    right. apply Z.leb_gt in E1. apply Z.eqb_neq in E2. cbn. eauto. }
  - unfold ok, p'. rewrite (slotted_delete_missing p s Hnone). cbn [fst snd].
    rewrite Hnone. split; [done|]. split.
    { split; [done|]. by intros [? ?]. }
    split; [done|]. split; [|done].
    unfold SlottedPage.IsSlotOccupied. revert Hnone.
    rewrite GetRecord_region.
    destruct (SlottedPage.num_slots p <=? s); [done|].
    destruct (SlottedPage.slot_length p s =? 0) eqn:E; [|done].
    apply Z.eqb_eq in E. by rewrite E.
  - assert (SlottedPage.DeleteRecord p s
            = (true, set_u16 (set_u16 p (Z.to_nat (8 + 4 * s) + 2) 0)
                       (Z.to_nat (8 + 4 * s)) 0)) as Edel.
    { unfold SlottedPage.DeleteRecord.
      destruct (SlottedPage.num_slots p <=? s) eqn:E1;
        [apply Z.leb_le in E1; lia|].
      destruct (SlottedPage.slot_length p s =? 0) eqn:E2;
        [apply Z.eqb_eq in E2; lia|].
      by rewrite GetSlotEntry_small by lia. }
    unfold ok, p'. rewrite Edel. cbn [fst snd].
    destruct (slot_clear_post p s Hl ltac:(lia))
      as (L' & N' & B' & E' & Ln' & S' & K').
    cbv zeta in *.
    set (q := set_u16 _ _ _) in *.
    assert (∀ s', 0 <= s' -> s' ≠ s ->
              SlottedPage.GetRecord q s' = SlottedPage.GetRecord p s') as Hframe.
    { intros s' Hs' Hne. rewrite !GetRecord_region, N'.
      destruct (SlottedPage.num_slots p <=? s') eqn:E1; [done|].
      apply Z.leb_gt in E1. cbn [orb].
      destruct (S' s' ltac:(lia) Hne) as [-> ->].
      destruct (SlottedPage.slot_length p s' =? 0) eqn:E3; [done|].
      apply Z.eqb_neq in E3. destruct (Hrec s' ltac:(lia) E3) as [Hoff _].
      f_equal. apply region_ext. intros k Hk. apply K'. lia. }
    split; [|split; [|split; [|split; [|split]]]].
    + split; [done|lia|lia|lia|].
      intros i Hi Hlive'. rewrite N' in Hi. rewrite E'.
      destruct (decide (i = s)) as [->|Hne]; [congruence|].
      destruct (S' i ltac:(lia) Hne) as [Eo El]. rewrite Eo, El.
      rewrite El in Hlive'. by apply Hrec.
    + done.
    + rewrite GetRecord_region, Ln'. cbn. by rewrite orb_true_r.
    + unfold SlottedPage.IsSlotOccupied. rewrite Ln'.
      by destruct (SlottedPage.num_slots q <=? s).
    + by apply GetFreeSpace_header.
    + exact Hframe.
Qed.

(** X3.  On a page with the slotted layout [DeleteRecord] succeeds
    exactly on the slots that hold a record.  Afterwards the slot reads as
    empty, every other slot reads as before, the layout is kept, and the
    free space is what it was: the bytes of the record are not given
    back. *)
Theorem slotted_delete_then_get p s :
  page_ok p -> 0 <= s ->
  let ok := fst (SlottedPage.DeleteRecord p s) in
  let p' := snd (SlottedPage.DeleteRecord p s) in
  page_ok p'
  ∧ (ok = true ↔ is_Some (SlottedPage.GetRecord p s))
  ∧ SlottedPage.GetRecord p' s = None
  ∧ SlottedPage.IsSlotOccupied p' s = false
  ∧ SlottedPage.GetFreeSpace p' = SlottedPage.GetFreeSpace p
  ∧ ∀ s', 0 <= s' -> s' ≠ s ->
      SlottedPage.GetRecord p' s' = SlottedPage.GetRecord p s'.
Proof. exact (slotted_delete_facts p s). Qed.

Lemma slotted_delete_then_get_witness :
  let p := snd (SlottedPage.InsertRecord SlottedPage.fresh_page [7; 8; 9] 3) in
  fst (SlottedPage.DeleteRecord p 0) = true
  ∧ SlottedPage.GetRecord (snd (SlottedPage.DeleteRecord p 0)) 0 = None
  ∧ SlottedPage.GetFreeSpace (snd (SlottedPage.DeleteRecord p 0))
    = SlottedPage.GetFreeSpace p.
Proof.
  cbv zeta.
  destruct (slotted_delete_then_get
              (snd (SlottedPage.InsertRecord SlottedPage.fresh_page [7; 8; 9] 3))
              0) as (_ & _ & H3 & _ & H5 & _).
  - apply insert_keeps_page_ok; [apply page_ok_fresh|lia].
  - lia.
  - split; [vm_compute; reflexivity|]. by split.
Defined.

Lemma GetFreeSpace_ok p :
  page_ok p ->
  SlottedPage.GetFreeSpace p
  = SlottedPage.free_space_end p - SlottedPage.free_space_begin p.
Proof.
  intros [_ _ _ [H1 H2] _]. unfold SlottedPage.GetFreeSpace.
  destruct (_ <=? _) eqn:E; [apply Z.leb_le in E; lia|done].
Qed.

Lemma GetRecord_is_Some p s :
  is_Some (SlottedPage.GetRecord p s)
  ↔ s < SlottedPage.num_slots p ∧ SlottedPage.slot_length p s ≠ 0.
Proof.
  rewrite GetRecord_region.
  destruct (SlottedPage.num_slots p <=? s) eqn:E1;
    [apply Z.leb_le in E1|apply Z.leb_gt in E1]; cbn [orb].
  - split; [by intros [? ?]|lia].
  - destruct (SlottedPage.slot_length p s =? 0) eqn:E2;
      [apply Z.eqb_eq in E2|apply Z.eqb_neq in E2].
    + split; [by intros [? ?]|lia].
    + split; [done|eauto].
Qed.

(** X4.  A successful [InsertRecord] puts the record in the lowest slot
    that holds no record: every slot below the returned one holds a
    record, the returned one held none, and the slot directory grows, by
    one entry, only when the returned slot is a new one.  Slot ids of
    deleted records are handed out again. *)
Theorem slotted_insert_slot_choice p record record_len s p' :
  page_ok p -> 0 <= record_len <= 65531 ->
  SlottedPage.InsertRecord p record record_len = (s, p') ->
  s ≠ -1 ->
  (∀ j, 0 <= j < s -> is_Some (SlottedPage.GetRecord p j))
  ∧ SlottedPage.GetRecord p s = None
  ∧ (s < SlottedPage.GetNumSlots p
       ∧ SlottedPage.GetNumSlots p' = SlottedPage.GetNumSlots p
     ∨ s = SlottedPage.GetNumSlots p
       ∧ SlottedPage.GetNumSlots p' = s + 1).
Proof.
  intros Hok Hlen Hins Hs.
  pose proof (insert_post p record record_len Hok Hlen s p' Hins Hs) as H.
  cbv zeta in H.
  destruct H as (L' & Hs' & Hcase & Hbefore & _).
  unfold SlottedPage.GetNumSlots.
  split; [|split].
  - intros j Hj. apply GetRecord_is_Some. split; [|by apply Hbefore].
    destruct Hcase as [[? ?]|(? & ? & _)]; lia.
  - apply eq_None_not_Some. rewrite GetRecord_is_Some.
    destruct Hcase as [[? ?]|(? & ? & ?)]; lia.
  - destruct Hcase as [[? ?]|(? & ? & ?)]; [right|left]; lia.
Qed.

Lemma slotted_insert_slot_choice_witness :
  let p1 := snd (SlottedPage.InsertRecord SlottedPage.fresh_page [7; 8; 9] 3) in
  let p2 := snd (SlottedPage.InsertRecord p1 [5] 1) in
  let p3 := snd (SlottedPage.DeleteRecord p2 0) in
  fst (SlottedPage.InsertRecord p3 [6; 6] 2) = 0
  ∧ SlottedPage.GetRecord p3 0 = None
  ∧ (0 < SlottedPage.GetNumSlots p3
       ∧ SlottedPage.GetNumSlots (snd (SlottedPage.InsertRecord p3 [6; 6] 2))
         = SlottedPage.GetNumSlots p3
     ∨ 0 = SlottedPage.GetNumSlots p3
       ∧ SlottedPage.GetNumSlots (snd (SlottedPage.InsertRecord p3 [6; 6] 2))
         = 0 + 1).
Proof.
  cbv zeta. split; [vm_compute; reflexivity|].
  eapply (slotted_insert_slot_choice _ [6; 6] 2 0).
  - apply page_okb_ok. vm_compute. reflexivity.
  - lia.
  - vm_compute. reflexivity.
  - discriminate.
Defined.

Lemma insert_room_facts p record record_len :
  page_ok p -> 0 <= record_len <= 65531 ->
  let s := fst (SlottedPage.InsertRecord p record record_len) in
  let p' := snd (SlottedPage.InsertRecord p record record_len) in
  (record_len + 4 <= SlottedPage.GetFreeSpace p -> s ≠ -1)
  ∧ (s = -1 -> p' = p ∧ SlottedPage.GetFreeSpace p < record_len + 4)
  ∧ (s ≠ -1 ->
     SlottedPage.GetFreeSpace p'
     = SlottedPage.GetFreeSpace p - record_len
       - 4 * (SlottedPage.GetNumSlots p' - SlottedPage.GetNumSlots p)).
Proof.
  intros Hok Hlen s p'.
  pose proof (page_ok_slots p Hok) as Hns.
  pose proof (GetFreeSpace_ok p Hok) as Hfree.
  pose proof (insert_keeps_page_ok p record record_len Hok Hlen) as Hok'.
  fold p' in Hok'. pose proof (GetFreeSpace_ok p' Hok') as Hfree'.
  pose proof Hok as [Hl Hs0 Hb [Hr1 Hr2] Hrec].
  assert (s = -1 -> p' = p ∧ SlottedPage.GetFreeSpace p < record_len + 4)
    as Hfail.
  { intros Es.
    destruct (Z.lt_ge_cases
                (SlottedPage.free_space_end p - SlottedPage.free_space_begin p)
                (if SlottedPage.find_tombstone p 0
                      (Z.to_nat (SlottedPage.num_slots p)) =? -1
                 then record_len + 4 else record_len)) as [H|H].
    - unfold p'. rewrite (insert_fail_eq p record record_len Hlen H).
      split; [done|]. destruct (_ =? -1); lia.
    - exfalso. unfold s in Es.
      destruct (insert_tombstone_cases p Hok) as [[Ht _]|(Ht & _)];
        cbv zeta in Ht.
      + rewrite Ht in H. change (-1 =? -1) with true in H. cbv iota in H.
        rewrite (insert_append_eq p record record_len Hok Hlen Ht H) in Es.
        cbn in Es. lia.
      + destruct (_ =? -1) eqn:E; [apply Z.eqb_eq in E; lia|].
        rewrite (insert_reuse_eq p record record_len Hok Hlen Ht H) in Es.
        cbn in Es. lia. }
  split; [|split; [exact Hfail|]].
  - intros Hroom Es. destruct (Hfail Es). lia.
  - intros Hs.
    pose proof (insert_post p record record_len Hok Hlen s p'
                  (surjective_pairing _) Hs) as H.
    cbv zeta in H.
    destruct H as (L' & Hs' & Hcase & Hbefore & B' & E' & _).
    unfold SlottedPage.GetNumSlots. lia.
Qed.

(** X5.  On a page with the slotted layout, [InsertRecord] succeeds
    whenever [GetFreeSpace] reports room for the record and a slot entry;
    a failed insert leaves the page as it is; a successful one lowers the
    free space by the record length, and by four more bytes when the slot
    is a new one. *)
Theorem slotted_insert_room p record record_len :
  page_ok p -> 0 <= record_len <= 65531 ->
  let s := fst (SlottedPage.InsertRecord p record record_len) in
  let p' := snd (SlottedPage.InsertRecord p record record_len) in
  (record_len + 4 <= SlottedPage.GetFreeSpace p -> s ≠ -1)
  ∧ (s = -1 -> p' = p ∧ SlottedPage.GetFreeSpace p < record_len + 4)
  ∧ (s ≠ -1 ->
     SlottedPage.GetFreeSpace p'
     = SlottedPage.GetFreeSpace p - record_len
       - 4 * (SlottedPage.GetNumSlots p' - SlottedPage.GetNumSlots p)).
Proof. exact (insert_room_facts p record record_len). Qed.

Lemma slotted_insert_room_witness :
  SlottedPage.GetFreeSpace
    (snd (SlottedPage.InsertRecord SlottedPage.fresh_page [7; 8; 9] 3))
  = 4088 - 3 - 4 * (1 - 0).
Proof.
  destruct (slotted_insert_room SlottedPage.fresh_page [7; 8; 9] 3)
    as (_ & _ & H).
  - apply page_okb_ok. vm_compute. reflexivity.
  - lia.
  - apply H. vm_compute. discriminate.
Defined.

(** X6.  [UpdateRecord] with a non-empty record no longer than the stored
    one overwrites it in place: it returns true, [GetRecord] then gives
    the new record, and layout and free space are as before (the bytes a
    shorter record leaves over are not given back).  With a longer record
    it returns false and leaves the page as it is. *)
Theorem slotted_update_in_place p s old record :
  page_ok p -> 0 <= s ->
  SlottedPage.GetRecord p s = Some old ->
  (0 < length record)%nat -> Z.of_nat (length record) <= 65535 ->
  let r := SlottedPage.UpdateRecord p s record (Z.of_nat (length record)) in
  if decide (length record <= length old)%nat then
    fst r = true
    ∧ page_ok (snd r)
    ∧ SlottedPage.GetRecord (snd r) s = Some record
    ∧ SlottedPage.GetFreeSpace (snd r) = SlottedPage.GetFreeSpace p
  else r = (false, p).
Proof.
  intros Hok Hs Hget Hpos Hmax r.
  pose proof (page_ok_slots p Hok) as Hns.
  pose proof Hok as [Hl Hs0 Hb [Hr1 Hr2] Hrec].
  assert (is_Some (SlottedPage.GetRecord p s)) as Hsome by (by rewrite Hget).
  apply GetRecord_is_Some in Hsome as [Hlt Hlive].
  destruct (Hrec s ltac:(lia) Hlive) as [Hoff Hend].
  assert (length old = Z.to_nat (SlottedPage.slot_length p s)) as Hold.
  { revert Hget. rewrite GetRecord_region.
    destruct (SlottedPage.num_slots p <=? s) eqn:E1;
      [apply Z.leb_le in E1; lia|].
    destruct (SlottedPage.slot_length p s =? 0) eqn:E2;
      [apply Z.eqb_eq in E2; lia|].
    cbn [orb]. intros [= <-]. unfold region.
    rewrite length_take, length_drop, Hl. unfold PAGE_SIZE. lia. }
  unfold r, SlottedPage.UpdateRecord.
  destruct (SlottedPage.num_slots p <=? s) eqn:E1;
    [apply Z.leb_le in E1; lia|].
  destruct (SlottedPage.slot_length p s =? 0) eqn:E2;
    [apply Z.eqb_eq in E2; lia|].
  destruct (decide (length record <= length old)%nat) as [Hfit|Hlong].
  - destruct (Z.of_nat (length record) <=? SlottedPage.slot_length p s) eqn:E3;
      [apply Z.leb_le in E3|apply Z.leb_gt in E3; lia].
    cbn [fst snd]. rewrite Nat2Z.id, take_ge by lia.
    rewrite GetSlotEntry_small by lia.
    set (off := Z.to_nat (SlottedPage.slot_offset p s)).
    set (q := memcpy p off record).
    assert (length q = PAGE_SIZE) as Lq by (unfold q; by rewrite length_memcpy).
    destruct (header_memcpy p off record ltac:(lia)) as (Nq & Bq & Eq).
    fold q in Nq, Bq, Eq.
    assert (∀ j, 0 <= j < SlottedPage.num_slots p ->
              SlottedPage.slot_offset q j = SlottedPage.slot_offset p j
              ∧ SlottedPage.slot_length q j = SlottedPage.slot_length p j) as Sq.
    { intros j Hj. apply slot_memcpy; lia. }
    set (e := Z.to_nat (8 + 4 * s)).
    set (q' := set_u16 q (e + 2) (Z.of_nat (length record))).
    assert (length q' = PAGE_SIZE) as Lq'
      by (unfold q'; by rewrite length_set_u16).
    destruct (header_set_u16 q (e + 2) (Z.of_nat (length record)) ltac:(lia))
      as (N' & B' & E').
    fold q' in N', B', E'.
    assert (SlottedPage.slot_length q' s = Z.of_nat (length record)) as Ln'.
    { unfold SlottedPage.slot_length. rewrite GetSlotEntry_small by lia.
      fold e. unfold q'.
      rewrite get_u16_set_u16_eq by (rewrite Lq; unfold PAGE_SIZE; lia).
      apply u16_small. lia. }
    assert (SlottedPage.slot_offset q' s = SlottedPage.slot_offset p s) as O'.
    { unfold SlottedPage.slot_offset. rewrite GetSlotEntry_small by lia.
      fold e. unfold q'. rewrite get_u16_set_u16_ne by lia.
      destruct (Sq s ltac:(lia)) as [Eo _]. revert Eo.
      unfold SlottedPage.slot_offset. by rewrite GetSlotEntry_small by lia. }
    assert (∀ j, 0 <= j < SlottedPage.num_slots p -> j ≠ s ->
              SlottedPage.slot_offset q' j = SlottedPage.slot_offset p j
              ∧ SlottedPage.slot_length q' j = SlottedPage.slot_length p j) as S'.
    { intros j Hj Hne. unfold q'.
      destruct (slot_set_u16_ne q (e + 2) (Z.of_nat (length record)) j
                  ltac:(lia) ltac:(lia)) as [-> ->].
      by apply Sq. }
    split; [done|]. split; [|split].
    + split; [done|lia|lia|lia|].
      intros i Hi Hlive'. rewrite N', Nq in Hi. rewrite E', Eq.
      destruct (decide (i = s)) as [->|Hne].
      * rewrite O', Ln'. lia.
      * destruct (S' i Hi Hne) as [Eo El]. rewrite Eo, El.
        rewrite El in Hlive'. by apply Hrec.
    + rewrite GetRecord_region, N', Nq, Ln', O'.
      replace (SlottedPage.num_slots p <=? s) with false
        by (symmetry; apply Z.leb_gt; lia).
      destruct (Z.of_nat (length record) =? 0) eqn:E5;
        [apply Z.eqb_eq in E5; lia|].
      cbn [orb]. f_equal. rewrite Nat2Z.id. fold off.
      transitivity (region q off (length record)).
      * apply region_ext. intros k Hk. unfold q'.
        apply lookup_set_u16_ne; lia.
      * apply region_memcpy. rewrite Hl. unfold PAGE_SIZE. lia.
    + apply GetFreeSpace_header; congruence.
  - destruct (Z.of_nat (length record) <=? SlottedPage.slot_length p s) eqn:E3;
      [apply Z.leb_le in E3; lia|done].
Qed.

Lemma slotted_update_in_place_witness :
  let p := snd (SlottedPage.InsertRecord SlottedPage.fresh_page [7; 8; 9] 3) in
  SlottedPage.GetRecord p 0 = Some [7; 8; 9]
  ∧ SlottedPage.GetRecord (snd (SlottedPage.UpdateRecord p 0 [4; 2] 2)) 0
    = Some [4; 2].
Proof.
  cbv zeta. split; [vm_compute; reflexivity|].
  pose proof (slotted_update_in_place
                (snd (SlottedPage.InsertRecord SlottedPage.fresh_page [7; 8; 9] 3))
                0 [7; 8; 9] [4; 2]) as H.
  cbv zeta in H. cbn [length decide] in H.
  apply H.
  - apply page_okb_ok. vm_compute. reflexivity.
  - lia.
  - vm_compute. reflexivity.
  - lia.
  - lia.
Defined.

(** ** Write-ahead log: the record codec *)

Lemma le_value_le_bytes_i64 v :
  -9223372036854775808 <= v < 9223372036854775808 ->
  i64 (le_value (le_bytes 8 v)) = v.
Proof.
  intros H. rewrite le_value_le_bytes.
  change (256 ^ Z.of_nat 8) with 18446744073709551616. unfold i64, u64.
  rewrite Z.mod_mod by lia.
  destruct (decide (0 <= v)) as [Hv|Hv].
  - rewrite Z.mod_small by lia.
    destruct (v <? 9223372036854775808) eqn:E; [done|].
    apply Z.ltb_ge in E. lia.
  - replace (v mod 18446744073709551616) with (v + 18446744073709551616).
    + destruct (_ <? _) eqn:E; [apply Z.ltb_lt in E|]; lia.
    + apply (Z.mod_unique_pos v 18446744073709551616 (-1)); lia.
Qed.

Lemma le_value_le_bytes_u32 v :
  0 <= v < 4294967296 -> le_value (le_bytes 4 v) = v.
Proof.
  intros H. rewrite le_value_le_bytes.
  change (256 ^ Z.of_nat 4) with 4294967296. by rewrite Z.mod_small.
Qed.

Lemma type_of_code_type_code t :
  type_ok t = true -> WAL.type_of_code (le_value [u8 (WAL.type_code t)]) = t.
Proof.
  destruct t; cbn; try done.
  rewrite andb_true_iff, Z.leb_le, Z.ltb_lt. intros [H1 H2].
  rewrite Z.mul_0_r, Z.add_0_r. unfold u8. rewrite Z.mod_small by lia.
  unfold WAL.type_of_code.
  repeat (destruct (code =? _) eqn:?; [apply Z.eqb_eq in Heqb; lia|clear Heqb]).
  done.
Qed.

Lemma read_bytes_mid data pre x post off n :
  data = pre ++ x ++ post -> off = Z.of_nat (length pre) -> n = length x ->
  read_bytes data off n = Ok x.
Proof.
  intros -> -> ->. unfold read_bytes.
  rewrite !length_app.
  replace (0 <=? Z.of_nat (length pre)) with true
    by (symmetry; apply Z.leb_le; lia).
  replace (Z.of_nat (length pre) + Z.of_nat (length x)
           <=? Z.of_nat (length pre + (length x + length post))) with true
    by (symmetry; apply Z.leb_le; lia).
  cbn [andb]. rewrite Nat2Z.id, drop_app_length. by rewrite take_app_length.
Qed.

(** The bytes of a record, field by field. *)
Lemma Serialize_fields r :
  WAL.Serialize r
  = le_bytes 4 (u32 (43 + Z.of_nat (length (WAL.before_image r))
                     + Z.of_nat (length (WAL.after_image r))))
    ++ le_bytes 8 (WAL.lsn r) ++ le_bytes 8 (WAL.txn_id r)
    ++ le_bytes 8 (WAL.prev_lsn r) ++ [u8 (WAL.type_code (WAL.type r))]
    ++ le_bytes 4 (WAL.page_id r) ++ le_bytes 2 (WAL.slot_id r)
    ++ le_bytes 4 (u32 (Z.of_nat (length (WAL.before_image r))))
    ++ WAL.before_image r
    ++ le_bytes 4 (u32 (Z.of_nat (length (WAL.after_image r))))
    ++ WAL.after_image r.
Proof.
  unfold WAL.Serialize. cbv zeta.
  match goal with
  | |- memcpy ?b 0 _ = _ => set (buf := b)
  end.
  assert (Z.of_nat (length buf)
          = 43 + Z.of_nat (length (WAL.before_image r))
            + Z.of_nat (length (WAL.after_image r))) as ->.
  { unfold buf. rewrite !length_app, !length_le_bytes. cbn [length]. lia. }
  unfold memcpy. rewrite take_0. cbn [app].
  rewrite length_le_bytes, Nat.add_0_l, Nat.sub_0_r.
  rewrite take_ge by (rewrite length_le_bytes; unfold buf;
                      rewrite !length_app, !length_le_bytes; lia).
  unfold buf. rewrite <- !app_assoc.
  rewrite drop_app_length' by (by rewrite length_le_bytes).
  reflexivity.
Qed.

Lemma length_Serialize r :
  length (WAL.Serialize r)
  = (43 + length (WAL.before_image r) + length (WAL.after_image r))%nat.
Proof.
  rewrite Serialize_fields, !length_app, !length_le_bytes. cbn [length]. lia.
Qed.

Lemma record_ok_fields r :
  record_ok r = true ->
  (-9223372036854775808 <= WAL.lsn r < 9223372036854775808)
  ∧ (-9223372036854775808 <= WAL.txn_id r < 9223372036854775808)
  ∧ (-9223372036854775808 <= WAL.prev_lsn r < 9223372036854775808)
  ∧ type_ok (WAL.type r) = true
  ∧ (-2147483648 <= WAL.page_id r < 2147483648)
  ∧ (0 <= WAL.slot_id r < 65536)
  ∧ Z.of_nat (length (WAL.before_image r)) < 4294967296
  ∧ Z.of_nat (length (WAL.after_image r)) < 4294967296.
Proof.
  unfold record_ok. rewrite !andb_true_iff, !Z.leb_le, !Z.ltb_lt. tauto.
Qed.

Lemma u32_small z : 0 <= z < 4294967296 -> u32 z = z.
Proof. intros H. unfold u32. by rewrite Z.mod_small. Qed.

Lemma Deserialize_Serialize pre r post :
  record_ok r = true ->
  let data := pre ++ WAL.Serialize r ++ post in
  WAL.Deserialize data (Z.of_nat (length data)) (Z.of_nat (length pre))
  = Ok (r, Z.of_nat (length pre) + Z.of_nat (length (WAL.Serialize r))).
Proof.
  intros Hok data.
  destruct (record_ok_fields r Hok)
    as (Hlsn & Htxn & Hprev & Htype & Hpage & Hslot & Hb & Ha).
  assert (length data
          = (length pre + (43 + length (WAL.before_image r)
                           + length (WAL.after_image r)) + length post)%nat)
    as Hlen.
  { unfold data. rewrite !length_app, length_Serialize. lia. }
  rewrite length_Serialize.
  assert (data = pre ++ WAL.Serialize r ++ post) as Hdata by done.
  rewrite Serialize_fields in Hdata.
  set (blen := u32 (Z.of_nat (length (WAL.before_image r)))) in Hdata.
  set (alen := u32 (Z.of_nat (length (WAL.after_image r)))) in Hdata.
  set (c0 := le_bytes 4 _) in Hdata.
  set (c1 := le_bytes 8 (WAL.lsn r)) in Hdata.
  set (c2 := le_bytes 8 (WAL.txn_id r)) in Hdata.
  set (c3 := le_bytes 8 (WAL.prev_lsn r)) in Hdata.
  set (c4 := [u8 (WAL.type_code (WAL.type r))]) in Hdata.
  set (c5 := le_bytes 4 (WAL.page_id r)) in Hdata.
  set (c6 := le_bytes 2 (WAL.slot_id r)) in Hdata.
  set (c7 := le_bytes 4 blen) in Hdata.
  set (c9 := le_bytes 4 alen) in Hdata.
  assert (length c0 = 4 ∧ length c1 = 8 ∧ length c2 = 8 ∧ length c3 = 8
          ∧ length c4 = 1 ∧ length c5 = 4 ∧ length c6 = 2 ∧ length c7 = 4
          ∧ length c9 = 4)%nat as (L0 & L1 & L2 & L3 & L4 & L5 & L6 & L7 & L9).
  { unfold c0, c1, c2, c3, c4, c5, c6, c7, c9.
    rewrite !length_le_bytes. done. }
  assert (le_value c7 = Z.of_nat (length (WAL.before_image r))) as V7.
  { unfold c7, blen. rewrite u32_small by lia.
    apply le_value_le_bytes_u32. lia. }
  assert (le_value c9 = Z.of_nat (length (WAL.after_image r))) as V9.
  { unfold c9, alen. rewrite u32_small by lia.
    apply le_value_le_bytes_u32. lia. }
  unfold WAL.Deserialize.
  destruct (_ <? _) eqn:E; [apply Z.ltb_lt in E; lia|clear E].
  rewrite (read_bytes_mid data pre c0
             (c1 ++ c2 ++ c3 ++ c4 ++ c5 ++ c6 ++ c7 ++ WAL.before_image r
              ++ c9 ++ WAL.after_image r ++ post));
    [|by rewrite Hdata, <- !app_assoc|lia|lia].
  cbn [obind].
  rewrite (read_bytes_mid data (pre ++ c0) c1
             (c2 ++ c3 ++ c4 ++ c5 ++ c6 ++ c7 ++ WAL.before_image r
              ++ c9 ++ WAL.after_image r ++ post));
    [|by rewrite Hdata, <- !app_assoc|rewrite !length_app; lia|lia].
  cbn [obind].
  rewrite (read_bytes_mid data (pre ++ c0 ++ c1) c2
             (c3 ++ c4 ++ c5 ++ c6 ++ c7 ++ WAL.before_image r
              ++ c9 ++ WAL.after_image r ++ post));
    [|by rewrite Hdata, <- !app_assoc|rewrite !length_app; lia|lia].
  cbn [obind].
  rewrite (read_bytes_mid data (pre ++ c0 ++ c1 ++ c2) c3
             (c4 ++ c5 ++ c6 ++ c7 ++ WAL.before_image r
              ++ c9 ++ WAL.after_image r ++ post));
    [|by rewrite Hdata, <- !app_assoc|rewrite !length_app; lia|lia].
  cbn [obind].
  rewrite (read_bytes_mid data (pre ++ c0 ++ c1 ++ c2 ++ c3) c4
             (c5 ++ c6 ++ c7 ++ WAL.before_image r
              ++ c9 ++ WAL.after_image r ++ post));
    [|by rewrite Hdata, <- !app_assoc|rewrite !length_app; lia|lia].
  cbn [obind].
  rewrite (read_bytes_mid data (pre ++ c0 ++ c1 ++ c2 ++ c3 ++ c4) c5
             (c6 ++ c7 ++ WAL.before_image r
              ++ c9 ++ WAL.after_image r ++ post));
    [|by rewrite Hdata, <- !app_assoc|rewrite !length_app; lia|lia].
  cbn [obind].
  rewrite (read_bytes_mid data (pre ++ c0 ++ c1 ++ c2 ++ c3 ++ c4 ++ c5) c6
             (c7 ++ WAL.before_image r ++ c9 ++ WAL.after_image r ++ post));
    [|by rewrite Hdata, <- !app_assoc|rewrite !length_app; lia|lia].
  cbn [obind].
  rewrite (read_bytes_mid data
             (pre ++ c0 ++ c1 ++ c2 ++ c3 ++ c4 ++ c5 ++ c6) c7
             (WAL.before_image r ++ c9 ++ WAL.after_image r ++ post));
    [|by rewrite Hdata, <- !app_assoc|rewrite !length_app; lia|lia].
  cbn [obind]. rewrite V7.
  rewrite (read_bytes_mid data
             (pre ++ c0 ++ c1 ++ c2 ++ c3 ++ c4 ++ c5 ++ c6 ++ c7)
             (WAL.before_image r) (c9 ++ WAL.after_image r ++ post));
    [|by rewrite Hdata, <- !app_assoc|rewrite !length_app; lia|lia].
  cbn [obind].
  rewrite (read_bytes_mid data
             (pre ++ c0 ++ c1 ++ c2 ++ c3 ++ c4 ++ c5 ++ c6 ++ c7
              ++ WAL.before_image r) c9 (WAL.after_image r ++ post));
    [|by rewrite Hdata, <- !app_assoc|rewrite !length_app; lia|lia].
  cbn [obind]. rewrite V9.
  rewrite (read_bytes_mid data
             (pre ++ c0 ++ c1 ++ c2 ++ c3 ++ c4 ++ c5 ++ c6 ++ c7
              ++ WAL.before_image r ++ c9) (WAL.after_image r) post);
    [|by rewrite Hdata, <- !app_assoc|rewrite !length_app; lia|lia].
  cbn [obind].
  unfold c1, c2, c3, c5, c6.
  rewrite !le_value_le_bytes_i64, le_value_le_bytes_i32,
    le_value_le_bytes_u16 by done.
  unfold c4. rewrite (type_of_code_type_code _ Htype).
  destruct r. cbn. do 2 f_equal. lia.
Qed.

(** X7.  A well-formed log record survives the codec wherever it lies in
    the log buffer: its image takes 43 bytes and the two data images, and
    [Deserialize] at the offset where [Serialize] put it returns the record
    and the offset just past it. *)
Theorem wal_record_round_trip pre r post :
  record_ok r = true ->
  let data := pre ++ WAL.Serialize r ++ post in
  let size := (43 + length (WAL.before_image r)
               + length (WAL.after_image r))%nat in
  length (WAL.Serialize r) = size
  ∧ WAL.Deserialize data (Z.of_nat (length data)) (Z.of_nat (length pre))
    = Ok (r, Z.of_nat (length pre) + Z.of_nat size).
Proof.
  intros Hok data size. split; [apply length_Serialize|].
  unfold size. rewrite <- length_Serialize.
  by apply Deserialize_Serialize.
Qed.

Lemma read_loop_records rs : ∀ fuel pre acc,
  forallb record_ok rs = true -> (length rs <= fuel)%nat ->
  WAL.read_loop fuel (pre ++ concat (map WAL.Serialize rs))
    (Z.of_nat (length pre)) acc
  = Ok (acc ++ rs).
Proof.
  induction rs as [|r rs IH]; intros fuel pre acc Hok Hfuel.
  - cbn [map concat]. rewrite !app_nil_r.
    destruct fuel; cbn [WAL.read_loop]; by rewrite Z.ltb_irrefl.
  - cbn [forallb] in Hok. apply andb_true_iff in Hok as [Hr Hrs].
    destruct fuel as [|fuel]; [cbn in Hfuel; lia|].
    cbn [map concat WAL.read_loop].
    pose proof (length_Serialize r) as Hlen.
    destruct (_ <? _) eqn:E;
      [clear E|apply Z.ltb_ge in E; rewrite !length_app in E; lia].
    pose proof (Deserialize_Serialize pre r
                  (concat (map WAL.Serialize rs)) Hr) as Hrt.
    cbv zeta in Hrt. rewrite Hrt.
    replace (Z.of_nat (length pre) + Z.of_nat (length (WAL.Serialize r)))
      with (Z.of_nat (length (pre ++ WAL.Serialize r)))
      by (rewrite length_app; lia).
    rewrite (app_assoc pre).
    rewrite IH by (done || cbn in Hfuel; lia).
    by rewrite <- app_assoc.
Qed.

(** Every record takes at least 43 bytes: the length of the file bounds
    the number of iterations of the loop. *)
Lemma records_fuel rs :
  (length rs <= length (concat (map WAL.Serialize rs)))%nat.
Proof.
  induction rs as [|r rs IH]; [done|].
  cbn [map concat length]. rewrite length_app, length_Serialize. lia.
Qed.

(** X8.  A log file that holds the bytes of well-formed records one after
    the other is read back whole: [ReadAllRecords] returns exactly those
    records, in order. *)
Theorem wal_read_all_round_trip rs :
  forallb record_ok rs = true ->
  WAL.ReadAllRecords (concat (map WAL.Serialize rs)) = Ok rs.
Proof.
  intros Hok. unfold WAL.ReadAllRecords.
  apply (read_loop_records rs _ [] [] Hok), records_fuel.
Qed.

Lemma wal_read_all_round_trip_witness :
  let rs := [WAL.mkLog 0 100 (-1) WAL.BEGIN (-1) 0 [] [];
             WAL.mkLog 1 100 0 WAL.INSERT 5 0 [] [1; 2; 3];
             WAL.mkLog 2 100 1 WAL.COMMIT (-1) 0 [] []] in
  WAL.ReadAllRecords (concat (map WAL.Serialize rs)) = Ok rs.
Proof.
  cbv zeta. apply wal_read_all_round_trip. vm_compute. reflexivity.
Defined.

Lemma wal_record_round_trip_witness :
  let r := WAL.mkLog 1 100 0 WAL.UPDATE 5 2 [9; 9] [1; 2; 3] in
  WAL.Deserialize ([0; 0] ++ WAL.Serialize r ++ [7])
    (Z.of_nat (length ([0; 0] ++ WAL.Serialize r ++ [7]))) 2
  = Ok (r, 2 + 48).
Proof.
  cbv zeta.
  apply (wal_record_round_trip [0; 0]
           (WAL.mkLog 1 100 0 WAL.UPDATE 5 2 [9; 9] [1; 2; 3]) [7]).
  vm_compute. reflexivity.
Defined.

(** ** The log object *)

Section LogAppend.

Import Log.

Lemma last_lsn_of_snoc txn rs r :
  last_lsn_of txn (rs ++ [r])
  = if WAL.txn_id r =? txn then WAL.lsn r else last_lsn_of txn rs.
Proof.
  unfold last_lsn_of. rewrite List.filter_app. cbn [List.filter].
  destruct (WAL.txn_id r =? txn).
  - by rewrite last_snoc.
  - by rewrite app_nil_r.
Qed.

Lemma append_all_spec rs : ∀ w done,
  forallb payload_ok rs = true ->
  0 <= next_lsn_ w ->
  next_lsn_ w + Z.of_nat (length rs) < 9223372036854775808 ->
  chain_ok w done ->
  (∀ r, r ∈ done -> -1 <= WAL.lsn r < next_lsn_ w) ->
  let stamped := fst (append_all w rs) in
  let w' := snd (append_all w rs) in
  log_file_ w' ++ buffer_ w'
  = log_file_ w ++ buffer_ w ++ concat (map WAL.Serialize stamped)
  ∧ next_lsn_ w' = next_lsn_ w + Z.of_nat (length rs)
  ∧ forallb record_ok stamped = true
  ∧ length stamped = length rs
  ∧ (∀ i r, stamped !! i = Some r ->
       WAL.lsn r = next_lsn_ w + Z.of_nat i
       ∧ WAL.prev_lsn r
         = last_lsn_of (WAL.txn_id r) (done ++ take i stamped)
       ∧ ∃ r0, rs !! i = Some r0
           ∧ r = WAL.mkLog (WAL.lsn r) (WAL.txn_id r0) (WAL.prev_lsn r)
                   (WAL.type r0) (WAL.page_id r0) (WAL.slot_id r0)
                   (WAL.before_image r0) (WAL.after_image r0))
  ∧ (match last rs with
     | Some r => WAL.type r = WAL.COMMIT -> buffer_ w' = []
     | None => True
     end).
Proof.
  induction rs as [|r rs IH]; intros w done Hok Hlo Hhi Hchain Hdone.
  - cbn. rewrite app_nil_r. split; [done|]. split; [lia|].
    split; [done|]. split; [done|]. split; [|done].
    intros i r Hi. by rewrite lookup_nil in Hi.
  - cbn [forallb] in Hok. apply andb_true_iff in Hok as [Hr Hrs].
    cbn [length] in Hhi.
    cbn [append_all].
    pose (r' := WAL.mkLog (next_lsn_ w) (WAL.txn_id r)
                 (GetPrevLSN w (WAL.txn_id r)) (WAL.type r) (WAL.page_id r)
                 (WAL.slot_id r) (WAL.before_image r) (WAL.after_image r)).
    pose (prev := <[WAL.txn_id r := next_lsn_ w]> (txn_prev_lsn_ w)).
    assert (i64 (next_lsn_ w + 1) = next_lsn_ w + 1) as Hnext.
    { unfold i64, u64. rewrite Z.mod_small by lia.
      destruct (_ <? _) eqn:E; [done|]. apply Z.ltb_ge in E. lia. }
    assert (∃ w1, AppendLogRecord w r = (next_lsn_ w, r', w1)
                  ∧ next_lsn_ w1 = next_lsn_ w + 1
                  ∧ txn_prev_lsn_ w1 = prev
                  ∧ log_file_ w1 ++ buffer_ w1
                    = log_file_ w ++ buffer_ w ++ WAL.Serialize r'
                  ∧ (WAL.type r = WAL.COMMIT -> buffer_ w1 = []))
      as (w1 & E1 & N1 & P1 & F1 & C1).
    { unfold AppendLogRecord, r', prev. cbv zeta. rewrite Hnext.
      cbn [WAL.type WAL.txn_id].
      destruct (decide (WAL.type r = WAL.COMMIT)) as [Hc|Hc];
        eexists; (split; [reflexivity|]); cbn;
        rewrite ?app_nil_r, <- ?app_assoc; done. }
    rewrite E1.
    assert (-1 <= GetPrevLSN w (WAL.txn_id r) < next_lsn_ w) as Hprev.
    { rewrite Hchain. unfold last_lsn_of.
      destruct (last (List.filter _ done)) as [r0|] eqn:El; cbn;
        [|unfold INVALID_LSN; lia].
      apply Hdone. apply last_Some_elem_of in El.
      apply list_elem_of_In, List.filter_In in El as [El _].
      by apply list_elem_of_In. }
    assert (record_ok r' = true) as Hr'.
    { pose proof (record_ok_fields _ Hr) as H. cbn in H.
      destruct H as (_ & Htxn & _ & Htype & Hpage & Hslot & Hb & Ha).
      unfold record_ok, r'. cbn.
      rewrite !andb_true_iff, !Z.leb_le, !Z.ltb_lt.
      repeat split; try done; lia. }
    assert (chain_ok w1 (done ++ [r'])) as Hchain1.
    { intros txn. rewrite last_lsn_of_snoc. unfold GetPrevLSN. rewrite P1.
      unfold prev. cbn [WAL.txn_id WAL.lsn r'].
      destruct (WAL.txn_id r =? txn) eqn:E.
      - apply Z.eqb_eq in E. subst txn. by rewrite lookup_insert_eq.
      - apply Z.eqb_neq in E. rewrite lookup_insert_ne by done. apply Hchain. }
    assert (∀ r0, r0 ∈ done ++ [r'] -> -1 <= WAL.lsn r0 < next_lsn_ w1)
      as Hdone1.
    { intros r0 Hin. apply elem_of_app in Hin as [Hin|Hin].
      - specialize (Hdone r0 Hin). lia.
      - apply list_elem_of_singleton in Hin. subst r0. cbn. lia. }
    specialize (IH w1 (done ++ [r']) Hrs ltac:(lia) ltac:(lia) Hchain1 Hdone1).
    cbv zeta in IH.
    destruct (append_all w1 rs) as [stamped w'] eqn:Eall. cbn [fst snd] in *.
    destruct IH as (F' & N' & O' & L' & I' & C').
    split; [|split; [|split; [|split; [|split]]]].
    + rewrite F'. cbn [map concat].
      rewrite (app_assoc (log_file_ w1)), F1. by rewrite <- !app_assoc.
    + cbn [length]. lia.
    + cbn [forallb]. by rewrite Hr', O'.
    + cbn. by rewrite L'.
    + intros i r1 Hi. destruct i as [|i].
      * injection Hi as <-. cbn [take]. rewrite app_nil_r.
        split; [cbn; lia|]. split; [apply Hchain|].
        exists r. split; done.
      * cbn in Hi. destruct (I' i r1 Hi) as (Il & Ip & r0 & Hr0 & Er).
        split; [lia|]. split.
        { rewrite Ip. cbn [take]. by rewrite <- app_assoc. }
        exists r0. split; done.
    + destruct rs as [|r2 rs].
      * cbn in Eall. injection Eall as <- <-. cbn. exact C1.
      * cbn [last] in *. exact C'.
Qed.

Lemma log_file_Flush w : log_file_ (Flush w) = log_file_ w ++ buffer_ w.
Proof.
  unfold Flush. destruct (buffer_ w) eqn:E; [|done]. by rewrite app_nil_r.
Qed.

Lemma append_all_no_commit rs : ∀ w,
  forallb (fun r => negb (is_commit r)) rs = true ->
  log_file_ (snd (append_all w rs)) = log_file_ w.
Proof.
  induction rs as [|r rs IH]; intros w Hok; [done|].
  cbn [forallb] in Hok. apply andb_true_iff in Hok as [Hr Hrs].
  cbn [append_all]. unfold AppendLogRecord. cbv zeta. cbn [WAL.type].
  unfold is_commit in Hr. apply negb_true_iff, bool_decide_eq_false in Hr.
  destruct (decide (WAL.type r = WAL.COMMIT)) as [Hc|Hc]; [done|].
  specialize (IH (mkWAL (i64 (next_lsn_ w + 1))
                    (<[WAL.txn_id r := next_lsn_ w]> (txn_prev_lsn_ w))
                    (buffer_ w ++ WAL.Serialize
                       (WAL.mkLog (next_lsn_ w) (WAL.txn_id r)
                          (GetPrevLSN w (WAL.txn_id r)) (WAL.type r)
                          (WAL.page_id r) (WAL.slot_id r)
                          (WAL.before_image r) (WAL.after_image r)))
                    (log_file_ w)) Hrs).
  cbn [WAL.txn_id].
  destruct (append_all _ rs) as [stamped w']. exact IH.
Qed.

Lemma chain_ok_open file : chain_ok (open file) [].
Proof. intros txn. done. Qed.

End LogAppend.

(** X9.  Records appended to a fresh log over an empty file can be read
    back: after [Flush], [ReadAllRecords] returns the appended records as
    stamped, in order; when the last record appended is a COMMIT no
    [Flush] is needed; and as long as no COMMIT is appended and [Flush] is
    not called, the file stays empty. *)
Theorem wal_append_read_back rs :
  forallb payload_ok rs = true ->
  Z.of_nat (length rs) < 9223372036854775808 ->
  let stamped := fst (Log.append_all (Log.open []) rs) in
  let w := snd (Log.append_all (Log.open []) rs) in
  Log.ReadAllRecords (Log.Flush w) = Ok stamped
  ∧ (match last rs with
     | Some r => WAL.type r = WAL.COMMIT -> Log.ReadAllRecords w = Ok stamped
     | None => True
     end)
  ∧ (forallb (fun r => negb (is_commit r)) rs = true ->
     Log.ReadAllRecords w = Ok []).
Proof.
  intros Hok Hlen stamped w.
  pose proof (append_all_spec rs (Log.open []) [] Hok ltac:(cbn; lia)
                ltac:(cbn; lia) (chain_ok_open []) ltac:(by intros r ?%elem_of_nil))
    as H.
  cbv zeta in H. fold stamped w in H.
  destruct H as (F & N & O & L & I & C). cbn [Log.open Log.log_file_
    Log.buffer_ app] in F.
  unfold Log.ReadAllRecords.
  split; [|split].
  - rewrite log_file_Flush, F. unfold WAL.ReadAllRecords.
    apply (read_loop_records stamped _ [] [] O), records_fuel.
  - destruct (last rs) as [r|]; [|done]. intros Hc.
    rewrite (C Hc), app_nil_r in F. rewrite F.
    unfold WAL.ReadAllRecords.
    apply (read_loop_records stamped _ [] [] O), records_fuel.
  - intros Hnc. unfold w. by rewrite append_all_no_commit.
Qed.

Lemma wal_append_read_back_witness :
  let rs := [WAL.mkLog 0 100 0 WAL.BEGIN (-1) 0 [] [];
             WAL.mkLog 0 100 0 WAL.INSERT 5 0 [] [1; 2; 3];
             WAL.mkLog 0 100 0 WAL.COMMIT (-1) 0 [] []] in
  Log.ReadAllRecords (Log.Flush (snd (Log.append_all (Log.open []) rs)))
  = Ok (fst (Log.append_all (Log.open []) rs)).
Proof.
  cbv zeta. eapply wal_append_read_back; vm_compute; reflexivity.
Defined.

(** X10.  [AppendLogRecord] stamps the records of a fresh log with the
    LSNs 0, 1, 2, ... and links each record to the latest earlier record
    of its transaction: [prev_lsn] is that record's LSN, or -1 for the
    first record of a transaction.  The other fields are the caller's. *)
Theorem wal_append_lsn_chain rs :
  forallb payload_ok rs = true ->
  Z.of_nat (length rs) < 9223372036854775808 ->
  let stamped := fst (Log.append_all (Log.open []) rs) in
  let w := snd (Log.append_all (Log.open []) rs) in
  length stamped = length rs
  ∧ Log.GetCurrentLSN w = Z.of_nat (length rs)
  ∧ ∀ i r, stamped !! i = Some r ->
      WAL.lsn r = Z.of_nat i
      ∧ WAL.prev_lsn r = last_lsn_of (WAL.txn_id r) (take i stamped)
      ∧ ∃ r0, rs !! i = Some r0
          ∧ r = WAL.mkLog (Z.of_nat i) (WAL.txn_id r0) (WAL.prev_lsn r)
                  (WAL.type r0) (WAL.page_id r0) (WAL.slot_id r0)
                  (WAL.before_image r0) (WAL.after_image r0).
Proof.
  intros Hok Hlen stamped w.
  pose proof (append_all_spec rs (Log.open []) [] Hok ltac:(cbn; lia)
                ltac:(cbn; lia) (chain_ok_open []) ltac:(by intros r ?%elem_of_nil))
    as H.
  cbv zeta in H. fold stamped w in H.
  destruct H as (F & N & O & L & I & C).
  split; [done|]. split; [exact N|].
  intros i r Hi. destruct (I i r Hi) as (Il & Ip & r0 & Hr0 & Er).
  assert (WAL.lsn r = Z.of_nat i) as E by (rewrite Il; cbn; lia).
  split; [done|]. split; [done|].
  exists r0. split; [done|]. rewrite <- E. exact Er.
Qed.

Lemma wal_append_lsn_chain_witness :
  let rs := [WAL.mkLog 0 100 0 WAL.BEGIN (-1) 0 [] [];
             WAL.mkLog 0 200 0 WAL.BEGIN (-1) 0 [] [];
             WAL.mkLog 0 100 0 WAL.INSERT 5 0 [] [1; 2; 3]] in
  length (fst (Log.append_all (Log.open []) rs)) = length rs
  ∧ Log.GetCurrentLSN (snd (Log.append_all (Log.open []) rs)) = 3.
Proof.
  cbv zeta.
  destruct (wal_append_lsn_chain
              [WAL.mkLog 0 100 0 WAL.BEGIN (-1) 0 [] [];
               WAL.mkLog 0 200 0 WAL.BEGIN (-1) 0 [] [];
               WAL.mkLog 0 100 0 WAL.INSERT 5 0 [] [1; 2; 3]])
    as (H1 & H2 & _); [vm_compute; reflexivity..|].
  split; [exact H1|exact H2].
Defined.

(** ** Free-space map: categories, and update followed by search *)

(** X11.  The category byte is a conservative estimate of the free bytes:
    it lies in [0, 255], grows with the free bytes, never stands for more
    bytes than are free, and for a page of 4096 bytes it stands for less
    than 16 bytes fewer. *)
Theorem fsm_category_conservative n m :
  0 <= n <= m -> m < 65536 ->
  0 <= FreeSpaceMap.BytesToCategory n <= 255
  ∧ FreeSpaceMap.BytesToCategory n <= FreeSpaceMap.BytesToCategory m
  ∧ FreeSpaceMap.CategoryToBytes (FreeSpaceMap.BytesToCategory n) <= n
  ∧ (n < 4096 ->
     n - 16 < FreeSpaceMap.CategoryToBytes (FreeSpaceMap.BytesToCategory n)).
Proof.
  intros Hn Hm.
  rewrite !BytesToCategory_floor by lia.
  assert (0 <= n / 16 <= m / 16) as Hq.
  { split; [apply Z.div_pos; lia|apply Z.div_le_mono; lia]. }
  pose proof (Z.div_mod n 16 ltac:(lia)) as Hdiv.
  pose proof (Z.mod_pos_bound n 16 ltac:(lia)) as Hmod.
  unfold FreeSpaceMap.CategoryToBytes, FreeSpaceMap.GRANULARITY.
  rewrite u16_small by lia.
  split; [lia|]. split; [lia|]. split; [lia|].
  intros Hsmall. assert (n / 16 < 256) by (apply Z.div_lt_upper_bound; lia).
  lia.
Qed.

Lemma fsm_category_conservative_witness :
  FreeSpaceMap.CategoryToBytes (FreeSpaceMap.BytesToCategory 4088) <= 4088.
Proof.
  apply (fsm_category_conservative 4088 4088); lia.
Defined.

Lemma GetFSMLocation_first f p :
  0 <= p < FreeSpaceMap.entries_per_page_ f ->
  FreeSpaceMap.entries_per_page_ f <= 4096 ->
  -2147483648 <= FreeSpaceMap.fsm_start_page_ f < 2147483648 ->
  FreeSpaceMap.GetFSMLocation f p = (FreeSpaceMap.fsm_start_page_ f, p).
Proof.
  intros Hp He Hf. unfold FreeSpaceMap.GetFSMLocation.
  rewrite Z.quot_small, Z.rem_small by lia.
  rewrite Z.add_0_r, u16_small by lia. f_equal.
  unfold i32, u32.
  destruct (decide (0 <= FreeSpaceMap.fsm_start_page_ f)) as [H|H].
  - rewrite Z.mod_small by lia.
    destruct (_ <? _) eqn:E; [done|]. apply Z.ltb_ge in E. lia.
  - replace (FreeSpaceMap.fsm_start_page_ f mod 4294967296)
      with (FreeSpaceMap.fsm_start_page_ f + 4294967296).
    + destruct (_ <? _) eqn:E; [apply Z.ltb_lt in E|]; lia.
    + apply (Z.mod_unique_pos _ 4294967296 (-1)); lia.
Qed.

Lemma UpdateFreeSpace_eq f b p free_bytes :
  0 <= p < FreeSpaceMap.entries_per_page_ f ->
  FreeSpaceMap.entries_per_page_ f <= 4096 ->
  -2147483648 <= FreeSpaceMap.fsm_start_page_ f < 2147483648 ->
  fetchable b (FreeSpaceMap.fsm_start_page_ f) = true ->
  FreeSpaceMap.UpdateFreeSpace f b p free_bytes
  = SetData b (FreeSpaceMap.fsm_start_page_ f)
      (poke (GetData b (FreeSpaceMap.fsm_start_page_ f)) (Z.to_nat p)
         (FreeSpaceMap.BytesToCategory free_bytes)).
Proof.
  intros Hp He Hf Hfetch. unfold FreeSpaceMap.UpdateFreeSpace.
  rewrite GetFSMLocation_first by done.
  pose proof (fetch_write_unpin b (FreeSpaceMap.fsm_start_page_ f)
                (poke (GetData b (FreeSpaceMap.fsm_start_page_ f)) (Z.to_nat p)
                   (FreeSpaceMap.BytesToCategory free_bytes)) true Hfetch) as H.
  destruct (FetchPage_Some _ _ Hfetch) as (k & E & _).
  rewrite E in H |- *. exact H.
Qed.

Lemma FindPageWithSpace_eq f b n :
  fetchable b (FreeSpaceMap.fsm_start_page_ f) = true ->
  FreeSpaceMap.FindPageWithSpace f b n
  = (FreeSpaceMap.scan (GetData b (FreeSpaceMap.fsm_start_page_ f))
       (FreeSpaceMap.BytesToCategory n) 0
       (Z.to_nat (FreeSpaceMap.entries_per_page_ f)), b).
Proof.
  intros Hfetch. unfold FreeSpaceMap.FindPageWithSpace.
  pose proof (fetch_unpin b (FreeSpaceMap.fsm_start_page_ f) false Hfetch) as H.
  destruct (FetchPage_Some _ _ Hfetch) as (k & E & _).
  rewrite E in H |- *. cbn [snd] in H. by rewrite H.
Qed.

Lemma fsm_category_conservative_bounds n free_bytes :
  0 <= n < 65536 -> 0 <= free_bytes < 65536 ->
  16 <= free_bytes -> n <= free_bytes ->
  FreeSpaceMap.BytesToCategory n <= FreeSpaceMap.BytesToCategory free_bytes
  ∧ 0 < FreeSpaceMap.BytesToCategory free_bytes.
Proof.
  intros Hn Hf Hroom Hneed. rewrite !BytesToCategory_floor by lia.
  assert (1 <= free_bytes / 16) by (apply Z.div_le_lower_bound; lia).
  assert (n / 16 <= free_bytes / 16) by (apply Z.div_le_mono; lia).
  lia.
Qed.

(** X12.  After [UpdateFreeSpace] has recorded [free_bytes] (at least 16)
    for a heap page tracked by the first FSM page, a search for no more
    than [free_bytes] bytes finds that page or one with a lower id; the
    update touches this one entry only, and neither call changes the pool
    otherwise (no pin is left behind). *)
Theorem fsm_update_then_find f b p free_bytes n :
  0 <= p < FreeSpaceMap.entries_per_page_ f ->
  FreeSpaceMap.entries_per_page_ f <= 4096 ->
  -2147483648 <= FreeSpaceMap.fsm_start_page_ f < 2147483648 ->
  fetchable b (FreeSpaceMap.fsm_start_page_ f) = true ->
  0 <= free_bytes < 65536 -> 0 <= n < 65536 ->
  let fsm_page := FreeSpaceMap.fsm_start_page_ f in
  let b' := FreeSpaceMap.UpdateFreeSpace f b p free_bytes in
  let r := FreeSpaceMap.FindPageWithSpace f b' n in
  pins b' = pins b
  ∧ snd r = b'
  ∧ peek (GetData b' fsm_page) (Z.to_nat p)
    = FreeSpaceMap.BytesToCategory free_bytes
  ∧ (∀ i, i ≠ Z.to_nat p ->
       peek (GetData b' fsm_page) i = peek (GetData b fsm_page) i)
  ∧ (∀ q, q ≠ fsm_page -> GetData b' q = GetData b q)
  ∧ (16 <= free_bytes -> n <= free_bytes -> 0 <= fst r <= p).
Proof.
  intros Hp He Hf Hfetch Hfree Hn fsm_page b' r.
  assert (b' = SetData b fsm_page
                 (poke (GetData b fsm_page) (Z.to_nat p)
                    (FreeSpaceMap.BytesToCategory free_bytes))) as Eb'
    by (by apply UpdateFreeSpace_eq).
  assert (fetchable b' fsm_page = true) as Hfetch' by (by rewrite Eb').
  assert (r = (FreeSpaceMap.scan (GetData b' fsm_page)
                 (FreeSpaceMap.BytesToCategory n) 0
                 (Z.to_nat (FreeSpaceMap.entries_per_page_ f)), b')) as Er
    by (by apply FindPageWithSpace_eq).
  assert (peek (GetData b' fsm_page) (Z.to_nat p)
          = FreeSpaceMap.BytesToCategory free_bytes) as Hentry.
  { rewrite Eb', GetData_SetData_eq
      by (rewrite length_poke; apply GetData_length).
    rewrite peek_poke_eq by (rewrite GetData_length; unfold PAGE_SIZE; lia).
    unfold FreeSpaceMap.BytesToCategory, u8. apply Z.mod_mod. lia. }
  split; [by rewrite Eb'|]. split; [by rewrite Er|]. split; [exact Hentry|].
  split; [|split].
  - intros i Hi. rewrite Eb', GetData_SetData_eq
      by (rewrite length_poke; apply GetData_length).
    by apply peek_poke_ne.
  - intros q Hq. rewrite Eb'. by apply GetData_SetData_ne.
  - intros Hroom Hneed. rewrite Er. cbn [fst].
    pose proof (fsm_scan_first (GetData b' fsm_page)
                  (FreeSpaceMap.BytesToCategory n)
                  (Z.to_nat (FreeSpaceMap.entries_per_page_ f)) 0 ltac:(lia))
      as Hscan.
    cbv zeta in Hscan.
    destruct (fsm_category_conservative_bounds n free_bytes Hn Hfree Hroom Hneed)
      as [Hle Hpos].
    destruct Hscan as [[_ Hnone]|(Hr & _ & _ & Hfirst)].
    + exfalso. apply (Hnone p); [lia|]. rewrite Hentry. lia.
    + split; [lia|].
      destruct (Z.le_gt_cases (FreeSpaceMap.scan (GetData b' fsm_page)
                                 (FreeSpaceMap.BytesToCategory n) 0
                                 (Z.to_nat (FreeSpaceMap.entries_per_page_ f)))
                  p) as [H|H]; [done|].
      exfalso. apply (Hfirst p); [lia|]. rewrite Hentry. lia.
Qed.

Lemma fsm_update_then_find_witness :
  0 <= fst (FreeSpaceMap.FindPageWithSpace Scenario.users_fsm
              (FreeSpaceMap.UpdateFreeSpace Scenario.users_fsm
                 (fst Scenario.users) 2 100) 60) <= 2.
Proof.
  destruct (fsm_update_then_find Scenario.users_fsm (fst Scenario.users)
              2 100 60) as (_ & _ & _ & _ & _ & H);
    [vm_compute; split; congruence|vm_compute; congruence
    |vm_compute; split; congruence|vm_compute; reflexivity|lia|lia|].
  apply H; lia.
Defined.

(** ** Recovery: the active transactions, and what recovery leaves alone *)

Lemma AnalysisPhase_snoc rs r :
  Recovery.AnalysisPhase (rs ++ [r])
  = Recovery.analysis_step (Recovery.AnalysisPhase rs) r.
Proof. unfold Recovery.AnalysisPhase. by rewrite fold_left_app. Qed.

Lemma analysis_step_active st r txn :
  txn ∈ fst (Recovery.analysis_step st r)
  ↔ if (WAL.txn_id r =? txn) && (opens_txn r || closes_txn r)
    then opens_txn r = true else txn ∈ fst st.
Proof.
  destruct st as [active dirty].
  unfold Recovery.analysis_step, opens_txn, closes_txn.
  destruct (WAL.txn_id r =? txn) eqn:E;
    [apply Z.eqb_eq in E|apply Z.eqb_neq in E];
    destruct (WAL.type r); cbn [andb orb fst];
    try (destruct (WAL.page_id r =? INVALID_PAGE_ID); cbn [fst];
         try destruct (dirty !! WAL.page_id r); cbn [fst]);
    rewrite ?elem_of_union, ?elem_of_difference, ?elem_of_singleton;
    intuition congruence.
Qed.

Lemma analysis_active_set records txn :
  txn ∈ fst (Recovery.AnalysisPhase records) ↔ is_active records txn = true.
Proof.
  induction records as [|r rs IH] using rev_ind.
  - cbn. split; [|done]. intros H. by apply elem_of_empty in H.
  - rewrite AnalysisPhase_snoc, analysis_step_active.
    unfold is_active. rewrite rev_unit. cbn [List.find].
    destruct (_ && _); [done|exact IH].
Qed.

(** X13.  The analysis phase leaves a transaction active exactly when the
    last BEGIN, COMMIT, ABORT, INSERT, DELETE or UPDATE record of the
    transaction in the log is not a COMMIT or ABORT: these are the
    transactions the undo phase rolls back. *)
Theorem analysis_active_transactions records :
  (∀ txn, txn ∈ fst (Recovery.AnalysisPhase records)
          ↔ is_active records txn = true)
  ∧ (fst (Recovery.AnalysisPhase records) = ∅
     ↔ ∀ txn, is_active records txn = false).
Proof.
  split; [apply analysis_active_set|]. split.
  - intros E txn. destruct (is_active records txn) eqn:Ea; [|done].
    apply analysis_active_set in Ea. rewrite E in Ea.
    by apply elem_of_empty in Ea.
  - intros H. apply set_eq. intros txn.
    rewrite analysis_active_set, H. split; [done|].
    intros Hin. by apply elem_of_empty in Hin.
Qed.
Lemma fetch_apply_unpin b p (f : list Z -> list Z) :
  same_but p b
    (match FetchPage b p with
     | (None, b') => b'
     | (Some page, b') => UnpinPage (SetData b' p (f page)) p true
     end).
Proof.
  destruct (fetchable b p) eqn:Hf.
  - pose proof (fetch_write_unpin b p (f (GetData b p)) true Hf) as H.
    destruct (FetchPage_Some b p Hf) as (k & E & _).
    rewrite E in H |- *. cbn [snd] in H. rewrite H.
    split; [done|]. split; [done|]. split; [done|].
    intros q Hq. by apply GetData_SetData_ne.
  - rewrite (FetchPage_None b p Hf). by split.
Qed.

Lemma same_but_refl p b : same_but p b b.
Proof. by split. Qed.







Lemma analysis_no_active records :
  (∀ txn, is_active records txn = false) ->
  fst (Recovery.AnalysisPhase records) = ∅.
Proof.
  intros H. apply set_eq. intros txn.
  rewrite analysis_active_set, H. split; [done|].
  intros Hin. by apply elem_of_empty in Hin.
Qed.

(** X15.  When every transaction of the log ended (the last record of
    each is a COMMIT or an ABORT), the undo phase does nothing: recovery
    is the redo phase alone. *)
Theorem recover_without_losers records b :
  (∀ txn, is_active records txn = false) ->
  Recovery.Recover records b
  = Recovery.RedoPhase records (snd (Recovery.AnalysisPhase records)) b.
Proof.
  intros H. unfold Recovery.Recover. destruct records as [|r0 rs]; [done|].
  pose proof (analysis_no_active _ H) as Ha.
  destruct (Recovery.AnalysisPhase (r0 :: rs)) as [active dirty].
  cbn [fst snd] in *. subst active.
  destruct (Recovery.RedoPhase (r0 :: rs) dirty b) as [b1 redone].
  unfold Recovery.UndoPhase. by rewrite bool_decide_eq_true_2.
Qed.

Lemma recover_without_losers_witness :
  let records := [WAL.mkLog 0 100 (-1) WAL.BEGIN (-1) 0 [] [];
                  WAL.mkLog 1 100 0 WAL.INSERT 5 0 [] [1; 2; 3];
                  WAL.mkLog 2 100 1 WAL.COMMIT (-1) 0 [] []] in
  Recovery.Recover records Scenario.pool0
  = Recovery.RedoPhase records (snd (Recovery.AnalysisPhase records))
      Scenario.pool0.
Proof.
  cbv zeta. apply recover_without_losers. intros txn.
  match goal with
  | |- is_active ?rs _ = _ =>
      assert (fst (Recovery.AnalysisPhase rs) = ∅) as E
        by (vm_compute; reflexivity);
      destruct (is_active rs txn) eqn:Ea; [|done];
      apply analysis_active_set in Ea; rewrite E in Ea;
      by apply elem_of_empty in Ea
  end.
Defined.

Lemma fetchable_SetData b p q d :
  fetchable (SetData b q d) p = fetchable b p.
Proof. done. Qed.

Lemma fetch_apply_unpin_eq b p (f : list Z -> list Z) :
  fetchable b p = true ->
  (match FetchPage b p with
   | (None, b') => b'
   | (Some page, b') => UnpinPage (SetData b' p (f page)) p true
   end) = SetData b p (f (GetData b p)).
Proof.
  intros Hf.
  pose proof (fetch_write_unpin b p (f (GetData b p)) true Hf) as H.
  destruct (FetchPage_Some b p Hf) as (k & E & _).
  rewrite E in H |- *. exact H.
Qed.

Lemma redo_step_skip dirty st r :
  Recovery.is_data_op (WAL.type r) = false -> Recovery.redo_step dirty st r = st.
Proof.
  intros H. unfold Recovery.redo_step. destruct st as [b redone].
  by rewrite H.
Qed.

Lemma redo_step_insert dirty b redone r rec_lsn :
  WAL.type r = WAL.INSERT -> WAL.page_id r ≠ INVALID_PAGE_ID ->
  dirty !! WAL.page_id r = Some rec_lsn -> rec_lsn <= WAL.lsn r ->
  fetchable b (WAL.page_id r) = true -> WAL.after_image r ≠ [] ->
  fst (Recovery.redo_step dirty (b, redone) r)
  = SetData b (WAL.page_id r)
      (snd (SlottedPage.InsertRecord (GetData b (WAL.page_id r))
              (WAL.after_image r)
              (u16 (Z.of_nat (length (WAL.after_image r)))))).
Proof.
  intros Ht Hp Hd Hl Hf Hi. unfold Recovery.redo_step.
  rewrite Ht. cbn [Recovery.is_data_op negb].
  destruct (_ =? _) eqn:E; [by apply Z.eqb_eq in E|]. rewrite Hd.
  destruct (_ <? _) eqn:E2; [apply Z.ltb_lt in E2; lia|].
  pose proof (fetch_apply_unpin_eq b (WAL.page_id r)
                (fun pg => fst (Recovery.redo_apply pg r)) Hf) as H.
  destruct (FetchPage_Some b _ Hf) as (k & Ef & _). rewrite Ef in H |- *.
  destruct (Recovery.redo_apply (GetData b (WAL.page_id r)) r)
    as [pg' counted] eqn:Eapp.
  cbn [fst] in *. rewrite H. f_equal.
  revert Eapp. unfold Recovery.redo_apply. rewrite Ht.
  rewrite bool_decide_eq_false_2 by done. by intros [= <- _].
Qed.

Lemma undo_step_insert active b r :
  WAL.type r = WAL.INSERT -> WAL.page_id r ≠ INVALID_PAGE_ID ->
  WAL.txn_id r ∈ active -> fetchable b (WAL.page_id r) = true ->
  Recovery.undo_step active b r
  = SetData b (WAL.page_id r)
      (snd (SlottedPage.DeleteRecord (GetData b (WAL.page_id r))
              (WAL.slot_id r))).
Proof.
  intros Ht Hp Ha Hf. unfold Recovery.undo_step.
  rewrite bool_decide_eq_true_2 by done. cbn [negb].
  destruct (_ =? _) eqn:E; [by apply Z.eqb_eq in E|].
  rewrite (fetch_apply_unpin_eq b (WAL.page_id r)
             (fun pg => Recovery.undo_apply pg r) Hf).
  unfold Recovery.undo_apply. by rewrite Ht.
Qed.

Lemma undo_step_no_page active b r :
  WAL.page_id r = INVALID_PAGE_ID -> Recovery.undo_step active b r = b.
Proof.
  intros Hp. unfold Recovery.undo_step. rewrite Hp.
  by destruct (negb _).
Qed.

(** *** What the redo phase re-applies *)

Section RedoPool.

Import WAL Recovery.








End RedoPool.



(** X16.  Recovery of a log that holds one transaction with one INSERT,
    on a page as it was before the insert: if the transaction committed,
    the record is in its slot afterwards; if it did not, the slot is empty
    afterwards.  Either way every other slot of the page reads as before. *)
Theorem recover_insert_committed_or_not b txn p img l0 l1 l2 committed :
  let page := GetData b p in
  let len := Z.of_nat (length img) in
  let s := fst (SlottedPage.InsertRecord page img len) in
  let log := [WAL.mkLog l0 txn (-1) WAL.BEGIN INVALID_PAGE_ID 0 [] [];
              WAL.mkLog l1 txn l0 WAL.INSERT p s [] img]
             ++ (if committed : bool
                 then [WAL.mkLog l2 txn l1 WAL.COMMIT INVALID_PAGE_ID 0 [] []]
                 else []) in
  page_ok page -> fetchable b p = true -> p ≠ INVALID_PAGE_ID ->
  0 < len <= 65531 -> s ≠ -1 ->
  let page' := GetData (fst (Recovery.Recover log b)) p in
  SlottedPage.GetRecord page' s = (if committed then Some img else None)
  ∧ ∀ s', 0 <= s' -> s' ≠ s ->
      SlottedPage.GetRecord page' s' = SlottedPage.GetRecord page s'.
Proof.
  intros page len s log Hok Hfetch Hp Hlen Hs page'.
  unfold s in *. clear s.
  destruct (SlottedPage.InsertRecord page img len) as [s page1] eqn:Hins.
  cbn [fst] in *.
  destruct (slotted_insert_get_facts page img s page1 Hok Hlen Hins Hs)
    as (Hok1 & Hget1 & Hframe1).
  assert ((p =? INVALID_PAGE_ID) = false) as Ep by (by apply Z.eqb_neq).
  assert (u16 len = len) as Elen by (apply u16_small; lia).
  assert (img ≠ []) as Himg.
  { intros E. unfold len in Hlen. rewrite E in Hlen. cbn in Hlen. lia. }
  set (b1 := SetData b p page1).
  assert (GetData b1 p = page1) as Eb1.
  { unfold b1. apply GetData_SetData_eq. by destruct Hok1. }
  assert (fst (Recovery.RedoPhase log {[p := l1]} b) = b1) as Hredo.
  { unfold Recovery.RedoPhase, log. cbn [app fold_left].
    rewrite (redo_step_skip _ (b, [])
               (WAL.mkLog l0 txn (-1) WAL.BEGIN INVALID_PAGE_ID 0 [] []))
      by reflexivity.
    pose proof (redo_step_insert {[p := l1]} b []
                  (WAL.mkLog l1 txn l0 WAL.INSERT p s [] img) l1
                  eq_refl Hp (lookup_singleton_eq _ _) ltac:(cbn; lia)
                  Hfetch Himg) as H.
    cbn [WAL.page_id WAL.after_image] in H. fold len page in H.
    rewrite Elen, Hins in H. cbn [snd] in H.
    destruct (Recovery.redo_step _ (b, []) _) as [b1' redone] eqn:E.
    cbn [fst] in H. subst b1'.
    destruct committed; cbn [fold_left]; [|done].
    by rewrite redo_step_skip by reflexivity. }
  unfold page', Recovery.Recover.
  assert (Recovery.AnalysisPhase log
          = (if committed then ∅ else {[txn]}, {[p := l1]})) as Han.
  { unfold Recovery.AnalysisPhase, log.
    destruct committed; cbn [app fold_left]; unfold Recovery.analysis_step;
      cbn [WAL.type WAL.txn_id WAL.page_id WAL.lsn];
      rewrite Ep, lookup_empty; (apply pair_equal_spec; split; [|done]);
      apply set_eq; intros x;
      rewrite ?elem_of_difference, ?elem_of_union, ?elem_of_singleton,
        ?elem_of_empty; intuition. }
  assert (log ≠ []) as Hne by (unfold log; by destruct committed).
  destruct log as [|r0 rest] eqn:Elog; [done|]. rewrite <- Elog in *.
  rewrite Han.
  destruct (Recovery.RedoPhase log {[p := l1]} b) as [b1' redone].
  cbn [fst] in Hredo. subst b1'.
  cbn [fst]. unfold Recovery.UndoPhase.
  destruct committed.
  - rewrite bool_decide_eq_true_2 by done. rewrite Eb1. by split.
  - rewrite bool_decide_eq_false_2
      by (intros E; assert (txn ∈ (∅ : gset Z)) as H
            by (rewrite <- E; by apply elem_of_singleton);
          by apply elem_of_empty in H).
    rewrite Elog. unfold log in Elog. cbn [app] in Elog.
    injection Elog as <- <-.
    cbn [rev app fold_left].
    rewrite (undo_step_insert {[txn]} b1
               (WAL.mkLog l1 txn l0 WAL.INSERT p s [] img) eq_refl Hp
               ltac:(by apply elem_of_singleton) Hfetch).
    rewrite undo_step_no_page by reflexivity.
    cbn [WAL.page_id WAL.slot_id]. rewrite Eb1.
    assert (0 <= s) as Hs0'.
    { pose proof (insert_post page img len Hok ltac:(lia) s page1 Hins Hs)
        as H. cbv zeta in H. lia. }
    rewrite GetData_SetData_eq
      by (destruct (slotted_delete_facts page1 s Hok1 Hs0') as (Hok2 & _);
          by destruct Hok2).
    assert (0 <= s) as Hs0.
    { pose proof (insert_post page img len Hok ltac:(lia) s page1 Hins Hs)
        as H. cbv zeta in H. lia. }
    destruct (slotted_delete_facts page1 s Hok1 Hs0)
      as (_ & _ & Hnone & _ & _ & Hframe2).
    split; [exact Hnone|].
    intros s' Hs' Hne'. rewrite Hframe2 by done. by apply Hframe1.
Qed.

Lemma recover_insert_committed_or_not_witness :
  let b := fst Scenario.users in
  let log := [WAL.mkLog 0 100 (-1) WAL.BEGIN INVALID_PAGE_ID 0 [] [];
              WAL.mkLog 1 100 0 WAL.INSERT 2 0 [] [1; 2; 3]] in
  SlottedPage.GetRecord (GetData (fst (Recovery.Recover log b)) 2) 0 = None.
Proof.
  cbv zeta.
  pose proof (recover_insert_committed_or_not (fst Scenario.users) 100 2
                [1; 2; 3] 0 1 2 false) as H.
  cbv zeta in H.
  assert (fst (SlottedPage.InsertRecord (GetData (fst Scenario.users) 2)
                 [1; 2; 3] (Z.of_nat (length [1; 2; 3]))) = 0) as E
    by (vm_compute; reflexivity).
  rewrite E in H. destruct H as [H _]; [| | | | |exact H].
  - apply page_okb_ok. vm_compute. reflexivity.
  - vm_compute. reflexivity.
  - discriminate.
  - cbn. lia.
  - discriminate.
Defined.

(** ** Lock manager: what [UnlockAll] releases *)

Section LockRelease.

Import LockManager.

Lemma books_empty : books empty.
Proof.
  split.
  - intros key q e Hq. cbn in Hq. by rewrite lookup_empty in Hq.
  - intros key q e Hq. cbn in Hq. by rewrite lookup_empty in Hq.
Qed.

Lemma lookup_touch lm key key' q :
  lock_table_ (touch lm key) !! key' = Some q ->
  ∀ e : Node, e ∈ q -> lock_table_ lm !! key' = Some q.
Proof.
  cbn. rewrite lookup_insert. case_decide as E; [|done].
  subst key'. intros [= <-] e He. unfold queue_of in *.
  destruct (lock_table_ lm !! key) as [q|]; cbn in *; [done|].
  by apply elem_of_nil in He.
Qed.

Lemma books_touch lm key : books lm -> books (touch lm key).
Proof.
  intros [Hg Hp]. split.
  - intros key' q e Hq He. apply (Hg key' q e); [|done].
    by apply (lookup_touch lm key key' q Hq e).
  - intros key' q e Hq He. apply (Hp key' q e); [|done].
    by apply (lookup_touch lm key key' q Hq e).
Qed.

Lemma lookup_push_back lm key req key' q' (e : Node) :
  lock_table_ (push_back lm key req) !! key' = Some q' -> e ∈ q' ->
  (e = (next_node_ lm, req) ∧ key' = key)
  ∨ ∃ q, lock_table_ lm !! key' = Some q ∧ e ∈ q.
Proof.
  cbn. rewrite lookup_insert. case_decide as E.
  - subst key'. intros [= <-] He. apply elem_of_app in He as [He|He].
    + right. by apply elem_of_queue_of.
    + left. by apply list_elem_of_singleton in He.
  - eauto.
Qed.

(** After the [push_back] of a call, its node is the one pending request
    without a blocked call. *)
Lemma books_push_back lm key req :
  books lm -> granted req = false ->
  granted_recorded (push_back lm key req)
  ∧ pending_blocked (push_back lm key req) (Some (key, next_node_ lm)).
Proof.
  intros [Hg Hp] Hreq. split.
  - intros key' q' e Hq' He Hge.
    destruct (lookup_push_back _ _ _ _ _ _ Hq' He) as [[-> _]|(q & Hq & Hin)].
    + cbn in Hge. congruence.
    + by apply (Hg key' q e).
  - intros key' q' e Hq' He Hge.
    destruct (lookup_push_back _ _ _ _ _ _ Hq' He) as [[-> ->]|(q & Hq & Hin)].
    + by left.
    + right. destruct (Hp key' q e Hq Hin Hge) as [?|H]; [done|exact H].
Qed.

Lemma books_block lm w :
  granted_recorded lm ->
  pending_blocked lm
    (if decide (w_kind w = WUpgrade) then None
     else Some (w_key w, w_node w)) ->
  (w_kind w ≠ WUpgrade ->
   ∀ q (e : Node), lock_table_ lm !! w_key w = Some q -> e ∈ q ->
     e.1 = w_node w -> txn_id e.2 = w_txn w) ->
  books (block lm w).
Proof.
  intros Hg Hp Htxn. split; [exact Hg|].
  intros key q e Hq He Hge. right.
  destruct (Hp key q e Hq He Hge) as [Hskip|(w' & Hin & H)].
  - destruct (decide (w_kind w = WUpgrade)) as [|Hk]; [done|].
    injection Hskip as Ek En. subst key. exists w. split.
    + cbn. apply elem_of_app. right. by apply list_elem_of_singleton.
    + split; [done|]. split; [done|]. split; [|done].
      symmetry. by apply (Htxn Hk q e).
  - exists w'. split; [|done]. cbn. apply elem_of_app. by left.
Qed.

Lemma txn_locks_grant lm txn key it t k keys :
  txn_locks_ lm !! t = Some keys -> k ∈ keys ->
  ∃ keys', txn_locks_ (grant lm txn key it) !! t = Some keys' ∧ k ∈ keys'.
Proof.
  intros Ht Hk. cbn. destruct (decide (t = txn)) as [->|Hne].
  - rewrite lookup_insert_eq, Ht. cbn. eexists. split; [done|].
    apply elem_of_union. by right.
  - rewrite lookup_insert_ne by done. eauto.
Qed.

Lemma books_grant lm txn key it :
  granted_recorded lm -> pending_blocked lm (Some (key, it)) ->
  (∀ q (e : Node), lock_table_ lm !! key = Some q -> e ∈ q -> e.1 = it ->
     txn_id e.2 = txn) ->
  books (grant lm txn key it).
Proof.
  intros Hg Hp Htxn. split.
  - intros key' q' e' Hq' He' Hge.
    apply lookup_alter_update in Hq' as [(-> & q & Hq & ->)|(Hne & Hq)].
    + apply elem_of_update_node in He' as (e & He & _ & [[Eit E2]|[Hne ->]]).
      * rewrite E2. cbn [txn_id set_granted]. rewrite (Htxn q e Hq He Eit).
        cbn. rewrite lookup_insert_eq. eexists. split; [done|].
        apply elem_of_union. left. by apply elem_of_singleton.
      * destruct (Hg key q e Hq He Hge) as (keys & Hk & Hin).
        by apply (txn_locks_grant lm txn key it _ _ keys).
    + destruct (Hg key' q' e' Hq He' Hge) as (keys & Hk & Hin).
      by apply (txn_locks_grant lm txn key it _ _ keys).
  - intros key' q' e' Hq' He' Hge. right.
    apply lookup_alter_update in Hq' as [(-> & q & Hq & ->)|(Hne & Hq)].
    + apply elem_of_update_node in He' as (e & He & _ & [[Eit E2]|[Hne ->]]).
      * rewrite E2 in Hge. done.
      * destruct (Hp key q e Hq He Hge) as [[= ?]|H]; [done|exact H].
    + destruct (Hp key' q' e' Hq He' Hge) as [[= ? ?]|H]; [done|exact H].
Qed.

Lemma books_set_exclusive lm key it : books lm -> books (set_exclusive lm key it).
Proof.
  intros [Hg Hp]. split.
  - intros key' q' e' Hq' He' Hge.
    apply lookup_alter_update in Hq' as [(-> & q & Hq & ->)|(Hne & Hq)];
      [|by apply (Hg key' q' e')].
    apply elem_of_update_node in He' as (e & He & _ & [[Eit E2]|[Hne ->]]);
      [|by apply (Hg key q e)].
    rewrite E2 in Hge |- *. cbn in Hge |- *. by apply (Hg key q e).
  - intros key' q' e' Hq' He' Hge.
    apply lookup_alter_update in Hq' as [(-> & q & Hq & ->)|(Hne & Hq)];
      [|by apply (Hp key' q' e')].
    apply elem_of_update_node in He' as (e & He & E1 & [[Eit E2]|[Hne ->]]);
      [|by apply (Hp key q e)].
    rewrite E2 in Hge |- *. cbn in Hge |- *. rewrite E1.
    by apply (Hp key q e).
Qed.

Lemma books_unblock lm w :
  books lm ->
  granted_recorded (unblock lm w) ∧ pending_blocked (unblock lm w) (skip_of w).
Proof.
  intros [Hg Hp]. split; [exact Hg|].
  intros key q e Hq He Hge.
  destruct (Hp key q e Hq He Hge) as [?|(w' & Hin & Hn & Hk & Ht & Hkind)];
    [done|].
  destruct (decide (w' = w)) as [->|Hne].
  - left. unfold skip_of. destruct (decide _); [done|]. by rewrite Hn, Hk.
  - right. exists w'. split; [|done]. cbn. by apply list_elem_of_filter.
Qed.

Lemma pending_blocked_weaken lm skip :
  pending_blocked lm None -> pending_blocked lm skip.
Proof.
  intros Hp key q e Hq He Hge. right.
  destruct (Hp key q e Hq He Hge) as [?|H]; [done|exact H].
Qed.

Lemma books_complete lm w :
  granted_recorded lm -> pending_blocked lm (skip_of w) -> waiter_ok lm w ->
  books (complete lm w).
Proof.
  intros Hg Hp [_ Hok]. unfold complete, skip_of in *.
  destruct (w_kind w) eqn:Ek.
  - destruct (decide _); [done|]. apply books_grant; [done..|].
    intros q e Hq He Eit. by destruct (Hok q e Hq He Eit).
  - destruct (decide _); [done|]. apply books_grant; [done..|].
    intros q e Hq He Eit. by destruct (Hok q e Hq He Eit).
  - destruct (decide _); [|done]. by apply books_set_exclusive.
Qed.

Lemma books_wait_or_complete lm w :
  granted_recorded lm -> pending_blocked lm (skip_of w) -> waiter_ok lm w ->
  books (wait_or_complete lm w).
Proof.
  intros Hg Hp Hok. unfold wait_or_complete.
  destruct (ready lm w); [by apply books_complete|].
  apply books_block; [done|exact Hp|].
  intros _ q e Hq He Eit. destruct Hok as [_ Hok].
  by destruct (Hok q e Hq He Eit).
Qed.

Lemma books_LockShared lm txn rid :
  inv lm -> books lm -> books (LockShared lm txn rid).
Proof.
  intros Hinv Hb. unfold LockShared.
  pose proof (inv_touch lm (MakeKey rid) Hinv) as Ht.
  pose proof (books_touch lm (MakeKey rid) Hb) as Hbt.
  destruct (holds _ txn); [done|].
  destruct (books_push_back (touch lm (MakeKey rid)) (MakeKey rid)
              (mkReq txn SHARED false) Hbt eq_refl) as [Hg Hp].
  apply books_wait_or_complete; [done|exact Hp|].
  apply (waiter_ok_push_back _ _ (mkReq txn SHARED false)); [apply Ht|done].
Qed.

Lemma books_LockExclusive lm txn rid :
  inv lm -> books lm -> books (LockExclusive lm txn rid).
Proof.
  intros Hinv Hb. unfold LockExclusive.
  pose proof (inv_touch lm (MakeKey rid) Hinv) as Ht.
  pose proof (books_touch lm (MakeKey rid) Hb) as Hbt.
  destruct (holds_exclusive _ txn); [done|].
  destruct (books_push_back (touch lm (MakeKey rid)) (MakeKey rid)
              (mkReq txn EXCLUSIVE false) Hbt eq_refl) as [Hg Hp].
  apply books_wait_or_complete; [done|exact Hp|].
  apply (waiter_ok_push_back _ _ (mkReq txn EXCLUSIVE false));
    [apply Ht|done].
Qed.

Lemma books_LockUpgrade lm txn rid :
  inv lm -> books lm -> books (LockUpgrade lm txn rid).
Proof.
  intros Hinv [Hg Hp]. unfold LockUpgrade.
  destruct (lock_table_ lm !! MakeKey rid) as [q|] eqn:Eq; [|done].
  destruct (find_granted q txn) as [[it r]|] eqn:Ef; [|done].
  destruct (mode r); [|done].
  apply find_granted_Some in Ef as (Hin & Htxn & _).
  apply books_wait_or_complete; [done|exact Hp|].
  destruct Hinv as (_ & Ha & Hd & _ & _).
  split; cbn; [apply (Ha _ q (it, r) Eq Hin)|].
  intros q' e. rewrite Eq. intros [= <-] He Hid.
  rewrite (NoDup_fst_inj q e (it, r)); [done|by apply (Hd (MakeKey rid))|done..].
Qed.

Lemma books_wake lm w :
  inv lm -> books lm -> w ∈ blocked_ lm -> books (wake lm w).
Proof.
  intros Hinv Hb Hin. unfold wake.
  destruct (ready lm w); [|done].
  destruct (books_unblock lm w Hb) as [Hg Hp].
  apply books_complete; [done..|].
  destruct Hinv as (_ & _ & _ & Hw & _). exact (Hw w Hin).
Qed.

(** The requests of a transaction that is not blocked are all granted,
    and stand on keys listed for it. *)
Lemma requests_of_unblocked lm txn key q (e : Node) :
  books lm -> ¬ is_blocked lm txn ->
  lock_table_ lm !! key = Some q -> e ∈ q -> txn_id e.2 = txn ->
  ∃ keys, txn_locks_ lm !! txn = Some keys ∧ key ∈ keys.
Proof.
  intros [Hg Hp] Hnb Hq He Et. destruct (granted e.2) eqn:Ege.
  - rewrite <- Et. by apply (Hg key q e).
  - destruct (Hp key q e Hq He Ege) as [?|(w & Hin & _ & _ & Hw & _)]; [done|].
    destruct Hnb. exists w. split; [done|congruence].
Qed.

Lemma filter_filter_same {A} (P : A -> Prop) `{∀ x, Decision (P x)}
    (l : list A) :
  filter P (filter P l) = filter P l.
Proof.
  induction l as [|x l IH]; [done|].
  rewrite filter_cons. destruct (decide (P x)) as [Hx|Hx]; [|done].
  rewrite filter_cons, decide_True by done. by rewrite IH.
Qed.

Lemma queue_release txn k table key :
  default [] (release txn k table !! key)
  = if decide (key = k)
    then filter (fun e : Node => txn_id e.2 ≠ txn) (default [] (table !! key))
    else default [] (table !! key).
Proof.
  unfold release. destruct (decide (key = k)) as [->|Hne].
  - destruct (table !! k) as [q0|] eqn:E; [|by rewrite E].
    destruct (filter _ q0) as [|e qf] eqn:Ef.
    + by rewrite lookup_delete_eq.
    + by rewrite lookup_insert_eq.
  - destruct (table !! k) as [q0|] eqn:E; [|done].
    destruct (filter _ q0) as [|e qf] eqn:Ef.
    + by rewrite lookup_delete_ne.
    + by rewrite lookup_insert_ne.
Qed.

Lemma queue_release_all txn ks table key :
  default [] (foldr (release txn) table ks !! key)
  = if decide (key ∈ ks)
    then filter (fun e : Node => txn_id e.2 ≠ txn) (default [] (table !! key))
    else default [] (table !! key).
Proof.
  induction ks as [|k ks IH]; cbn [foldr].
  - rewrite decide_False; [done|]. apply not_elem_of_nil.
  - rewrite queue_release, IH.
    destruct (decide (key = k)) as [->|Hne].
    + rewrite (decide_True (P := k ∈ k :: ks)) by (apply elem_of_cons; by left).
      destruct (decide (k ∈ ks)); [by rewrite filter_filter_same|done].
    + destruct (decide (key ∈ ks)) as [Hin|Hin].
      * by rewrite decide_True by (apply elem_of_cons; by right).
      * rewrite decide_False; [done|].
        intros [?|?]%elem_of_cons; done.
Qed.

Lemma filter_all {A} (P : A -> Prop) `{∀ x, Decision (P x)} (l : list A) :
  (∀ x, x ∈ l -> P x) -> filter P l = l.
Proof.
  induction l as [|x l IH]; intros Hall; [done|].
  rewrite filter_cons, decide_True by (apply Hall, elem_of_cons; by left).
  rewrite IH; [done|]. intros y Hy. apply Hall, elem_of_cons. by right.
Qed.

Lemma UnlockAll_queue lm txn key :
  books lm -> ¬ is_blocked lm txn ->
  queue_of (UnlockAll lm txn) key
  = filter (fun e : Node => txn_id e.2 ≠ txn) (queue_of lm key).
Proof.
  intros Hb Hnb.
  assert (Hrest : (∀ ks, txn_locks_ lm !! txn = Some ks -> key ∉ ks) ->
            filter (fun e : Node => txn_id e.2 ≠ txn) (queue_of lm key)
            = queue_of lm key).
  { intros Hno. apply filter_all. intros e He Et.
    apply elem_of_queue_of in He as (q & Hq & He).
    destruct (requests_of_unblocked lm txn key q e Hb Hnb Hq He Et)
      as (ks & Hks & Hin).
    by apply (Hno ks). }
  unfold UnlockAll. destruct (txn_locks_ lm !! txn) as [keys|] eqn:Ek.
  - unfold queue_of at 1. cbn [lock_table_]. rewrite queue_release_all.
    destruct (decide (key ∈ elements keys)) as [Hin|Hin]; [done|].
    symmetry. apply Hrest. intros ks [= <-] Hk. apply Hin.
    by apply elem_of_elements.
  - symmetry. by apply Hrest.
Qed.

Lemma books_UnlockAll lm txn :
  books lm -> ¬ is_blocked lm txn -> books (UnlockAll lm txn).
Proof.
  intros Hb Hnb.
  assert (Hsub : ∀ key q' (e : Node),
            lock_table_ (UnlockAll lm txn) !! key = Some q' -> e ∈ q' ->
            txn_id e.2 ≠ txn ∧ ∃ q, lock_table_ lm !! key = Some q ∧ e ∈ q).
  { intros key q' e Hq' He.
    assert (Hin : e ∈ queue_of (UnlockAll lm txn) key).
    { unfold queue_of. by rewrite Hq'. }
    rewrite (UnlockAll_queue lm txn key Hb Hnb) in Hin.
    apply list_elem_of_filter in Hin as [Hne Hin].
    split; [done|]. by apply elem_of_queue_of. }
  assert (Hlocks : ∀ t keys, t ≠ txn -> txn_locks_ lm !! t = Some keys ->
            txn_locks_ (UnlockAll lm txn) !! t = Some keys).
  { intros t keys Hne Ht. unfold UnlockAll.
    destruct (txn_locks_ lm !! txn); [|done].
    cbn. by rewrite lookup_delete_ne. }
  assert (Hblocked : blocked_ (UnlockAll lm txn) = blocked_ lm).
  { unfold UnlockAll. by destruct (txn_locks_ lm !! txn). }
  destruct Hb as [Hg Hp]. split.
  - intros key q' e Hq' He Hge.
    destruct (Hsub key q' e Hq' He) as (Hne & q & Hq & Hin).
    destruct (Hg key q e Hq Hin Hge) as (keys & Hk & Hkey).
    exists keys. split; [by apply Hlocks|done].
  - intros key q' e Hq' He Hge.
    destruct (Hsub key q' e Hq' He) as (Hne & q & Hq & Hin).
    rewrite Hblocked. by apply (Hp key q e).
Qed.

Lemma books_step lm lm' : inv lm -> books lm -> step lm lm' -> books lm'.
Proof.
  intros Hinv Hb Hstep. destruct Hstep.
  - by apply books_LockShared.
  - by apply books_LockExclusive.
  - by apply books_LockUpgrade.
  - by apply books_UnlockAll.
  - by apply books_wake.
Qed.

Lemma books_reachable lm : reachable lm -> books lm.
Proof.
  unfold reachable. intros H.
  enough (inv lm ∧ books lm) as [_ Hb] by exact Hb.
  revert lm H. apply (rtc_ind_r (λ lm, inv lm ∧ books lm)).
  - split; [apply inv_empty|apply books_empty].
  - intros lm1 lm2 _ Hstep [Hinv Hb].
    split; [by apply (inv_step lm1)|by apply (books_step lm1)].
Qed.

End LockRelease.


Lemma reachable_reader_waits : LockManager.reachable Scenario.reader_waits.
Proof.
  unfold LockManager.reachable, Scenario.reader_waits.
  eapply rtc_l;
    [apply (LockManager.step_lock_exclusive LockManager.empty 1
              Scenario.locked_rid)|].
  { by apply not_blocked_nil. }
  apply rtc_once, LockManager.step_lock_shared, not_blocked_nil.
  vm_compute. reflexivity.
Qed.

Lemma writer_not_blocked : ¬ LockManager.is_blocked Scenario.reader_waits 1.
Proof.
  intros (w & Hin & Et).
  assert (E : LockManager.blocked_ Scenario.reader_waits = [Scenario.reader])
    by (vm_compute; reflexivity).
  rewrite E in Hin. apply list_elem_of_singleton in Hin. subst w.
  vm_compute in Et. discriminate Et.
Qed.

(** X17. In a state the lock manager can reach, UnlockAll for a transaction
    that has no call blocked removes every request of that transaction from
    every queue and nothing else: each queue keeps the requests of the other
    transactions, in their order; the transaction's entry of txn_locks_ is
    gone and the entries of the other transactions are as they were. *)
Theorem unlock_all_releases_everything lm txn :
  LockManager.reachable lm -> ¬ LockManager.is_blocked lm txn ->
  (∀ key,
     LockManager.queue_of (LockManager.UnlockAll lm txn) key
     = filter (fun e : LockManager.Node => LockManager.txn_id e.2 ≠ txn)
         (LockManager.queue_of lm key))
  ∧ LockManager.txn_locks_ (LockManager.UnlockAll lm txn) !! txn = None
  ∧ (∀ t, t ≠ txn ->
       LockManager.txn_locks_ (LockManager.UnlockAll lm txn) !! t
       = LockManager.txn_locks_ lm !! t)
  ∧ LockManager.blocked_ (LockManager.UnlockAll lm txn)
    = LockManager.blocked_ lm.
Proof.
  intros Hr Hnb. pose proof (books_reachable lm Hr) as Hb.
  split; [intros key; by apply UnlockAll_queue|].
  unfold LockManager.UnlockAll.
  destruct (LockManager.txn_locks_ lm !! txn) as [keys|] eqn:Ek; cbn.
  - split; [by rewrite lookup_delete_eq|]. split; [|done].
    intros t Hne. by rewrite lookup_delete_ne.
  - done.
Qed.

Lemma unlock_all_releases_everything_witness :
  LockManager.queue_of (LockManager.UnlockAll Scenario.reader_waits 1)
    (LockManager.MakeKey Scenario.locked_rid)
  = [(1%nat, LockManager.mkReq 2 LockManager.SHARED false)]
  ∧ LockManager.txn_locks_ (LockManager.UnlockAll Scenario.reader_waits 1) !! 1
    = None.
Proof.
  destruct (unlock_all_releases_everything Scenario.reader_waits 1
              reachable_reader_waits writer_not_blocked) as (Hq & Hl & _).
  split; [|exact Hl].
  rewrite (Hq (LockManager.MakeKey Scenario.locked_rid)).
  vm_compute. reflexivity.
Defined.

(** X18. In a state the lock manager can reach, every granted request
    stands on a key listed for its transaction in txn_locks_, and every
    request that is not granted is the one a blocked LockShared or
    LockExclusive call of its transaction is waiting on. *)
Theorem lock_requests_accounted lm key (e : LockManager.Node) :
  LockManager.reachable lm -> e ∈ LockManager.queue_of lm key ->
  if LockManager.granted e.2
  then ∃ keys,
         LockManager.txn_locks_ lm !! LockManager.txn_id e.2 = Some keys
         ∧ key ∈ keys
  else ∃ w, w ∈ LockManager.blocked_ lm
            ∧ LockManager.w_node w = e.1 ∧ LockManager.w_key w = key
            ∧ LockManager.w_txn w = LockManager.txn_id e.2
            ∧ LockManager.w_kind w ≠ LockManager.WUpgrade.
Proof.
  intros Hr He. destruct (books_reachable lm Hr) as [Hg Hp].
  apply elem_of_queue_of in He as (q & Hq & He).
  destruct (LockManager.granted e.2) eqn:Ege.
  - by apply (Hg key q e).
  - destruct (Hp key q e Hq He Ege) as [?|H]; [done|exact H].
Qed.

Lemma lock_requests_accounted_witness :
  ∃ w, w ∈ LockManager.blocked_ Scenario.reader_waits
       ∧ LockManager.w_node w = 1%nat
       ∧ LockManager.w_key w = LockManager.MakeKey Scenario.locked_rid
       ∧ LockManager.w_txn w = 2
       ∧ LockManager.w_kind w ≠ LockManager.WUpgrade.
Proof.
  apply (lock_requests_accounted Scenario.reader_waits
           (LockManager.MakeKey Scenario.locked_rid)
           (1%nat, LockManager.mkReq 2 LockManager.SHARED false)
           reachable_reader_waits).
  vm_compute. apply elem_of_cons. right. apply elem_of_cons. by left.
Defined.

(** ** B+ tree: insertion position, search and deletion in a leaf *)

Section LeafOrder.

Import BPlusTree.

Lemma string_compare_lt_trans (a b c : string) :
  String.compare a b = Lt -> String.compare b c = Lt -> String.compare a c = Lt.
Proof.
  revert b c. induction a as [|x a IH]; intros [|y b] [|z c]; cbn; try done.
  unfold Ascii.compare.
  destruct (N.compare_spec (Ascii.N_of_ascii x) (Ascii.N_of_ascii y)) as [E1|E1|E1];
    destruct (N.compare_spec (Ascii.N_of_ascii y) (Ascii.N_of_ascii z)) as [E2|E2|E2];
    try done.
  - rewrite E1, E2, N.compare_refl. apply IH.
  - intros _ _. rewrite E1. by apply N.compare_lt_iff in E2 as ->.
  - intros _ _. rewrite <- E2. by apply N.compare_lt_iff in E1 as ->.
  - intros _ _. assert (Ascii.N_of_ascii x < Ascii.N_of_ascii z)%N as E by lia.
    by apply N.compare_lt_iff in E as ->.
Qed.

Lemma ltb_compare a b : String.ltb a b = true <-> String.compare a b = Lt.
Proof. unfold String.ltb. by destruct (String.compare a b). Qed.

Lemma ltb_asym a b : String.ltb a b = true -> String.ltb b a = false.
Proof.
  unfold String.ltb. rewrite (String.compare_antisym b a).
  by destruct (String.compare a b).
Qed.

Lemma ltb_irrefl a : String.ltb a a = false.
Proof.
  destruct (String.ltb a a) eqn:E; [|done].
  by rewrite (ltb_asym a a E) in E.
Qed.

Lemma ltb_total a b :
  String.ltb a b = false -> a ≠ b -> String.ltb b a = true.
Proof.
  unfold String.ltb. rewrite (String.compare_antisym b a).
  destruct (String.compare a b) eqn:E; cbn; try done.
  apply String.compare_eq_iff in E. congruence.
Qed.

Lemma ltb_trans a b c :
  String.ltb a b = true -> String.ltb b c = true -> String.ltb a c = true.
Proof. rewrite !ltb_compare. apply string_compare_lt_trans. Qed.

Lemma key_le_refl a : key_le a a.
Proof. apply ltb_irrefl. Qed.

(** [a < b <= c] gives [a < c]. *)
Lemma ltb_le_trans a b c :
  String.ltb a b = true -> key_le b c -> String.ltb a c = true.
Proof.
  intros Hab Hbc. destruct (decide (a = c)) as [->|Hne].
  - unfold key_le in Hbc. congruence.
  - apply ltb_total; [|done].
    destruct (String.ltb c a) eqn:E; [|done].
    unfold key_le in Hbc. by rewrite (ltb_trans c a b E Hab) in Hbc.
Qed.

Lemma skip_equal_S rest key pos :
  skip_equal rest key (S pos) = S (skip_equal rest key pos).
Proof.
  revert pos. induction rest as [|k rest IH]; intros pos; cbn; [done|].
  destruct (String.eqb k key); [apply IH|done].
Qed.

(** On a sorted vector the position [lower_bound] and the loop over the
    equal keys arrive at is the first position whose key is greater. *)
Lemma insert_pos_sorted keys key :
  keys_sorted keys -> insert_pos keys key = child_index keys key.
Proof.
  unfold insert_pos. induction 1 as [|k keys Hs IH Hall]; [done|].
  cbn [lower_bound child_index].
  destruct (String.ltb k key) eqn:Elt.
  - rewrite (ltb_asym _ _ Elt). cbn [drop].
    by rewrite skip_equal_S, IH.
  - cbn [drop skip_equal]. destruct (String.eqb_spec k key) as [->|Hne].
    + rewrite ltb_irrefl, skip_equal_S. f_equal. rewrite <- IH.
      destruct keys as [|k2 keys]; [done|].
      apply Forall_cons in Hall as [Hk2 _]. unfold key_le in Hk2.
      cbn [lower_bound]. by rewrite Hk2.
    + by rewrite (ltb_total _ _ Elt Hne).
Qed.

Lemma child_index_take keys key :
  Forall (fun k => key_le k key) (take (child_index keys key) keys).
Proof.
  induction keys as [|k keys IH]; cbn; [done|].
  destruct (String.ltb key k) eqn:E; cbn; [done|].
  apply Forall_cons. by split.
Qed.

Lemma child_index_drop keys key :
  keys_sorted keys ->
  Forall (fun k => String.ltb key k = true) (drop (child_index keys key) keys).
Proof.
  induction 1 as [|k keys Hs IH Hall]; cbn; [done|].
  destruct (String.ltb key k) eqn:E; cbn; [|done].
  apply Forall_cons. split; [done|].
  eapply Forall_impl; [exact Hall|]. intros k2 Hk2.
  by apply (ltb_le_trans key k k2).
Qed.

Lemma child_index_le keys key : (child_index keys key <= length keys)%nat.
Proof.
  induction keys as [|k keys IH]; cbn; [done|].
  destruct (String.ltb key k); cbn; lia.
Qed.

Lemma vec_insert_sorted keys key :
  keys_sorted keys ->
  keys_sorted (vec_insert keys (insert_pos keys key) key).
Proof.
  intros Hs. rewrite (insert_pos_sorted keys key Hs).
  pose proof (child_index_take keys key) as Ht.
  pose proof (child_index_drop keys key Hs) as Hd.
  rewrite Forall_forall in Ht.
  unfold vec_insert, keys_sorted.
  rewrite <- (take_drop (child_index keys key) keys) in Hs.
  apply StronglySorted_app in Hs as (Hx & Hl & Hr).
  apply StronglySorted_app_2; [|done|].
  - intros k1 k2 H1 H2.
    apply elem_of_cons in H2 as [->|H2]; [by apply Ht|by apply Hx].
  - apply SSorted_cons; [done|].
    eapply Forall_impl; [exact Hd|]. intros k Hk. by apply ltb_asym.
Qed.

Lemma find_key_S keys key i :
  find_key keys key (S i) = S <$> find_key keys key i.
Proof.
  revert i. induction keys as [|k keys IH]; intros i; cbn; [done|].
  destruct (String.eqb k key); [done|apply IH].
Qed.

Lemma find_key_ge keys key i j : find_key keys key i = Some j -> (i <= j)%nat.
Proof.
  revert i. induction keys as [|k keys IH]; intros i; cbn; [done|].
  destruct (String.eqb k key); [intros [= <-]; lia|].
  intros H. apply IH in H. lia.
Qed.

Lemma find_key_app l1 l2 key i :
  find_key (l1 ++ l2) key i
  = match find_key l1 key i with
    | Some j => Some j
    | None => find_key l2 key (i + length l1)
    end.
Proof.
  revert i. induction l1 as [|k l1 IH]; intros i; cbn.
  - by rewrite Nat.add_0_r.
  - destruct (String.eqb k key); [done|].
    rewrite IH. by replace (S i + length l1)%nat with (i + S (length l1))%nat by lia.
Qed.

Lemma find_key_None keys key i :
  find_key keys key i = None <-> key ∉ keys.
Proof.
  revert i. induction keys as [|k keys IH]; intros i; cbn.
  - split; [intros _; apply not_elem_of_nil|done].
  - destruct (String.eqb_spec k key) as [->|Hne].
    + split; [done|]. intros H. destruct H. apply elem_of_cons. by left.
    + rewrite IH, not_elem_of_cons.
      split; [intros H; split; [congruence|done]|by intros [_ H]].
Qed.

Lemma find_key_Some keys key j :
  find_key keys key O = Some j -> keys !! j = Some key.
Proof.
  revert j. induction keys as [|k keys IH]; intros j; cbn; [done|].
  destruct (String.eqb_spec k key) as [->|Hne]; [by intros [= <-]|].
  rewrite find_key_S. destruct (find_key keys key 0) as [j'|] eqn:E; [|done].
  intros [= <-]. cbn. by apply IH.
Qed.

Lemma find_key_lt keys key j :
  find_key keys key O = Some j -> (j < length keys)%nat.
Proof. intros H. apply find_key_Some in H. by apply lookup_lt_Some in H. Qed.

(** An entry under another key does not change what a search finds. *)
Lemma search_leaf_skip (l1 l2 : list string) (r1 r2 : list RecordID) key x key' :
  key ≠ key' -> length r1 = length l1 ->
  search_leaf (l1 ++ key :: l2) (r1 ++ x :: r2) key'
  = search_leaf (l1 ++ l2) (r1 ++ r2) key'.
Proof.
  intros Hne Hlen. unfold search_leaf. rewrite !find_key_app.
  destruct (find_key l1 key' 0) as [j|] eqn:E.
  - apply find_key_lt in E.
    rewrite !lookup_app_l by lia. done.
  - cbn [find_key Nat.add].
    destruct (String.eqb_spec key key') as [?|_]; [done|].
    rewrite find_key_S.
    destruct (find_key l2 key' (length l1)) as [j|] eqn:E2; [|done].
    apply find_key_ge in E2. cbn [fmap option_fmap option_map].
    rewrite !lookup_app_r by lia.
    replace (S j - length r1)%nat with (S (j - length r1)) by lia. done.
Qed.

Lemma search_leaf_insert_other keys rids pos key rid key' :
  key ≠ key' -> length rids = length keys ->
  search_leaf (vec_insert keys pos key) (vec_insert rids pos rid) key'
  = search_leaf keys rids key'.
Proof.
  intros Hne Hlen. unfold vec_insert.
  rewrite search_leaf_skip; [|done|by rewrite !length_take, Hlen].
  by rewrite !take_drop.
Qed.

Lemma search_leaf_insert_same keys rids key rid :
  keys_sorted keys -> length rids = length keys ->
  search_leaf (vec_insert keys (insert_pos keys key) key)
    (vec_insert rids (insert_pos keys key) rid) key
  = match find_key keys key O with
    | Some j => default INVALID_RECORD_ID (rids !! j)
    | None => rid
    end.
Proof.
  intros Hs Hlen. rewrite (insert_pos_sorted keys key Hs).
  pose proof (child_index_drop keys key Hs) as Hd.
  pose proof (child_index_le keys key) as Hle.
  set (pos := child_index keys key) in *.
  assert (find_key (drop pos keys) key pos = None) as Hnone.
  { apply find_key_None. intros Hin. rewrite Forall_forall in Hd.
    specialize (Hd key Hin). by rewrite ltb_irrefl in Hd. }
  unfold search_leaf, vec_insert.
  rewrite <- (take_drop pos keys) at 3.
  rewrite !find_key_app, length_take, Nat.min_l by lia. cbn [Nat.add].
  rewrite Hnone.
  destruct (find_key (take pos keys) key 0) as [j|] eqn:E.
  - apply find_key_lt in E. rewrite length_take in E.
    rewrite lookup_app_l by (rewrite length_take; lia).
    rewrite lookup_take_lt by lia. done.
  - cbn [find_key]. rewrite String.eqb_refl.
    rewrite lookup_app_r by (rewrite length_take; lia).
    rewrite length_take, Nat.min_l by lia. by rewrite Nat.sub_diag.
Qed.

Lemma vec_erase_split {A} (v : list A) i x :
  v !! i = Some x -> v = take i v ++ x :: drop (S i) v.
Proof. intros H. by rewrite <- (take_drop_middle v i x H) at 1. Qed.

Lemma search_leaf_erase_other keys rids key i key' :
  key ≠ key' -> length rids = length keys ->
  find_key keys key O = Some i ->
  search_leaf (vec_erase keys i) (vec_erase rids i) key'
  = search_leaf keys rids key'.
Proof.
  intros Hne Hlen Hi. pose proof (find_key_lt _ _ _ Hi) as Hlt.
  apply find_key_Some in Hi.
  destruct (lookup_lt_is_Some_2 rids i) as [r Hr]; [lia|].
  rewrite (vec_erase_split keys i key Hi) at 2.
  rewrite (vec_erase_split rids i r Hr) at 2.
  rewrite search_leaf_skip; [done..|].
  rewrite !length_take. lia.
Qed.

Lemma vec_erase_vec_insert {A} (v : list A) pos x :
  (pos <= length v)%nat -> vec_erase (vec_insert v pos x) pos = v.
Proof.
  intros Hle. unfold vec_erase, vec_insert.
  rewrite take_app_length' by (rewrite length_take; lia).
  replace (S pos) with (length (take pos v) + 1)%nat
    by (rewrite length_take; lia).
  rewrite <- drop_drop, drop_app_length. cbn. rewrite drop_0. apply take_drop.
Qed.

Lemma find_key_insert_fresh keys key :
  keys_sorted keys -> key ∉ keys ->
  find_key (vec_insert keys (insert_pos keys key) key) key O
  = Some (insert_pos keys key).
Proof.
  intros Hs Hnot. pose proof (child_index_le keys key) as Hle.
  rewrite (insert_pos_sorted keys key Hs) in *. unfold vec_insert.
  rewrite find_key_app.
  assert (find_key (take (child_index keys key) keys) key 0 = None) as ->.
  { apply find_key_None. intros Hin. apply Hnot.
    rewrite <- (take_drop (child_index keys key) keys).
    apply elem_of_app. by left. }
  cbn [find_key]. rewrite String.eqb_refl, length_take. f_equal. lia.
Qed.

End LeafOrder.

(** ** B+ tree: descent, insertion without a split, search and deletion *)

Section TreeDescent.

Import BPlusTree.

Lemma idle_fetchable b p : idle b -> fetchable b p = true.
Proof.
  intros [Hp Hs]. unfold fetchable, FindFreeFrame. rewrite Hp.
  apply orb_true_iff. right. apply bool_decide_eq_true.
  rewrite map_size_empty. lia.
Qed.

Lemma idle_SetData b p d : idle b -> idle (SetData b p d).
Proof. done. Qed.

Lemma idle_fetch b p :
  idle b ->
  ∃ b1, FetchPage b p = (Some (GetData b p), b1)
        ∧ (∀ dirty, UnpinPage b1 p dirty = b)
        ∧ ∀ d dirty, UnpinPage (SetData b1 p d) p dirty = SetData b p d.
Proof.
  intros Hi. pose proof (idle_fetchable b p Hi) as Hf.
  destruct (FetchPage_Some b p Hf) as (n & E & _).
  eexists. split; [exact E|]. split.
  - intros dirty. pose proof (fetch_unpin b p dirty Hf) as H.
    by rewrite E in H.
  - intros d dirty. pose proof (fetch_write_unpin b p d dirty Hf) as H.
    by rewrite E in H.
Qed.

Lemma FindLeaf_idle fuel b current key :
  idle b ->
  FindLeaf (S fuel) b current key
  = if is_leaf (ReadNodeHeader (GetData b current)) =? 0
    then FindLeaf fuel b (child_for (GetData b current) key) key
    else (Some current, b).
Proof.
  intros Hi. destruct (idle_fetch b current Hi) as (b1 & E & Hu & _).
  cbn [FindLeaf]. rewrite E. unfold child_for.
  destruct (is_leaf _ =? 0).
  - destruct (ReadInternalNode _) as [keys children]. by rewrite Hu.
  - by rewrite Hu.
Qed.

Lemma FindLeaf_pool fuel b current key :
  idle b -> snd (FindLeaf fuel b current key) = b.
Proof.
  intros Hi. revert current. induction fuel as [|fuel IH]; intros current.
  - done.
  - rewrite FindLeaf_idle by exact Hi. destruct (_ =? 0); [apply IH|done].
Qed.

Lemma FindLeaf_is_leaf fuel b current key leaf :
  idle b -> fst (FindLeaf fuel b current key) = Some leaf ->
  (is_leaf (ReadNodeHeader (GetData b leaf)) =? 0) = false.
Proof.
  intros Hi. revert current. induction fuel as [|fuel IH]; intros current.
  - done.
  - rewrite FindLeaf_idle by exact Hi.
    destruct (is_leaf (ReadNodeHeader (GetData b current)) =? 0) eqn:E;
      [apply IH|].
    by intros [= <-].
Qed.

(** Rewriting a leaf page as a leaf does not change any descent. *)
Lemma FindLeaf_SetData fuel b current key leaf d :
  idle b -> length d = PAGE_SIZE ->
  (is_leaf (ReadNodeHeader (GetData b leaf)) =? 0) = false ->
  (is_leaf (ReadNodeHeader d) =? 0) = false ->
  fst (FindLeaf fuel (SetData b leaf d) current key)
  = fst (FindLeaf fuel b current key).
Proof.
  intros Hi Hlen Hold Hnew. revert current.
  induction fuel as [|fuel IH]; intros current; [done|].
  rewrite (FindLeaf_idle fuel b) by exact Hi.
  rewrite (FindLeaf_idle fuel (SetData b leaf d))
    by (apply idle_SetData; exact Hi).
  destruct (decide (current = leaf)) as [->|Hne].
  - rewrite GetData_SetData_eq by exact Hlen. by rewrite Hold, Hnew.
  - rewrite GetData_SetData_ne by done.
    destruct (is_leaf (ReadNodeHeader (GetData b current)) =? 0);
      [apply IH|done].
Qed.

Lemma Search_idle fuel t b key :
  idle b ->
  Search fuel t b key
  = (match fst (FindLeaf fuel b (root_page_id_ t) key) with
     | None => None
     | Some leaf =>
         Some (if leaf =? INVALID_PAGE_ID then INVALID_RECORD_ID
               else search_leaf (ReadLeafNode (GetData b leaf)).1
                      (ReadLeafNode (GetData b leaf)).2 key)
     end, b).
Proof.
  intros Hi. unfold Search.
  pose proof (FindLeaf_pool fuel b (root_page_id_ t) key Hi) as Hb.
  destruct (FindLeaf fuel b (root_page_id_ t) key) as [[leaf|] b0];
    cbn [fst snd] in *; subst b0; [|done].
  destruct (leaf =? INVALID_PAGE_ID); [done|].
  destruct (idle_fetch b leaf Hi) as (b1 & E & Hu & _). rewrite E.
  destruct (ReadLeafNode _) as [keys rids]. by rewrite Hu.
Qed.

Lemma Delete_idle fuel t b key :
  idle b ->
  Delete fuel t b key
  = match fst (FindLeaf fuel b (root_page_id_ t) key) with
    | None => (None, b)
    | Some leaf =>
        if leaf =? INVALID_PAGE_ID then (Some false, b)
        else
          let page := GetData b leaf in
          match find_key (ReadLeafNode page).1 key O with
          | Some i =>
              (Some true,
               SetData b leaf
                 (leaf_image (vec_erase (ReadLeafNode page).1 i)
                    (vec_erase (ReadLeafNode page).2 i)
                    (next_leaf (ReadNodeHeader page))))
          | None => (Some false, b)
          end
    end.
Proof.
  intros Hi. unfold Delete.
  pose proof (FindLeaf_pool fuel b (root_page_id_ t) key Hi) as Hb.
  destruct (FindLeaf fuel b (root_page_id_ t) key) as [[leaf|] b0];
    cbn [fst snd] in *; subst b0; [|done].
  destruct (leaf =? INVALID_PAGE_ID); [done|].
  destruct (idle_fetch b leaf Hi) as (b1 & E & Hu & Hw). rewrite E.
  cbv zeta. destruct (ReadLeafNode _) as [keys rids]. cbn [fst snd].
  destruct (find_key keys key 0) as [i|]; [|by rewrite Hu].
  rewrite Hw. unfold leaf_image.
  by rewrite (memset0_page (GetData b leaf) (GetData_length b leaf)).
Qed.

Lemma InsertInternal_at_leaf fuel t b current key rid b1 :
  FetchPage b current = (Some (GetData b current), b1) ->
  (is_leaf (ReadNodeHeader (GetData b current)) =? 0) = false ->
  InsertInternal (S fuel) t b current key rid
  = insert_into_leaf t b1 current (GetData b current) key rid.
Proof. intros E El. cbn [InsertInternal]. by rewrite E, El. Qed.

Lemma InsertInternal_descend fuel t b current key rid b1 b2 :
  FetchPage b current = (Some (GetData b current), b1) ->
  UnpinPage b1 current false = b ->
  (is_leaf (ReadNodeHeader (GetData b current)) =? 0) = true ->
  InsertInternal fuel t b (child_for (GetData b current) key) key rid
  = (Ok no_split, b2) ->
  InsertInternal (S fuel) t b current key rid = (Ok no_split, b2).
Proof.
  intros E Hu El. unfold child_for. cbn [InsertInternal]. rewrite E, El.
  destruct (ReadInternalNode (GetData b current)) as [kk children].
  cbn [fst snd]. cbv zeta. rewrite Hu. intros Hrec. by rewrite Hrec.
Qed.

Lemma insert_into_leaf_fits t b b1 node key rid ks rs :
  ReadLeafNode (GetData b node) = (ks, rs) ->
  (∀ d dirty, UnpinPage (SetData b1 node d) node dirty = SetData b node d) ->
  Z.of_nat (length (vec_insert ks (insert_pos ks key) key)) <= max_keys_ t ->
  insert_into_leaf t b1 node (GetData b node) key rid
  = (Ok no_split,
     SetData b node
       (leaf_image (vec_insert ks (insert_pos ks key) key)
          (vec_insert rs (insert_pos ks key) rid)
          (next_leaf (ReadNodeHeader (GetData b node))))).
Proof.
  intros Hread Hw Hmax. unfold insert_into_leaf. rewrite Hread.
  apply Z.leb_le in Hmax. rewrite Hmax, Hw. unfold leaf_image.
  by rewrite (memset0_page (GetData b node) (GetData_length b node)).
Qed.

Lemma InsertInternal_no_split fuel t b current key rid leaf ks rs :
  idle b ->
  fst (FindLeaf fuel b current key) = Some leaf ->
  ReadLeafNode (GetData b leaf) = (ks, rs) ->
  Z.of_nat (length (vec_insert ks (insert_pos ks key) key)) <= max_keys_ t ->
  InsertInternal fuel t b current key rid
  = (Ok no_split,
     SetData b leaf
       (leaf_image (vec_insert ks (insert_pos ks key) key)
          (vec_insert rs (insert_pos ks key) rid)
          (next_leaf (ReadNodeHeader (GetData b leaf))))).
Proof.
  intros Hi Hfind Hread Hmax. revert current Hfind.
  induction fuel as [|fuel IH]; intros current Hfind; [done|].
  rewrite FindLeaf_idle in Hfind by exact Hi.
  destruct (idle_fetch b current Hi) as (b1 & E & Hu & Hw).
  destruct (is_leaf (ReadNodeHeader (GetData b current)) =? 0) eqn:El.
  - apply (InsertInternal_descend fuel t b current key rid b1 _ E (Hu false) El).
    by apply IH.
  - cbn [fst] in Hfind. assert (leaf = current) as -> by congruence.
    rewrite (InsertInternal_at_leaf fuel t b current key rid b1 E El).
    by apply insert_into_leaf_fits.
Qed.

End TreeDescent.

Section LeafRewrite.

Import BPlusTree.

Lemma ReadLeafNode_lengths page :
  length (ReadLeafNode page).2 = length (ReadLeafNode page).1.
Proof.
  unfold ReadLeafNode.
  match goal with
  | |- context [read_leaf_entries ?d ?o ?n] =>
      destruct (read_leaf_entries_length d n o) as [H1 H2]
  end.
  by rewrite H1, H2.
Qed.

Lemma leaf_payload_split mid keys rids :
  length rids = length keys ->
  length (leaf_payload keys rids)
  = (length (leaf_payload (take mid keys) (take mid rids))
     + length (leaf_payload (drop mid keys) (drop mid rids)))%nat.
Proof.
  intros Hlen.
  rewrite <- (take_drop mid keys) at 1. rewrite <- (take_drop mid rids) at 1.
  rewrite leaf_payload_app by (rewrite !length_take; lia).
  apply length_app.
Qed.

Lemma leaf_fits_erase keys rids i :
  length rids = length keys -> leaf_fits keys rids ->
  leaf_fits (vec_erase keys i) (vec_erase rids i).
Proof.
  intros Hlen (Hk & Hr & Hfit). unfold vec_erase. split; [|split].
  - apply Forall_app. split; [by apply Forall_take|by apply Forall_drop].
  - apply Forall_app. split; [by apply Forall_take|by apply Forall_drop].
  - rewrite leaf_payload_app by (rewrite !length_take; lia).
    rewrite length_app.
    pose proof (leaf_payload_split i keys rids Hlen) as H1.
    pose proof (leaf_payload_split 1 (drop i keys) (drop i rids)) as H2.
    rewrite !drop_drop in H2.
    replace (i + 1)%nat with (S i) in H2 by lia.
    rewrite H2 in H1 by (rewrite !length_drop; lia). lia.
Qed.

Lemma length_vec_erase {A} (v : list A) i :
  (i < length v)%nat -> S (length (vec_erase v i)) = length v.
Proof.
  intros Hlt. unfold vec_erase.
  rewrite length_app, length_take, length_drop. lia.
Qed.

Lemma leaf_image_read keys rids next :
  length rids = length keys -> leaf_fits keys rids ->
  -2147483648 <= next < 2147483648 ->
  length (leaf_image keys rids next) = PAGE_SIZE
  ∧ ReadLeafNode (leaf_image keys rids next) = (keys, rids)
  ∧ ReadNodeHeader (leaf_image keys rids next)
    = mkHeader 1 (Z.of_nat (length keys)) next.
Proof.
  intros Hlen Hfit Hnext. unfold leaf_image.
  exact (leaf_round_trip keys rids next Hlen Hfit Hnext).
Qed.

(** What a pool looks like after a leaf has been rewritten. *)
Lemma leaf_rewritten b leaf keys rids next :
  idle b ->
  (is_leaf (ReadNodeHeader (GetData b leaf)) =? 0) = false ->
  length rids = length keys -> leaf_fits keys rids ->
  -2147483648 <= next < 2147483648 ->
  let b' := SetData b leaf (leaf_image keys rids next) in
  idle b'
  ∧ ReadLeafNode (GetData b' leaf) = (keys, rids)
  ∧ ReadNodeHeader (GetData b' leaf)
    = mkHeader 1 (Z.of_nat (length keys)) next
  ∧ (∀ p, p ≠ leaf -> GetData b' p = GetData b p)
  ∧ (∀ fuel current k,
       fst (FindLeaf fuel b' current k) = fst (FindLeaf fuel b current k))
  ∧ ∀ fuel t k,
      fst (Search fuel t b' k)
      = match fst (FindLeaf fuel b (root_page_id_ t) k) with
        | None => None
        | Some l =>
            Some (if l =? INVALID_PAGE_ID then INVALID_RECORD_ID
                  else if decide (l = leaf) then search_leaf keys rids k
                  else search_leaf (ReadLeafNode (GetData b l)).1
                         (ReadLeafNode (GetData b l)).2 k)
        end.
Proof.
  intros Hi Hleaf Hlen Hfit Hnext b'.
  destruct (leaf_image_read keys rids next Hlen Hfit Hnext)
    as (Hl & Hread & Hhdr).
  assert (GetData b' leaf = leaf_image keys rids next) as Hdata
    by (by apply GetData_SetData_eq).
  assert (∀ fuel current k,
            fst (FindLeaf fuel b' current k)
            = fst (FindLeaf fuel b current k)) as Hfind.
  { intros fuel current k. apply FindLeaf_SetData; [done..|].
    by rewrite Hhdr. }
  split; [by apply idle_SetData|]. rewrite Hdata.
  split; [done|]. split; [done|].
  split; [intros p Hp; by apply GetData_SetData_ne|].
  split; [done|].
  intros fuel t k. rewrite Search_idle by (by apply idle_SetData).
  cbn [fst]. rewrite Hfind.
  destruct (fst (FindLeaf fuel b (root_page_id_ t) k)) as [l|]; [|done].
  destruct (l =? INVALID_PAGE_ID); [done|].
  destruct (decide (l = leaf)) as [->|Hne].
  - by rewrite Hdata, Hread.
  - unfold b'. by rewrite GetData_SetData_ne.
Qed.

Lemma Insert_no_split fuel t b key rid leaf ks rs :
  idle b ->
  fst (FindLeaf fuel b (root_page_id_ t) key) = Some leaf ->
  ReadLeafNode (GetData b leaf) = (ks, rs) ->
  Z.of_nat (length (vec_insert ks (insert_pos ks key) key)) <= max_keys_ t ->
  Insert fuel t b key rid
  = (Ok tt,
     SetData b leaf
       (leaf_image (vec_insert ks (insert_pos ks key) key)
          (vec_insert rs (insert_pos ks key) rid)
          (next_leaf (ReadNodeHeader (GetData b leaf)))),
     t).
Proof.
  intros Hi Hfind Hread Hmax. unfold Insert.
  by rewrite (InsertInternal_no_split fuel t b _ key rid leaf ks rs).
Qed.

Lemma next_leaf_range page :
  -2147483648 <= next_leaf (ReadNodeHeader page) < 2147483648.
Proof. apply i32_range. Qed.

(** A search for [key] after its insertion, and a search for any other
    key. *)
Lemma insert_then_search_facts fuel t b key rid leaf ks rs :
  ReadLeafNode (GetData b leaf) = (ks, rs) ->
  idle b ->
  fst (FindLeaf fuel b (root_page_id_ t) key) = Some leaf ->
  leaf ≠ INVALID_PAGE_ID ->
  keys_sorted ks ->
  leaf_fits (vec_insert ks (insert_pos ks key) key)
    (vec_insert rs (insert_pos ks key) rid) ->
  Z.of_nat (length (vec_insert ks (insert_pos ks key) key)) <= max_keys_ t ->
  ∃ b',
    Insert fuel t b key rid = (Ok tt, b', t)
    ∧ idle b'
    ∧ ReadLeafNode (GetData b' leaf)
      = (vec_insert ks (insert_pos ks key) key,
         vec_insert rs (insert_pos ks key) rid)
    ∧ ReadNodeHeader (GetData b' leaf)
      = mkHeader 1
          (Z.of_nat (length (vec_insert ks (insert_pos ks key) key)))
          (next_leaf (ReadNodeHeader (GetData b leaf)))
    ∧ (∀ p, p ≠ leaf -> GetData b' p = GetData b p)
    ∧ (∀ current k,
         fst (FindLeaf fuel b' current k) = fst (FindLeaf fuel b current k))
    ∧ fst (Search fuel t b' key)
      = (if decide (key ∈ ks) then fst (Search fuel t b key) else Some rid)
    ∧ ∀ k, k ≠ key -> fst (Search fuel t b' k) = fst (Search fuel t b k).
Proof.
  intros Hrd Hi Hfind Hvalid Hs Hfit Hmax.
  pose proof (ReadLeafNode_lengths (GetData b leaf)) as Hlen.
  rewrite Hrd in Hlen. cbn [fst snd] in Hlen.
  pose proof (length_vec_insert ks (insert_pos ks key) key) as Hlk.
  pose proof (length_vec_insert rs (insert_pos ks key) rid) as Hlr.
  pose proof (FindLeaf_is_leaf _ _ _ _ _ Hi Hfind) as Hleaf.
  destruct (leaf_rewritten b leaf _ _
              (next_leaf (ReadNodeHeader (GetData b leaf))) Hi Hleaf
              (eq_trans Hlr (eq_trans (f_equal S Hlen) (eq_sym Hlk)))
              Hfit (next_leaf_range _))
    as (Hi' & Hread & Hhdr & Hother & Hdescent & Hsearch).
  eexists. split.
  { by apply (Insert_no_split fuel t b key rid leaf ks rs). }
  split; [exact Hi'|]. split; [exact Hread|]. split; [exact Hhdr|].
  split; [exact Hother|].
  split; [intros current k; apply Hdescent|].
  apply Z.eqb_neq in Hvalid. split.
  - rewrite Hsearch, Hfind, Hvalid, decide_True by done.
    rewrite (search_leaf_insert_same ks rs key rid Hs Hlen).
    rewrite Search_idle, Hfind, Hvalid, Hrd by done. cbn [fst snd].
    unfold search_leaf.
    destruct (find_key ks key 0) as [j|] eqn:E.
    + rewrite decide_True; [done|].
      apply find_key_Some in E. by apply list_elem_of_lookup_2 in E.
    + rewrite decide_False; [done|]. by apply (find_key_None ks key 0).
  - intros k Hk. rewrite Hsearch, Search_idle by done. cbn [fst].
    destruct (fst (FindLeaf fuel b (root_page_id_ t) k)) as [l|]; [|done].
    destruct (l =? INVALID_PAGE_ID); [done|].
    destruct (decide (l = leaf)) as [->|Hne]; [|done].
    rewrite Hrd. cbn [fst snd]. by rewrite search_leaf_insert_other.
Qed.

End LeafRewrite.

Section LeafDelete.

Import BPlusTree.

Lemma next_leaf_mk a n x : next_leaf (mkHeader a n x) = x.
Proof. reflexivity. Qed.

Lemma delete_facts fuel t b key leaf ks rs :
  ReadLeafNode (GetData b leaf) = (ks, rs) ->
  idle b ->
  fst (FindLeaf fuel b (root_page_id_ t) key) = Some leaf ->
  leaf ≠ INVALID_PAGE_ID ->
  leaf_fits ks rs ->
  match find_key ks key O with
  | None => Delete fuel t b key = (Some false, b)
  | Some i =>
      ∃ b',
        Delete fuel t b key = (Some true, b')
        ∧ idle b'
        ∧ ReadLeafNode (GetData b' leaf) = (vec_erase ks i, vec_erase rs i)
        ∧ ReadNodeHeader (GetData b' leaf)
          = mkHeader 1 (Z.of_nat (length ks) - 1)
              (next_leaf (ReadNodeHeader (GetData b leaf)))
        ∧ (∀ p, p ≠ leaf -> GetData b' p = GetData b p)
        ∧ fst (Search fuel t b' key)
          = Some (search_leaf (vec_erase ks i) (vec_erase rs i) key)
        ∧ ∀ k, k ≠ key -> fst (Search fuel t b' k) = fst (Search fuel t b k)
  end.
Proof.
  intros Hrd Hi Hfind Hvalid Hfit.
  pose proof (ReadLeafNode_lengths (GetData b leaf)) as Hlen.
  rewrite Hrd in Hlen. cbn [fst snd] in Hlen.
  pose proof (FindLeaf_is_leaf _ _ _ _ _ Hi Hfind) as Hleaf.
  apply Z.eqb_neq in Hvalid.
  rewrite (Delete_idle fuel t b key Hi), Hfind, Hvalid. cbv zeta.
  rewrite Hrd. cbn [fst snd].
  destruct (find_key ks key 0) as [i|] eqn:Ei; [|done].
  pose proof (find_key_lt _ _ _ Ei) as Hlt.
  pose proof (length_vec_erase ks i Hlt) as Hek.
  assert (length (vec_erase rs i) = length (vec_erase ks i)) as Hlen'.
  { pose proof (length_vec_erase rs i). lia. }
  destruct (leaf_rewritten b leaf (vec_erase ks i) (vec_erase rs i)
              (next_leaf (ReadNodeHeader (GetData b leaf))) Hi Hleaf Hlen'
              (leaf_fits_erase ks rs i Hlen Hfit) (next_leaf_range _))
    as (Hi' & Hread & Hhdr & Hother & Hdescent & Hsearch).
  eexists. split; [reflexivity|]. split; [exact Hi'|]. split; [exact Hread|].
  split.
  { rewrite Hhdr. f_equal. lia. }
  split; [exact Hother|]. split.
  - by rewrite Hsearch, Hfind, Hvalid, decide_True.
  - intros k Hk. rewrite Hsearch, Search_idle by done. cbn [fst].
    destruct (fst (FindLeaf fuel b (root_page_id_ t) k)) as [l|]; [|done].
    destruct (l =? INVALID_PAGE_ID); [done|].
    destruct (decide (l = leaf)) as [->|Hne]; [|done].
    rewrite Hrd. cbn [fst snd].
    by rewrite (search_leaf_erase_other ks rs key i k).
Qed.

Lemma insert_delete_facts fuel t b key rid leaf ks rs :
  ReadLeafNode (GetData b leaf) = (ks, rs) ->
  idle b ->
  fst (FindLeaf fuel b (root_page_id_ t) key) = Some leaf ->
  leaf ≠ INVALID_PAGE_ID ->
  keys_sorted ks -> key ∉ ks ->
  leaf_fits (vec_insert ks (insert_pos ks key) key)
    (vec_insert rs (insert_pos ks key) rid) ->
  Z.of_nat (length (vec_insert ks (insert_pos ks key) key)) <= max_keys_ t ->
  ∃ b1 b2,
    Insert fuel t b key rid = (Ok tt, b1, t)
    ∧ Delete fuel t b1 key = (Some true, b2)
    ∧ idle b2
    ∧ ReadLeafNode (GetData b2 leaf) = (ks, rs)
    ∧ next_leaf (ReadNodeHeader (GetData b2 leaf))
      = next_leaf (ReadNodeHeader (GetData b leaf))
    ∧ (∀ p, p ≠ leaf -> GetData b2 p = GetData b p)
    ∧ ∀ k, fst (Search fuel t b2 k) = fst (Search fuel t b k).
Proof.
  intros Hrd Hi Hfind Hvalid Hs Hfresh Hfit Hmax.
  destruct (insert_then_search_facts fuel t b key rid leaf ks rs Hrd Hi Hfind
              Hvalid Hs Hfit Hmax)
    as (b1 & Hins & Hi1 & Hread1 & Hhdr1 & Hother1 & Hdesc1 & Hs1 & Hso1).
  assert (fst (FindLeaf fuel b1 (root_page_id_ t) key) = Some leaf) as Hfind1
    by (by rewrite Hdesc1).
  pose proof (delete_facts fuel t b1 key leaf _ _ Hread1 Hi1 Hfind1 Hvalid
                Hfit) as Hdel.
  assert (insert_pos ks key <= length ks)%nat as Hpos.
  { rewrite (insert_pos_sorted ks key Hs). apply child_index_le. }
  pose proof (ReadLeafNode_lengths (GetData b leaf)) as Hlen.
  rewrite Hrd in Hlen. cbn [fst snd] in Hlen.
  rewrite (find_key_insert_fresh ks key Hs Hfresh) in Hdel.
  rewrite (vec_erase_vec_insert ks) in Hdel by exact Hpos.
  rewrite (vec_erase_vec_insert rs) in Hdel by (rewrite Hlen; exact Hpos).
  destruct Hdel as (b2 & Hdel & Hi2 & Hread2 & Hhdr2 & Hother2 & Hs2 & Hso2).
  exists b1, b2. split; [exact Hins|]. split; [exact Hdel|].
  split; [exact Hi2|]. split; [exact Hread2|].
  split.
  { by rewrite Hhdr2, next_leaf_mk, Hhdr1, next_leaf_mk. }
  split; [intros p Hp; by rewrite Hother2, Hother1|].
  intros k. destruct (decide (k = key)) as [->|Hne].
  - rewrite Hs2. rewrite Search_idle, Hfind, Hrd by done. cbn [fst snd].
    apply Z.eqb_neq in Hvalid. by rewrite Hvalid.
  - by rewrite Hso2, Hso1.
Qed.

End LeafDelete.

Lemma two_level_idle : idle Scenario.two_level_pool.
Proof. split; [vm_compute; reflexivity|vm_compute; lia]. Qed.

Lemma two_level_leaf_fits (keys : list string) (rids : list RecordID) :
  forallb (fun k => Z.of_nat (String.length k) <? 65536) keys = true ->
  forallb (fun r => (-2147483648 <=? page_id r) && (page_id r <? 2147483648)
                    && (0 <=? slot_id r) && (slot_id r <? 65536)) rids = true ->
  (BPlusTree.BTREE_NODE_HEADER_SIZE
   + length (BPlusTree.leaf_payload keys rids) <=? PAGE_SIZE)%nat = true ->
  BPlusTree.leaf_fits keys rids.
Proof.
  intros Hk Hr Hfit. split; [|split].
  - apply Forall_forall. intros k Hin. rewrite forallb_forall in Hk.
    apply list_elem_of_In in Hin. apply Hk in Hin.
    unfold BPlusTree.key_in_range. lia.
  - apply Forall_forall. intros r Hin. rewrite forallb_forall in Hr.
    apply list_elem_of_In in Hin. apply Hr in Hin.
    unfold BPlusTree.rid_in_range. lia.
  - by apply Nat.leb_le.
Qed.

Ltac sorted_keys :=
  repeat first
    [ apply SSorted_nil | apply SSorted_cons | apply List.Forall_nil
    | apply List.Forall_cons; [vm_compute; reflexivity|] ].

(** X19.  Where a leaf insertion puts a key.  On a leaf whose keys are in
    order, the position computed by [lower_bound] and the loop over the
    equal keys lies after every key not greater than the new one and before
    every greater key; the keys are still in order after the insertion, and
    an entry inserted under a key already present stands after the entries
    of that key. *)
Theorem bptree_leaf_insert_keeps_order keys key :
  BPlusTree.keys_sorted keys ->
  let pos := BPlusTree.insert_pos keys key in
  (pos <= length keys)%nat
  ∧ (∀ k, k ∈ take pos keys -> String.ltb key k = false)
  ∧ (∀ k, k ∈ drop pos keys -> String.ltb key k = true)
  ∧ BPlusTree.keys_sorted (BPlusTree.vec_insert keys pos key).
Proof.
  intros Hs pos. unfold pos.
  split; [rewrite (insert_pos_sorted keys key Hs); apply child_index_le|].
  split.
  { rewrite (insert_pos_sorted keys key Hs).
    pose proof (child_index_take keys key) as H.
    rewrite Forall_forall in H. exact H. }
  split; [|by apply vec_insert_sorted].
  rewrite (insert_pos_sorted keys key Hs).
  pose proof (child_index_drop keys key Hs) as H.
  rewrite Forall_forall in H. exact H.
Qed.

Lemma bptree_leaf_insert_keeps_order_witness :
  BPlusTree.insert_pos ["a"; "b"; "b"; "d"]%string "b" = 3%nat
  ∧ BPlusTree.keys_sorted
      (BPlusTree.vec_insert ["a"; "b"; "b"; "d"]%string 3 "b").
Proof.
  split; [vm_compute; reflexivity|].
  apply (bptree_leaf_insert_keeps_order ["a"; "b"; "b"; "d"]%string "b").
  sorted_keys.
Defined.

(** X20.  Insertion without a split, then search, in a tree of any depth.
    The pool has no page pinned; [leaf] is the leaf [FindLeaf] reaches for
    [key], its keys are in order, and the entries with the new one fit the
    page and the fan-out.  [Insert] then succeeds and leaves the root where
    it was; the leaf holds the old entries with the new one at
    [insert_pos], every other page is as before and no page is left
    pinned.  Afterwards [Search key] returns the record id just inserted if
    the key was new, and still the record id it returned before if the key
    was present already; the search for any other key returns what it
    returned before. *)
Theorem bptree_insert_then_search fuel t b key rid leaf :
  let ks := (BPlusTree.ReadLeafNode (GetData b leaf)).1 in
  let rs := (BPlusTree.ReadLeafNode (GetData b leaf)).2 in
  let ks' := BPlusTree.vec_insert ks (BPlusTree.insert_pos ks key) key in
  let rs' := BPlusTree.vec_insert rs (BPlusTree.insert_pos ks key) rid in
  idle b ->
  fst (BPlusTree.FindLeaf fuel b (BPlusTree.root_page_id_ t) key) = Some leaf ->
  leaf ≠ INVALID_PAGE_ID ->
  BPlusTree.keys_sorted ks -> BPlusTree.leaf_fits ks' rs' ->
  Z.of_nat (length ks') <= BPlusTree.max_keys_ t ->
  ∃ b',
    BPlusTree.Insert fuel t b key rid = (Ok tt, b', t)
    ∧ idle b'
    ∧ BPlusTree.ReadLeafNode (GetData b' leaf) = (ks', rs')
    ∧ BPlusTree.ReadNodeHeader (GetData b' leaf)
      = BPlusTree.mkHeader 1 (Z.of_nat (length ks'))
          (BPlusTree.next_leaf (BPlusTree.ReadNodeHeader (GetData b leaf)))
    ∧ (∀ p, p ≠ leaf -> GetData b' p = GetData b p)
    ∧ (∀ current k,
         fst (BPlusTree.FindLeaf fuel b' current k)
         = fst (BPlusTree.FindLeaf fuel b current k))
    ∧ fst (BPlusTree.Search fuel t b' key)
      = (if decide (key ∈ ks) then fst (BPlusTree.Search fuel t b key)
         else Some rid)
    ∧ ∀ k, k ≠ key ->
        fst (BPlusTree.Search fuel t b' k) = fst (BPlusTree.Search fuel t b k).
Proof.
  intros ks rs ks' rs'.
  apply (insert_then_search_facts fuel t b key rid leaf ks rs).
  apply surjective_pairing.
Qed.

Lemma bptree_insert_then_search_witness :
  ∃ b',
    BPlusTree.Insert 4 Scenario.two_level_tree Scenario.two_level_pool "A"
      (mkRid 9 9)
    = (Ok tt, b', Scenario.two_level_tree)
    ∧ BPlusTree.ReadLeafNode (GetData b' 1)
      = (["A"; "a"]%string, [mkRid 9 9; mkRid 7 0])
    ∧ fst (BPlusTree.Search 4 Scenario.two_level_tree b' "A")
      = Some (mkRid 9 9).
Proof.
  destruct (bptree_insert_then_search 4 Scenario.two_level_tree
              Scenario.two_level_pool "A" (mkRid 9 9) 1)
    as (b' & Hins & _ & Hread & _ & _ & _ & Hsearch & _).
  - exact two_level_idle.
  - vm_compute. reflexivity.
  - discriminate.
  - match goal with
    | |- BPlusTree.keys_sorted ?l =>
        let l' := eval vm_compute in l in change l with l'
    end.
    sorted_keys.
  - apply two_level_leaf_fits; vm_compute; reflexivity.
  - vm_compute. discriminate.
  - exists b'. split; [exact Hins|]. split.
    + rewrite Hread. vm_compute. reflexivity.
    + rewrite Hsearch. vm_compute. reflexivity.
Defined.

(** X21.  Deletion.  The pool has no page pinned, [leaf] is the leaf
    [FindLeaf] reaches for [key], and the entries of the leaf fit its page.
    If the leaf has no entry with the key, [Delete] returns false and
    leaves the pool as it was.  Otherwise it returns true and erases the
    first entry with the key, and that entry alone: the leaf keeps its
    other entries in order and its [next_leaf], is not merged even when
    it becomes empty, every other page is as before, and the search for
    any other key returns what it returned before. *)
Theorem bptree_delete_first_match fuel t b key leaf :
  let ks := (BPlusTree.ReadLeafNode (GetData b leaf)).1 in
  let rs := (BPlusTree.ReadLeafNode (GetData b leaf)).2 in
  idle b ->
  fst (BPlusTree.FindLeaf fuel b (BPlusTree.root_page_id_ t) key) = Some leaf ->
  leaf ≠ INVALID_PAGE_ID ->
  BPlusTree.leaf_fits ks rs ->
  match BPlusTree.find_key ks key O with
  | None => BPlusTree.Delete fuel t b key = (Some false, b)
  | Some i =>
      ∃ b',
        BPlusTree.Delete fuel t b key = (Some true, b')
        ∧ idle b'
        ∧ BPlusTree.ReadLeafNode (GetData b' leaf)
          = (BPlusTree.vec_erase ks i, BPlusTree.vec_erase rs i)
        ∧ BPlusTree.ReadNodeHeader (GetData b' leaf)
          = BPlusTree.mkHeader 1 (Z.of_nat (length ks) - 1)
              (BPlusTree.next_leaf (BPlusTree.ReadNodeHeader (GetData b leaf)))
        ∧ (∀ p, p ≠ leaf -> GetData b' p = GetData b p)
        ∧ fst (BPlusTree.Search fuel t b' key)
          = Some (BPlusTree.search_leaf (BPlusTree.vec_erase ks i)
                    (BPlusTree.vec_erase rs i) key)
        ∧ ∀ k, k ≠ key ->
            fst (BPlusTree.Search fuel t b' k)
            = fst (BPlusTree.Search fuel t b k)
  end.
Proof.
  intros ks rs.
  apply (delete_facts fuel t b key leaf ks rs). apply surjective_pairing.
Qed.

Lemma bptree_delete_first_match_witness :
  ∃ b',
    BPlusTree.Delete 4 Scenario.two_level_tree Scenario.two_level_pool "a"
    = (Some true, b')
    ∧ BPlusTree.ReadLeafNode (GetData b' 2) = (["a"%string], [mkRid 7 2])
    ∧ fst (BPlusTree.Search 4 Scenario.two_level_tree b' "a")
      = Some (mkRid 7 2).
Proof.
  pose proof (bptree_delete_first_match 4 Scenario.two_level_tree
                Scenario.two_level_pool "a" 2) as H.
  cbv zeta in H.
  assert (BPlusTree.ReadLeafNode (GetData Scenario.two_level_pool 2)
          = (["a"; "a"]%string, [mkRid 7 1; mkRid 7 2])) as E
    by (vm_compute; reflexivity).
  rewrite E in H. cbn [fst snd BPlusTree.find_key String.eqb Ascii.eqb Bool.eqb]
    in H.
  destruct H as (b' & Hdel & _ & Hread & _ & _ & Hsearch & _).
  - exact two_level_idle.
  - vm_compute. reflexivity.
  - discriminate.
  - apply two_level_leaf_fits; vm_compute; reflexivity.
  - exists b'. split; [exact Hdel|]. split; [exact Hread|exact Hsearch].
Defined.

(** X22.  Insertion followed by deletion of a key the leaf did not hold.
    Under the conditions of an insertion without a split, [Insert key]
    followed by [Delete key] succeeds and gives back the leaf's entries and
    its [next_leaf]; every other page is untouched, no page is left pinned,
    and every search returns what it returned before the two calls. *)
Theorem bptree_insert_delete_round_trip fuel t b key rid leaf :
  let ks := (BPlusTree.ReadLeafNode (GetData b leaf)).1 in
  let rs := (BPlusTree.ReadLeafNode (GetData b leaf)).2 in
  let ks' := BPlusTree.vec_insert ks (BPlusTree.insert_pos ks key) key in
  let rs' := BPlusTree.vec_insert rs (BPlusTree.insert_pos ks key) rid in
  idle b ->
  fst (BPlusTree.FindLeaf fuel b (BPlusTree.root_page_id_ t) key) = Some leaf ->
  leaf ≠ INVALID_PAGE_ID ->
  BPlusTree.keys_sorted ks -> key ∉ ks -> BPlusTree.leaf_fits ks' rs' ->
  Z.of_nat (length ks') <= BPlusTree.max_keys_ t ->
  ∃ b1 b2,
    BPlusTree.Insert fuel t b key rid = (Ok tt, b1, t)
    ∧ BPlusTree.Delete fuel t b1 key = (Some true, b2)
    ∧ idle b2
    ∧ BPlusTree.ReadLeafNode (GetData b2 leaf) = (ks, rs)
    ∧ BPlusTree.next_leaf (BPlusTree.ReadNodeHeader (GetData b2 leaf))
      = BPlusTree.next_leaf (BPlusTree.ReadNodeHeader (GetData b leaf))
    ∧ (∀ p, p ≠ leaf -> GetData b2 p = GetData b p)
    ∧ ∀ k, fst (BPlusTree.Search fuel t b2 k)
           = fst (BPlusTree.Search fuel t b k).
Proof.
  intros ks rs ks' rs'.
  apply (insert_delete_facts fuel t b key rid leaf ks rs).
  apply surjective_pairing.
Qed.

Lemma bptree_insert_delete_round_trip_witness :
  ∃ b1 b2,
    BPlusTree.Insert 4 Scenario.two_level_tree Scenario.two_level_pool "A"
      (mkRid 9 9)
    = (Ok tt, b1, Scenario.two_level_tree)
    ∧ BPlusTree.Delete 4 Scenario.two_level_tree b1 "A" = (Some true, b2)
    ∧ BPlusTree.ReadLeafNode (GetData b2 1) = (["a"%string], [mkRid 7 0]).
Proof.
  destruct (bptree_insert_delete_round_trip 4 Scenario.two_level_tree
              Scenario.two_level_pool "A" (mkRid 9 9) 1)
    as (b1 & b2 & Hins & Hdel & _ & Hread & _).
  - exact two_level_idle.
  - vm_compute. reflexivity.
  - discriminate.
  - match goal with
    | |- BPlusTree.keys_sorted ?l =>
        let l' := eval vm_compute in l in change l with l'
    end.
    sorted_keys.
  - match goal with
    | |- _ ∉ ?l => let l' := eval vm_compute in l in change l with l'
    end.
    intros Hin. apply list_elem_of_singleton in Hin. discriminate Hin.
  - apply two_level_leaf_fits; vm_compute; reflexivity.
  - vm_compute. discriminate.
  - exists b1, b2. split; [exact Hins|]. split; [exact Hdel|].
    rewrite Hread. vm_compute. reflexivity.
Defined.

(** ** BSON serializer: the round trip of a document without null values *)

Section BsonRoundTrip.

Import Bson.

Lemma doc_ok_nil : doc_ok [] = true.
Proof. reflexivity. Qed.

Lemma keys_increasing_cons k l :
  keys_increasing (k :: l) = true ->
  Forall (fun k' => String.ltb k k' = true) l ∧ keys_increasing l = true.
Proof.
  revert k. induction l as [|k2 l IH]; intros k H; [done|].
  cbn [keys_increasing] in H. apply andb_true_iff in H as [H1 H2].
  split; [|exact H2]. apply Forall_cons. split; [done|].
  destruct (IH k2 H2) as [Hall _].
  eapply Forall_impl; [exact Hall|]. intros k3 H3. by apply (ltb_trans k k2 k3).
Qed.

Lemma doc_ok_cons k v r :
  doc_ok ((k, v) :: r) = true ->
  key_ok k = true ∧ value_ok v = true ∧ doc_ok r = true
  ∧ Forall (fun kv : string * BsonValue => String.ltb k kv.1 = true) r.
Proof.
  unfold doc_ok. cbn [value_ok fmap list_fmap fst].
  intros H. apply andb_true_iff in H as [H1 H2].
  apply andb_true_iff in H2 as [H2 H3]. apply andb_true_iff in H2 as [H2 H4].
  destruct (keys_increasing_cons k (fst <$> r) H1) as [Hall Hinc].
  split; [done|]. split; [done|]. split.
  - apply andb_true_iff. by split.
  - apply Forall_fmap in Hall. exact Hall.
Qed.

Lemma Add_snoc (acc : BsonDocument) key v :
  Forall (fun kv : string * BsonValue => String.ltb kv.1 key = true) acc ->
  Add acc key v = acc ++ [(key, v)].
Proof.
  induction 1 as [|[k x] acc Hk Hall IH]; [done|].
  cbn [Add app fst] in *.
  destruct (String.eqb_spec key k) as [->|Hne].
  - by rewrite ltb_irrefl in Hk.
  - by rewrite (ltb_asym k key Hk), IH.
Qed.

Lemma serialize_field_app buf k v :
  serialize_field buf k v = buf ++ serialize_field [] k v.
Proof.
  destruct v; cbn [serialize_field];
    unfold AppendDouble, AppendString, AppendInt32, AppendInt64, AppendCString;
    cbn [app]; rewrite <- ?app_assoc; cbn [app]; try done.
  by rewrite app_nil_r.
Qed.

Lemma fold_fields (doc : BsonDocument) buf :
  fold_left (fun buf kv => serialize_field buf (fst kv) (snd kv)) doc buf
  = buf ++ doc_fields doc.
Proof.
  revert buf. induction doc as [|kv doc IH]; intros buf; cbn.
  - by rewrite app_nil_r.
  - rewrite IH, serialize_field_app. unfold doc_fields, field_bytes.
    cbn. by rewrite <- app_assoc.
Qed.

Lemma seal_eq body :
  seal ([0; 0; 0; 0] ++ body)
  = le_bytes 4 (i32 (Z.of_nat (length body) + 5)) ++ body ++ [0].
Proof.
  unfold seal. cbv zeta.
  assert (length (([0; 0; 0; 0] ++ body) ++ [0]) = (length body + 5)%nat) as Hl
    by (rewrite !length_app; cbn; lia).
  rewrite Hl. unfold memcpy. rewrite take_0, Hl. cbn [app].
  rewrite take_ge by (rewrite length_le_bytes; lia).
  rewrite length_le_bytes. cbn [Nat.add drop].
  do 3 f_equal. lia.
Qed.

Lemma Serialize_eq doc :
  Serialize doc
  = le_bytes 4 (i32 (Z.of_nat (length (doc_fields doc)) + 5))
    ++ doc_fields doc ++ [0].
Proof.
  unfold Serialize. rewrite fold_fields. apply seal_eq.
Qed.

Lemma field_double k bits :
  field_bytes (k, BDouble bits) = 1 :: string_bytes k ++ 0 :: le_bytes 8 bits.
Proof.
  unfold field_bytes. cbn [fst snd serialize_field].
  unfold AppendDouble, AppendCString. cbn [app]. by rewrite <- app_assoc.
Qed.

Lemma field_string k s :
  field_bytes (k, BString s)
  = 2 :: string_bytes k
    ++ 0 :: le_bytes 4 (i32 (Z.of_nat (String.length s) + 1))
       ++ string_bytes s ++ [0].
Proof.
  unfold field_bytes. cbn [fst snd serialize_field].
  unfold AppendString, AppendInt32, AppendCString. cbn [app].
  by rewrite <- !app_assoc.
Qed.

Lemma field_int32 k v :
  field_bytes (k, BInt32 v) = 16 :: string_bytes k ++ 0 :: le_bytes 4 v.
Proof.
  unfold field_bytes. cbn [fst snd serialize_field].
  unfold AppendInt32, AppendCString. cbn [app]. by rewrite <- app_assoc.
Qed.

Lemma field_int64 k v :
  field_bytes (k, BInt64 v) = 18 :: string_bytes k ++ 0 :: le_bytes 8 v.
Proof.
  unfold field_bytes. cbn [fst snd serialize_field].
  unfold AppendInt64, AppendCString. cbn [app]. by rewrite <- app_assoc.
Qed.

Lemma field_bool k b :
  field_bytes (k, BBool b)
  = 8 :: string_bytes k ++ 0 :: [if b then 1 else 0].
Proof.
  unfold field_bytes. cbn [fst snd serialize_field].
  unfold AppendCString. cbn [app]. by rewrite <- app_assoc.
Qed.

Lemma nested_fields (l : list (string * BsonValue)) buf :
  (fix fields (buf : list Z) (l : list (string * BsonValue)) :=
     match l with
     | [] => buf
     | (k, v) :: r => fields (serialize_field buf k v) r
     end) buf l
  = fold_left (fun buf kv => serialize_field buf (fst kv) (snd kv)) l buf.
Proof.
  revert buf. induction l as [|[k v] l IH]; intros buf; [done|]. apply IH.
Qed.

Lemma field_document k d :
  field_bytes (k, BDocument d) = 3 :: string_bytes k ++ 0 :: Serialize d.
Proof.
  unfold field_bytes. cbn [fst snd serialize_field].
  rewrite nested_fields. fold (Serialize d).
  unfold AppendCString. cbn [app]. by rewrite <- app_assoc.
Qed.

Lemma strlen_from_key k rest :
  key_ok k = true -> strlen_from (string_bytes k ++ 0 :: rest) = Ok (string_bytes k).
Proof.
  unfold key_ok. induction k as [|c k IH]; cbn; [done|].
  intros H. apply andb_true_iff in H as [H1 H2].
  apply negb_true_iff in H1. rewrite H1, (IH H2). done.
Qed.

Lemma u64_small z : 0 <= z < 18446744073709551616 -> u64 z = z.
Proof. intros H. unfold u64. by rewrite Z.mod_small. Qed.

Lemma ReadCString_key data pre k post :
  data = pre ++ string_bytes k ++ 0 :: post ->
  key_ok k = true -> Z.of_nat (length data) < 2147483648 ->
  ReadCString data (Z.of_nat (length pre))
  = Ok (k, Z.of_nat (length pre) + Z.of_nat (String.length k) + 1).
Proof.
  intros -> Hk Hlen. unfold ReadCString.
  rewrite !length_app in *. cbn [length] in *.
  rewrite length_string_bytes in *.
  destruct (_ <=? _) eqn:E; [apply Z.leb_le in E; lia|].
  rewrite Nat2Z.id, drop_app_length, (strlen_from_key k post Hk).
  cbn [obind]. rewrite bytes_string_bytes, length_string_bytes.
  by rewrite u64_small by lia.
Qed.

Lemma ReadInt32_at data pre v post :
  data = pre ++ le_bytes 4 v ++ post ->
  -2147483648 <= v < 2147483648 -> Z.of_nat (length data) < 2147483648 ->
  ReadInt32 data (Z.of_nat (length pre)) = Ok (v, Z.of_nat (length pre) + 4).
Proof.
  intros Hd Hv Hlen. unfold ReadInt32.
  assert (Z.of_nat (length pre) + 4 <= Z.of_nat (length data)) as Hle
    by (rewrite Hd, !length_app, length_le_bytes; lia).
  rewrite (read_bytes_mid data pre (le_bytes 4 v) post);
    [|done|done|by rewrite length_le_bytes].
  cbn [obind]. rewrite le_value_le_bytes_i32 by done.
  by rewrite u64_small by lia.
Qed.

Lemma ReadInt64_at data pre v post :
  data = pre ++ le_bytes 8 v ++ post ->
  -9223372036854775808 <= v < 9223372036854775808 ->
  Z.of_nat (length data) < 2147483648 ->
  ReadInt64 data (Z.of_nat (length pre)) = Ok (v, Z.of_nat (length pre) + 8).
Proof.
  intros Hd Hv Hlen. unfold ReadInt64.
  assert (Z.of_nat (length pre) + 8 <= Z.of_nat (length data)) as Hle
    by (rewrite Hd, !length_app, length_le_bytes; lia).
  rewrite (read_bytes_mid data pre (le_bytes 8 v) post);
    [|done|done|by rewrite length_le_bytes].
  cbn [obind]. rewrite le_value_le_bytes_i64 by done.
  by rewrite u64_small by lia.
Qed.

Lemma ReadDouble_at data pre bits post :
  data = pre ++ le_bytes 8 bits ++ post ->
  0 <= bits < 18446744073709551616 ->
  Z.of_nat (length data) < 2147483648 ->
  ReadDouble data (Z.of_nat (length pre))
  = Ok (bits, Z.of_nat (length pre) + 8).
Proof.
  intros Hd Hv Hlen. unfold ReadDouble.
  assert (Z.of_nat (length pre) + 8 <= Z.of_nat (length data)) as Hle
    by (rewrite Hd, !length_app, length_le_bytes; lia).
  rewrite (read_bytes_mid data pre (le_bytes 8 bits) post);
    [|done|done|by rewrite length_le_bytes].
  cbn [obind]. rewrite le_value_le_bytes.
  change (256 ^ Z.of_nat 8) with 18446744073709551616.
  rewrite Z.mod_small by done. by rewrite u64_small by lia.
Qed.

Lemma ReadString_at data pre s post :
  data = pre ++ le_bytes 4 (i32 (Z.of_nat (String.length s) + 1))
             ++ string_bytes s ++ 0 :: post ->
  Z.of_nat (String.length s) + 1 < 2147483648 ->
  Z.of_nat (length data) < 2147483648 ->
  ReadString data (Z.of_nat (length pre))
  = Ok (s, Z.of_nat (length pre) + 4 + Z.of_nat (String.length s) + 1).
Proof.
  intros Hd Hs Hlen. unfold ReadString.
  assert (Z.of_nat (length pre) + 4 + Z.of_nat (String.length s) + 1
          <= Z.of_nat (length data)) as Hle.
  { rewrite Hd, !length_app, length_le_bytes, length_string_bytes.
    cbn [length]. lia. }
  assert (i32 (Z.of_nat (String.length s) + 1)
          = Z.of_nat (String.length s) + 1) as Ei.
  { unfold i32. rewrite u32_small by lia.
    destruct (_ <? _) eqn:E; [done|]. apply Z.ltb_ge in E. lia. }
  rewrite Ei in Hd.
  rewrite (ReadInt32_at data pre (Z.of_nat (String.length s) + 1)
             (string_bytes s ++ 0 :: post)) by (done || lia).
  cbn [obind].
  destruct (_ <? 1) eqn:E; [apply Z.ltb_lt in E; lia|].
  rewrite (read_bytes_mid data (pre ++ le_bytes 4 (Z.of_nat (String.length s) + 1))
             (string_bytes s) (0 :: post)).
  - cbn [obind]. rewrite bytes_string_bytes.
    rewrite u64_small by lia. do 2 f_equal. lia.
  - by rewrite <- app_assoc.
  - rewrite length_app, length_le_bytes. lia.
  - rewrite length_string_bytes. lia.
Qed.

Lemma deserialize_loop_S k data doc_size doc offset :
  deserialize_loop (S k) data doc_size doc offset
  = if offset <? u64 (u64 doc_size - 1) then
      let* tb := read_bytes data offset 1 in
      let type_byte := hd 0 tb in
      let offset := u64 (offset + 1) in
      if type_byte =? 0 then Ok doc
      else
        let* (key, offset) := ReadCString data offset in
        if type_byte =? 16 then
          let* (v, offset) := ReadInt32 data offset in
          deserialize_loop k data doc_size (Add doc key (BInt32 v)) offset
        else if type_byte =? 18 then
          let* (v, offset) := ReadInt64 data offset in
          deserialize_loop k data doc_size (Add doc key (BInt64 v)) offset
        else if type_byte =? 1 then
          let* (v, offset) := ReadDouble data offset in
          deserialize_loop k data doc_size (Add doc key (BDouble v)) offset
        else if type_byte =? 2 then
          let* (v, offset) := ReadString data offset in
          deserialize_loop k data doc_size (Add doc key (BString v)) offset
        else if type_byte =? 8 then
          let* b := read_bytes data offset 1 in
          deserialize_loop k data doc_size
            (Add doc key (BBool (hd 0 b =? 1))) (u64 (offset + 1))
        else if type_byte =? 3 then
          let* (sub_len, _) := ReadInt32 data offset in
          let* sub := Deserialize_with (deserialize_loop k)
                     (drop (Z.to_nat offset) data) (u64 sub_len) in
          deserialize_loop k data doc_size (Add doc key (BDocument sub))
            (u64 (offset + sub_len))
        else Throw ("Unknown BSON Type: " +:+ to_string type_byte)
    else Ok doc.
Proof. reflexivity. Qed.

(** The first two steps of an iteration: the type byte and the key. *)
Lemma loop_prefix data pre t k tail off :
  data = pre ++ t :: string_bytes k ++ 0 :: tail ->
  off = Z.of_nat (length pre) ->
  key_ok k = true -> Z.of_nat (length data) < 2147483648 ->
  read_bytes data off 1 = Ok [t]
  ∧ ReadCString data (u64 (off + 1))
    = Ok (k, off + Z.of_nat (String.length k) + 2).
Proof.
  intros Hd Hoff Hk Hlen.
  assert (Z.of_nat (length pre) + 1 <= Z.of_nat (length data)) as Hle
    by (rewrite Hd, length_app; cbn [length]; lia).
  split.
  - by apply (read_bytes_mid data pre [t] (string_bytes k ++ 0 :: tail)).
  - rewrite u64_small by lia. subst off.
    replace (Z.of_nat (length pre) + 1) with (Z.of_nat (length (pre ++ [t])))
      by (rewrite length_app; cbn [length]; lia).
    rewrite (ReadCString_key data (pre ++ [t]) k tail);
      [|by rewrite Hd, <- app_assoc|done|done].
    rewrite length_app. cbn [length]. do 2 f_equal. lia.
Qed.

Lemma field_bytes_length k v :
  value_ok v = true ->
  (String.length k + 2 <= length (field_bytes (k, v)))%nat.
Proof.
  destruct v; intros Hv; try done.
  - rewrite field_double. cbn [length]. rewrite length_app, length_string_bytes.
    cbn [length]. lia.
  - rewrite field_string. cbn [length]. rewrite length_app, length_string_bytes.
    cbn [length]. lia.
  - rewrite field_document. cbn [length]. rewrite length_app, length_string_bytes.
    cbn [length]. lia.
  - rewrite field_bool. cbn [length]. rewrite length_app, length_string_bytes.
    cbn [length]. lia.
  - rewrite field_int32. cbn [length]. rewrite length_app, length_string_bytes.
    cbn [length]. lia.
  - rewrite field_int64. cbn [length]. rewrite length_app, length_string_bytes.
    cbn [length]. lia.
Qed.

Lemma ReadInt32_off data pre v post off :
  data = pre ++ le_bytes 4 v ++ post -> off = Z.of_nat (length pre) ->
  -2147483648 <= v < 2147483648 -> Z.of_nat (length data) < 2147483648 ->
  ReadInt32 data off = Ok (v, off + 4).
Proof. intros Hd -> Hv Hlen. by apply (ReadInt32_at data pre v post). Qed.

Lemma ReadInt64_off data pre v post off :
  data = pre ++ le_bytes 8 v ++ post -> off = Z.of_nat (length pre) ->
  -9223372036854775808 <= v < 9223372036854775808 ->
  Z.of_nat (length data) < 2147483648 ->
  ReadInt64 data off = Ok (v, off + 8).
Proof. intros Hd -> Hv Hlen. by apply (ReadInt64_at data pre v post). Qed.

Lemma ReadDouble_off data pre bits post off :
  data = pre ++ le_bytes 8 bits ++ post -> off = Z.of_nat (length pre) ->
  0 <= bits < 18446744073709551616 ->
  Z.of_nat (length data) < 2147483648 ->
  ReadDouble data off = Ok (bits, off + 8).
Proof. intros Hd -> Hv Hlen. by apply (ReadDouble_at data pre bits post). Qed.

Lemma ReadString_off data pre s post off :
  data = pre ++ le_bytes 4 (i32 (Z.of_nat (String.length s) + 1))
             ++ string_bytes s ++ 0 :: post ->
  off = Z.of_nat (length pre) ->
  Z.of_nat (String.length s) + 1 < 2147483648 ->
  Z.of_nat (length data) < 2147483648 ->
  ReadString data off = Ok (s, off + 4 + Z.of_nat (String.length s) + 1).
Proof. intros Hd -> Hv Hlen. by apply (ReadString_at data pre s post). Qed.

Lemma doc_fields_cons kv (r : BsonDocument) :
  doc_fields (kv :: r) = field_bytes kv ++ doc_fields r.
Proof. reflexivity. Qed.

(** What the loop needs to go on after a field: the document grows at its
    end, and the offset is the length of what has been read. *)
Lemma loop_continue fuel data doc_size (acc : BsonDocument) k v
    (r : BsonDocument) pre post :
  (∀ data doc_size acc rest pre post,
     data = pre ++ doc_fields rest ++ 0 :: post ->
     doc_size = Z.of_nat (length pre) + Z.of_nat (length (doc_fields rest)) + 1 ->
     Z.of_nat (length data) < 2147483648 ->
     doc_ok rest = true ->
     Forall (fun kv : string * BsonValue =>
               Forall (fun kv' : string * BsonValue =>
                         String.ltb kv.1 kv'.1 = true) rest) acc ->
     (length (doc_fields rest) <= fuel)%nat ->
     deserialize_loop fuel data doc_size acc (Z.of_nat (length pre))
     = Ok (acc ++ rest)) ->
  data = pre ++ doc_fields ((k, v) :: r) ++ 0 :: post ->
  doc_size = Z.of_nat (length pre)
             + Z.of_nat (length (doc_fields ((k, v) :: r))) + 1 ->
  Z.of_nat (length data) < 2147483648 ->
  doc_ok ((k, v) :: r) = true ->
  Forall (fun kv : string * BsonValue =>
            Forall (fun kv' : string * BsonValue =>
                      String.ltb kv.1 kv'.1 = true) ((k, v) :: r)) acc ->
  (length (doc_fields ((k, v) :: r)) <= S fuel)%nat ->
  ∀ off,
    off = Z.of_nat (length pre) + Z.of_nat (length (field_bytes (k, v))) ->
    deserialize_loop fuel data doc_size (Add acc k v) off
    = Ok (acc ++ (k, v) :: r).
Proof.
  intros IH Hd Hsize Hlen Hok Hacc Hfuel off ->.
  destruct (doc_ok_cons k v r Hok) as (Hk & Hv & Hr & Hlt).
  pose proof (field_bytes_length k v Hv) as Hfl.
  rewrite doc_fields_cons in Hd, Hsize, Hfuel.
  rewrite length_app in Hsize, Hfuel.
  rewrite Add_snoc.
  2: { eapply Forall_impl; [exact Hacc|]. intros kv H.
       by apply Forall_cons in H as [H _]. }
  replace (Z.of_nat (length pre) + Z.of_nat (length (field_bytes (k, v))))
    with (Z.of_nat (length (pre ++ field_bytes (k, v))))
    by (rewrite length_app; lia).
  rewrite (IH data doc_size (acc ++ [(k, v)]) r (pre ++ field_bytes (k, v)) post).
  - by rewrite <- app_assoc.
  - by rewrite Hd, <- !app_assoc.
  - rewrite length_app. lia.
  - done.
  - done.
  - apply Forall_app. split.
    + eapply Forall_impl; [exact Hacc|]. intros kv H.
      by apply Forall_cons in H as [_ H].
    + apply Forall_cons. split; [exact Hlt|done].
  - lia.
Qed.

Lemma loop_enter data doc_size k v (r : BsonDocument) pre post :
  data = pre ++ doc_fields ((k, v) :: r) ++ 0 :: post ->
  doc_size = Z.of_nat (length pre)
             + Z.of_nat (length (doc_fields ((k, v) :: r))) + 1 ->
  Z.of_nat (length data) < 2147483648 ->
  doc_ok ((k, v) :: r) = true ->
  (Z.of_nat (length pre) <? u64 (u64 doc_size - 1)) = true.
Proof.
  intros Hd Hsize Hlen Hok.
  destruct (doc_ok_cons k v r Hok) as (Hk & Hv & Hr & Hlt).
  pose proof (field_bytes_length k v Hv) as Hfl.
  assert (doc_size <= Z.of_nat (length data)) as Hds.
  { rewrite Hsize, Hd, !length_app. cbn [length]. lia. }
  rewrite doc_fields_cons, length_app in Hsize.
  rewrite (u64_small doc_size) by lia. rewrite u64_small by lia.
  apply Z.ltb_lt. lia.
Qed.

Lemma i32_small z : -2147483648 <= z < 2147483648 -> i32 z = z.
Proof.
  intros H. unfold i32, u32.
  destruct (Z.lt_ge_cases z 0).
  - replace (z mod 4294967296) with (z + 4294967296).
    + destruct (_ <? _) eqn:E; [apply Z.ltb_lt in E; lia|lia].
    + apply (Z.mod_unique_pos _ _ (-1)); lia.
  - rewrite Z.mod_small by lia.
    destruct (_ <? _) eqn:E; [done|apply Z.ltb_ge in E; lia].
Qed.

Ltac field_prefix Hd Hk Hlen pre t k :=
  match type of Hd with
  | _ = _ ++ _ :: _ ++ _ :: ?tail =>
      let E1 := fresh "E1" in
      let E2 := fresh "E2" in
      destruct (loop_prefix _ pre t k tail _ Hd eq_refl Hk Hlen) as [E1 E2];
      rewrite E1; cbn [obind hd]; cbv zeta; cbn [Z.eqb Pos.eqb];
      rewrite E2; cbn [obind]
  end.

Ltac lens :=
  repeat first
    [ rewrite length_app | rewrite length_le_bytes
    | rewrite length_string_bytes | progress cbn [length] ];
  try lia.

Ltac norm_app H :=
  repeat first [rewrite <- app_assoc in H | progress cbn [app] in H].

Ltac lens_in H :=
  repeat first
    [ rewrite length_app in H | rewrite length_le_bytes in H
    | rewrite length_string_bytes in H | progress cbn [length] in H ].

Lemma loop_step fuel data doc_size acc k v r pre post :
  (∀ data doc_size acc rest pre post,
     data = pre ++ doc_fields rest ++ 0 :: post ->
     doc_size = Z.of_nat (length pre) + Z.of_nat (length (doc_fields rest)) + 1 ->
     Z.of_nat (length data) < 2147483648 ->
     doc_ok rest = true ->
     Forall (fun kv : string * BsonValue =>
               Forall (fun kv' : string * BsonValue =>
                         String.ltb kv.1 kv'.1 = true) rest) acc ->
     (length (doc_fields rest) <= fuel)%nat ->
     deserialize_loop fuel data doc_size acc (Z.of_nat (length pre))
     = Ok (acc ++ rest)) ->
  data = pre ++ doc_fields ((k, v) :: r) ++ 0 :: post ->
  doc_size = Z.of_nat (length pre)
             + Z.of_nat (length (doc_fields ((k, v) :: r))) + 1 ->
  Z.of_nat (length data) < 2147483648 ->
  doc_ok ((k, v) :: r) = true ->
  Forall (fun kv : string * BsonValue =>
            Forall (fun kv' : string * BsonValue =>
                      String.ltb kv.1 kv'.1 = true) ((k, v) :: r)) acc ->
  (length (doc_fields ((k, v) :: r)) <= S fuel)%nat ->
  deserialize_loop (S fuel) data doc_size acc (Z.of_nat (length pre))
  = Ok (acc ++ (k, v) :: r).
Proof.
  intros IH Hd Hsize Hlen Hok Hacc Hfuel.
  pose proof (loop_continue fuel data doc_size acc k v r pre post IH Hd Hsize
                Hlen Hok Hacc Hfuel) as Hcont.
  pose proof (loop_enter data doc_size k v r pre post Hd Hsize Hlen Hok)
    as Henter.
  destruct (doc_ok_cons k v r Hok) as (Hk & Hv & Hr & Hlt).
  rewrite deserialize_loop_S, Henter.
  rewrite doc_fields_cons in Hd, Hfuel.
  assert (Z.of_nat (length pre) + Z.of_nat (length (field_bytes (k, v)))
          <= Z.of_nat (length data)) as Hle.
  { rewrite Hd, !length_app. lia. }
  clear Hsize Hok Hacc Henter Hlt.
  destruct v as [bits|s|d|b|z|z|]; [| | | | | |done].
  - (* double *)
    rewrite field_double in Hd, Hcont, Hle. norm_app Hd.
    field_prefix Hd Hk Hlen pre 1 k.
    cbn [value_ok] in Hv. apply andb_true_iff in Hv as [H1 H2].
    rewrite (ReadDouble_off data (pre ++ 1 :: string_bytes k ++ [0]) bits
               (doc_fields r ++ 0 :: post)).
    + cbn [obind]. apply Hcont. lens.
    + rewrite Hd, <- !app_assoc. cbn [app]. by rewrite <- app_assoc.
    + lens.
    + lia.
    + done.
  - (* string *)
    rewrite field_string in Hd, Hcont, Hle. norm_app Hd.
    field_prefix Hd Hk Hlen pre 2 k.
    cbn [value_ok] in Hv. apply Z.ltb_lt in Hv.
    rewrite (ReadString_off data (pre ++ 2 :: string_bytes k ++ [0]) s
               (doc_fields r ++ 0 :: post)).
    + cbn [obind]. apply Hcont. lens.
    + rewrite Hd, <- !app_assoc. cbn [app]. by rewrite <- !app_assoc.
    + lens.
    + lia.
    + done.
  - (* nested document *)
    rewrite field_document, Serialize_eq in Hd, Hcont, Hle, Hfuel.
    lens_in Hle.
    assert (i32 (Z.of_nat (length (doc_fields d)) + 5)
            = Z.of_nat (length (doc_fields d)) + 5) as Ei
      by (apply i32_small; lia).
    rewrite Ei in Hd, Hcont.
    norm_app Hd.
    field_prefix Hd Hk Hlen pre 3 k.
    set (off := Z.of_nat (length pre) + Z.of_nat (String.length k) + 2).
    assert (off = Z.of_nat (length (pre ++ 3 :: string_bytes k ++ [0])))
      as Hoff.
    { unfold off. lens. }
    rewrite (ReadInt32_off data (pre ++ 3 :: string_bytes k ++ [0])
               (Z.of_nat (length (doc_fields d)) + 5)
               (doc_fields d ++ 0 :: doc_fields r ++ 0 :: post) off);
      [|rewrite Hd, <- !app_assoc; cbn [app]; by rewrite <- app_assoc
       |done|lia|done].
    cbn [obind].
    assert (drop (Z.to_nat off) data
            = le_bytes 4 (Z.of_nat (length (doc_fields d)) + 5)
              ++ doc_fields d ++ 0 :: doc_fields r ++ 0 :: post) as Hdrop.
    { rewrite Hoff, Nat2Z.id, Hd.
      replace (pre ++ 3 :: string_bytes k ++ 0 :: le_bytes 4 _ ++ _)
        with ((pre ++ 3 :: string_bytes k ++ [0])
              ++ le_bytes 4 (Z.of_nat (length (doc_fields d)) + 5)
              ++ doc_fields d ++ 0 :: doc_fields r ++ 0 :: post)
        by (rewrite <- !app_assoc; cbn [app]; by rewrite <- app_assoc).
      apply drop_app_length. }
    rewrite Hdrop. unfold Deserialize_with.
    assert (Z.of_nat (length (le_bytes 4 (Z.of_nat (length (doc_fields d)) + 5)
              ++ doc_fields d ++ 0 :: doc_fields r ++ 0 :: post))
            <= Z.of_nat (length data)) as Hsub.
    { rewrite <- Hdrop, length_drop. lia. }
    rewrite (ReadInt32_off _ [] (Z.of_nat (length (doc_fields d)) + 5)
               (doc_fields d ++ 0 :: doc_fields r ++ 0 :: post) 0);
      [|done|done|lia|lia].
    cbn [obind]. rewrite Z.ltb_irrefl.
    cbn [value_ok] in Hv. fold (doc_ok d) in Hv.
    change (0 + 4) with (Z.of_nat (length (le_bytes 4
              (Z.of_nat (length (doc_fields d)) + 5)))).
    rewrite (IH _ _ [] d (le_bytes 4 (Z.of_nat (length (doc_fields d)) + 5))
               (doc_fields r ++ 0 :: post)); [|done| |lia|done|done|].
    + cbn [obind app]. rewrite u64_small by lia.
      apply Hcont. lens.
    + lens.
    + lens_in Hfuel. lia.
  - (* bool *)
    rewrite field_bool in Hd, Hcont, Hle. norm_app Hd.
    field_prefix Hd Hk Hlen pre 8 k.
    rewrite (read_bytes_mid data (pre ++ 8 :: string_bytes k ++ [0])
               [if b then 1 else 0] (doc_fields r ++ 0 :: post)).
    + cbn [obind hd].
      replace ((if b then 1 else 0) =? 1) with b by (by destruct b).
      rewrite u64_small.
      * apply Hcont. lens.
      * lens_in Hle. lia.
    + rewrite Hd, <- !app_assoc. cbn [app]. by rewrite <- app_assoc.
    + lens.
    + done.
  - (* int32 *)
    rewrite field_int32 in Hd, Hcont, Hle. norm_app Hd.
    field_prefix Hd Hk Hlen pre 16 k.
    cbn [value_ok] in Hv. apply andb_true_iff in Hv as [H1 H2].
    rewrite (ReadInt32_off data (pre ++ 16 :: string_bytes k ++ [0]) z
               (doc_fields r ++ 0 :: post)).
    + cbn [obind]. apply Hcont. lens.
    + rewrite Hd, <- !app_assoc. cbn [app]. by rewrite <- app_assoc.
    + lens.
    + lia.
    + done.
  - (* int64 *)
    rewrite field_int64 in Hd, Hcont, Hle. norm_app Hd.
    field_prefix Hd Hk Hlen pre 18 k.
    cbn [value_ok] in Hv. apply andb_true_iff in Hv as [H1 H2].
    rewrite (ReadInt64_off data (pre ++ 18 :: string_bytes k ++ [0]) z
               (doc_fields r ++ 0 :: post)).
    + cbn [obind]. apply Hcont. lens.
    + rewrite Hd, <- !app_assoc. cbn [app]. by rewrite <- app_assoc.
    + lens.
    + lia.
    + done.
Qed.

Lemma loop_fields fuel : ∀ data doc_size (acc rest : BsonDocument) pre post,
  data = pre ++ doc_fields rest ++ 0 :: post ->
  doc_size = Z.of_nat (length pre) + Z.of_nat (length (doc_fields rest)) + 1 ->
  Z.of_nat (length data) < 2147483648 ->
  doc_ok rest = true ->
  Forall (fun kv : string * BsonValue =>
            Forall (fun kv' : string * BsonValue =>
                      String.ltb kv.1 kv'.1 = true) rest) acc ->
  (length (doc_fields rest) <= fuel)%nat ->
  deserialize_loop fuel data doc_size acc (Z.of_nat (length pre))
  = Ok (acc ++ rest).
Proof.
  assert (∀ fuel data doc_size (acc : BsonDocument) pre post,
            data = pre ++ doc_fields [] ++ 0 :: post ->
            doc_size = Z.of_nat (length pre)
                       + Z.of_nat (length (doc_fields [])) + 1 ->
            Z.of_nat (length data) < 2147483648 ->
            deserialize_loop fuel data doc_size acc (Z.of_nat (length pre))
            = Ok (acc ++ [])) as Hnil.
  { intros f data doc_size acc pre post Hd Hsize Hlen.
    rewrite app_nil_r. apply deserialize_loop_done.
    cbn in Hsize, Hd.
    assert (doc_size <= Z.of_nat (length data))
      by (rewrite Hsize, Hd, length_app; cbn [length]; lia).
    rewrite (u64_small doc_size) by lia. rewrite u64_small by lia. lia. }
  induction fuel as [|fuel IH];
    intros data doc_size acc rest pre post Hd Hsize Hlen Hok Hacc Hfuel.
  - destruct rest as [|[k v] r]; [by apply (Hnil _ _ _ _ _ post)|].
    destruct (doc_ok_cons k v r Hok) as (_ & Hv & _).
    pose proof (field_bytes_length k v Hv).
    rewrite doc_fields_cons, length_app in Hfuel. lia.
  - destruct rest as [|[k v] r]; [by apply (Hnil _ _ _ _ _ post)|].
    by apply (loop_step fuel data doc_size acc k v r pre post IH).
Qed.

End BsonRoundTrip.

Lemma Serialize_Deserialize doc fuel :
  doc_ok doc = true ->
  Z.of_nat (length (Bson.Serialize doc)) < 2147483648 ->
  (length (Bson.Serialize doc) <= fuel)%nat ->
  Bson.DeserializeVec fuel (Bson.Serialize doc) = Ok doc.
Proof.
  intros Hok Hlen Hfuel.
  unfold Bson.DeserializeVec, Bson.Deserialize, Bson.Deserialize_with.
  rewrite Serialize_eq in *.
  assert (length (le_bytes 4 (i32 (Z.of_nat (length (doc_fields doc)) + 5))
                  ++ doc_fields doc ++ [0])
          = (length (doc_fields doc) + 5)%nat) as Hl
    by (rewrite !length_app, length_le_bytes; cbn [length]; lia).
  rewrite Hl in *.
  rewrite (i32_small (Z.of_nat (length (doc_fields doc)) + 5)) by lia.
  rewrite (ReadInt32_off _ [] (Z.of_nat (length (doc_fields doc)) + 5)
             (doc_fields doc ++ [0]) 0);
    [|done|done|lia|rewrite !length_app, length_le_bytes; cbn [length]; lia].
  cbn [obind].
  rewrite (u64_small (Z.of_nat (length (doc_fields doc)) + 5)) by lia.
  destruct (_ <? _) eqn:E; [apply Z.ltb_lt in E; lia|].
  change (0 + 4)
    with (Z.of_nat (length (le_bytes 4
            (Z.of_nat (length (doc_fields doc)) + 5)))).
  rewrite (loop_fields fuel _ _ [] doc
             (le_bytes 4 (Z.of_nat (length (doc_fields doc)) + 5)) []);
    [done|done| | |done|done|lia].
  - rewrite length_le_bytes. cbn. lia.
  - rewrite !length_app, length_le_bytes. cbn [length]. lia.
Qed.

(** X25.  The serializer round trip.  A document is well formed when its
    keys hold no NUL byte and are in the strictly increasing order of
    [std::map], every number is in the range of its type, every string
    value is short enough for its 32-bit length, and no value is null, in
    the document and in every nested one.  For such a document of less
    than 2^31 bytes, [Deserialize] of the bytes [Serialize] produced gives
    the document back: same keys, same types, same values, nested
    documents included. *)
Theorem bson_round_trip doc fuel :
  doc_ok doc = true ->
  Z.of_nat (length (Bson.Serialize doc)) < 2147483648 ->
  (length (Bson.Serialize doc) <= fuel)%nat ->
  Bson.DeserializeVec fuel (Bson.Serialize doc) = Ok doc.
Proof. exact (Serialize_Deserialize doc fuel). Qed.

Lemma bson_round_trip_witness :
  let doc : Bson.BsonDocument :=
    [ ("age"%string, Bson.BInt32 30);
      ("name"%string, Bson.BString "alice");
      ("pos"%string,
       Bson.BDocument [ ("x"%string, Bson.BDouble 4607182418800017408);
                        ("y"%string, Bson.BBool true) ]) ] in
  Bson.DeserializeVec 64 (Bson.Serialize doc) = Ok doc.
Proof.
  intros doc. apply (bson_round_trip doc 64).
  - vm_compute. reflexivity.
  - vm_compute. reflexivity.
  - vm_compute. lia.
Defined.
(** ** Heap file: insert, read back, delete *)

Section HeapRoundTrip.

Import FreeSpaceMap HeapFile.

Lemma UpdateFreeSpace_same_but f b p free_bytes :
  same_but (fst (GetFSMLocation f p)) b (UpdateFreeSpace f b p free_bytes).
Proof.
  unfold UpdateFreeSpace.
  destruct (GetFSMLocation f p) as [fsm_page_id offset]. cbn [fst].
  apply (fetch_apply_unpin b fsm_page_id
           (fun data => poke data (Z.to_nat offset)
                          (BytesToCategory free_bytes))).
Qed.

Lemma idle_fetch_pins b p b1 :
  idle b -> FetchPage b p = (Some (GetData b p), b1) ->
  pins b1 = {[p := 1%positive]} ∧ pool_size b1 = pool_size b
  ∧ next_page_id b1 = next_page_id b
  ∧ ∀ q, GetData b1 q = GetData b q.
Proof.
  intros [Hp Hs] E. destruct (FetchPage_Some b p) as (n & E' & Hn).
  { by apply idle_fetchable. }
  rewrite Hp, lookup_empty in Hn. subst n. rewrite E in E'.
  injection E' as ->. cbn. rewrite Hp. by rewrite insert_empty.
Qed.

Lemma UnpinPage_fields b p dirty :
  pool_size (UnpinPage b p dirty) = pool_size b
  ∧ next_page_id (UnpinPage b p dirty) = next_page_id b.
Proof. unfold UnpinPage. by destruct (pins b !! p) as [[]|]. Qed.

(** With one page pinned and a second frame in the pool, any page can be
    fetched. *)
Lemma fetchable_second_frame b target p :
  pins b = {[target := 1%positive]} -> (2 <= pool_size b)%nat ->
  fetchable b p = true.
Proof.
  intros Hp Hs. unfold fetchable, FindFreeFrame.
  rewrite Hp, map_size_singleton.
  rewrite (bool_decide_eq_true_2 (1 < pool_size b)%nat) by lia.
  apply orb_true_r.
Qed.

(** The tail of a successful insert: the FSM page is written, the target
    page is released and keeps what the slotted insert left in it. *)
Lemma finish_insert_idle b h target slot page :
  pins b = {[target := 1%positive]} -> (1 <= pool_size b)%nat ->
  fst (GetFSMLocation (fsm_ h) target) ≠ target ->
  GetData b target = page ->
  ∃ b', finish_insert b h target slot = (Ok (mkRid target (u16 slot)), b', h)
        ∧ idle b' ∧ GetData b' target = page
        ∧ next_page_id b' = next_page_id b
        ∧ pool_size b' = pool_size b
        ∧ ((2 <= pool_size b)%nat ->
           (Z.to_nat (snd (GetFSMLocation (fsm_ h) target)) < PAGE_SIZE)%nat ->
           fsm_entry (fsm_ h) b' target
           = BytesToCategory (SlottedPage.GetFreeSpace page)).
Proof.
  intros Hp Hs Hne Hd. unfold finish_insert. eexists. split; [reflexivity|].
  destruct (UpdateFreeSpace_same_but (fsm_ h) b target
              (SlottedPage.GetFreeSpace (GetData b target)))
    as (Hp2 & Hs2 & Hn2 & Hd2).
  pose proof (UpdateFreeSpace_entry (fsm_ h) b target
                (SlottedPage.GetFreeSpace (GetData b target))) as Hentry.
  cbv zeta in Hentry.
  set (b2 := UpdateFreeSpace _ _ _ _) in *.
  assert (pins b2 !! target = Some 1%positive) as Hpin
    by (rewrite Hp2, Hp; apply lookup_singleton_eq).
  split_and!.
  - split.
    + rewrite (pins_UnpinPage_last b2 target true Hpin), Hp2, Hp.
      apply delete_singleton_eq.
    + destruct (UnpinPage_fields b2 target true) as [-> _]. by rewrite Hs2.
  - rewrite GetData_UnpinPage, Hd2 by done. exact Hd.
  - destruct (UnpinPage_fields b2 target true) as [_ ->]. exact Hn2.
  - destruct (UnpinPage_fields b2 target true) as [-> _]. exact Hs2.
  - intros H2 Hoff. unfold fsm_entry. rewrite GetData_UnpinPage.
    rewrite Hentry; [by rewrite Hd| |done].
    by apply (fetchable_second_frame b target).
Qed.

Lemma AllocateNewPage_idle b h :
  idle b ->
  fst (GetFSMLocation (fsm_ h) (next_page_id b)) ≠ next_page_id b ->
  ∃ b' h',
    AllocateNewPage b h = (Ok (next_page_id b), b', h')
    ∧ idle b' ∧ fsm_ h' = fsm_ h
    ∧ GetData b' (next_page_id b) = SlottedPage.fresh_page
    ∧ next_page_id b' = i32 (next_page_id b + 1)
    ∧ pool_size b' = pool_size b.
Proof.
  intros [Hp Hs] Hne. unfold AllocateNewPage, NewPage.
  assert (FindFreeFrame b = true) as ->.
  { unfold FindFreeFrame. apply bool_decide_eq_true.
    rewrite Hp, map_size_empty. lia. }
  set (n := next_page_id b) in *.
  set (b1 := mkBPM _ _ _ _).
  set (b2 := SetData b1 n _).
  destruct (UpdateFreeSpace_same_but (fsm_ h) b2 n
              (SlottedPage.GetFreeSpace (GetData b2 n)))
    as (Hp3 & Hs3 & Hn3 & Hd3).
  unfold RegisterNewPage.
  set (b3 := UpdateFreeSpace _ _ _ _) in *.
  assert (pins b3 !! n = Some 1%positive) as Hpin.
  { rewrite Hp3. cbn. rewrite Hp. apply lookup_insert_eq. }
  eexists _, _. split; [reflexivity|]. split_and!.
  - split.
    + rewrite (pins_UnpinPage_last b3 n true Hpin), Hp3. cbn. rewrite Hp.
      rewrite insert_empty. apply delete_singleton_eq.
    + destruct (UnpinPage_fields b3 n true) as [-> _]. by rewrite Hs3.
  - by destruct (max_page_id_ h <? n).
  - rewrite GetData_UnpinPage, Hd3 by done. unfold b2.
    rewrite GetData_SetData_eq.
    + apply Init_fresh. apply GetData_length.
    + rewrite (Init_fresh _ (GetData_length b1 n)).
      apply page_ok_fresh.
  - destruct (UnpinPage_fields b3 n true) as [_ ->]. by rewrite Hn3.
  - destruct (UnpinPage_fields b3 n true) as [-> _]. by rewrite Hs3.
Qed.

(** The slotted insert of [InsertRecord] on the pinned page [target]. *)
Lemma insert_at_target b h target data :
  idle b -> 0 < Z.of_nat (length data) <= 65531 ->
  page_ok (GetData b target) ->
  fst (GetFSMLocation (fsm_ h) target) ≠ target ->
  let r := SlottedPage.InsertRecord (GetData b target) data
             (Z.of_nat (length data)) in
  ∃ b1,
    FetchPage b target = (Some (GetData b target), b1)
    ∧ (fst r = -1 ->
       idle (UnpinPage (SetData b1 target (snd r)) target false)
       ∧ next_page_id (UnpinPage (SetData b1 target (snd r)) target false)
         = next_page_id b
       ∧ pool_size (UnpinPage (SetData b1 target (snd r)) target false)
         = pool_size b)
    ∧ (fst r ≠ -1 ->
       ∃ b',
         finish_insert (SetData b1 target (snd r)) h target (fst r)
         = (Ok (mkRid target (fst r)), b', h)
         ∧ idle b'
         ∧ next_page_id b' = next_page_id b
         ∧ pool_size b' = pool_size b
         ∧ stored (fsm_ h) (pool_size b) data (mkRid target (fst r)) b').
Proof.
  intros Hi Hlen Hok Hne r.
  destruct (idle_fetch b target Hi) as (b1 & E & Hu & Hw).
  destruct (idle_fetch_pins b target b1 Hi E) as (Hp1 & Hs1 & Hn1 & Hd1).
  exists b1. split; [exact E|]. split.
  - intros _. rewrite Hw. split; [by apply idle_SetData|done].
  - intros Hs.
    destruct (slotted_insert_get_facts (GetData b target) data (fst r) (snd r)
                Hok Hlen) as (Hok' & Hget & _); [apply surjective_pairing|done|].
    pose proof (insert_post (GetData b target) data (Z.of_nat (length data))
                  Hok ltac:(lia) (fst r) (snd r)) as Hpost.
    cbv zeta in Hpost.
    destruct Hpost as (_ & Hrange & _); [apply surjective_pairing|done|].
    pose proof (page_ok_slots _ Hok') as Hslots.
    destruct (finish_insert_idle (SetData b1 target (snd r)) h target (fst r)
                (snd r))
      as (b' & Hfin & Hi' & Hd' & Hn' & Hs' & Hfsm);
      [done|cbn; destruct Hi; lia|done| |].
    { apply GetData_SetData_eq. apply Hok'. }
    rewrite (u16_small (fst r)) in Hfin by lia.
    exists b'. split; [exact Hfin|]. split; [exact Hi'|].
    split; [by rewrite Hn'|]. split; [by rewrite Hs'|].
    unfold stored. cbn [page_id slot_id]. rewrite Hd'.
    split; [done|]. split; [done|].
    intros H2 Hoff. apply Hfsm; [|done]. cbn. by rewrite Hs1.
Qed.

End HeapRoundTrip.

Section HeapFlow.

Import FreeSpaceMap HeapFile.

(** The retry of [InsertRecord]: a new page, and the slotted insert on
    it. *)
Lemma retry_insert_flow b h data :
  let n := Z.of_nat (length data) in
  let t := next_page_id b in
  let s := fst (SlottedPage.InsertRecord SlottedPage.fresh_page data n) in
  idle b -> 0 < n <= 65531 ->
  fst (GetFSMLocation (fsm_ h) t) ≠ t ->
  ∃ b' h',
    retry_insert b h data n
    = (if s =? -1 then Throw "HeapFile: Record too large for a single page"
       else Ok (mkRid t s), b', h')
    ∧ idle b' ∧ fsm_ h' = fsm_ h
    ∧ next_page_id b' = i32 (t + 1)
    ∧ pool_size b' = pool_size b
    ∧ (s ≠ -1 -> stored (fsm_ h) (pool_size b) data (mkRid t s) b').
Proof.
  intros n t s Hi Hlen Hne. unfold retry_insert.
  destruct (AllocateNewPage_idle b h Hi Hne)
    as (b1 & h1 & -> & Hi1 & Hf1 & Hd1 & Hn1 & Hs1).
  fold t in Hd1, Hn1 |- *. rewrite <- Hf1 in Hne.
  destruct (insert_at_target b1 h1 t data Hi1 Hlen)
    as (b2 & -> & Hbad & Hgood); [rewrite Hd1; apply page_ok_fresh|done|].
  cbv zeta in Hbad, Hgood. rewrite Hd1 in Hbad, Hgood |- *.
  fold n in Hbad, Hgood |- *. fold s in Hbad, Hgood.
  assert (SlottedPage.InsertRecord SlottedPage.fresh_page data n
          = (s, snd (SlottedPage.InsertRecord SlottedPage.fresh_page data n)))
    as -> by apply surjective_pairing.
  destruct (s =? -1) eqn:Es.
  - apply Z.eqb_eq in Es. destruct (Hbad Es) as (Hi2 & Hn2 & Hs2).
    eexists _, _. split; [reflexivity|].
    split_and!; [done|done|congruence|congruence|done].
  - apply Z.eqb_neq in Es.
    destruct (Hgood Es) as (b3 & -> & Hi3 & Hn3 & Hs3 & Hst).
    exists b3, h1.
    split_and!; [done|done|done|congruence|congruence|].
    intros _. by rewrite <- Hf1, <- Hs1.
Qed.

(** [InsertRecord] from the fetch of its target page on. *)
Lemma insert_from_target_flow b h target data :
  let n := Z.of_nat (length data) in
  let t := next_page_id b in
  let s1 := fst (SlottedPage.InsertRecord (GetData b target) data n) in
  let s2 := fst (SlottedPage.InsertRecord SlottedPage.fresh_page data n) in
  let result :=
    if s1 =? -1
    then if s2 =? -1
         then Throw "HeapFile: Record too large for a single page"
         else Ok (mkRid t s2)
    else Ok (mkRid target s1) in
  idle b -> 0 < n <= 65531 ->
  page_ok (GetData b target) ->
  fst (GetFSMLocation (fsm_ h) target) ≠ target ->
  fst (GetFSMLocation (fsm_ h) t) ≠ t ->
  ∃ b' h',
    match FetchPage b target with
    | (None, b) =>
        (Throw ("HeapFile: Failed to fetch page " +:+ to_string target), b, h)
    | (Some page, b) =>
        let '(slot_id, page) := SlottedPage.InsertRecord page data n in
        let b := SetData b target page in
        if slot_id =? -1 then
          let b := UnpinPage b target false in
          retry_insert b h data n
        else finish_insert b h target slot_id
    end = (result, b', h')
    ∧ idle b' ∧ fsm_ h' = fsm_ h
    ∧ pool_size b' = pool_size b
    ∧ next_page_id b' = (if s1 =? -1 then i32 (t + 1) else t)
    ∧ ∀ rid, result = Ok rid -> stored (fsm_ h) (pool_size b) data rid b'.
Proof.
  intros n t s1 s2 result Hi Hlen Hok Hne Hnew.
  destruct (insert_at_target b h target data Hi Hlen Hok Hne)
    as (b1 & -> & Hbad & Hgood).
  cbv zeta in Hbad, Hgood. fold n in Hbad, Hgood. fold s1 in Hbad, Hgood.
  assert (SlottedPage.InsertRecord (GetData b target) data n
          = (s1, snd (SlottedPage.InsertRecord (GetData b target) data n)))
    as E by apply surjective_pairing.
  rewrite E. unfold result. cbv zeta.
  destruct (s1 =? -1) eqn:Es.
  - apply Z.eqb_eq in Es. destruct (Hbad Es) as (Hi2 & Hn2 & Hs2).
    set (b2 := UnpinPage _ _ _) in *.
    destruct (retry_insert_flow b2 h data Hi2 Hlen)
      as (b' & h' & Hr & Hi' & Hf' & Hn' & Hs' & Hst);
      [by rewrite Hn2|].
    cbv zeta in Hr, Hst. rewrite Hn2 in Hr, Hst, Hn'. fold t n s2 in Hr, Hst, Hn'.
    exists b', h'. split; [exact Hr|].
    split_and!; [done|done|congruence|done|].
    intros rid Hrid. destruct (s2 =? -1) eqn:Es2; [done|].
    apply Z.eqb_neq in Es2. injection Hrid as <-.
    rewrite <- Hs2. by apply Hst.
  - apply Z.eqb_neq in Es.
    destruct (Hgood Es) as (b3 & -> & Hi3 & Hn3 & Hs3 & Hst).
    exists b3, h. split_and!; [done|done|done|done|done|].
    by intros rid [= <-].
Qed.

(** [InsertRecord], whichever way it takes. *)
Lemma insert_bytes_flow b h data :
  let n := Z.of_nat (length data) in
  let cand := fst (FindPageWithSpace (fsm_ h) b (n + 4)) in
  let t := next_page_id b in
  let first := if cand =? INVALID_PAGE_ID then t else cand in
  let second := if cand =? INVALID_PAGE_ID then i32 (t + 1) else t in
  let page1 :=
    if cand =? INVALID_PAGE_ID then SlottedPage.fresh_page
    else GetData b cand in
  let s1 := fst (SlottedPage.InsertRecord page1 data n) in
  let s2 := fst (SlottedPage.InsertRecord SlottedPage.fresh_page data n) in
  let result :=
    if s1 =? -1
    then if s2 =? -1
         then Throw "HeapFile: Record too large for a single page"
         else Ok (mkRid second s2)
    else Ok (mkRid first s1) in
  idle b -> 0 < n <= 65531 ->
  (cand ≠ INVALID_PAGE_ID -> page_ok (GetData b cand)) ->
  fst (GetFSMLocation (fsm_ h) first) ≠ first ->
  fst (GetFSMLocation (fsm_ h) second) ≠ second ->
  ∃ b' h',
    insert_bytes b h data = (result, b', h')
    ∧ idle b' ∧ fsm_ h' = fsm_ h
    ∧ pool_size b' = pool_size b
    ∧ next_page_id b' = (if s1 =? -1 then i32 (second + 1) else second)
    ∧ ∀ rid, result = Ok rid -> stored (fsm_ h) (pool_size b) data rid b'.
Proof.
  intros n cand t first second page1 s1 s2 result Hi Hlen Hcand H1 H2.
  unfold insert_bytes.
  rewrite (u16_small (Z.of_nat (length data))) by lia.
  change (Z.of_nat SlottedPage.SLOT_ENTRY_SIZE) with 4.
  rewrite (u16_small (Z.of_nat (length data) + 4)) by lia.
  fold n.
  assert (FindPageWithSpace (fsm_ h) b (n + 4) = (cand, b)) as ->.
  { unfold cand. rewrite FindPageWithSpace_eq by (by apply idle_fetchable).
    done. }
  unfold result, s1, page1, first, second in *. clear result s1 page1.
  destruct (cand =? INVALID_PAGE_ID) eqn:Ec.
  - destruct (AllocateNewPage_idle b h Hi H1)
      as (b1 & h1 & -> & Hi1 & Hf1 & Hd1 & Hn1 & Hs1).
    fold t in Hd1, Hn1 |- *.
    destruct (insert_from_target_flow b1 h1 t data Hi1 Hlen)
      as (b' & h' & Hr & Hi' & Hf' & Hs' & Hn' & Hst).
    + rewrite Hd1. apply page_ok_fresh.
    + by rewrite Hf1.
    + by rewrite Hf1, Hn1.
    + cbv zeta in Hr, Hn', Hst. rewrite Hd1, Hn1 in Hr, Hn', Hst.
      fold n in Hr, Hn', Hst. fold s2 in Hr, Hn', Hst.
      exists b', h'. split; [exact Hr|].
      split_and!; [done|congruence|congruence|done|].
      intros rid Hrid. rewrite <- Hf1, <- Hs1. by apply Hst.
  - apply Z.eqb_neq in Ec.
    destruct (insert_from_target_flow b h cand data Hi Hlen (Hcand Ec) H1 H2)
      as (b' & h' & Hr & Hi' & Hf' & Hs' & Hn' & Hst).
    cbv zeta in Hr, Hn', Hst. fold n t in Hr, Hn', Hst.
    fold s2 in Hr, Hn', Hst.
    exists b', h'. by split_and!.
Qed.

Lemma GetRecord_idle fuel b rid :
  idle b ->
  GetRecord fuel b rid
  = match SlottedPage.GetRecord (GetData b (page_id rid)) (slot_id rid) with
    | None =>
        (Throw ("HeapFile: Record not found at "
                +:+ to_string (page_id rid) +:+ ":"
                +:+ to_string (slot_id rid)), b)
    | Some data =>
        let doc := Bson.Deserialize fuel data (Z.of_nat (length data)) in
        (doc,
         match doc with
         | Ok _ => b
         | _ => snd (FetchPage b (page_id rid))
         end)
    end.
Proof.
  intros Hi. unfold GetRecord.
  destruct (idle_fetch b (page_id rid) Hi) as (b1 & -> & Hu & _).
  destruct (SlottedPage.GetRecord _ _); [|by rewrite Hu].
  cbv zeta. cbn [snd].
  by destruct (Bson.Deserialize _ _ _); rewrite ?Hu.
Qed.

(** What [GetRecord] returns, apart from the pool. *)
Lemma GetRecord_idle_fst fuel b rid :
  idle b ->
  fst (GetRecord fuel b rid)
  = match SlottedPage.GetRecord (GetData b (page_id rid)) (slot_id rid) with
    | None =>
        Throw ("HeapFile: Record not found at "
               +:+ to_string (page_id rid) +:+ ":"
               +:+ to_string (slot_id rid))
    | Some data => Bson.Deserialize fuel data (Z.of_nat (length data))
    end.
Proof.
  intros Hi. rewrite (GetRecord_idle fuel b rid Hi).
  by destruct (SlottedPage.GetRecord _ _).
Qed.

Lemma pair_fst {A B : Type} (x : A) (y : B) : fst (x, y) = x.
Proof. reflexivity. Qed.

Lemma DeleteRecord_idle b h rid :
  idle b ->
  length (snd (SlottedPage.DeleteRecord (GetData b (page_id rid))
                 (slot_id rid))) = PAGE_SIZE ->
  fst (GetFSMLocation (fsm_ h) (page_id rid)) ≠ page_id rid ->
  ∃ b',
    DeleteRecord b h rid
    = (fst (SlottedPage.DeleteRecord (GetData b (page_id rid)) (slot_id rid)),
       b')
    ∧ idle b'
    ∧ GetData b' (page_id rid)
      = snd (SlottedPage.DeleteRecord (GetData b (page_id rid)) (slot_id rid)).
Proof.
  intros Hi Hlen Hne. unfold DeleteRecord.
  destruct (idle_fetch b (page_id rid) Hi) as (b1 & E & Hu & Hw).
  destruct (idle_fetch_pins b _ b1 Hi E) as (Hp1 & Hs1 & Hn1 & Hd1).
  rewrite E.
  destruct (SlottedPage.DeleteRecord (GetData b (page_id rid)) (slot_id rid))
    as [ok page'].
  cbn [fst snd] in *. cbv zeta.
  set (b2 := SetData b1 (page_id rid) page').
  set (b3 := if ok then _ else b2).
  assert (same_but (fst (GetFSMLocation (fsm_ h) (page_id rid))) b2 b3)
    as (Hp3 & Hs3 & Hn3 & Hd3).
  { unfold b3. destruct ok; [apply UpdateFreeSpace_same_but|].
    apply same_but_refl. }
  assert (pins b3 !! page_id rid = Some 1%positive) as Hpin.
  { rewrite Hp3. cbn. rewrite Hp1. apply lookup_singleton_eq. }
  eexists. split; [reflexivity|]. split; [split|].
  - rewrite (pins_UnpinPage_last b3 _ ok Hpin), Hp3. cbn. rewrite Hp1.
    apply delete_singleton_eq.
  - destruct (UnpinPage_fields b3 (page_id rid) ok) as [-> _].
    rewrite Hs3. cbn. rewrite Hs1. apply Hi.
  - rewrite GetData_UnpinPage, Hd3 by done. unfold b2.
    by apply GetData_SetData_eq.
Qed.

Lemma Serialize_length doc : (5 <= length (Bson.Serialize doc))%nat.
Proof.
  rewrite Serialize_eq, !length_app, length_le_bytes. cbn [length]. lia.
Qed.

End HeapFlow.







(** X23.  A document is read back where the heap file put it.  The pool
    has no page pinned; the document is well formed (as for the serializer
    round trip) and its record has at most 65531 bytes; if the FSM names a
    candidate page, that page is a well-formed slotted page and is not its
    own FSM page; the next two page ids are not their own FSM pages.
    Then, whichever way [InsertRecord] takes (candidate page, fresh page,
    or fresh page after a stale candidate), if it returns a record id,
    [GetRecord] on that id returns the document, the page is still a
    well-formed slotted page, and no page is left pinned. *)
Theorem heap_insert_then_get b h doc rid b' h' fuel :
  let n := Z.of_nat (length (Bson.Serialize doc)) in
  let cand :=
    fst (FreeSpaceMap.FindPageWithSpace (HeapFile.fsm_ h) b (n + 4)) in
  idle b -> doc_ok doc = true -> n <= 65531 ->
  (length (Bson.Serialize doc) <= fuel)%nat ->
  (cand ≠ INVALID_PAGE_ID ->
   page_ok (GetData b cand)
   ∧ fst (FreeSpaceMap.GetFSMLocation (HeapFile.fsm_ h) cand) ≠ cand) ->
  (∀ p, p = next_page_id b ∨ p = i32 (next_page_id b + 1) ->
     fst (FreeSpaceMap.GetFSMLocation (HeapFile.fsm_ h) p) ≠ p) ->
  HeapFile.InsertRecord b h doc = (Ok rid, b', h') ->
  HeapFile.GetRecord fuel b' rid = (Ok doc, b')
  ∧ idle b'
  ∧ page_ok (GetData b' (page_id rid))
  ∧ HeapFile.fsm_ h' = HeapFile.fsm_ h.
Proof.
  intros n cand Hi Hdoc Hlen Hfuel Hcand Hnew Hins.
  pose proof (Serialize_length doc) as Hpos.
  assert (0 < n <= 65531) as Hn by (unfold n; lia).
  destruct (insert_bytes_flow b h (Bson.Serialize doc) Hi Hn)
    as (b0 & h0 & Hr & Hi' & Hf' & _ & _ & Hst).
  - intros Hc. by apply Hcand.
  - fold n cand. destruct (cand =? INVALID_PAGE_ID) eqn:Ec.
    + apply Hnew. by left.
    + apply Z.eqb_neq in Ec. by apply Hcand.
  - fold n cand. destruct (cand =? INVALID_PAGE_ID) eqn:Ec.
    + apply Hnew. by right.
    + apply Hnew. by left.
  - unfold HeapFile.InsertRecord in Hins. rewrite Hins in Hr.
    injection Hr as Hres <- <-. symmetry in Hres.
    destruct (Hst rid Hres) as (Hok & Hget & _).
    split; [|by split_and!].
    rewrite (GetRecord_idle fuel b' rid Hi'), Hget. cbv zeta.
    change (Bson.Deserialize fuel (Bson.Serialize doc)
              (Z.of_nat (length (Bson.Serialize doc))))
      with (Bson.DeserializeVec fuel (Bson.Serialize doc)).
    rewrite (Serialize_Deserialize doc fuel Hdoc ltac:(fold n; lia) Hfuel).
    done.
Qed.

Lemma heap_insert_then_get_witness :
  let b := fst Scenario.users in
  let h := snd Scenario.users in
  let r := HeapFile.InsertRecord b h Scenario.doc_alice in
  fst (fst r) = Ok (mkRid 2 0)
  ∧ HeapFile.GetRecord 64 (snd (fst r)) (mkRid 2 0)
    = (Ok Scenario.doc_alice, snd (fst r)).
Proof.
  cbv zeta. split; [vm_compute; reflexivity|].
  refine (proj1 (heap_insert_then_get (fst Scenario.users) (snd Scenario.users)
                   Scenario.doc_alice (mkRid 2 0)
                   _ (snd (HeapFile.InsertRecord (fst Scenario.users)
                             (snd Scenario.users) Scenario.doc_alice))
                   64 _ _ _ _ _ _ _)).
  - split; [vm_compute; reflexivity|vm_compute; lia].
  - vm_compute. reflexivity.
  - by vm_compute.
  - vm_compute. lia.
  - intros _. split; [apply page_okb_ok|]; vm_compute; [reflexivity|discriminate].
  - intros p [->| ->]; vm_compute; discriminate.
  - vm_compute. reflexivity.
Defined.

(** X24.  Deletion in the heap file.  The pool has no page pinned, the
    page of the record id is a well-formed slotted page and is not its own
    FSM page.  [DeleteRecord] returns true exactly when the slot held a
    record; afterwards [GetRecord] on the id fails with "Record not found
    at" followed by the page and the slot, every other slot of the page
    gives what it gave before, a second [DeleteRecord] returns false, and
    no page is left pinned. *)
Theorem heap_delete_then_get b h rid :
  idle b -> page_ok (GetData b (page_id rid)) -> 0 <= slot_id rid ->
  fst (FreeSpaceMap.GetFSMLocation (HeapFile.fsm_ h) (page_id rid))
  ≠ page_id rid ->
  ∃ b',
    HeapFile.DeleteRecord b h rid
    = (bool_decide
         (is_Some (SlottedPage.GetRecord (GetData b (page_id rid))
                     (slot_id rid))), b')
    ∧ idle b'
    ∧ page_ok (GetData b' (page_id rid))
    ∧ (∀ fuel,
         HeapFile.GetRecord fuel b' rid
         = (Throw ("HeapFile: Record not found at "
                   +:+ to_string (page_id rid) +:+ ":"
                   +:+ to_string (slot_id rid)), b'))
    ∧ (∀ fuel s, 0 <= s -> s ≠ slot_id rid ->
         fst (HeapFile.GetRecord fuel b' (mkRid (page_id rid) s))
         = fst (HeapFile.GetRecord fuel b (mkRid (page_id rid) s)))
    ∧ fst (HeapFile.DeleteRecord b' h rid) = false.
Proof.
  intros Hi Hok Hs Hne.
  destruct (slotted_delete_facts _ (slot_id rid) Hok Hs)
    as (Hok' & Hiff & Hgone & _ & _ & Hothers).
  destruct (DeleteRecord_idle b h rid Hi) as (b' & Hdel & Hi' & Hd');
    [apply Hok'|done|].
  assert (page_ok (GetData b' (page_id rid))) as Hok2 by (by rewrite Hd').
  destruct (slotted_delete_facts _ (slot_id rid) Hok2 Hs)
    as (Hok3 & Hiff3 & _).
  destruct (DeleteRecord_idle b' h rid Hi') as (b3 & Hdel3 & _);
    [apply Hok3|done|].
  rewrite Hd' in Hiff3. rewrite Hgone in Hiff3.
  exists b'. split.
  { rewrite Hdel. f_equal.
    destruct (fst (SlottedPage.DeleteRecord (GetData b (page_id rid))
                     (slot_id rid))) eqn:E.
    - symmetry. apply bool_decide_eq_true. by apply Hiff.
    - symmetry. apply bool_decide_eq_false. intros H. apply Hiff in H.
      congruence. }
  split; [exact Hi'|]. split; [exact Hok2|]. split.
  { intros fuel. rewrite (GetRecord_idle fuel b' rid Hi'), Hd', Hgone.
    reflexivity. }
  split.
  { intros fuel s Hs0 Hdiff.
    rewrite (GetRecord_idle_fst fuel b' _ Hi'),
      (GetRecord_idle_fst fuel b _ Hi).
    cbn [page_id slot_id]. rewrite Hd', (Hothers s Hs0 Hdiff).
    reflexivity. }
  rewrite Hdel3, pair_fst, Hd'.
  apply not_true_is_false. intros E. apply Hiff3 in E.
  destruct E as [x E]. discriminate E.
Qed.

Lemma heap_delete_then_get_witness :
  let b := snd (fst (HeapFile.InsertRecord (fst Scenario.users)
                       (snd Scenario.users) Scenario.doc_alice)) in
  let h := snd Scenario.users in
  ∃ b',
    HeapFile.DeleteRecord b h (mkRid 2 0) = (true, b')
    ∧ HeapFile.GetRecord 64 b' (mkRid 2 0)
      = (Throw "HeapFile: Record not found at 2:0", b').
Proof.
  intros b h.
  assert (idle b) as Hi by (split; [vm_compute; reflexivity|vm_compute; lia]).
  assert (page_ok (GetData b 2)) as Hok
    by (apply page_okb_ok; vm_compute; reflexivity).
  assert (fst (FreeSpaceMap.GetFSMLocation (HeapFile.fsm_ h) 2) ≠ 2) as Hne
    by (vm_compute; discriminate).
  assert (is_Some (SlottedPage.GetRecord (GetData b 2) 0)) as Hsome
    by (vm_compute; eauto).
  destruct (heap_delete_then_get b h (mkRid 2 0) Hi Hok ltac:(done) Hne)
    as (b' & Hdel & _ & _ & Hget & _).
  exists b'. split; [|exact (Hget 64%nat)].
  by rewrite Hdel, (bool_decide_eq_true_2 _ Hsome).
Defined.

(** ** Buffer pool: the frames implement the pin-count view *)

Section FramesBasics.

Import Frames.

Lemma elem_of_Pin lru f x : x ∈ Pin lru f ↔ x ∈ lru ∧ x ≠ f.
Proof. unfold Pin. rewrite list_elem_of_filter. tauto. Qed.

Lemma NoDup_Pin lru f : NoDup lru -> NoDup (Pin lru f).
Proof. apply NoDup_filter. Qed.

Lemma Pin_notin lru f : f ∉ lru -> Pin lru f = lru.
Proof.
  intros H. unfold Pin. induction lru as [|x lru IH]; [done|].
  apply not_elem_of_cons in H as [H1 H2].
  rewrite filter_cons, decide_True by congruence. by rewrite IH.
Qed.

Lemma length_Pin lru f :
  NoDup lru -> f ∈ lru -> S (length (Pin lru f)) = length lru.
Proof.
  unfold Pin. induction 1 as [|x lru Hx Hnd IH]; intros Hin.
  - by apply elem_of_nil in Hin.
  - rewrite filter_cons. destruct (decide (x ≠ f)) as [Hne|Heq].
    + apply elem_of_cons in Hin as [->|Hin]; [done|].
      cbn [length]. by rewrite IH.
    + assert (x = f) as -> by (by destruct (decide (x = f))).
      fold (Pin lru f). by rewrite Pin_notin.
Qed.

Lemma Victim_nil : Victim [] = (None, []).
Proof. reflexivity. Qed.

Lemma Victim_snoc lru f : Victim (lru ++ [f]) = (Some f, lru).
Proof. unfold Victim. by rewrite last_snoc, removelast_last. Qed.

Lemma list_snoc_cases {A} (l : list A) : l = [] ∨ ∃ l' x, l = l' ++ [x].
Proof.
  induction l as [|x l _] using rev_ind; [by left|right; eauto].
Qed.

Lemma length_set_frame b f pg :
  length (pages_ (set_frame b f pg)) = length (pages_ b).
Proof. apply length_insert. Qed.

Lemma frame_set_frame b f pg f' :
  (f < length (pages_ b))%nat ->
  frame (set_frame b f pg) f' = if decide (f = f') then pg else frame b f'.
Proof.
  intros Hlt. unfold frame, set_frame. cbn [pages_ with_pages].
  destruct (decide (f = f')) as [<-|Hne].
  - by rewrite list_lookup_insert_eq.
  - by rewrite list_lookup_insert_ne.
Qed.

Lemma pins_of_lookup b p :
  pins_of b !! p
  = match page_table_ b !! p with
    | Some f =>
        if 0 <? pin_count_ (frame b f)
        then Some (Z.to_pos (pin_count_ (frame b f))) else None
    | None => None
    end.
Proof.
  unfold pins_of. rewrite lookup_omap.
  by destruct (page_table_ b !! p).
Qed.

(** A frame belongs to one page at most. *)
Lemma table_inj b p1 p2 f :
  pool_inv b -> page_table_ b !! p1 = Some f -> page_table_ b !! p2 = Some f ->
  p1 = p2.
Proof.
  intros Hinv H1 H2.
  destruct (inv_table b Hinv p1 f H1) as (_ & E1 & _).
  destruct (inv_table b Hinv p2 f H2) as (_ & E2 & _). congruence.
Qed.

Lemma free_not_resident b f p :
  pool_inv b -> f ∈ free_list_ b -> page_table_ b !! p ≠ Some f.
Proof.
  intros Hinv Hin Hp.
  destruct (inv_free b Hinv) as [_ Hfree].
  destruct (Hfree f Hin) as [_ Hblank].
  destruct (inv_table b Hinv p f Hp) as (_ & E & Hrange).
  rewrite Hblank in E. cbn in E. unfold INVALID_PAGE_ID in E. lia.
Qed.

Lemma free_not_lru b f :
  pool_inv b -> f ∈ free_list_ b -> f ∉ replacer_ b.
Proof.
  intros Hinv Hin Hl.
  destruct (inv_lru b Hinv) as [_ Hlru].
  destruct (Hlru f Hl) as (_ & _ & Hres).
  by apply (free_not_resident b f (page_id_ (frame b f)) Hinv Hin).
Qed.

Lemma pinned_not_listed b f :
  pool_inv b -> (0 < pin_count_ (frame b f)) ->
  (f ∉ free_list_ b) ∧ (f ∉ replacer_ b).
Proof.
  intros Hinv Hpin.
  destruct (inv_free b Hinv) as [_ Hfree].
  destruct (inv_lru b Hinv) as [_ Hlru].
  split; intros Hin.
  - destruct (Hfree f Hin) as [_ E]. rewrite E in Hpin. cbn in Hpin. lia.
  - destruct (Hlru f Hin) as (_ & E & _). lia.
Qed.

End FramesBasics.

Section FramesInstall.

Import Frames.

Lemma FindFreeFrame_spec b :
  pool_inv b ->
  match FindFreeFrame b with
  | (None, b1) => b1 = b ∧ free_list_ b = [] ∧ replacer_ b = []
  | (Some f, b1) => in_hand b b1 f
  end.
Proof.
  intros Hinv. unfold FindFreeFrame.
  destruct (inv_free b Hinv) as [Hnf Hfree].
  destruct (inv_lru b Hinv) as [Hnl Hlru].
  destruct (free_list_ b) as [|f rest] eqn:Ef.
  - destruct (list_snoc_cases (replacer_ b)) as [El|(lru & f & El)].
    + rewrite El. cbn. split; [|done]. destruct b; cbn in *. by subst.
    + rewrite El, Victim_snoc. rewrite El in Hnl, Hlru.
      apply NoDup_app in Hnl as (Hn1 & Hn2 & _).
      assert (f ∉ lru) as Hnot.
      { intros Hin. apply (Hn2 f Hin). apply list_elem_of_singleton. done. }
      destruct (Hlru f) as (Hlt & Hpin & _);
        [apply elem_of_app; right; by apply list_elem_of_singleton|].
      unfold in_hand. cbn [pages_ page_table_ disk_manager_ free_list_
                           replacer_ with_replacer].
      rewrite Ef, El. split_and!; try done.
      * apply not_elem_of_nil.
      * intros x. split; [by intros ?%elem_of_nil|by intros [?%elem_of_nil _]].
      * intros x. split.
        -- intros Hx. split; [apply elem_of_app; by left|]. by intros ->.
        -- intros [Hx Hne]. apply elem_of_app in Hx as [Hx|Hx]; [done|].
           apply list_elem_of_singleton in Hx. done.
      * rewrite length_app. cbn. lia.
  - apply NoDup_cons in Hnf as [Hnot Hnf].
    destruct (Hfree f) as [Hlt Hblank]; [apply elem_of_cons; by left|].
    assert (f ∉ replacer_ b) as Hnl'.
    { intros Hin. apply (free_not_lru b f Hinv); [|done].
      rewrite Ef. apply elem_of_cons. by left. }
    unfold in_hand. cbn [pages_ page_table_ disk_manager_ free_list_
                         replacer_ with_free].
    rewrite Ef. split_and!; try done.
    + by rewrite Hblank.
    + intros x. split.
      * intros Hx. split; [apply elem_of_cons; by right|]. by intros ->.
      * intros [Hx Hne]. apply elem_of_cons in Hx as [->|Hx]; done.
    + intros x. split; [|by intros [Hx _]].
      intros Hx. split; [done|]. by intros ->.
Qed.

End FramesInstall.

Section Install.

Import Frames.

Variables (b b1 : BufferPoolManager) (f : nat) (p next : Z) (data : list Z).
Hypothesis Hinv : pool_inv b.
Hypothesis Hhand : in_hand b b1 f.
Hypothesis Hp : 0 <= p.
Hypothesis Hmiss : page_table_ b !! p = None.
Hypothesis Hdata : length data = PAGE_SIZE.

Let q := page_id_ (frame b f).
Let b3 := installed b b1 f p next data.

Lemma hand_lt : (f < length (pages_ b))%nat.
Proof. by destruct Hhand as (_ & _ & _ & H & _). Qed.

Lemma hand_unpinned : pin_count_ (frame b f) = 0.
Proof. by destruct Hhand as (_ & _ & _ & _ & H & _). Qed.

Lemma hand_owner x : page_table_ b !! q = Some x -> x = f.
Proof.
  intros Hq.
  destruct (inv_frames b Hinv f hand_lt) as (_ & _ & Hlist & _).
  destruct (Hlist hand_unpinned) as [Hfree|Hlru].
  - destruct (inv_free b Hinv) as [_ Hf].
    destruct (Hf f Hfree) as [_ Hblank].
    destruct (inv_table b Hinv q x Hq) as (_ & _ & Hrange).
    unfold q in Hrange. rewrite Hblank in Hrange. cbn in Hrange.
    unfold INVALID_PAGE_ID in Hrange. lia.
  - destruct (inv_lru b Hinv) as [_ Hl].
    destruct (Hl f Hlru) as (_ & _ & Hres). fold q in Hres. congruence.
Qed.

Lemma hand_dirty :
  is_dirty_ (frame b f) = true -> page_table_ b !! q = Some f.
Proof.
  intros Hd. destruct (inv_frames b Hinv f hand_lt) as (_ & _ & _ & Hres).
  apply Hres. by right.
Qed.

Lemma installed_frame x :
  frame b3 x = if decide (f = x) then mkPage data p 1 false else frame b x.
Proof.
  unfold b3, installed, frame. cbn [pages_].
  destruct (decide (f = x)) as [<-|Hne].
  - rewrite list_lookup_insert_eq; [done|apply hand_lt].
  - by rewrite list_lookup_insert_ne.
Qed.

Lemma installed_table_old p' x :
  page_table_ b3 !! p' = Some x -> p' ≠ p ->
  page_table_ b !! p' = Some x ∧ x ≠ f ∧ p' ≠ q.
Proof.
  unfold b3, installed. cbn [page_table_]. intros Hl Hne.
  rewrite lookup_insert_ne in Hl by done.
  apply lookup_delete_Some in Hl as [Hq Hl]. fold q in Hq.
  split_and!; [done| |done].
  intros ->. destruct (inv_table b Hinv p' f Hl) as (_ & E & _).
  fold q in E. congruence.
Qed.

Lemma installed_table_new : page_table_ b3 !! p = Some f.
Proof. unfold b3, installed. cbn [page_table_]. by rewrite lookup_insert_eq. Qed.

Lemma installed_table_keep p' x :
  x ≠ f -> page_table_ b !! p' = Some x -> page_table_ b3 !! p' = Some x.
Proof.
  intros Hne Hl. unfold b3, installed. cbn [page_table_].
  rewrite lookup_insert_ne by congruence.
  rewrite lookup_delete_ne; [done|].
  fold q. intros <-. by apply Hne, hand_owner.
Qed.

Lemma installed_table_None p' :
  p' ≠ p -> page_table_ b3 !! p' = None ->
  page_table_ b !! p' = None ∨ (p' = q ∧ page_table_ b !! q = Some f).
Proof.
  unfold b3, installed. cbn [page_table_]. intros Hne Hl.
  rewrite lookup_insert_ne in Hl by done.
  apply lookup_delete_None in Hl as [Hq|Hl]; [|by left].
  fold q in Hq. subst p'.
  destruct (page_table_ b !! q) as [x|] eqn:E; [|by left].
  right. split; [done|]. by rewrite (hand_owner x E).
Qed.

Lemma installed_file p' :
  p' ≠ q ∨ is_dirty_ (frame b f) = false ->
  file_ (disk_manager_ b3) !! p' = file_ (disk_manager_ b) !! p'.
Proof.
  unfold b3, installed, evict_file. cbn [disk_manager_ file_].
  intros [Hne|Hclean].
  - destruct (is_dirty_ (frame b f)); [|done].
    fold q. by rewrite lookup_insert_ne.
  - by rewrite Hclean.
Qed.

Lemma installed_pins : pins_of b3 = <[p := 1%positive]> (pins_of b).
Proof.
  apply map_eq. intros p'. rewrite pins_of_lookup.
  destruct (decide (p' = p)) as [->|Hne].
  - rewrite lookup_insert_eq, installed_table_new, installed_frame.
    by rewrite decide_True.
  - rewrite lookup_insert_ne by done. rewrite pins_of_lookup.
    destruct (page_table_ b3 !! p') as [x|] eqn:E.
    + destruct (installed_table_old p' x E Hne) as (Hl & Hx & _).
      rewrite Hl, installed_frame. by rewrite decide_False.
    + destruct (installed_table_None p' Hne E) as [->|[-> ->]]; [done|].
      by rewrite hand_unpinned.
Qed.

Lemma installed_observe p' : p' ≠ p -> observe b3 p' = observe b p'.
Proof.
  intros Hne. unfold observe.
  destruct (page_table_ b3 !! p') as [x|] eqn:E.
  - destruct (installed_table_old p' x E Hne) as (Hl & Hx & _).
    rewrite Hl, installed_frame. by rewrite decide_False.
  - destruct (installed_table_None p' Hne E) as [Hl|[-> Hl]]; rewrite Hl.
    + rewrite installed_file; [done|].
      destruct (is_dirty_ (frame b f)) eqn:Ed; [left|by right].
      intros ->. rewrite hand_dirty in Hl; done.
    + destruct (is_dirty_ (frame b f)) eqn:Ed.
      * unfold b3, installed, evict_file. cbn [disk_manager_ file_].
        rewrite Ed. fold q. by rewrite lookup_insert_eq.
      * rewrite installed_file by (by right).
        symmetry. apply (inv_clean b Hinv q f Hl Ed hand_unpinned).
Qed.

Lemma installed_observe_new : observe b3 p = data.
Proof.
  unfold observe. rewrite installed_table_new, installed_frame.
  by rewrite decide_True.
Qed.

Lemma installed_inv : pool_inv b3.
Proof.
  destruct Hhand as (_ & _ & _ & Hlt & Hpin & Hnf & Hnl & Hdf & Hdl
                     & Hfree & Hlru & Hcount).
  assert (length (pages_ b3) = length (pages_ b)) as Hlen.
  { unfold b3, installed. cbn [pages_]. apply length_insert. }
  split.
  - intros p' x Hl. rewrite Hlen, installed_frame.
    destruct (decide (p' = p)) as [->|Hne].
    + rewrite installed_table_new in Hl. injection Hl as <-.
      rewrite decide_True by done. cbn. done.
    + destruct (installed_table_old p' x Hl Hne) as (Hl' & Hx & _).
      destruct (inv_table b Hinv p' x Hl') as (? & ? & ?).
      rewrite decide_False by done. split_and!; [done|done|lia].
  - split; [done|]. intros x Hx. apply Hfree in Hx as [Hx Hne].
    rewrite Hlen, installed_frame, decide_False by done.
    by apply (inv_free b Hinv).
  - split; [by apply NoDup_Pin|]. intros x Hx.
    apply elem_of_Pin in Hx as [Hx Hne]. apply Hlru in Hx as [Hx _].
    destruct (inv_lru b Hinv) as [_ Hl]. destruct (Hl x Hx) as (? & ? & Hres).
    rewrite Hlen, installed_frame, decide_False by done.
    split_and!; [done|done|]. by apply installed_table_keep.
  - intros x Hx. rewrite Hlen in Hx. rewrite installed_frame.
    destruct (decide (f = x)) as [<-|Hne].
    + cbn. split_and!; [done|lia|lia|lia|]. intros _. apply installed_table_new.
    + destruct (inv_frames b Hinv x Hx) as (? & ? & Hlist & Hres).
      split_and!; [done|lia|lia| |].
      * intros Hz. destruct (Hlist Hz) as [Hin|Hin]; [left|right].
        -- apply Hfree. split; [done|congruence].
        -- apply elem_of_Pin. split; [|congruence].
           apply Hlru. split; [done|congruence].
      * intros Hz. apply installed_table_keep; [congruence|by apply Hres].
  - intros p' x Hl. rewrite installed_frame.
    destruct (decide (f = x)) as [<-|Hne]; [cbn; lia|].
    intros Hclean Hz.
    destruct (decide (p' = p)) as [->|Hnp].
    { rewrite installed_table_new in Hl. congruence. }
    destruct (installed_table_old p' x Hl Hnp) as (Hl' & _ & Hq).
    rewrite installed_file by (by left).
    by apply (inv_clean b Hinv).
  - intros p' d Hl.
    destruct (decide (p' = q ∧ is_dirty_ (frame b f) = true)) as [[-> Ed]|Hno].
    + unfold b3, installed, evict_file in Hl. cbn [disk_manager_ file_] in Hl.
      rewrite Ed in Hl. fold q in Hl. rewrite lookup_insert_eq in Hl.
      injection Hl as <-.
      destruct (inv_frames b Hinv f Hlt) as (? & _).
      destruct (inv_table b Hinv q f (hand_dirty Ed)) as (_ & _ & ?).
      split; [done|lia].
    + rewrite installed_file in Hl.
      * destruct (inv_file b Hinv p' d Hl). split; [done|lia].
      * destruct (decide (p' = q)) as [->|?]; [right|by left].
        destruct (is_dirty_ (frame b f)); [|done]. by destruct Hno.
  - rewrite installed_pins, Hlen.
    rewrite map_size_insert_None.
    + unfold b3, installed. cbn [free_list_ replacer_].
      rewrite Pin_notin by done.
      pose proof (inv_count b Hinv). lia.
    + by rewrite pins_of_lookup, Hmiss.
Qed.

End Install.

Section FramesSteps.

Import Frames.

Lemma take_frame_installed b b1 b1' f p :
  pool_inv b -> in_hand b b1 f ->
  pages_ b1' = pages_ b -> page_table_ b1' = page_table_ b ->
  free_list_ b1' = free_list_ b1 -> replacer_ b1' = replacer_ b1 ->
  file_ (disk_manager_ b1') = file_ (disk_manager_ b) ->
  ∃ b2, take_frame b1' f p = Some b2
    ∧ disk_manager_ b2
      = mkDisk (evict_file b f) (next_page_id_ (disk_manager_ b1'))
    ∧ with_replacer b2 (Pin (replacer_ b2) f)
      = installed b b1 f p (next_page_id_ (disk_manager_ b1')) zero_page
    ∧ ∀ data,
        with_replacer (set_frame b2 f (mkPage data p 1 false))
                      (Pin (replacer_ b2) f)
        = installed b b1 f p (next_page_id_ (disk_manager_ b1')) data.
Proof.
  intros Hinv Hhand Hpages Htable Hfree Hlru Hfile.
  assert (frame b1' f = frame b f) as Hframe by (unfold frame; by rewrite Hpages).
  assert (is_dirty_ (frame b f) = true -> 0 <= page_id_ (frame b f)) as Hq.
  { intros Hd.
    destruct (inv_table b Hinv _ f (hand_dirty b b1 f Hinv Hhand Hd))
      as (_ & _ & ?). lia. }
  unfold take_frame. rewrite Hframe.
  destruct b1' as [pgs tbl fr lru [file next]]. cbn in Hpages, Htable, Hfree,
    Hlru, Hfile. subst pgs tbl fr lru file.
  cbn [disk_manager_ next_page_id_ file_].
  unfold installed, evict_file, WritePage.
  cbn [disk_manager_ next_page_id_ file_].
  destruct (is_dirty_ (frame b f)) eqn:Ed.
  - destruct (Z.ltb_spec (page_id_ (frame b f)) 0) as [Hneg|_];
      [specialize (Hq eq_refl); lia|].
    eexists. split; [reflexivity|].
    unfold set_frame, with_replacer, with_pages, with_table, with_disk.
    cbn [pages_ page_table_ free_list_ replacer_ disk_manager_].
    split_and!; [done|done|]. intros data.
    by rewrite list_insert_insert_eq.
  - eexists. split; [reflexivity|].
    unfold set_frame, with_replacer, with_pages, with_table, with_disk.
    cbn [pages_ page_table_ free_list_ replacer_ disk_manager_].
    split_and!; [done|done|]. intros data.
    by rewrite list_insert_insert_eq.
Qed.

Lemma observe_length b p :
  pool_inv b -> length (observe b p) = PAGE_SIZE.
Proof.
  intros Hinv. unfold observe.
  destruct (page_table_ b !! p) as [f|] eqn:E.
  - destruct (inv_table b Hinv p f E) as (Hlt & _).
    by destruct (inv_frames b Hinv f Hlt) as (? & _).
  - destruct (file_ (disk_manager_ b) !! p) as [d|] eqn:Ef.
    + by destruct (inv_file b Hinv p d Ef).
    + apply length_replicate.
Qed.

(** [FetchPage] of a page that is not resident, a frame being left. *)
Lemma FetchPage_miss b b1 f p :
  pool_inv b -> page_table_ b !! p = None ->
  FindFreeFrame b = (Some f, b1) -> in_hand b b1 f ->
  0 <= p ->
  FetchPage b p
  = (Ok (Some f),
     installed b b1 f p (next_page_id_ (disk_manager_ b)) (observe b p)).
Proof.
  intros Hinv Hmiss Hfind Hhand Hp.
  unfold FetchPage. rewrite Hmiss, Hfind.
  pose proof Hhand as (Hpages & Htable & Hdisk & _).
  destruct (take_frame_installed b b1 b1 f p Hinv) as (b2 & -> & Hd & _ & Heq);
    [done|done|done|done|done|by rewrite Hdisk|].
  rewrite Hdisk in Hd, Heq.
  unfold ReadPage. destruct (Z.ltb_spec p 0) as [?|_]; [lia|].
  cbn zeta. rewrite Heq. do 2 f_equal.
  rewrite Hd. cbn [file_]. unfold observe. rewrite Hmiss.
  unfold evict_file.
  destruct (is_dirty_ (frame b f)) eqn:Ed; [|done].
  rewrite lookup_insert_ne; [done|].
  intros E.
  pose proof (hand_dirty b b1 f Hinv Hhand Ed) as Hres.
  rewrite E in Hres. congruence.
Qed.

End FramesSteps.

Section Retouch.

Import Frames.

Variables (b : BufferPoolManager) (f : nat) (p : Z) (pg : Page)
          (lru : list nat) (d : DiskManager).
Hypothesis Hinv : pool_inv b.
Hypothesis Hres : page_table_ b !! p = Some f.
Hypothesis Hid : page_id_ pg = p.
Hypothesis Hlen : length (data_ pg) = PAGE_SIZE.
Hypothesis Hpin : 0 <= pin_count_ pg < 2147483648.
Hypothesis Hnd : NoDup lru.
Hypothesis Hlru : ∀ x, x ∈ lru ↔ (x ∈ replacer_ b ∧ x ≠ f)
                               ∨ (x = f ∧ pin_count_ pg = 0).
Hypothesis Hfile : ∀ p', p' ≠ p ->
    file_ d !! p' = file_ (disk_manager_ b) !! p'.
Hypothesis Hfp : ∀ x, file_ d !! p = Some x -> length x = PAGE_SIZE.
Hypothesis Hclean : is_dirty_ pg = false -> pin_count_ pg = 0 ->
    data_ pg = default zero_page (file_ d !! p).
Hypothesis Hcount :
  ((if (0 <? pin_count_ pg)%Z then 1 else 0) + length lru
   = (if (0 <? pin_count_ (frame b f))%Z then 1 else 0)
     + length (replacer_ b))%nat.

Let b' := retouched b f pg lru d.

Lemma retouched_lt : (f < length (pages_ b))%nat.
Proof. by destruct (inv_table b Hinv p f Hres) as (? & _). Qed.

Lemma retouched_frame x :
  frame b' x = if decide (f = x) then pg else frame b x.
Proof.
  unfold b', retouched, frame. cbn [pages_].
  destruct (decide (f = x)) as [<-|Hne].
  - rewrite list_lookup_insert_eq; [done|apply retouched_lt].
  - by rewrite list_lookup_insert_ne.
Qed.

Lemma retouched_owner p' : page_table_ b !! p' = Some f -> p' = p.
Proof. intros H. apply (table_inj b p' p f Hinv H Hres). Qed.

Lemma retouched_pins :
  pins_of b'
  = if 0 <? pin_count_ pg
    then <[p := Z.to_pos (pin_count_ pg)]> (pins_of b)
    else delete p (pins_of b).
Proof.
  apply map_eq. intros p'. rewrite pins_of_lookup.
  change (page_table_ b') with (page_table_ b).
  destruct (decide (p' = p)) as [->|Hne].
  - rewrite Hres, retouched_frame, decide_True by done.
    destruct (0 <? pin_count_ pg).
    + by rewrite lookup_insert_eq.
    + by rewrite lookup_delete_eq.
  - assert (pins_of b !! p'
            = match page_table_ b !! p' with
              | Some x =>
                  if 0 <? pin_count_ (frame b' x)
                  then Some (Z.to_pos (pin_count_ (frame b' x))) else None
              | None => None
              end) as E'.
    { rewrite pins_of_lookup.
      destruct (page_table_ b !! p') as [x|] eqn:E; [|done].
      rewrite retouched_frame, decide_False; [done|].
      intros <-. by apply Hne, retouched_owner. }
    destruct (0 <? pin_count_ pg).
    + by rewrite lookup_insert_ne.
    + by rewrite lookup_delete_ne.
Qed.

Lemma retouched_observe p' :
  observe b' p' = if decide (p' = p) then data_ pg else observe b p'.
Proof.
  unfold observe. change (page_table_ b') with (page_table_ b).
  destruct (decide (p' = p)) as [->|Hne].
  - by rewrite Hres, retouched_frame, decide_True.
  - destruct (page_table_ b !! p') as [x|] eqn:E.
    + rewrite retouched_frame, decide_False; [done|].
      intros <-. by apply Hne, retouched_owner.
    + change (disk_manager_ b') with d. by rewrite Hfile.
Qed.

Lemma retouched_inv : pool_inv b'.
Proof.
  assert (length (pages_ b') = length (pages_ b)) as Hl.
  { unfold b', retouched. cbn [pages_]. apply length_insert. }
  split.
  - intros p' x Hx. change (page_table_ b') with (page_table_ b) in Hx.
    change (disk_manager_ b') with d.
    rewrite Hl, retouched_frame.
    destruct (inv_table b Hinv p' x Hx) as (? & ? & ?).
    split_and!; [done| |lia].
    destruct (decide (f = x)) as [<-|Hne]; [|done].
    by rewrite (retouched_owner p' Hx).
  - split; [apply (inv_free b Hinv)|].
    intros x Hx. change (free_list_ b') with (free_list_ b) in Hx.
    rewrite Hl, retouched_frame, decide_False.
    + by apply (inv_free b Hinv).
    + intros <-. by apply (free_not_resident b f p Hinv Hx).
  - split; [done|]. intros x Hx. change (replacer_ b') with lru in Hx.
    change (page_table_ b') with (page_table_ b).
    rewrite Hl, retouched_frame.
    apply Hlru in Hx as [[Hx Hne]|[-> Hz]].
    + rewrite decide_False by done. by apply (inv_lru b Hinv).
    + rewrite decide_True by done.
      split_and!; [apply retouched_lt|done|by rewrite Hid].
  - intros x Hx. rewrite Hl in Hx. rewrite retouched_frame.
    change (page_table_ b') with (page_table_ b).
    change (free_list_ b') with (free_list_ b).
    change (replacer_ b') with lru.
    destruct (decide (f = x)) as [<-|Hne].
    + split_and!; [done|lia|lia| |by rewrite Hid].
      intros Hz. right. apply Hlru. by right.
    + destruct (inv_frames b Hinv x Hx) as (? & ? & Hlist & Hresident).
      split_and!; [done|lia|lia| |done].
      intros Hz. destruct (Hlist Hz) as [Hin|Hin]; [by left|right].
      apply Hlru. left. split; [done|congruence].
  - intros p' x Hx. change (page_table_ b') with (page_table_ b) in Hx.
    change (disk_manager_ b') with d. rewrite retouched_frame.
    destruct (decide (f = x)) as [<-|Hne].
    + rewrite (retouched_owner p' Hx). apply Hclean.
    + rewrite Hfile.
      * by apply (inv_clean b Hinv).
      * intros ->. congruence.
  - intros p' x Hx. change (disk_manager_ b') with d in *.
    destruct (decide (p' = p)) as [->|Hne].
    + destruct (inv_table b Hinv p f Hres) as (_ & _ & ?).
      split; [by apply Hfp|done].
    + rewrite Hfile in Hx by done. by apply (inv_file b Hinv).
  - rewrite retouched_pins, Hl.
    change (free_list_ b') with (free_list_ b).
    change (replacer_ b') with lru.
    pose proof (inv_count b Hinv) as Hc.
    pose proof (pins_of_lookup b p) as Hp. rewrite Hres in Hp.
    destruct (0 <? pin_count_ pg); destruct (0 <? pin_count_ (frame b f)).
    + rewrite map_size_insert_Some by (by rewrite Hp). lia.
    + rewrite map_size_insert_None by done. lia.
    + pose proof (map_size_delete_Some p (pins_of b)) as Hs.
      rewrite Hp in Hs. specialize (Hs (mk_is_Some _ _ eq_refl)).
      assert (size (pins_of b) ≠ 0%nat).
      { intros E. apply map_size_empty_inv in E. rewrite E in Hp. done. }
      lia.
    + rewrite map_size_delete_None by done. lia.
Qed.

End Retouch.

Section FramesRefine.

Import Frames.

Lemma refines_FindFreeFrame l a :
  pool_inv l -> refines l a ->
  BufferPool.FindFreeFrame a
  = bool_decide (0 < length (free_list_ l) + length (replacer_ l))%nat.
Proof.
  intros Hinv Href. unfold BufferPool.FindFreeFrame.
  rewrite (ref_size l a Href), (ref_pins l a Href).
  pose proof (inv_count l Hinv).
  apply bool_decide_ext. lia.
Qed.

(** A resident frame is in the replacer exactly when it is not pinned. *)
Lemma resident_lru l p f :
  pool_inv l -> page_table_ l !! p = Some f ->
  f ∈ replacer_ l ↔ pin_count_ (frame l f) = 0.
Proof.
  intros Hinv Hres. split.
  - intros Hin. by apply (inv_lru l Hinv).
  - intros H0. destruct (inv_table l Hinv p f Hres) as (Hlt & _).
    destruct (inv_frames l Hinv f Hlt) as (_ & _ & Hlist & _).
    destruct (Hlist H0) as [Hin|Hin]; [|done].
    by destruct (free_not_resident l f p Hinv Hin).
Qed.

Lemma FetchPage_hit l p f :
  page_table_ l !! p = Some f ->
  FetchPage l p
  = (Ok (Some f),
     retouched l f
       (mkPage (data_ (frame l f)) (page_id_ (frame l f))
               (pin_count_ (frame l f) + 1) (is_dirty_ (frame l f)))
       (Pin (replacer_ l) f) (disk_manager_ l)).
Proof. intros Hres. unfold FetchPage. by rewrite Hres. Qed.

Lemma fetch_refines l a p :
  pool_inv l -> refines l a ->
  0 <= p ->
  (∀ f, page_table_ l !! p = Some f -> pin_count_ (frame l f) < 2147483647) ->
  ∃ l', (FetchPage l p).2 = l' ∧ pool_inv l'
    ∧ refines l' (BufferPool.FetchPage a p).2
    ∧ match (FetchPage l p).1 with
      | Ok (Some f) =>
          page_table_ l' !! p = Some f
          ∧ 0 < pin_count_ (frame l' f)
          ∧ (BufferPool.FetchPage a p).1 = Some (data_ (frame l' f))
      | Ok None => (BufferPool.FetchPage a p).1 = None ∧ l' = l
      | _ => False
      end.
Proof.
  intros Hinv Href Hp Hint. eexists. split; [reflexivity|].
  destruct (page_table_ l !! p) as [f|] eqn:Hres.
  - (* resident *)
    specialize (Hint f eq_refl).
    rewrite (FetchPage_hit l p f Hres). cbn [fst snd].
    destruct (inv_table l Hinv p f Hres) as (Hlt & Hid & _).
    destruct (inv_frames l Hinv f Hlt) as (Hlen & Hpin & _ & _).
    pose proof (resident_lru l p f Hinv Hres) as Hlru.
    destruct (inv_lru l Hinv) as [Hnd _].
    set (pg := mkPage _ _ _ _).
    assert (((if (0 <? pin_count_ pg)%Z then 1 else 0)
             + length (Pin (replacer_ l) f))%nat
            = ((if (0 <? pin_count_ (frame l f))%Z then 1 else 0)
               + length (replacer_ l))%nat) as Hcount.
    { unfold pg. cbn [pin_count_].
      destruct (Z.ltb_spec 0 (pin_count_ (frame l f) + 1)) as [_|?]; [|lia].
      destruct (Z.ltb_spec 0 (pin_count_ (frame l f))) as [Hpos|Hz].
      - rewrite Pin_notin; [done|]. rewrite Hlru. lia.
      - pose proof (length_Pin (replacer_ l) f Hnd) as Hl.
        rewrite <- Hl; [lia|]. apply Hlru. lia. }
    assert (pool_inv (retouched l f pg (Pin (replacer_ l) f) (disk_manager_ l)))
      as Hinv'.
    { apply (retouched_inv l f p); try done.
      - unfold pg. cbn [pin_count_]. lia.
      - by apply NoDup_Pin.
      - intros x. rewrite elem_of_Pin. unfold pg. cbn [pin_count_].
        split; [by left|]. intros [?|[_ ?]]; [done|lia].
      - intros x Hx. by apply (inv_file l Hinv p).
      - unfold pg. cbn [pin_count_]. lia. }
    pose proof (retouched_pins l f p pg _ (disk_manager_ l) Hinv Hres Hcount)
      as Hpins.
    pose proof (retouched_frame l f p pg (Pin (replacer_ l) f)
                  (disk_manager_ l) Hinv Hres f) as Hfr.
    rewrite decide_True in Hfr by done.
    assert (∀ p', observe (retouched l f pg (Pin (replacer_ l) f)
                             (disk_manager_ l)) p' = observe l p') as Hobs.
    { intros p'. rewrite (retouched_observe l f p) by done.
      destruct (decide (p' = p)) as [->|?]; [|done].
      unfold observe. by rewrite Hres. }
    assert ((0 <? pin_count_ pg) = true) as Hpos.
    { apply Z.ltb_lt. unfold pg. cbn [pin_count_]. lia. }
    rewrite Hpos in Hpins.
    assert (GetData a p = data_ (frame l f)) as Hdata.
    { rewrite (ref_data l a Href). unfold observe. by rewrite Hres. }
    split; [done|]. rewrite Hfr.
    unfold BufferPool.FetchPage.
    pose proof (pins_of_lookup l p) as Hlk. rewrite Hres in Hlk.
    rewrite (ref_pins l a Href), Hlk.
    destruct (Z.ltb_spec 0 (pin_count_ (frame l f))) as [Hpinned|Hz].
    + cbn [fst snd]. split_and!.
      * split; cbn [pool_size next_page_id pins with_pins].
        -- rewrite (ref_size l a Href). unfold retouched. cbn [pages_].
           by rewrite length_insert.
        -- apply (ref_next l a Href).
        -- rewrite Hpins. f_equal.
           unfold pg. cbn [pin_count_]. lia.
        -- intros p'. rewrite Hobs. apply (ref_data l a Href).
      * done.
      * unfold pg. cbn [pin_count_]. lia.
      * by rewrite Hdata.
    + rewrite (refines_FindFreeFrame l a Hinv Href).
      rewrite bool_decide_eq_true_2.
      2:{ assert (f ∈ replacer_ l) as Hin by (apply Hlru; lia).
          destruct (replacer_ l); [by apply elem_of_nil in Hin|cbn; lia]. }
      cbn [fst snd]. split_and!.
      * split; cbn [pool_size next_page_id pins with_pins].
        -- rewrite (ref_size l a Href). unfold retouched. cbn [pages_].
           by rewrite length_insert.
        -- apply (ref_next l a Href).
        -- rewrite Hpins. f_equal.
           unfold pg. cbn [pin_count_].
           replace (pin_count_ (frame l f)) with 0 by lia. done.
        -- intros p'. rewrite Hobs. apply (ref_data l a Href).
      * done.
      * unfold pg. cbn [pin_count_]. lia.
      * by rewrite Hdata.
  - (* not resident *)
    pose proof (FindFreeFrame_spec l Hinv) as Hspec.
    destruct (FindFreeFrame l) as [[f|] l1] eqn:Hfind.
    + rewrite (FetchPage_miss l l1 f p Hinv Hres Hfind Hspec) by lia.
      cbn [fst snd].
      pose proof (observe_length l p Hinv) as Hlen.
      split; [apply installed_inv; try done; lia|].
      unfold BufferPool.FetchPage.
      pose proof (pins_of_lookup l p) as Hlk. rewrite Hres in Hlk.
      rewrite (ref_pins l a Href), Hlk.
      rewrite (refines_FindFreeFrame l a Hinv Href).
      rewrite bool_decide_eq_true_2.
      2:{ destruct Hspec as (_ & _ & _ & _ & _ & _ & _ & _ & _ & _ & _ & Hc).
          lia. }
      cbn [fst snd]. rewrite installed_frame by done.
      rewrite decide_True by done. cbn [data_ pin_count_].
      split_and!.
      * split; cbn [pool_size next_page_id pins with_pins].
        -- rewrite (ref_size l a Href). unfold installed. cbn [pages_].
           by rewrite length_insert.
        -- apply (ref_next l a Href).
        -- by rewrite installed_pins.
        -- intros p'.
           transitivity (observe l p'); [apply (ref_data l a Href)|].
           destruct (decide (p' = p)) as [->|Hne].
           ++ by rewrite installed_observe_new.
           ++ by rewrite installed_observe.
      * apply installed_table_new.
      * lia.
      * by rewrite (ref_data l a Href).
    + destruct Hspec as (-> & Hf & Hl).
      unfold FetchPage. rewrite Hres, Hfind. cbn [fst snd].
      unfold BufferPool.FetchPage.
      pose proof (pins_of_lookup l p) as Hlk. rewrite Hres in Hlk.
      rewrite (ref_pins l a Href), Hlk.
      rewrite (refines_FindFreeFrame l a Hinv Href), Hf, Hl.
      cbn [length Nat.add]. rewrite bool_decide_eq_false_2 by lia.
      cbn [fst snd]. done.
Qed.

Lemma zero_page_length : length zero_page = PAGE_SIZE.
Proof. apply length_replicate. Qed.

Lemma new_refines l a :
  pool_inv l -> refines l a ->
  0 <= next_page_id_ (disk_manager_ l) < 2147483647 ->
  page_table_ l !! next_page_id_ (disk_manager_ l) = None ->
  ∃ l', (NewPage l).2 = l' ∧ pool_inv l'
    ∧ refines l' (BufferPool.NewPage a).2
    ∧ match (NewPage l).1 with
      | Ok (Some (f, id)) =>
          (BufferPool.NewPage a).1 = Some id
          ∧ id = next_page_id_ (disk_manager_ l)
          ∧ next_page_id_ (disk_manager_ l') = id + 1
          ∧ page_table_ l' !! id = Some f
          ∧ frame l' f = mkPage zero_page id 1 false
      | Ok None => (BufferPool.NewPage a).1 = None ∧ l' = l
      | _ => False
      end.
Proof.
  intros Hinv Href Hnext Hfresh. eexists. split; [reflexivity|].
  pose proof (FindFreeFrame_spec l Hinv) as Hspec.
  unfold NewPage, BufferPool.NewPage.
  rewrite (refines_FindFreeFrame l a Hinv Href).
  destruct (FindFreeFrame l) as [[f|] l1] eqn:Hfind.
  - pose proof Hspec as (Hpages & Htable & Hdisk & _ & _ & _ & _ & _ & _ & _
                         & _ & Hc).
    rewrite bool_decide_eq_true_2 by lia.
    unfold AllocatePage. rewrite Hdisk.
    set (id := next_page_id_ (disk_manager_ l)).
    set (d := mkDisk _ _).
    destruct (take_frame_installed l l1 (with_disk l1 d) f id Hinv Hspec)
      as (l2 & Htake & _ & Heq & _); try done.
    cbv zeta iota beta. rewrite Htake. cbn [fst snd]. rewrite Heq.
    unfold d. cbn [disk_manager_ with_disk next_page_id_].
    rewrite (ref_next l a Href). fold id.
    rewrite i32_small by lia.
    assert (page_table_ l !! id = None) as Hmiss by exact Hfresh.
    split_and!.
    + apply (installed_inv l l1 f id (id + 1) zero_page Hinv Hspec);
        [unfold id; lia|done|apply zero_page_length].
    + split; cbn [pool_size next_page_id pins BufferPool.pages].
      * rewrite (ref_size l a Href). unfold installed. cbn [pages_].
        by rewrite length_insert.
      * done.
      * rewrite installed_pins; [|done|done|apply zero_page_length].
        by rewrite (ref_pins l a Href).
      * intros p'. destruct (decide (p' = id)) as [->|Hne].
        -- rewrite installed_observe_new by done.
           unfold GetData. cbn [BufferPool.pages].
           rewrite lookup_insert_eq. change (default [] (Some ?x)) with x.
           rewrite <- zero_page_length at 1. apply resize_all.
        -- rewrite installed_observe;
             [|done|done|apply zero_page_length|done].
           rewrite <- (ref_data l a Href).
           unfold GetData. cbn [BufferPool.pages].
           by rewrite lookup_insert_ne.
    + done.
    + done.
    + reflexivity.
    + apply installed_table_new.
    + rewrite installed_frame by done. by rewrite decide_True.
  - destruct Hspec as (-> & Hf & Hl). rewrite Hf, Hl. cbn [length Nat.add].
    rewrite bool_decide_eq_false_2 by lia. cbn [fst snd]. done.
Qed.

Lemma UnpinPage_Some a p dirty n :
  pins a !! p = Some n ->
  BufferPool.UnpinPage a p dirty
  = with_pins a (if decide (n = 1%positive) then delete p (pins a)
                 else <[p := Pos.pred n]> (pins a)).
Proof.
  intros H. unfold BufferPool.UnpinPage. rewrite H. by destruct n.
Qed.

Lemma refines_with_pins l l' a m :
  refines l a ->
  length (pages_ l') = length (pages_ l) ->
  next_page_id_ (disk_manager_ l') = next_page_id_ (disk_manager_ l) ->
  m = pins_of l' ->
  (∀ p, observe l' p = observe l p) ->
  refines l' (with_pins a m).
Proof.
  intros Href Hlen Hnext Hm Hobs.
  split; cbn [pool_size next_page_id pins with_pins].
  - rewrite Hlen. apply (ref_size l a Href).
  - rewrite Hnext. apply (ref_next l a Href).
  - done.
  - intros p. rewrite Hobs. apply (ref_data l a Href).
Qed.

Lemma refines_same l l' a :
  refines l a ->
  length (pages_ l') = length (pages_ l) ->
  next_page_id_ (disk_manager_ l') = next_page_id_ (disk_manager_ l) ->
  pins_of l' = pins_of l ->
  (∀ p, observe l' p = observe l p) ->
  refines l' a.
Proof.
  intros Href Hlen Hnext Hm Hobs. split.
  - rewrite Hlen. apply (ref_size l a Href).
  - rewrite Hnext. apply (ref_next l a Href).
  - rewrite Hm. apply (ref_pins l a Href).
  - intros p. rewrite Hobs. apply (ref_data l a Href).
Qed.

Lemma unpin_refines l a p dirty :
  pool_inv l -> refines l a ->
  (∀ f, page_table_ l !! p = Some f -> pin_count_ (frame l f) = 1 ->
     dirty = false -> is_dirty_ (frame l f) = false ->
     data_ (frame l f) = default zero_page (file_ (disk_manager_ l) !! p)) ->
  pool_inv (UnpinPage l p dirty).2
  ∧ refines (UnpinPage l p dirty).2 (BufferPool.UnpinPage a p dirty)
  ∧ (UnpinPage l p dirty).1 = bool_decide (is_Some (pins a !! p)).
Proof.
  intros Hinv Href Hdisc.
  pose proof (pins_of_lookup l p) as Hlk.
  rewrite <- (ref_pins l a Href) in Hlk.
  unfold UnpinPage.
  destruct (page_table_ l !! p) as [f|] eqn:Hres.
  2:{ cbn [fst snd]. unfold BufferPool.UnpinPage. rewrite Hlk.
      split_and!; [done|done|]. by rewrite bool_decide_eq_false_2
        by (by intros [? ?]). }
  specialize (Hdisc f eq_refl).
  destruct (inv_table l Hinv p f Hres) as (Hlt & Hid & _).
  destruct (inv_frames l Hinv f Hlt) as (Hlen & Hpin & _ & _).
  pose proof (resident_lru l p f Hinv Hres) as Hlru.
  destruct (inv_lru l Hinv) as [Hnd _].
  cbv zeta.
  set (dirty' := if dirty then true else is_dirty_ (frame l f)).
  destruct (Z.leb_spec (pin_count_ (frame l f)) 0) as [Hz|Hpos].
  - (* not pinned *)
    assert (pin_count_ (frame l f) = 0) as E0 by lia.
    assert ((0 <? pin_count_ (frame l f)) = false) as Hf
      by (apply Z.ltb_ge; lia).
    rewrite Hf in Hlk.
    cbn [fst snd]. unfold BufferPool.UnpinPage. rewrite Hlk.
    set (pg := mkPage _ _ _ _).
    change (set_frame l f pg)
      with (retouched l f pg (replacer_ l) (disk_manager_ l)).
    assert (((if (0 <? pin_count_ pg)%Z then 1 else 0)
             + length (replacer_ l))%nat
            = ((if (0 <? pin_count_ (frame l f))%Z then 1 else 0)
               + length (replacer_ l))%nat) as Hcount by done.
    split_and!.
    + apply (retouched_inv l f p); try done.
      * intros x. unfold pg. cbn [pin_count_]. split.
        -- intros Hx. destruct (decide (x = f)) as [->|?]; [by right|by left].
        -- intros [[? _]|[-> _]]; [done|by apply Hlru].
      * intros x Hx. by apply (inv_file l Hinv p).
      * unfold pg, dirty'. cbn [is_dirty_ pin_count_ data_].
        destruct dirty; [done|]. intros Hc _.
        by apply (inv_clean l Hinv p f).
    + apply (refines_same l); [done| |done| |].
      * unfold retouched. cbn [pages_]. apply length_insert.
      * rewrite (retouched_pins l f p) by done.
        unfold pg. cbn [pin_count_]. rewrite Hf.
        apply delete_id. by rewrite <- (ref_pins l a Href).
      * intros p'. rewrite (retouched_observe l f p) by done.
        destruct (decide (p' = p)) as [->|?]; [|done].
        unfold observe. by rewrite Hres.
    + by rewrite bool_decide_eq_false_2 by (by intros [? ?]).
  - (* pinned *)
    assert ((0 <? pin_count_ (frame l f)) = true) as Ht
      by (apply Z.ltb_lt; lia).
    rewrite Ht in Hlk.
    assert (f ∉ replacer_ l) as Hout by (rewrite Hlru; lia).
    cbn [fst snd]. rewrite (UnpinPage_Some a p dirty _ Hlk).
    set (pg := mkPage _ _ _ _).
    set (lru := if pin_count_ (frame l f) - 1 =? 0
                then Unpin (replacer_ l) f else replacer_ l).
    assert ((if pin_count_ (frame l f) - 1 =? 0
             then with_replacer (set_frame l f pg)
                    (Unpin (replacer_ (set_frame l f pg)) f)
             else set_frame l f pg)
            = retouched l f pg lru (disk_manager_ l)) as ->.
    { unfold lru. by destruct (pin_count_ (frame l f) - 1 =? 0). }
    assert (lru = if decide (pin_count_ (frame l f) = 1)
                  then f :: replacer_ l else replacer_ l) as Elru.
    { unfold lru, Unpin. rewrite decide_False by done.
      destruct (Z.eqb_spec (pin_count_ (frame l f) - 1) 0);
        destruct (decide (pin_count_ (frame l f) = 1)); (done || lia). }
    clearbody lru. subst lru.
    assert (((if (0 <? pin_count_ pg)%Z then 1 else 0)
             + length (if decide (pin_count_ (frame l f) = 1)%Z
                       then f :: replacer_ l else replacer_ l))%nat
            = ((if (0 <? pin_count_ (frame l f))%Z then 1 else 0)
               + length (replacer_ l))%nat) as Hcount.
    { rewrite Ht. unfold pg. cbn [pin_count_].
      destruct (decide (pin_count_ (frame l f) = 1)) as [->|?]; [done|].
      destruct (Z.ltb_spec 0 (pin_count_ (frame l f) - 1)); [done|lia]. }
    split_and!.
    + apply (retouched_inv l f p); try done.
      * unfold pg. cbn [pin_count_]. lia.
      * destruct (decide (pin_count_ (frame l f) = 1)); [|done].
        by apply NoDup_cons.
      * intros x. unfold pg. cbn [pin_count_].
        destruct (decide (pin_count_ (frame l f) = 1)) as [E1|E1].
        -- rewrite elem_of_cons. split.
           ++ intros [->|Hx]; [right; split; [done|lia]|left].
              split; [done|]. by intros ->.
           ++ intros [[? _]|[-> _]]; [by right|by left].
        -- split.
           ++ intros Hx. left. split; [done|]. by intros ->.
           ++ intros [[? _]|[_ ?]]; [done|lia].
      * intros x Hx. by apply (inv_file l Hinv p).
      * unfold pg, dirty'. cbn [is_dirty_ pin_count_ data_].
        intros Hc H1. apply Hdisc; [lia| |]; by destruct dirty.
    + apply (refines_with_pins l); [done| |done| |].
      * unfold retouched. cbn [pages_]. apply length_insert.
      * rewrite (retouched_pins l f p) by done.
        rewrite <- (ref_pins l a Href).
        unfold pg. cbn [pin_count_].
        destruct (decide (Z.to_pos (pin_count_ (frame l f)) = 1%positive))
          as [E1|E1].
        -- destruct (Z.ltb_spec 0 (pin_count_ (frame l f) - 1)); [lia|done].
        -- destruct (Z.ltb_spec 0 (pin_count_ (frame l f) - 1)); [|lia].
           f_equal. lia.
      * intros p'. rewrite (retouched_observe l f p) by done.
        destruct (decide (p' = p)) as [->|?]; [|done].
        unfold observe. by rewrite Hres.
    + by rewrite bool_decide_eq_true_2.
Qed.

Lemma write_refines l a p f d :
  pool_inv l -> refines l a ->
  page_table_ l !! p = Some f -> 0 < pin_count_ (frame l f) ->
  length d = PAGE_SIZE ->
  pool_inv (write l f d) ∧ refines (write l f d) (SetData a p d)
  ∧ ∀ f', f' ≠ f -> frame (write l f d) f' = frame l f'.
Proof.
  intros Hinv Href Hres Hpos Hd.
  destruct (inv_table l Hinv p f Hres) as (Hlt & Hid & _).
  destruct (inv_frames l Hinv f Hlt) as (Hlen & Hpin & _ & _).
  pose proof (resident_lru l p f Hinv Hres) as Hlru.
  destruct (inv_lru l Hinv) as [Hnd _].
  unfold write. set (pg := mkPage _ _ _ _).
  change (set_frame l f pg)
    with (retouched l f pg (replacer_ l) (disk_manager_ l)).
  assert (((if (0 <? pin_count_ pg)%Z then 1 else 0)
           + length (replacer_ l))%nat
          = ((if (0 <? pin_count_ (frame l f))%Z then 1 else 0)
             + length (replacer_ l))%nat) as Hcount by done.
  split_and!.
  - apply (retouched_inv l f p); try done.
    + intros x. unfold pg. cbn [pin_count_]. split.
      * intros Hx. left. split; [done|]. intros ->.
        apply Hlru in Hx. lia.
      * intros [[? _]|[_ ?]]; [done|lia].
    + intros x Hx. by apply (inv_file l Hinv p).
    + unfold pg. cbn [pin_count_]. lia.
  - split.
    + unfold retouched. cbn [pages_]. rewrite length_insert.
      apply (ref_size l a Href).
    + apply (ref_next l a Href).
    + rewrite (retouched_pins l f p) by done.
      unfold pg. cbn [pin_count_].
      assert ((0 <? pin_count_ (frame l f)) = true) as ->
        by (apply Z.ltb_lt; lia).
      change (pins (SetData a p d)) with (pins a).
      rewrite (ref_pins l a Href). symmetry. apply insert_id.
      rewrite pins_of_lookup, Hres.
      by assert ((0 <? pin_count_ (frame l f)) = true) as ->
        by (apply Z.ltb_lt; lia).
    + intros p'. rewrite (retouched_observe l f p) by done.
      destruct (decide (p' = p)) as [->|Hne].
      * by apply GetData_SetData_eq.
      * rewrite GetData_SetData_ne by done. apply (ref_data l a Href).
  - intros f' Hne. rewrite (retouched_frame l f p) by done.
    by rewrite decide_False.
Qed.

End FramesRefine.

Section FramesFlush.

Import Frames.

Lemma lru_keep l p f n :
  pool_inv l -> page_table_ l !! p = Some f -> n = pin_count_ (frame l f) ->
  ∀ x, x ∈ replacer_ l ↔ (x ∈ replacer_ l ∧ x ≠ f) ∨ (x = f ∧ n = 0).
Proof.
  intros Hinv Hres -> x.
  pose proof (resident_lru l p f Hinv Hres) as Hlru. split.
  - intros Hx. destruct (decide (x = f)) as [->|?]; [right|by left].
    split; [done|]. by apply Hlru.
  - intros [[? _]|[-> ?]]; [done|by apply Hlru].
Qed.

Lemma flushed_refl l : pool_inv l -> flushed l l.
Proof. intros H. by split_and!. Qed.

Lemma flushed_trans l1 l2 l3 : flushed l1 l2 -> flushed l2 l3 -> flushed l1 l3.
Proof.
  intros (H1 & H2 & H3 & H4 & H5 & H6 & H7 & H8)
         (G1 & G2 & G3 & G4 & G5 & G6 & G7 & G8).
  split_and!; [done|congruence|congruence|congruence|congruence| | |].
  - intros p. by rewrite G6.
  - intros f. by rewrite G7.
  - intros f Hd. by apply H8, G8.
Qed.

Lemma flush_frame l p f k :
  pool_inv l -> page_table_ l !! p = Some f -> k = p ->
  let l' := retouched l f
              (mkPage (data_ (frame l f)) (page_id_ (frame l f))
                      (pin_count_ (frame l f)) false)
              (replacer_ l)
              (mkDisk (<[k := data_ (frame l f)]> (file_ (disk_manager_ l)))
                      (next_page_id_ (disk_manager_ l))) in
  flushed l l' ∧ is_dirty_ (frame l' f) = false
  ∧ ∀ f', f' ≠ f -> frame l' f' = frame l f'.
Proof.
  intros Hinv Hres -> l'.
  destruct (inv_table l Hinv p f Hres) as (Hlt & Hid & _).
  destruct (inv_frames l Hinv f Hlt) as (Hlen & Hpin & _ & _).
  destruct (inv_lru l Hinv) as [Hnd _].
  set (pg := mkPage _ _ _ _) in l'.
  assert (((if (0 <? pin_count_ pg)%Z then 1 else 0)
           + length (replacer_ l))%nat
          = ((if (0 <? pin_count_ (frame l f))%Z then 1 else 0)
             + length (replacer_ l))%nat) as Hcount by done.
  assert (∀ p', p' ≠ p ->
            <[p := data_ (frame l f)]> (file_ (disk_manager_ l)) !! p'
            = file_ (disk_manager_ l) !! p') as Hfile.
  { intros p' Hne. by rewrite lookup_insert_ne. }
  assert (∀ x, frame l' x = if decide (f = x) then pg else frame l x) as Hfr.
  { intros x. by apply (retouched_frame l f p). }
  split; [split_and!|split].
  - apply (retouched_inv l f p); try done.
    + by apply (lru_keep l p).
    + cbn [file_]. intros x. rewrite lookup_insert_eq. by intros [= <-].
    + cbn [file_]. intros _ _. by rewrite lookup_insert_eq.
  - done.
  - unfold l', retouched. cbn [pages_]. apply length_insert.
  - done.
  - unfold l'. rewrite (retouched_pins l f p) by done.
    unfold pg. cbn [pin_count_].
    destruct (0 <? pin_count_ (frame l f)) eqn:E.
    + apply insert_id. by rewrite pins_of_lookup, Hres, E.
    + apply delete_id. by rewrite pins_of_lookup, Hres, E.
  - intros p'. unfold l'. rewrite (retouched_observe l f p) by done.
    destruct (decide (p' = p)) as [->|?]; [|done].
    unfold observe. by rewrite Hres.
  - intros x. rewrite Hfr. by destruct (decide (f = x)) as [<-|?].
  - intros x. rewrite Hfr. by destruct (decide (f = x)) as [<-|?].
  - rewrite Hfr. by rewrite decide_True.
  - intros x Hne. rewrite Hfr. by rewrite decide_False.
Qed.

Lemma flush_entry_step l p f :
  pool_inv l -> page_table_ l !! p = Some f ->
  ∃ l', flush_entry (Some l) (p, f) = Some l'
    ∧ flushed l l' ∧ is_dirty_ (frame l' f) = false
    ∧ (∀ f', f' ≠ f -> frame l' f' = frame l f')
    ∧ (∀ p', p' ≠ p ->
         file_ (disk_manager_ l') !! p' = file_ (disk_manager_ l) !! p')
    ∧ (file_ (disk_manager_ l') !! p = file_ (disk_manager_ l) !! p
       ∨ file_ (disk_manager_ l') !! p = Some (data_ (frame l f)))
    ∧ (is_dirty_ (frame l f) = true ->
       file_ (disk_manager_ l') !! p = Some (data_ (frame l f))).
Proof.
  intros Hinv Hres.
  destruct (inv_table l Hinv p f Hres) as (Hlt & Hid & Hrange).
  unfold flush_entry. cbn [snd].
  destruct (is_dirty_ (frame l f)) eqn:Ed; cbn [andb].
  - assert ((page_id_ (frame l f) =? INVALID_PAGE_ID) = false) as ->
      by (apply Z.eqb_neq; unfold INVALID_PAGE_ID; lia).
    cbn [negb]. unfold WritePage.
    destruct (Z.ltb_spec (page_id_ (frame l f)) 0) as [?|_]; [lia|].
    destruct (flush_frame l p f (page_id_ (frame l f)) Hinv Hres Hid)
      as (Hfl & Hcl & Hkeep).
    eexists. split; [reflexivity|].
    split_and!; [exact Hfl|exact Hcl|exact Hkeep| | |].
    + intros p' Hne. cbn [disk_manager_ with_disk set_frame with_pages file_].
      rewrite Hid. by rewrite lookup_insert_ne.
    + right. cbn [disk_manager_ with_disk set_frame with_pages file_].
      rewrite Hid. by rewrite lookup_insert_eq.
    + intros _. cbn [disk_manager_ with_disk set_frame with_pages file_].
      rewrite Hid. by rewrite lookup_insert_eq.
  - exists l.
    split_and!; [done|by apply flushed_refl|done|done|done|by left|done].
Qed.

Lemma flush_loop es :
  ∀ l, pool_inv l ->
  (∀ p f, (p, f) ∈ es -> page_table_ l !! p = Some f) ->
  ∃ l', foldl flush_entry (Some l) es = Some l'
    ∧ flushed l l'
    ∧ (∀ p, file_ (disk_manager_ l') !! p = file_ (disk_manager_ l) !! p
            ∨ ∃ f, (p, f) ∈ es
                   ∧ file_ (disk_manager_ l') !! p = Some (data_ (frame l f)))
    ∧ (∀ p f, (p, f) ∈ es ->
         is_dirty_ (frame l' f) = false
         ∧ (is_dirty_ (frame l f) = true ->
            file_ (disk_manager_ l') !! p = Some (data_ (frame l f)))).
Proof.
  induction es as [|[p f] es IH]; intros l Hinv Hes.
  - exists l. split_and!; [done|by apply flushed_refl|by left|].
    by intros p f ?%elem_of_nil.
  - assert (page_table_ l !! p = Some f) as Hres
      by (apply Hes, elem_of_cons; by left).
    destruct (flush_entry_step l p f Hinv Hres)
      as (l1 & Hstep & Hfl1 & Hcl1 & Hkeep1 & Hoth1 & Hat1 & Hd1).
    pose proof Hfl1 as (Hinv1 & Htab1 & _ & _ & _ & _ & Hdata1 & Hmono1).
    destruct (IH l1 Hinv1) as (l' & Hfold & Hfl & Hw & Ht).
    { intros p' f' Hin. rewrite Htab1. apply Hes, elem_of_cons. by right. }
    pose proof Hfl as (_ & _ & _ & _ & _ & _ & _ & Hmono).
    assert (file_ (disk_manager_ l') !! p = file_ (disk_manager_ l1) !! p
            ∨ file_ (disk_manager_ l') !! p = Some (data_ (frame l f))) as Hp.
    { destruct (Hw p) as [E|(f2 & Hin & E)]; [by left|right].
      assert (f2 = f) as ->.
      { assert (page_table_ l !! p = Some f2) as H2
          by (apply Hes, elem_of_cons; by right). congruence. }
      by rewrite E, Hdata1. }
    exists l'. cbn [foldl]. rewrite Hstep.
    split_and!; [done|by apply (flushed_trans l l1 l')| |].
    + intros p'. destruct (Hw p') as [E|(f2 & Hin & E)].
      * destruct (decide (p' = p)) as [->|Hne].
        -- destruct Hat1 as [E1|E1]; [left; congruence|right].
           exists f. split; [apply elem_of_cons; by left|congruence].
        -- left. rewrite E. by apply Hoth1.
      * right. exists f2. split; [apply elem_of_cons; by right|].
        by rewrite E, Hdata1.
    + intros p2 f2 Hin.
      assert (page_table_ l !! p2 = Some f2) as H2 by by apply Hes.
      assert (is_dirty_ (frame l' f2) = false) as Hclean.
      { apply elem_of_cons in Hin as [[= -> ->]|Hin].
        - destruct (is_dirty_ (frame l' f)) eqn:E; [|done].
          apply Hmono in E. congruence.
        - by apply (Ht p2 f2). }
      split; [done|]. intros Hdirty.
      destruct (decide (f2 = f)) as [->|Hne].
      * assert (p2 = p) as -> by apply (table_inj l p2 p f Hinv H2 Hres).
        destruct Hp as [E|E]; [|done]. rewrite E. by apply Hd1.
      * apply elem_of_cons in Hin as [[= -> ->]|Hin]; [done|].
        rewrite <- Hdata1. apply (Ht p2 f2 Hin).
        by rewrite Hkeep1.
Qed.

End FramesFlush.

Section FramesMake.

Import Frames.

Lemma make_inv n d :
  (∀ p x, file_ d !! p = Some x -> length x = PAGE_SIZE ∧ 0 <= p) ->
  pool_inv (make n d).
Proof.
  intros Hfile.
  assert (∀ f, (f < n)%nat -> frame (make n d) f = blank) as Hfr.
  { intros f Hf. unfold frame, make. cbn [pages_].
    by rewrite lookup_replicate_2. }
  assert (length (pages_ (make n d)) = n) as Hlen
    by (unfold make; cbn [pages_]; apply length_replicate).
  assert (∀ f, f ∈ free_list_ (make n d) ↔ (f < n)%nat) as Hfree.
  { intros f. unfold make. cbn [free_list_]. rewrite elem_of_seq. lia. }
  split.
  - intros p f Hp. unfold make in Hp. cbn [page_table_] in Hp.
    by rewrite lookup_empty in Hp.
  - split; [apply NoDup_seq|]. intros f Hf. rewrite Hlen.
    apply Hfree in Hf. split; [done|by apply Hfr].
  - split; [apply NoDup_nil_2|]. intros f Hf. by apply elem_of_nil in Hf.
  - intros f Hf. rewrite Hlen in Hf. rewrite (Hfr f Hf).
    unfold blank. cbn [data_ pin_count_ is_dirty_ page_id_].
    split_and!; [apply length_replicate|lia|lia| |].
    + intros _. left. by apply Hfree.
    + intros [?|?]; [lia|done].
  - intros p f Hp. unfold make in Hp. cbn [page_table_] in Hp.
    by rewrite lookup_empty in Hp.
  - exact Hfile.
  - rewrite Hlen. unfold pins_of, make.
    cbn [page_table_ free_list_ replacer_].
    rewrite omap_empty, map_size_empty, length_seq. cbn [length]. lia.
Qed.

(** A fresh pool over a file implements the pool that has no page pinned
    and reads every page from the file. *)
Lemma make_refines n d :
  (∀ p x, file_ d !! p = Some x -> length x = PAGE_SIZE ∧ 0 <= p) ->
  refines (make n d) (mkBPM n (file_ d) (next_page_id_ d) ∅).
Proof.
  intros Hfile. split; cbn [pool_size next_page_id pins].
  - unfold make. cbn [pages_]. by rewrite length_replicate.
  - done.
  - unfold pins_of, make. cbn [page_table_]. by rewrite omap_empty.
  - intros p. unfold GetData, observe, make.
    cbn [BufferPool.pages page_table_ disk_manager_].
    rewrite lookup_empty.
    destruct (file_ d !! p) as [x|] eqn:E.
    + destruct (Hfile p x E) as [Hl _].
      change (default [] (Some x)) with x. rewrite <- Hl. apply resize_all.
    + reflexivity.
Qed.

Lemma FetchPage_negative l p :
  pool_inv l -> p < 0 ->
  match FindFreeFrame l with
  | (Some f, _) =>
      (FetchPage l p).1 = Throw (io_error "reading" p)
      ∧ page_table_ (FetchPage l p).2 !! p = Some f
      ∧ pin_count_ (frame (FetchPage l p).2 f) = 1
  | (None, _) => FetchPage l p = (Ok None, l)
  end.
Proof.
  intros Hinv Hp.
  assert (page_table_ l !! p = None) as Hmiss.
  { destruct (page_table_ l !! p) as [x|] eqn:E; [|done].
    destruct (inv_table l Hinv p x E) as (_ & _ & ?). lia. }
  pose proof (FindFreeFrame_spec l Hinv) as Hspec.
  unfold FetchPage. rewrite Hmiss.
  destruct (FindFreeFrame l) as [[f|] l1] eqn:Hfind.
  - pose proof Hspec as (Hpages & Htable & Hdisk & _).
    destruct (take_frame_installed l l1 l1 f p Hinv Hspec)
      as (l2 & -> & Hd & Hz & _); [done|done|done|done|by rewrite Hdisk|].
    unfold ReadPage. destruct (Z.ltb_spec p 0) as [_|?]; [|lia].
    cbn [fst snd]. split; [done|].
    assert (page_table_ l2
            = page_table_ (with_replacer l2 (Pin (replacer_ l2) f))) as ->
      by done.
    assert (frame l2 f = frame (with_replacer l2 (Pin (replacer_ l2) f)) f)
      as -> by done.
    rewrite Hz. split; [apply installed_table_new|].
    rewrite installed_frame by done. by rewrite decide_True.
  - by destruct Hspec as (-> & _).
Qed.

End FramesMake.

(** X26.  [FetchPage] of the frames against [FetchPage] of the pool seen
    through its pin counts.  From a state the frame-level operations keep
    ([pool_inv]) that implements the pin-count view ([refines]), and for a
    page whose pin count is below the largest [int]: for a page id from 0
    on, the fetch of the frames never throws; it returns the null pointer
    exactly when the pin-count view does, that is when every frame holds a
    pinned page, and leaves the pool as it is; otherwise it returns a
    frame that holds the page, pinned, with the contents the pin-count
    view returns, and the states again correspond (same pin counts, every
    page reads the same, whether it was resident, read from the file, or
    had its frame taken from the free list or from an evicted page,
    written back if dirty).  For a negative page id, which is never
    resident, the fetch returns the null pointer when no frame is left and
    otherwise throws "I/O error reading page" with the frame already
    mapped to the page and pinned. *)
Theorem buffer_fetch_refines l a p :
  Frames.pool_inv l -> refines l a ->
  (∀ f, Frames.page_table_ l !! p = Some f ->
     Frames.pin_count_ (Frames.frame l f) < 2147483647) ->
  let l' := (Frames.FetchPage l p).2 in
  (0 <= p ->
   Frames.pool_inv l' ∧ refines l' (FetchPage a p).2
   ∧ match (Frames.FetchPage l p).1 with
     | Ok (Some f) =>
         Frames.page_table_ l' !! p = Some f
         ∧ 0 < Frames.pin_count_ (Frames.frame l' f)
         ∧ (FetchPage a p).1 = Some (Frames.data_ (Frames.frame l' f))
     | Ok None => (FetchPage a p).1 = None ∧ l' = l
     | _ => False
     end)
  ∧ (p < 0 ->
     match Frames.FindFreeFrame l with
     | (Some f, _) =>
         (Frames.FetchPage l p).1 = Throw (Frames.io_error "reading" p)
         ∧ Frames.page_table_ l' !! p = Some f
         ∧ Frames.pin_count_ (Frames.frame l' f) = 1
     | (None, _) => Frames.FetchPage l p = (Ok None, l)
     end).
Proof.
  intros Hinv Href Hint l'. split.
  - intros Hp.
    destruct (fetch_refines l a p Hinv Href Hp Hint) as (l0 & E & H).
    unfold l'. by rewrite E.
  - intros Hp. by apply FetchPage_negative.
Qed.

Lemma buffer_fetch_refines_witness :
  let l := Frames.make 2 (Frames.mkDisk ∅ 0) in
  let a := mkBPM 2 ∅ 0 ∅ in
  Frames.pool_inv l ∧ refines l a
  ∧ refines (Frames.FetchPage l 0).2 (FetchPage a 0).2
  ∧ (Frames.FetchPage l (-2)).1 = Throw "I/O error reading page -2: Invalid argument".
Proof.
  intros l a.
  assert (∀ p x, Frames.file_ (Frames.mkDisk ∅ 0) !! p = Some x ->
                 length x = PAGE_SIZE ∧ 0 <= p) as Hfile.
  { intros p x H. cbn in H. by rewrite lookup_empty in H. }
  pose proof (make_inv 2 _ Hfile) as Hinv.
  pose proof (make_refines 2 _ Hfile) as Href.
  split; [exact Hinv|]. split; [exact Href|]. split.
  - destruct (buffer_fetch_refines l a 0 Hinv Href) as [H _].
    { intros f Hf. cbn in Hf. by rewrite lookup_empty in Hf. }
    destruct (H ltac:(lia)) as (_ & Hr & _). exact Hr.
  - destruct (buffer_fetch_refines l a (-2) Hinv Href) as [_ H].
    { intros f Hf. cbn in Hf. by rewrite lookup_empty in Hf. }
    specialize (H ltac:(lia)).
    assert (Frames.FindFreeFrame l
            = (Some 0%nat, Frames.with_free l [1%nat])) as E
      by reflexivity.
    rewrite E in H. destruct H as (H & _). rewrite H. reflexivity.
Defined.

(** X27.  [NewPage] of the frames against [NewPage] of the pin-count view,
    while the page counter is below the largest page id and the page it
    names is not resident.  The frames return the null pointer exactly
    when the pin-count view does, with nothing allocated; otherwise both
    hand out the page id the counter held, the frame holds that page,
    zeroed and pinned once, the counter has advanced by one, and the
    states again correspond: the frame came from the free list or from an
    evicted page, whose contents, if dirty, are in the file. *)
Theorem buffer_new_page_refines l a :
  Frames.pool_inv l -> refines l a ->
  0 <= Frames.next_page_id_ (Frames.disk_manager_ l) < 2147483647 ->
  Frames.page_table_ l !! Frames.next_page_id_ (Frames.disk_manager_ l)
  = None ->
  let l' := (Frames.NewPage l).2 in
  Frames.pool_inv l' ∧ refines l' (NewPage a).2
  ∧ match (Frames.NewPage l).1 with
    | Ok (Some (f, id)) =>
        (NewPage a).1 = Some id
        ∧ id = Frames.next_page_id_ (Frames.disk_manager_ l)
        ∧ Frames.next_page_id_ (Frames.disk_manager_ l') = id + 1
        ∧ Frames.page_table_ l' !! id = Some f
        ∧ Frames.frame l' f = Frames.mkPage zero_page id 1 false
    | Ok None => (NewPage a).1 = None ∧ l' = l
    | _ => False
    end.
Proof.
  intros Hinv Href Hnext Hfresh l'.
  destruct (new_refines l a Hinv Href Hnext Hfresh) as (l0 & E & H).
  unfold l'. by rewrite E.
Qed.

Lemma buffer_new_page_refines_witness :
  let l := Frames.make 2 (Frames.mkDisk ∅ 0) in
  let a := mkBPM 2 ∅ 0 ∅ in
  let l2 := (Frames.NewPage (Frames.NewPage l).2).2 in
  let released :=
    (Frames.UnpinPage (Frames.UnpinPage l2 0 false).2 1 false).2 in
  refines (Frames.NewPage l).2 (NewPage a).2
  ∧ (Frames.NewPage l).1 = Ok (Some (0%nat, 0))
  ∧ (Frames.NewPage l2).1 = Ok None
  ∧ (Frames.NewPage released).1 = Ok (Some (0%nat, 2)).
Proof.
  intros l a l2 released.
  assert (∀ p x, Frames.file_ (Frames.mkDisk ∅ 0) !! p = Some x ->
                 length x = PAGE_SIZE ∧ 0 <= p) as Hfile.
  { intros p x H. cbn in H. by rewrite lookup_empty in H. }
  destruct (buffer_new_page_refines l a (make_inv 2 _ Hfile)
              (make_refines 2 _ Hfile)) as (_ & Hr & _).
  - cbn. lia.
  - reflexivity.
  - split; [exact Hr|]. vm_compute. repeat split; reflexivity.
Defined.

(** X28.  [UnpinPage] of the frames against [UnpinPage] of the pin-count
    view, for callers that do not release the last pin of a page they
    modified without declaring it dirty (when the call takes the pin count
    from 1 to 0 with [is_dirty] false and the frame not marked dirty, the
    frame holds what the file holds).  The frames return true exactly when
    the page is pinned; the pin count goes down by one and a frame that
    reaches 0 goes to the replacer, so that it can be evicted; the page
    still reads the same, and the states again correspond. *)
Theorem buffer_unpin_refines l a p dirty :
  Frames.pool_inv l -> refines l a ->
  (∀ f, Frames.page_table_ l !! p = Some f ->
     Frames.pin_count_ (Frames.frame l f) = 1 ->
     dirty = false -> Frames.is_dirty_ (Frames.frame l f) = false ->
     Frames.data_ (Frames.frame l f)
     = default zero_page (Frames.file_ (Frames.disk_manager_ l) !! p)) ->
  Frames.pool_inv (Frames.UnpinPage l p dirty).2
  ∧ refines (Frames.UnpinPage l p dirty).2 (UnpinPage a p dirty)
  ∧ (Frames.UnpinPage l p dirty).1 = bool_decide (is_Some (pins a !! p)).
Proof. exact (unpin_refines l a p dirty). Qed.

(** X29.  What a caller's write through [GetData()] of a pinned page does:
    the page reads as the bytes written, every other frame is as before
    (no two pages share a frame), and the states again correspond, the
    pin-count view having the page set by [SetData]. *)
Theorem buffer_write_refines l a p f d :
  Frames.pool_inv l -> refines l a ->
  Frames.page_table_ l !! p = Some f ->
  0 < Frames.pin_count_ (Frames.frame l f) ->
  length d = PAGE_SIZE ->
  Frames.pool_inv (Frames.write l f d)
  ∧ refines (Frames.write l f d) (SetData a p d)
  ∧ ∀ f', f' ≠ f -> Frames.frame (Frames.write l f d) f' = Frames.frame l f'.
Proof. exact (write_refines l a p f d). Qed.

Section FramesScenario.

Import Frames.

(** A pool of two frames over an empty file, after [NewPage]: page 0 sits
    in frame 0, pinned once. *)
Lemma after_new_page :
  let l := (NewPage (make 2 (mkDisk ∅ 0))).2 in
  let a := (BufferPool.NewPage (mkBPM 2 ∅ 0 ∅)).2 in
  pool_inv l ∧ refines l a
  ∧ page_table_ l !! 0 = Some 0%nat
  ∧ frame l 0 = mkPage zero_page 0 1 false.
Proof.
  intros l a.
  assert (∀ p x, file_ (mkDisk ∅ 0) !! p = Some x ->
                 length x = PAGE_SIZE ∧ 0 <= p) as Hfile.
  { intros p x H. cbn in H. by rewrite lookup_empty in H. }
  destruct (new_refines (make 2 (mkDisk ∅ 0)) (mkBPM 2 ∅ 0 ∅)
              (make_inv 2 _ Hfile) (make_refines 2 _ Hfile))
    as (l0 & E & Hinv & Href & Hres).
  - cbn. lia.
  - reflexivity.
  - fold l in E. subst l0.
    assert ((NewPage (make 2 (mkDisk ∅ 0))).1 = Ok (Some (0%nat, 0))) as E1
      by reflexivity.
    rewrite E1 in Hres. destruct Hres as (_ & _ & _ & Ht & Hf).
    by split_and!.
Qed.

End FramesScenario.

Lemma buffer_unpin_refines_witness :
  let l := (Frames.NewPage (Frames.make 2 (Frames.mkDisk ∅ 0))).2 in
  let a := (NewPage (mkBPM 2 ∅ 0 ∅)).2 in
  refines (Frames.UnpinPage l 0 true).2 (UnpinPage a 0 true)
  ∧ (Frames.UnpinPage l 0 true).1 = true.
Proof.
  intros l a.
  destruct after_new_page as (Hinv & Href & Ht & Hf).
  destruct (buffer_unpin_refines l a 0 true Hinv Href) as (_ & Hr & Hb).
  - intros f _ _ E. discriminate E.
  - split; [exact Hr|]. rewrite Hb. reflexivity.
Defined.

Lemma buffer_write_refines_witness :
  let l := (Frames.NewPage (Frames.make 2 (Frames.mkDisk ∅ 0))).2 in
  let a := (NewPage (mkBPM 2 ∅ 0 ∅)).2 in
  refines (Frames.write l 0 SlottedPage.fresh_page)
          (SetData a 0 SlottedPage.fresh_page).
Proof.
  intros l a.
  destruct after_new_page as (Hinv & Href & Ht & Hf).
  destruct (buffer_write_refines l a 0 0%nat SlottedPage.fresh_page
              Hinv Href Ht) as (_ & Hr & _).
  - replace (Frames.frame l 0) with (Frames.mkPage zero_page 0 1 false)
      by (symmetry; exact Hf).
    cbn [Frames.pin_count_]. lia.
  - apply (ok_length _ page_ok_fresh).
  - exact Hr.
Defined.

Section FramesFlushAll.

Import Frames.

Lemma FlushAllPages_facts l entries :
  pool_inv l -> entries ≡ₚ map_to_list (page_table_ l) ->
  ∃ l', FlushAllPages l entries = Some l' ∧ pool_inv l'
    ∧ (∀ a, refines l a -> refines l' a)
    ∧ (∀ f, is_dirty_ (frame l' f) = false
            ∧ data_ (frame l' f) = data_ (frame l f))
    ∧ (∀ p f, page_table_ l !! p = Some f ->
         is_dirty_ (frame l f) = true ∨ pin_count_ (frame l f) = 0 ->
         ReadPage (disk_manager_ l') p = Some (data_ (frame l f)))
    ∧ (∀ p, page_table_ l !! p = None ->
         ReadPage (disk_manager_ l') p = ReadPage (disk_manager_ l) p).
Proof.
  intros Hinv Hperm.
  assert (∀ p f, (p, f) ∈ entries ↔ page_table_ l !! p = Some f) as Hin.
  { intros p f. rewrite Hperm. apply elem_of_map_to_list. }
  destruct (flush_loop entries l Hinv) as (l' & Hfold & Hfl & Hw & Ht).
  { intros p f Hpf. by apply Hin. }
  pose proof Hfl as (Hinv' & Htab & Hlen & Hnext & Hpins & Hobs & Hdata
                     & Hmono).
  exists l'. split_and!; [exact Hfold|exact Hinv'| | | |].
  - intros a [Hs Hn Hp Hd]. split.
    + by rewrite Hlen.
    + by rewrite Hnext.
    + by rewrite Hpins.
    + intros p. by rewrite Hobs.
  - intros f. split; [|apply Hdata].
    destruct (is_dirty_ (frame l' f)) eqn:Ed; [|done].
    destruct (decide (f < length (pages_ l'))%nat) as [Hlt|Hge].
    + destruct (inv_frames l' Hinv' f Hlt) as (_ & _ & _ & Hres).
      specialize (Hres (or_intror Ed)). rewrite Htab in Hres.
      apply Hin in Hres.
      destruct (Ht _ _ Hres) as [Hc _]. congruence.
    + unfold frame in Ed. rewrite lookup_ge_None_2 in Ed by lia.
      discriminate Ed.
  - intros p f Hres Hcase.
    destruct (inv_table l Hinv p f Hres) as (Hlt & Hid & Hp).
    unfold ReadPage. destruct (Z.ltb_spec p 0) as [?|_]; [lia|]. f_equal.
    destruct (is_dirty_ (frame l f)) eqn:Ed.
    + destruct (Ht p f) as [_ Hfile]; [by apply Hin|].
      by rewrite (Hfile Ed).
    + destruct Hcase as [?|Hpin]; [done|].
      assert (page_table_ l' !! p = Some f) as Hres' by by rewrite Htab.
      assert (is_dirty_ (frame l' f) = false) as Ed'.
      { destruct (is_dirty_ (frame l' f)) eqn:E; [|done].
        specialize (Hmono f E). congruence. }
      assert (pin_count_ (frame l' f) = 0) as Hpin'.
      { assert (pins_of l' !! p = pins_of l !! p) as E by by rewrite Hpins.
        rewrite !pins_of_lookup, Hres, Hres', Hpin in E.
        destruct (inv_frames l' Hinv' f) as (_ & Hr & _);
          [rewrite Hlen; exact Hlt|].
        destruct (Z.ltb_spec 0 (pin_count_ (frame l' f))) as [?|?];
          [discriminate E|lia]. }
      rewrite <- (inv_clean l' Hinv' p f Hres' Ed' Hpin'). apply Hdata.
  - intros p Hmiss. unfold ReadPage.
    destruct (Hw p) as [->|(f & Hpf & _)]; [done|].
    apply Hin in Hpf. congruence.
Qed.

End FramesFlushAll.

(** X30.  [FlushAllPages] makes the pool durable.  From a state the
    frame-level operations keep, and in whatever order the loop meets the
    entries of the page table: no write throws; afterwards no
    frame is marked dirty and every frame holds the bytes it held; the
    file holds, for every resident page that was dirty or is unpinned,
    exactly the bytes of its frame, and for every page that is not
    resident what it held before; pins, residency and the page counter
    are untouched, so the pool implements the same pin-count view as
    before. *)
Theorem buffer_flush_all l entries :
  Frames.pool_inv l -> entries ≡ₚ map_to_list (Frames.page_table_ l) ->
  ∃ l', Frames.FlushAllPages l entries = Some l' ∧ Frames.pool_inv l'
    ∧ (∀ a, refines l a -> refines l' a)
    ∧ (∀ f, Frames.is_dirty_ (Frames.frame l' f) = false
            ∧ Frames.data_ (Frames.frame l' f)
              = Frames.data_ (Frames.frame l f))
    ∧ (∀ p f, Frames.page_table_ l !! p = Some f ->
         Frames.is_dirty_ (Frames.frame l f) = true
         ∨ Frames.pin_count_ (Frames.frame l f) = 0 ->
         Frames.ReadPage (Frames.disk_manager_ l') p
         = Some (Frames.data_ (Frames.frame l f)))
    ∧ (∀ p, Frames.page_table_ l !! p = None ->
         Frames.ReadPage (Frames.disk_manager_ l') p
         = Frames.ReadPage (Frames.disk_manager_ l) p).
Proof. exact (FlushAllPages_facts l entries). Qed.

Section FramesDirty.

Import Frames.

(** The same pool once the caller has initialised the page, released it
    as dirty and the page is still in its frame. *)
Lemma after_write_unpin :
  let l1 := (NewPage (make 2 (mkDisk ∅ 0))).2 in
  let l2 := (UnpinPage (write l1 0 SlottedPage.fresh_page) 0 true).2 in
  pool_inv l2.
Proof.
  intros l1 l2.
  destruct after_new_page as (Hinv & Href & Ht & Hf).
  destruct (write_refines l1 _ 0 0%nat SlottedPage.fresh_page Hinv Href Ht)
    as (Hinv1 & Href1 & _).
  - replace (frame l1 0) with (mkPage zero_page 0 1 false)
      by (symmetry; exact Hf).
    cbn [pin_count_]. lia.
  - apply (ok_length _ page_ok_fresh).
  - destruct (unpin_refines _ _ 0 true Hinv1 Href1) as (H & _); [|exact H].
    intros f _ _ E. discriminate E.
Qed.

End FramesDirty.

Lemma buffer_flush_all_witness :
  let l1 := (Frames.NewPage (Frames.make 2 (Frames.mkDisk ∅ 0))).2 in
  let l2 := (Frames.UnpinPage (Frames.write l1 0 SlottedPage.fresh_page)
               0 true).2 in
  Frames.ReadPage (Frames.disk_manager_ l2) 0 = Some zero_page
  ∧ ∃ l', Frames.FlushAllPages l2 [(0, 0%nat)] = Some l'
      ∧ Frames.ReadPage (Frames.disk_manager_ l') 0
        = Some SlottedPage.fresh_page
      ∧ (∀ f, Frames.is_dirty_ (Frames.frame l' f) = false).
Proof.
  intros l1 l2. split; [reflexivity|].
  destruct (buffer_flush_all l2 [(0, 0%nat)] after_write_unpin)
    as (l' & E & _ & _ & Hclean & Hfile & _).
  - vm_compute. reflexivity.
  - exists l'. split; [exact E|]. split.
    + rewrite (Hfile 0 0%nat); [|reflexivity|left; reflexivity].
      f_equal.
    + intros f. apply Hclean.
Defined.
